(** * Minimal Tab Sort: the tab sorter of [src/background.js] and of
    [src/unnamed/part_000], embedded and verified.

    The repository holds two variants of one browser extension.  Both read
    the tabs of the focused window, sort them scope by scope (pinned tabs,
    every tab group, the remaining tabs) and ask the browser to move them.
    They differ in how a tab address becomes a bucket key:

    - [Background] embeds [src/background.js]: the bucket is the host of the
      parsed address, whatever its scheme;
    - [Part000] embeds [src/unnamed/part_000]: extension pages get the
      bucket [ext:<id>], browser pages the bucket [internal].

    What the code takes from the JavaScript platform is kept apart from the
    code itself:

    - the URL parser behind [new URL(s)] and the collation behind
      [a.localeCompare(b)] are the two fields of the class [Platform]; the
      theorems hold for every platform that obeys the stated laws;
    - [encodeURIComponent], [startsWith], [toLowerCase], the regular
      expression [WWW_RE] and [Array.prototype.sort] are written out;
    - the browser ([chrome.tabs], [chrome.tabGroups], [chrome.windows]) is
      the environment of a small free monad [Prog]: a program is a tree of
      requests, and a host answers each request with a value or a rejection.

    Strings are [string]s of the Standard Library: a character stands for one
    UTF-16 code unit below 256.  Tab and group identifiers, positions and the
    values returned by comparators are integers ([Z]). *)

From Stdlib Require Import ZArith List String Ascii Bool Lia Permutation.
From Stdlib Require Import Sorting.Sorted DecimalString.
Import ListNotations.

Local Open Scope string_scope.
Local Open Scope Z_scope.

Set Implicit Arguments.

(* ================================================================== *)
(** * JavaScript values the code handles *)
(* ================================================================== *)

(** What a JavaScript call can raise here: the [TypeError] of [new URL] on
    an address it cannot parse, and the rejection of a browser request. *)
Inductive Exn : Type :=
| TypeError
| HostError.

(** The completion of an expression: a value or a raised exception. *)
Inductive Completion (A : Type) : Type :=
| Normal (a : A)
| Throws (e : Exn).

Arguments Normal {A} a.
Arguments Throws {A} e.

(** The fields of a [URL] object the sorter reads. *)
Module URL.
Record t : Type := mk {
  protocol : string;
  host : string;
  pathname : string;
  search : string;
  hash : string
}.
End URL.

(** A [chrome.tabs.Tab], with the fields the code reads.  [url] is taken as
    present (the extension is allowed to read tab addresses), [pendingUrl]
    is optional; [groupId] is [-1] for a tab outside every group. *)
Module Tab.
Record t : Type := mk {
  id : Z;
  url : string;
  pendingUrl : option string;
  index : Z;
  pinned : bool;
  groupId : Z
}.
End Tab.

(** A [chrome.tabGroups.TabGroup]; the title may be missing. *)
Module TabGroup.
Record t : Type := mk {
  id : Z;
  title : option string
}.
End TabGroup.

(* ================================================================== *)
(** * Built-in string functions *)
(* ================================================================== *)

Definition code (c : ascii) : N := N_of_ascii c.

(** [s.startsWith(p)] *)
Fixpoint startsWith (s p : string) {struct p} : bool :=
  match p with
  | EmptyString => true
  | String a p' =>
      match s with
      | EmptyString => false
      | String b s' => Ascii.eqb a b && startsWith s' p'
      end
  end.

(** One code unit of [toLowerCase()]: the letters A-Z and, above 127, the
    Latin-1 capitals (U+00C0 to U+00DE but the multiplication sign). *)
Definition lowerChar (c : ascii) : ascii :=
  let n := code c in
  if ((65 <=? n) && (n <=? 90))%N then ascii_of_N (n + 32)
  else if ((192 <=? n) && (n <=? 222) && negb (n =? 215))%N
       then ascii_of_N (n + 32)
  else c.

(** [s.toLowerCase()] *)
Fixpoint toLowerCase (s : string) : string :=
  match s with
  | EmptyString => EmptyString
  | String c s' => String (lowerChar c) (toLowerCase s')
  end.

(** [const WWW_RE = /^www\./i;] and [s.replace(WWW_RE, "")]: one leading
    [www.] goes, whatever the case of its letters. *)
Definition isW (c : ascii) : bool :=
  Ascii.eqb c "w" || Ascii.eqb c "W".

Definition replace_WWW_RE (s : string) : string :=
  match s with
  | String a (String b (String c (String d rest))) =>
      if isW a && isW b && isW c && Ascii.eqb d "." then rest else s
  | _ => s
  end.

(** Two upper-case hexadecimal digits of a byte, after a percent sign. *)
Definition hexDigit (n : N) : ascii :=
  if (n <? 10)%N then ascii_of_N (48 + n) else ascii_of_N (55 + n).

Definition percentByte (n : N) (k : string) : string :=
  String "%" (String (hexDigit (n / 16)) (String (hexDigit (n mod 16)) k)).

(** The UTF-8 bytes of a code unit below 256, percent-encoded. *)
Definition percentEncode (c : ascii) (k : string) : string :=
  let n := code c in
  if (n <? 128)%N then percentByte n k
  else percentByte (192 + n / 64) (percentByte (128 + n mod 64) k).

(** The characters [encodeURIComponent] leaves alone: letters, digits and
    [- _ . ! ~ * ' ( )]. *)
Definition uriUnreserved (c : ascii) : bool :=
  let n := code c in
  (((65 <=? n) && (n <=? 90)) || ((97 <=? n) && (n <=? 122))
   || ((48 <=? n) && (n <=? 57))
   || (n =? 45) || (n =? 95) || (n =? 46) || (n =? 33) || (n =? 126)
   || (n =? 42) || (n =? 39) || (n =? 40) || (n =? 41))%N.

(** [encodeURIComponent(s)] *)
Fixpoint encodeURIComponent (s : string) : string :=
  match s with
  | EmptyString => EmptyString
  | String c s' =>
      if uriUnreserved c then String c (encodeURIComponent s')
      else percentEncode c (encodeURIComponent s')
  end.

(* ================================================================== *)
(** * The platform: URL parsing and collation *)
(* ================================================================== *)

(** [URL_parse s] is [new URL(s)]: [None] when the constructor throws.
    [localeCompare a b] is [a.localeCompare(b)]: negative, zero or
    positive. *)
Class Platform : Type := {
  URL_parse : string -> option URL.t;
  localeCompare : string -> string -> Z
}.

(** [new URL(s)] as an expression that may throw. *)
Definition new_URL {P : Platform} (s : string) : Completion URL.t :=
  match URL_parse s with
  | Some u => Normal u
  | None => Throws TypeError
  end.

(** A consistent comparator, as [Array.prototype.sort] asks for: a total
    preorder read through the sign of the number returned.  The collation
    behind [localeCompare] is one, on strings. *)
Record Consistent (A : Type) (cmp : A -> A -> Z) : Prop := {
  cmp_refl : forall a, cmp a a = 0;
  cmp_antisym : forall a b, Z.sgn (cmp b a) = - Z.sgn (cmp a b);
  cmp_trans : forall a b c, cmp a b <= 0 -> cmp b c <= 0 -> cmp a c <= 0
}.

Arguments cmp_refl {A cmp} _ a.
Arguments cmp_antisym {A cmp} _ a b.
Arguments cmp_trans {A cmp} _ a b c _ _.

(** What the code relies on from the URL parser: the placeholder addresses
    it builds always parse, as [http] addresses of the host they name; and
    an address that begins with a lower-case scheme and a colon parses, if
    at all, with that scheme. *)
Record URLParser (parse : string -> option URL.t) : Prop := {
  placeholder_parses : forall h s,
    h = "internal" \/ h = "invalid" ->
    exists u, parse ("http://" ++ h ++ "/" ++ encodeURIComponent s) = Some u
              /\ URL.protocol u = "http:" /\ URL.host u = h;
  scheme_of_prefix : forall p raw u,
    In p ["chrome-extension:"; "chrome:"; "about:"; "edge:"; "brave:"] ->
    startsWith raw p = true ->
    parse raw = Some u ->
    URL.protocol u = p
}.

Arguments placeholder_parses {parse} _ h s _.
Arguments scheme_of_prefix {parse} _ p raw u _ _ _.

(* ================================================================== *)
(** * Array.prototype.sort *)
(* ================================================================== *)

(** [Array.prototype.sort(cmp)] is stable, and with a consistent comparator
    its result is the one sorted arrangement that keeps equal elements in
    their order.  It is modelled by the insertion sort that builds this
    arrangement: an element goes in front of the first element that does not
    compare below it. *)
Section ArraySort.
Variable A : Type.
Variable cmp : A -> A -> Z.

Fixpoint sortInsert (x : A) (l : list A) : list A :=
  match l with
  | [] => [x]
  | y :: l' => if 0 <? cmp x y then y :: sortInsert x l' else x :: y :: l'
  end.

Fixpoint Array_sort (l : list A) : list A :=
  match l with
  | [] => []
  | x :: l' => sortInsert x (Array_sort l')
  end.
End ArraySort.

(** [arr.map((x, i) => f(x, i))] where [f] may throw: the first exception
    ends the loop. *)
Fixpoint mapWithIndexFrom (A B : Type) (f : A -> Z -> Completion B)
    (i : Z) (l : list A) : Completion (list B) :=
  match l with
  | [] => Normal []
  | x :: l' =>
      match f x i with
      | Throws e => Throws e
      | Normal y =>
          match mapWithIndexFrom f (i + 1) l' with
          | Throws e => Throws e
          | Normal ys => Normal (y :: ys)
          end
      end
  end.

Definition mapWithIndex (A B : Type) (f : A -> Z -> Completion B)
    (l : list A) : Completion (list B) :=
  mapWithIndexFrom f 0 l.

(** [tab.pendingUrl || tab.url]: a missing or empty pending address gives
    way to the committed one. *)
Definition effectiveAddress (tab : Tab.t) : string :=
  match Tab.pendingUrl tab with
  | Some (String c s) => String c s
  | _ => Tab.url tab
  end.

(* ================================================================== *)
(** * The browser as an environment *)
(* ================================================================== *)

(** The requests the code sends to the browser, indexed by the type of the
    value a fulfilled request yields.  [tabs_query w p g] is
    [chrome.tabs.query({windowId: w, pinned: p, groupId: g})], where a
    filter left out is [None]; [tabs_update i b] is
    [chrome.tabs.update(i, {pinned: b})]. *)
Inductive Request : Type -> Type :=
| windows_getLastFocused : Request Z
| tabs_query (windowId : Z) (pinned : option bool) (groupId : option Z) :
    Request (list Tab.t)
| tabs_move (tabIds : list Z) (index : Z) : Request unit
| tabs_update (tabId : Z) (pinned : bool) : Request unit
| tabs_group (groupId : Z) (tabIds : list Z) : Request unit
| tabGroups_query (windowId : Z) : Request (list TabGroup.t)
| tabGroups_move (groupId : Z) (index : Z) : Request unit.

(** An [async] function body: it returns, throws, or sends a request and
    goes on with the answer, which is a value or a rejection. *)
Inductive Prog (R : Type) : Type :=
| Ret (r : R)
| Throw (e : Exn)
| Call (X : Type) (c : Request X) (k : Completion X -> Prog R).

Arguments Ret {R} r.
Arguments Throw {R} e.
Arguments Call {R X} c k.

Fixpoint bind (R S : Type) (p : Prog R) (f : R -> Prog S) : Prog S :=
  match p with
  | Ret r => f r
  | Throw e => Throw e
  | Call c k => Call c (fun x => bind (k x) f)
  end.

Notation "x <- p ;; q" := (bind p (fun x => q))
  (at level 61, p at next level, right associativity).

(** [await request]: a rejection is thrown at the [await]. *)
Definition await (X : Type) (c : Request X) : Prog X :=
  Call c (fun r => match r with
                   | Normal x => Ret x
                   | Throws e => Throw e
                   end).

(** A synchronous expression inside an [async] body. *)
Definition lift (A : Type) (c : Completion A) : Prog A :=
  match c with
  | Normal a => Ret a
  | Throws e => Throw e
  end.

(** [await Promise.all(requests)]: every request is sent, in the order of
    the array, before any answer is looked at; the whole is rejected when
    one of them is. *)
Fixpoint sendAll (cs : list (Request unit)) (failed : option Exn) :
    Prog unit :=
  match cs with
  | [] => match failed with
          | None => Ret tt
          | Some e => Throw e
          end
  | c :: cs' =>
      Call c (fun r => sendAll cs' (match failed, r with
                                    | None, Throws e => Some e
                                    | _, _ => failed
                                    end))
  end.

Definition Promise_all (cs : list (Request unit)) : Prog unit :=
  sendAll cs None.

(** [promise.catch(handler)]: the handler takes over when the body throws
    or a request it awaits is rejected. *)
Fixpoint catch (R : Type) (p : Prog R) (handler : Exn -> Prog R) : Prog R :=
  match p with
  | Ret r => Ret r
  | Throw e => handler e
  | Call c k => Call c (fun x => catch (k x) handler)
  end.

(** A line written by [console.error(message, err)]. *)
Inductive ConsoleLine : Type :=
| console_error (message : string) (err : Exn).

(** [minIndex(tabs)]: [tabs[0].index] throws on an empty array. *)
Definition minIndex (tabs : list Tab.t) : Completion Z :=
  match tabs with
  | [] => Throws TypeError
  | t0 :: rest =>
      Normal (fold_left
                (fun m t => if Tab.index t <? m then Tab.index t else m)
                rest (Tab.index t0))
  end.

(** [group.title || ""] *)
Definition titleOrEmpty (g : TabGroup.t) : string :=
  match TabGroup.title g with
  | Some s => s
  | None => ""
  end.

(** The comparator of [tabGroups.sort]:
    [(a, b) => (b.title || "").localeCompare(a.title || "")]. *)
Definition compareGroups {P : Platform} (a b : TabGroup.t) : Z :=
  localeCompare (titleOrEmpty b) (titleOrEmpty a).

(** A browser: a state and an answer to every request. *)
Record Host (S : Type) : Type := {
  respond : forall X : Type, Request X -> S -> S * Completion X
}.

(** A request together with its answer, for the log of a run. *)
Inductive Exchange : Type :=
| x_getLastFocused (r : Completion Z)
| x_query (windowId : Z) (pinned : option bool) (groupId : option Z)
    (r : Completion (list Tab.t))
| x_move (tabIds : list Z) (index : Z) (r : Completion unit)
| x_update (tabId : Z) (pinned : bool) (r : Completion unit)
| x_group (groupId : Z) (tabIds : list Z) (r : Completion unit)
| x_groups_query (windowId : Z) (r : Completion (list TabGroup.t))
| x_groups_move (groupId : Z) (index : Z) (r : Completion unit).

Definition exchange (X : Type) (c : Request X) : Completion X -> Exchange :=
  match c in Request X return Completion X -> Exchange with
  | windows_getLastFocused => x_getLastFocused
  | tabs_query w p g => x_query w p g
  | tabs_move ids i => x_move ids i
  | tabs_update t b => x_update t b
  | tabs_group g ids => x_group g ids
  | tabGroups_query w => x_groups_query w
  | tabGroups_move g i => x_groups_move g i
  end.

(** Running a program against a browser: the final state, the exchanges in
    the order of the requests, and the completion. *)
Fixpoint run (S R : Type) (h : Host S) (p : Prog R) (s : S) :
    S * list Exchange * Completion R :=
  match p with
  | Ret r => (s, [], Normal r)
  | Throw e => (s, [], Throws e)
  | Call c k =>
      let (s1, r) := respond h c s in
      let '(s2, log, out) := run h (k r) s1 in
      (s2, exchange c r :: log, out)
  end.

Definition finalState (S R : Type) (h : Host S) (p : Prog R) (s : S) : S :=
  fst (fst (run h p s)).

Definition logOf (S R : Type) (h : Host S) (p : Prog R) (s : S) :
    list Exchange :=
  snd (fst (run h p s)).

Definition outcomeOf (S R : Type) (h : Host S) (p : Prog R) (s : S) :
    Completion R :=
  snd (run h p s).

(* ================================================================== *)
(** * src/background.js *)
(* ================================================================== *)

Module Background.
Section Code.
Context {P : Platform}.

(** [resolveTabUrl(tab)] *)
Definition resolveTabUrl (tab : Tab.t) : Completion URL.t :=
  let raw := effectiveAddress tab in
  match new_URL raw with
  | Normal u => Normal u
  | Throws _ => new_URL ("http://invalid/" ++ encodeURIComponent raw)
  end.

(** The objects of the array [decorated]. *)
Record Decorated : Type := mkDecorated {
  id : Z;
  originalIndex : Z;
  hostname : string;
  key : string
}.

(** The callback of [tabs.map] in [sortTabsScope]. *)
Definition decorateTab (tab : Tab.t) (originalIndex : Z) :
    Completion Decorated :=
  match resolveTabUrl tab with
  | Throws e => Throws e
  | Normal url =>
      let cleanHost := toLowerCase (replace_WWW_RE (URL.host url)) in
      Normal {| id := Tab.id tab;
                originalIndex := originalIndex;
                hostname := cleanHost;
                key := cleanHost ++ URL.pathname url ++ URL.search url
                         ++ URL.hash url |}
  end.

Definition decorate (tabs : list Tab.t) : Completion (list Decorated) :=
  mapWithIndex decorateTab tabs.

(** The comparator of [decorated.sort]. *)
Definition compareDecorated (a b : Decorated) : Z :=
  let hostCmp := localeCompare (hostname a) (hostname b) in
  if negb (hostCmp =? 0) then hostCmp
  else
    let keyCmp := localeCompare (key a) (key b) in
    if negb (keyCmp =? 0) then keyCmp
    else originalIndex a - originalIndex b.

(** The value of [sortedIds] in [sortTabsScope]. *)
Definition sortedIds (tabs : list Tab.t) : Completion (list Z) :=
  match decorate tabs with
  | Throws e => Throws e
  | Normal decorated => Normal (map id (Array_sort compareDecorated decorated))
  end.

(** [sortTabsScope(tabs, startIndex, groupId)] *)
Definition sortTabsScope (tabs : list Tab.t) (startIndex groupId : Z) :
    Prog unit :=
  match tabs with
  | [] => Ret tt
  | _ :: _ =>
      ids <- lift (sortedIds tabs) ;;
      _ <- await (tabs_move ids startIndex) ;;
      if groupId >? -1 then await (tabs_group groupId ids) else Ret tt
  end.

(** The body of [for (const group of tabGroups)] in [sortAllTabs], with
    the running value of [nextPosition]. *)
Fixpoint groupLoop (windowId : Z) (groups : list TabGroup.t)
    (nextPosition : Z) : Prog Z :=
  match groups with
  | [] => Ret nextPosition
  | group :: rest =>
      _ <- await (tabGroups_move (TabGroup.id group) nextPosition) ;;
      tabs <- await (tabs_query windowId None (Some (TabGroup.id group))) ;;
      nextPosition' <-
        match tabs with
        | [] => Ret nextPosition
        | _ :: _ =>
            m <- lift (minIndex tabs) ;;
            _ <- sortTabsScope tabs m (TabGroup.id group) ;;
            Ret (nextPosition + Z.of_nat (List.length tabs))
        end ;;
      groupLoop windowId rest nextPosition'
  end.

(** [sortAllTabs()], block [1) Pinned tabs]; the value is
    [nextPosition]. *)
Definition pinnedPhase (windowId : Z) : Prog Z :=
  pinnedTabs <- await (tabs_query windowId (Some true) None) ;;
  let nextPosition := Z.of_nat (List.length pinnedTabs) in
  _ <- match pinnedTabs with
       | [] => Ret tt
       | first :: _ =>
           _ <- sortTabsScope pinnedTabs 0 (Tab.groupId first) ;;
           Promise_all
             (map (fun t => tabs_update (Tab.id t) true) pinnedTabs)
       end ;;
  Ret nextPosition.

(** [sortAllTabs()], block [2) Tab groups (title DESC)]. *)
Definition groupsPhase (windowId nextPosition : Z) : Prog Z :=
  tabGroups <- await (tabGroups_query windowId) ;;
  match tabGroups with
  | [] => Ret nextPosition
  | _ :: _ =>
      groupLoop windowId (Array_sort compareGroups tabGroups) nextPosition
  end.

(** [sortAllTabs()], block [3) Ungrouped, unpinned]. *)
Definition ungroupedPhase (windowId : Z) : Prog unit :=
  ungroupedTabs <- await (tabs_query windowId (Some false) (Some (-1))) ;;
  match ungroupedTabs with
  | [] => Ret tt
  | _ :: _ =>
      m <- lift (minIndex ungroupedTabs) ;;
      sortTabsScope ungroupedTabs m (-1)
  end.

(** [sortAllTabs()] *)
Definition sortAllTabs : Prog unit :=
  windowId <- await windows_getLastFocused ;;
  nextPosition <- pinnedPhase windowId ;;
  _ <- groupsPhase windowId nextPosition ;;
  ungroupedPhase windowId.

(** The listener given to [chrome.action.onClicked.addListener]:
    [sortAllTabs().catch(err => console.error("Sort failed:", err))].  Its
    value is what it writes to the console. *)
Definition onClicked : Prog (list ConsoleLine) :=
  catch (_ <- sortAllTabs ;; Ret [])
    (fun err => Ret [console_error "Sort failed:" err]).
End Code.
End Background.

(* ================================================================== *)
(** * src/unnamed/part_000 *)
(* ================================================================== *)

Module Part000.
Section Code.
Context {P : Platform}.

(** [resolveTabUrl(tab)]: the two early [return new URL(...)] are outside
    the [try], so their exception leaves the function. *)
Definition resolveTabUrl (tab : Tab.t) : Completion URL.t :=
  let raw := effectiveAddress tab in
  if startsWith raw "chrome-extension://" then new_URL raw
  else if startsWith raw "chrome://" || startsWith raw "about:"
          || startsWith raw "edge://" || startsWith raw "brave://"
  then new_URL ("http://internal/" ++ encodeURIComponent raw)
  else
    match new_URL raw with
    | Normal u => Normal u
    | Throws _ => new_URL ("http://invalid/" ++ encodeURIComponent raw)
    end.

(** The objects of the array [decorated]. *)
Record Decorated : Type := mkDecorated {
  id : Z;
  originalIndex : Z;
  hostKey : string;
  sortKey : string
}.

(** The bucket of a resolved address. *)
Definition hostKeyOf (url : URL.t) : string :=
  if String.eqb (URL.protocol url) "chrome-extension:"
  then "ext:" ++ URL.host url
  else if String.eqb (URL.protocol url) "http:"
          || String.eqb (URL.protocol url) "https:"
  then toLowerCase (replace_WWW_RE (URL.host url))
  else "internal".

(** The callback of [tabs.map] in [sortTabsScope]. *)
Definition decorateTab (tab : Tab.t) (originalIndex : Z) :
    Completion Decorated :=
  match resolveTabUrl tab with
  | Throws e => Throws e
  | Normal url =>
      let hostKey := hostKeyOf url in
      let sortKey :=
        hostKey ++ URL.pathname url ++ URL.search url ++ URL.hash url in
      Normal {| id := Tab.id tab;
                originalIndex := originalIndex;
                hostKey := hostKey;
                sortKey := sortKey |}
  end.

Definition decorate (tabs : list Tab.t) : Completion (list Decorated) :=
  mapWithIndex decorateTab tabs.

(** The comparator of [decorated.sort]. *)
Definition compareDecorated (a b : Decorated) : Z :=
  let h := localeCompare (hostKey a) (hostKey b) in
  if negb (h =? 0) then h
  else
    let k := localeCompare (sortKey a) (sortKey b) in
    if negb (k =? 0) then k
    else originalIndex a - originalIndex b.

(** The value of [sortedIds] in [sortTabsScope]. *)
Definition sortedIds (tabs : list Tab.t) : Completion (list Z) :=
  match decorate tabs with
  | Throws e => Throws e
  | Normal decorated => Normal (map id (Array_sort compareDecorated decorated))
  end.

(** [sortTabsScope(tabs, startIndex, groupId)] *)
Definition sortTabsScope (tabs : list Tab.t) (startIndex groupId : Z) :
    Prog unit :=
  match tabs with
  | [] => Ret tt
  | _ :: _ =>
      ids <- lift (sortedIds tabs) ;;
      _ <- await (tabs_move ids startIndex) ;;
      if groupId >? -1 then await (tabs_group groupId ids) else Ret tt
  end.

(** The body of [for (const group of tabGroups)] in [sortAllTabs], with
    the running value of [nextPosition]. *)
Fixpoint groupLoop (windowId : Z) (groups : list TabGroup.t)
    (nextPosition : Z) : Prog Z :=
  match groups with
  | [] => Ret nextPosition
  | group :: rest =>
      _ <- await (tabGroups_move (TabGroup.id group) nextPosition) ;;
      tabs <- await (tabs_query windowId None (Some (TabGroup.id group))) ;;
      nextPosition' <-
        match tabs with
        | [] => Ret nextPosition
        | _ :: _ =>
            m <- lift (minIndex tabs) ;;
            _ <- sortTabsScope tabs m (TabGroup.id group) ;;
            Ret (nextPosition + Z.of_nat (List.length tabs))
        end ;;
      groupLoop windowId rest nextPosition'
  end.

(** [sortAllTabs()], block [1) PINNED TABS]; the value is
    [nextPosition]. *)
Definition pinnedPhase (windowId : Z) : Prog Z :=
  pinnedTabs <- await (tabs_query windowId (Some true) None) ;;
  let nextPosition := Z.of_nat (List.length pinnedTabs) in
  _ <- match pinnedTabs with
       | [] => Ret tt
       | first :: _ =>
           _ <- sortTabsScope pinnedTabs 0 (Tab.groupId first) ;;
           Promise_all
             (map (fun t => tabs_update (Tab.id t) true) pinnedTabs)
       end ;;
  Ret nextPosition.

(** [sortAllTabs()], block [2) TAB GROUPS]. *)
Definition groupsPhase (windowId nextPosition : Z) : Prog Z :=
  tabGroups <- await (tabGroups_query windowId) ;;
  groupLoop windowId (Array_sort compareGroups tabGroups) nextPosition.

(** [sortAllTabs()], block [3) UNGROUPED / UNPINNED]. *)
Definition ungroupedPhase (windowId : Z) : Prog unit :=
  ungroupedTabs <- await (tabs_query windowId (Some false) (Some (-1))) ;;
  match ungroupedTabs with
  | [] => Ret tt
  | _ :: _ =>
      m <- lift (minIndex ungroupedTabs) ;;
      sortTabsScope ungroupedTabs m (-1)
  end.

(** [sortAllTabs()] *)
Definition sortAllTabs : Prog unit :=
  windowId <- await windows_getLastFocused ;;
  nextPosition <- pinnedPhase windowId ;;
  _ <- groupsPhase windowId nextPosition ;;
  ungroupedPhase windowId.

(** The listener given to [chrome.action.onClicked.addListener]:
    [sortAllTabs().catch(err => console.error("Sort failed:", err))].  Its
    value is what it writes to the console. *)
Definition onClicked : Prog (list ConsoleLine) :=
  catch (_ <- sortAllTabs ;; Ret [])
    (fun err => Ret [console_error "Sort failed:" err]).
End Code.
End Part000.

(* ================================================================== *)
(** * A reference platform *)
(* ================================================================== *)

(** A platform to run the code on: the URL parser of the WHATWG URL
    Standard for absolute addresses, and the collation that orders strings
    by code unit.

    The parser follows the states of the standard (scheme, authority, host,
    port, path, query, fragment) with these restrictions: a host is not put
    through IDNA, so a host with a code unit above 127 is refused; numeric
    hosts and IPv6 literals are kept as written instead of being normalised;
    the drive-letter rules of [file:] addresses are left out.

    The collation agrees with the root collation of the platform wherever
    one string is a prefix of the other or the two first differ at two
    lower-case letters, two upper-case letters or two digits, which is the
    case of every comparison made below. *)
Module Reference.

Definition isC0OrSpace (c : ascii) : bool := (code c <=? 32)%N.

Definition isTabOrNewline (c : ascii) : bool :=
  ((code c =? 9) || (code c =? 10) || (code c =? 13))%N.

Fixpoint stripLeading (s : string) : string :=
  match s with
  | EmptyString => EmptyString
  | String c s' => if isC0OrSpace c then stripLeading s' else s
  end.

Fixpoint stripTrailing (s : string) : string :=
  match s with
  | EmptyString => EmptyString
  | String c s' =>
      match stripTrailing s' with
      | EmptyString => if isC0OrSpace c then EmptyString
                       else String c EmptyString
      | r => String c r
      end
  end.

Fixpoint removeTabNewline (s : string) : string :=
  match s with
  | EmptyString => EmptyString
  | String c s' =>
      if isTabOrNewline c then removeTabNewline s'
      else String c (removeTabNewline s')
  end.

Definition isAlpha (c : ascii) : bool :=
  (((65 <=? code c) && (code c <=? 90))
   || ((97 <=? code c) && (code c <=? 122)))%N.

Definition isDigit (c : ascii) : bool :=
  ((48 <=? code c) && (code c <=? 57))%N.

Definition isSchemeChar (c : ascii) : bool :=
  isAlpha c || isDigit c || Ascii.eqb c "+" || Ascii.eqb c "-"
  || Ascii.eqb c ".".

(** The scheme, in lower case, and what follows its colon. *)
Fixpoint schemeEnd (s : string) : option (string * string) :=
  match s with
  | EmptyString => None
  | String c r =>
      if Ascii.eqb c ":" then Some (EmptyString, r)
      else if isSchemeChar c then
        match schemeEnd r with
        | Some (a, b) => Some (String (lowerChar c) a, b)
        | None => None
        end
      else None
  end.

Definition splitScheme (s : string) : option (string * string) :=
  match s with
  | String c _ => if isAlpha c then schemeEnd s else None
  | EmptyString => None
  end.

Definition isSpecial (scheme : string) : bool :=
  String.eqb scheme "http" || String.eqb scheme "https"
  || String.eqb scheme "ws" || String.eqb scheme "wss"
  || String.eqb scheme "ftp" || String.eqb scheme "file".

Definition defaultPort (scheme : string) : option N :=
  if String.eqb scheme "http" || String.eqb scheme "ws" then Some 80%N
  else if String.eqb scheme "https" || String.eqb scheme "wss"
  then Some 443%N
  else if String.eqb scheme "ftp" then Some 21%N
  else None.

(** The text before the first character of a class, and the text from
    that character on. *)
Fixpoint splitAt (stop : ascii -> bool) (s : string) : string * string :=
  match s with
  | EmptyString => (EmptyString, EmptyString)
  | String c r =>
      if stop c then (EmptyString, s)
      else let (a, b) := splitAt stop r in (String c a, b)
  end.

Fixpoint dropWhile (p : ascii -> bool) (s : string) : string :=
  match s with
  | EmptyString => EmptyString
  | String c r => if p c then dropWhile p r else s
  end.

Fixpoint allChars (p : ascii -> bool) (s : string) : bool :=
  match s with
  | EmptyString => true
  | String c r => p c && allChars p r
  end.

Definition isSlash (c : ascii) : bool :=
  Ascii.eqb c "/" || Ascii.eqb c "\".

Definition endsAuthority (special : bool) (c : ascii) : bool :=
  Ascii.eqb c "/" || Ascii.eqb c "?" || Ascii.eqb c "#"
  || (special && Ascii.eqb c "\").

(** What follows the last [@] of an authority, when there is one. *)
Fixpoint afterLastAt (s : string) : option string :=
  match s with
  | EmptyString => None
  | String c r =>
      match afterLastAt r with
      | Some t => Some t
      | None => if Ascii.eqb c "@" then Some r else None
      end
  end.

(** The host and, after the first colon outside brackets, the port. *)
Fixpoint splitHostPort (s : string) (inBrackets : bool) :
    string * option string :=
  match s with
  | EmptyString => (EmptyString, None)
  | String c r =>
      if Ascii.eqb c ":" && negb inBrackets then (EmptyString, Some r)
      else
        let inBrackets' :=
          if Ascii.eqb c "[" then true
          else if Ascii.eqb c "]" then false else inBrackets in
        let (h, p) := splitHostPort r inBrackets' in
        (String c h, p)
  end.

Fixpoint digitsValue (s : string) (acc : N) : option N :=
  match s with
  | EmptyString => Some acc
  | String c r =>
      if isDigit c then digitsValue r (10 * acc + (code c - 48))%N
      else None
  end.

Definition hexValue (c : ascii) : option N :=
  let n := code c in
  if isDigit c then Some (n - 48)%N
  else if ((65 <=? n) && (n <=? 70))%N then Some (n - 55)%N
  else if ((97 <=? n) && (n <=? 102))%N then Some (n - 87)%N
  else None.

Fixpoint percentDecode (s : string) : string :=
  match s with
  | EmptyString => EmptyString
  | String c s1 =>
      match s1 with
      | String a (String b r) =>
          match Ascii.eqb c "%", hexValue a, hexValue b with
          | true, Some x, Some y =>
              String (ascii_of_N (16 * x + y)) (percentDecode r)
          | _, _, _ => String c (percentDecode s1)
          end
      | _ => String c (percentDecode s1)
      end
  end.

(** Percent-encode sets of the standard, on code units. *)
Definition inC0Set (c : ascii) : bool :=
  ((code c <? 32) || (126 <? code c))%N.

Definition oneOf (l : list N) (c : ascii) : bool :=
  existsb (N.eqb (code c)) l.

Definition inFragmentSet (c : ascii) : bool :=
  inC0Set c || oneOf [32; 34; 60; 62; 96]%N c.

Definition inQuerySet (special : bool) (c : ascii) : bool :=
  inC0Set c || oneOf [32; 34; 35; 60; 62]%N c
  || (special && oneOf [39]%N c).

Definition inPathSet (c : ascii) : bool :=
  inQuerySet false c || oneOf [63; 94; 96; 123; 125]%N c.

Fixpoint encodeWith (inSet : ascii -> bool) (s : string) : string :=
  match s with
  | EmptyString => EmptyString
  | String c r =>
      if inSet c then percentEncode c (encodeWith inSet r)
      else String c (encodeWith inSet r)
  end.

(** Forbidden host code points, and the further ones of a domain. *)
Definition forbiddenHost (c : ascii) : bool :=
  oneOf [0; 9; 10; 13; 32; 35; 47; 58; 60; 62; 63; 64; 91; 92; 93; 94;
         124]%N c.

Definition forbiddenDomain (c : ascii) : bool :=
  forbiddenHost c || (code c <=? 31)%N || oneOf [37; 127]%N c
  || (127 <? code c)%N.

Fixpoint anyChar (p : ascii -> bool) (s : string) : bool :=
  match s with
  | EmptyString => false
  | String c r => p c || anyChar p r
  end.

Fixpoint lastChar (s : string) : option ascii :=
  match s with
  | EmptyString => None
  | String c EmptyString => Some c
  | String _ r => lastChar r
  end.

Definition isIPv6Char (c : ascii) : bool :=
  match hexValue c with
  | Some _ => true
  | None => Ascii.eqb c ":" || Ascii.eqb c "." || Ascii.eqb c "["
            || Ascii.eqb c "]"
  end.

(** The host parser: a bracketed literal, a domain of a special scheme,
    or an opaque host. *)
Definition parseHost (special : bool) (h : string) : option string :=
  match h with
  | String "[" _ =>
      match lastChar h with
      | Some "]"%char =>
          if allChars isIPv6Char h then Some (toLowerCase h) else None
      | _ => None
      end
  | _ =>
      if special then
        let d := percentDecode h in
        match d with
        | EmptyString => None
        | _ => if anyChar forbiddenDomain d then None
               else Some (toLowerCase d)
        end
      else if anyChar forbiddenHost h then None
      else Some (encodeWith inC0Set h)
  end.

(** The authority: credentials are dropped, the host is parsed, the port
    is read and left out of [host] when it is the default of the scheme. *)
Definition parseAuthority (scheme : string) (authority : string) :
    option string :=
  let special := isSpecial scheme in
  let noHost (hp : string) :=
    match hp with EmptyString => true | _ => false end in
  let hostPort :=
    match afterLastAt authority with
    | Some t => if noHost t then None else Some t
    | None => Some authority
    end in
  match hostPort with
  | None => None
  | Some hp =>
      let (h, port) := splitHostPort hp false in
      if noHost h && (special || match port with Some _ => true
                                 | None => false end)
      then None
      else
        match parseHost special h with
        | None => None
        | Some host =>
            match port with
            | None | Some EmptyString => Some host
            | Some digits =>
                match digitsValue digits 0%N with
                | None => None
                | Some n =>
                    if (65535 <? n)%N then None
                    else if match defaultPort scheme with
                            | Some d => (d =? n)%N
                            | None => false
                            end
                    then Some host
                    else Some (host ++ ":"
                                 ++ NilEmpty.string_of_uint (N.to_uint n))
                end
            end
        end
  end.

(** The segments between the slashes of a path. *)
Fixpoint splitSegments (isDelim : ascii -> bool) (s : string) :
    list string :=
  match s with
  | EmptyString => [EmptyString]
  | String c r =>
      if isDelim c then EmptyString :: splitSegments isDelim r
      else
        match splitSegments isDelim r with
        | seg :: segs => String c seg :: segs
        | [] => [String c EmptyString]
        end
  end.

Definition isSingleDot (seg : string) : bool :=
  existsb (String.eqb (toLowerCase seg)) ["."; "%2e"].

Definition isDoubleDot (seg : string) : bool :=
  existsb (String.eqb (toLowerCase seg)) [".."; ".%2e"; "%2e."; "%2e%2e"].

(** The path state: dot segments are resolved, the others encoded; [acc]
    is the path so far, last segment first. *)
Fixpoint buildPath (segs : list string) (acc : list string) :
    list string :=
  match segs with
  | [] => rev acc
  | seg :: rest =>
      let last := match rest with [] => true | _ => false end in
      if isDoubleDot seg then
        buildPath rest (if last then EmptyString :: tl acc else tl acc)
      else if isSingleDot seg then
        buildPath rest (if last then EmptyString :: acc else acc)
      else buildPath rest (encodeWith inPathSet seg :: acc)
  end.

Definition serializePath (path : list string) : string :=
  fold_right (fun seg k => "/" ++ seg ++ k) EmptyString path.

Definition hierarchicalPath (special : bool) (pathText : string) : string :=
  let isDelim := if special then isSlash else Ascii.eqb "/" in
  serializePath (buildPath (splitSegments isDelim pathText) []).

Definition isQueryOrFragmentStart (c : ascii) : bool :=
  Ascii.eqb c "?" || Ascii.eqb c "#".

Definition dropOne (s : string) : string :=
  match s with
  | EmptyString => EmptyString
  | String _ r => r
  end.

(** [search] and [hash] of what follows the path. *)
Definition searchOf (special : bool) (afterPath : string) : string :=
  match afterPath with
  | String "?" r =>
      match encodeWith (inQuerySet special) (fst (splitAt (Ascii.eqb "#") r))
      with
      | EmptyString => EmptyString
      | q => String "?" q
      end
  | _ => EmptyString
  end.

Definition hashOf (afterPath : string) : string :=
  match snd (splitAt (Ascii.eqb "#") afterPath) with
  | String _ f =>
      match encodeWith inFragmentSet f with
      | EmptyString => EmptyString
      | e => String "#" e
      end
  | EmptyString => EmptyString
  end.

(** The address once its scheme is read: the host, the path and what
    follows the path. *)
Definition parseAfterScheme (scheme rest : string) :
    option (string * string * string) :=
  let special := isSpecial scheme in
  let withAuthority (afterSlashes : string) (emptyHostOk : bool) :=
    let (authority, tail) := splitAt (endsAuthority special) afterSlashes in
    let (pathText, afterPath) := splitAt isQueryOrFragmentStart tail in
    let path :=
      match pathText with
      | EmptyString => if special then "/" else EmptyString
      | String _ p => hierarchicalPath special p
      end in
    match authority with
    | EmptyString =>
        if emptyHostOk then Some (EmptyString, path, afterPath) else None
    | _ =>
        match parseAuthority scheme authority with
        | Some host =>
            Some (if String.eqb scheme "file" && String.eqb host "localhost"
                  then EmptyString else host, path, afterPath)
        | None => None
        end
    end in
  let pathOnly (text : string) :=
    let (pathText, afterPath) := splitAt isQueryOrFragmentStart text in
    Some (EmptyString, hierarchicalPath special (dropOne pathText),
          afterPath) in
  if String.eqb scheme "file" then
    match rest with
    | String a (String b r) =>
        if isSlash a && isSlash b then withAuthority r true
        else if isSlash a then pathOnly rest
        else pathOnly (String "/" rest)
    | String a EmptyString =>
        if isSlash a then pathOnly rest else pathOnly (String "/" rest)
    | EmptyString => pathOnly "/"
    end
  else if special then withAuthority (dropWhile isSlash rest) false
  else
    match rest with
    | String "/" (String "/" r) => withAuthority r true
    | String "/" _ => pathOnly rest
    | _ =>
        let (pathText, afterPath) := splitAt isQueryOrFragmentStart rest in
        Some (EmptyString, encodeWith inC0Set pathText, afterPath)
    end.

Definition URL_parse (input : string) : option URL.t :=
  match splitScheme
          (removeTabNewline (stripTrailing (stripLeading input))) with
  | Some (scheme, rest) =>
      match parseAfterScheme scheme rest with
      | Some (host, path, afterPath) =>
          Some (URL.mk (scheme ++ ":") host path
                  (searchOf (isSpecial scheme) afterPath)
                  (hashOf afterPath))
      | None => None
      end
  | None => None
  end.

(** Code-unit order as a comparator. *)
Definition localeCompare (a b : string) : Z :=
  match String.compare a b with
  | Lt => -1
  | Eq => 0
  | Gt => 1
  end.

#[export] Instance platform : Platform :=
  Build_Platform URL_parse localeCompare.

Definition tab (id : Z) (url : string) : Tab.t :=
  Tab.mk id url None id false (-1).
End Reference.

(* ================================================================== *)
(** * A small browser *)
(* ================================================================== *)

(** A browser to run the orchestrator against.  It keeps the tabs of one
    window in their order, with their flags, and the tab groups.  A move
    takes the tabs out of the row and puts them back, in the order asked
    for, so that the first of them lands at the target position.  It is the
    browser the re-assertion of the pinned flag guards against: moving a tab
    unpins it.  Grouping a tab unpins it too, and pinning a tab takes it out
    of its group, so that no pinned tab is in a group. *)
Module Simulated.

Record State : Type := mkState {
  tabs : list Tab.t;
  groups : list TabGroup.t
}.

Definition mem (t : Z) (ids : list Z) : bool := existsb (Z.eqb t) ids.

Definition matches (pinned : option bool) (groupId : option Z) (t : Tab.t) :
    bool :=
  match pinned with
  | Some b => Bool.eqb (Tab.pinned t) b
  | None => true
  end
  && match groupId with
     | Some g => Tab.groupId t =? g
     | None => true
     end.

Definition setFlags (pinned : bool) (groupId : Z) (t : Tab.t) : Tab.t :=
  Tab.mk (Tab.id t) (Tab.url t) (Tab.pendingUrl t) (Tab.index t) pinned
    groupId.

Definition setIndex (i : Z) (t : Tab.t) : Tab.t :=
  Tab.mk (Tab.id t) (Tab.url t) (Tab.pendingUrl t) i (Tab.pinned t)
    (Tab.groupId t).

(** The tabs as a query reports them: [index] is the place in the row. *)
Fixpoint positionedFrom (i : Z) (l : list Tab.t) : list Tab.t :=
  match l with
  | [] => []
  | t :: l' => setIndex i t :: positionedFrom (i + 1) l'
  end.

Definition positioned (st : State) : list Tab.t :=
  positionedFrom 0 (tabs st).

Definition onTabs (ids : list Z) (f : Tab.t -> Tab.t) (st : State) : State :=
  mkState (map (fun t => if mem (Tab.id t) ids then f t else t) (tabs st))
    (groups st).

(** The tabs named by a list of identifiers, in the order of the list. *)
Definition pick (ids : list Z) (l : list Tab.t) : list Tab.t :=
  flat_map (fun x => filter (fun t => Tab.id t =? x) l) (nodup Z.eq_dec ids).

(** Tabs taken out of the row are put back in front of position [i] of what
    is left. *)
Definition relocate (picked others : list Tab.t) (i : Z) : list Tab.t :=
  (firstn (Z.to_nat i) others ++ picked ++ skipn (Z.to_nat i) others)%list.

Definition unpin (t : Tab.t) : Tab.t := setFlags false (Tab.groupId t) t.

Definition inGroup (g : Z) (t : Tab.t) : bool := Tab.groupId t =? g.

Definition isPinned (st : State) (t : Z) : bool :=
  existsb (fun tab => (Tab.id tab =? t) && Tab.pinned tab) (tabs st).

Definition valid (st : State) : Prop :=
  NoDup (map Tab.id (tabs st))
  /\ (forall t, In t (tabs st) -> Tab.pinned t = true -> Tab.groupId t = -1)
  /\ (forall g, In g (groups st) -> TabGroup.id g <> -1).

(** The group of a tab of the window, [-1] for a tab outside every group;
    nothing for an identifier that no tab of the window has. *)
Definition groupOf (st : State) (t : Z) : option Z :=
  hd_error (map Tab.groupId (filter (fun tab => Tab.id tab =? t) (tabs st))).

(** A valid state whose groups have the identifiers of groups, which are
    not negative. *)
Definition wellGrouped (st : State) : Prop :=
  valid st /\ forall g, In g (groups st) -> -1 < TabGroup.id g.

Definition respond (X : Type) (c : Request X) (st : State) :
    State * Completion X :=
  match c in Request X return State * Completion X with
  | windows_getLastFocused => (st, Normal 1)
  | tabs_query _ p g => (st, Normal (filter (matches p g) (positioned st)))
  | tabs_move ids i =>
      (mkState
         (relocate (map unpin (pick ids (tabs st)))
            (filter (fun t => negb (mem (Tab.id t) ids)) (tabs st)) i)
         (groups st),
       Normal tt)
  | tabs_update id b =>
      if mem id (map Tab.id (tabs st))
      then (onTabs [id]
              (fun t => setFlags b (if b then -1 else Tab.groupId t) t) st,
            Normal tt)
      else (st, Throws HostError)
  | tabs_group g ids => (onTabs ids (setFlags false g) st, Normal tt)
  | tabGroups_query _ => (st, Normal (groups st))
  | tabGroups_move g i =>
      (mkState
         (relocate (filter (inGroup g) (tabs st))
            (filter (fun t => negb (inGroup g t)) (tabs st)) i)
         (groups st),
       Normal tt)
  end.

Definition browser : Host State := Build_Host respond.

(** The same browser when it rejects the requests that [refuse] picks, and
    leaves the window as it is on those. *)
Definition isMove (X : Type) (c : Request X) : bool :=
  match c with
  | tabs_move _ _ => true
  | _ => false
  end.

Definition isPin (X : Type) (c : Request X) : bool :=
  match c with
  | tabs_update _ _ => true
  | _ => false
  end.

Definition refusing (refuse : forall X : Type, Request X -> bool) :
    Host State :=
  Build_Host
    (fun X c st => if refuse X c then (st, Throws HostError)
                   else respond c st).

(** A window: two pinned tabs, a group [Work] of two tabs, a group
    [Shopping] of one tab, and two loose tabs. *)
Definition window : State :=
  mkState
    [Tab.mk 1 "https://b.example/inbox" None 0 true (-1);
     Tab.mk 2 "https://a.example/feed" None 1 true (-1);
     Tab.mk 3 "https://shop.example/cart" None 2 false 7;
     Tab.mk 4 "https://www.example.com/b" None 3 false 8;
     Tab.mk 5 "https://example.com/a" None 4 false 8;
     Tab.mk 6 "https://other.com/x" None 5 false (-1);
     Tab.mk 7 "about:blank" None 6 false (-1)]
    [TabGroup.mk 7 (Some "Shopping"); TabGroup.mk 8 (Some "Work")].

End Simulated.

(* ================================================================== *)
(** * Notions the statements use *)
(* ================================================================== *)

(** The comparator both variants pass to [decorated.sort], over the three
    fields it reads: bucket, sort key, original index. *)
Definition lexCompare {P : Platform} (D : Type) (bucket key : D -> string)
    (idx : D -> Z) (a b : D) : Z :=
  let h := localeCompare (bucket a) (bucket b) in
  if negb (h =? 0) then h
  else
    let k := localeCompare (key a) (key b) in
    if negb (k =? 0) then k
    else idx a - idx b.

(** [a] sorts before [b]: by bucket, then by sort key, then by original
    index. *)
Definition Precedes {P : Platform} (D : Type) (bucket key : D -> string)
    (idx : D -> Z) (a b : D) : Prop :=
  localeCompare (bucket a) (bucket b) < 0
  \/ (localeCompare (bucket a) (bucket b) = 0
      /\ localeCompare (key a) (key b) < 0)
  \/ (localeCompare (bucket a) (bucket b) = 0
      /\ localeCompare (key a) (key b) = 0
      /\ idx a < idx b).

(** Not after, under a comparator. *)
Definition cmpLe (A : Type) (cmp : A -> A -> Z) (a b : A) : Prop :=
  cmp a b <= 0.

(** Every element of a list stands in [R] to every later one. *)
Definition Ordered (A : Type) (R : A -> A -> Prop) (l : list A) : Prop :=
  forall i j a b, (i < j)%nat ->
    nth_error l i = Some a -> nth_error l j = Some b -> R a b.

(** The tabs of a scope in the order of its sorted decorations: the order
    of the window once the move request is carried out. *)
Definition arrange (D : Type) (dec : Tab.t -> Z -> Completion D)
    (cmp : D -> D -> Z) (tabs : list Tab.t) : Completion (list Tab.t) :=
  match mapWithIndex dec tabs with
  | Throws e => Throws e
  | Normal ds =>
      Normal (map fst
                (Array_sort (fun a b => cmp (snd a) (snd b))
                   (combine tabs ds)))
  end.

(** The requests of one kind in a log. *)
Definition movesOf (log : list Exchange) : list (list Z * Z) :=
  flat_map (fun e => match e with
                     | x_move ids i _ => [(ids, i)]
                     | _ => []
                     end) log.

Definition updatesOf (log : list Exchange) : list (Z * bool) :=
  flat_map (fun e => match e with
                     | x_update t b _ => [(t, b)]
                     | _ => []
                     end) log.

Definition groupMovesOf (log : list Exchange) : list (Z * Z) :=
  flat_map (fun e => match e with
                     | x_groups_move g i _ => [(g, i)]
                     | _ => []
                     end) log.



(** A decoration of [src/background.js] read as one of
    [src/unnamed/part_000]: same four fields. *)
Definition asPart000 (b : Background.Decorated) : Part000.Decorated :=
  Part000.mkDecorated (Background.id b) (Background.originalIndex b)
    (Background.hostname b) (Background.key b).

(** An address begins with one of the four prefixes that
    [src/unnamed/part_000] takes for browser pages. *)
Definition internalPrefix (raw : string) : bool :=
  startsWith raw "chrome://" || startsWith raw "about:"
  || startsWith raw "edge://" || startsWith raw "brave://".

(** The addresses on which the two variants are compared: no extension
    prefix, and either an [http] or [https] address, or an address that does
    not parse and has no prefix of a browser page. *)
Definition CommonAddress {P : Platform} (raw : string) : Prop :=
  startsWith raw "chrome-extension://" = false
  /\ ((exists u, URL_parse raw = Some u
                 /\ (URL.protocol u = "http:" \/ URL.protocol u = "https:"))
      \/ (URL_parse raw = None /\ internalPrefix raw = false)).

(** What [sortTabsScope] asks of the browser once the identifiers are
    sorted: the move, then the grouping when [groupId > -1]. *)
Definition moveThenGroup (ids : list Z) (startIndex groupId : Z) :
    Prog unit :=
  _ <- await (tabs_move ids startIndex) ;;
  if groupId >? -1 then await (tabs_group groupId ids) else Ret tt.

(** The blocks of [sortAllTabs] over any scope sorter: both variants run
    these, each with its own [sortTabsScope]. *)
Section Orchestrator.
Variable scope : list Tab.t -> Z -> Z -> Prog unit.

Definition pinnedPhaseWith (windowId : Z) : Prog Z :=
  pinnedTabs <- await (tabs_query windowId (Some true) None) ;;
  let nextPosition := Z.of_nat (List.length pinnedTabs) in
  _ <- match pinnedTabs with
       | [] => Ret tt
       | first :: _ =>
           _ <- scope pinnedTabs 0 (Tab.groupId first) ;;
           Promise_all (map (fun t => tabs_update (Tab.id t) true) pinnedTabs)
       end ;;
  Ret nextPosition.

Fixpoint groupLoopWith (windowId : Z) (groups : list TabGroup.t)
    (nextPosition : Z) : Prog Z :=
  match groups with
  | [] => Ret nextPosition
  | group :: rest =>
      _ <- await (tabGroups_move (TabGroup.id group) nextPosition) ;;
      tabs <- await (tabs_query windowId None (Some (TabGroup.id group))) ;;
      nextPosition' <-
        match tabs with
        | [] => Ret nextPosition
        | _ :: _ =>
            m <- lift (minIndex tabs) ;;
            _ <- scope tabs m (TabGroup.id group) ;;
            Ret (nextPosition + Z.of_nat (List.length tabs))
        end ;;
      groupLoopWith windowId rest nextPosition'
  end.

Definition groupsPhaseWith {P : Platform} (windowId nextPosition : Z) :
    Prog Z :=
  tabGroups <- await (tabGroups_query windowId) ;;
  groupLoopWith windowId (Array_sort compareGroups tabGroups) nextPosition.

Definition ungroupedPhaseWith (windowId : Z) : Prog unit :=
  ungroupedTabs <- await (tabs_query windowId (Some false) (Some (-1))) ;;
  match ungroupedTabs with
  | [] => Ret tt
  | _ :: _ =>
      m <- lift (minIndex ungroupedTabs) ;;
      scope ungroupedTabs m (-1)
  end.

Definition sortAllTabsWith {P : Platform} : Prog unit :=
  windowId <- await windows_getLastFocused ;;
  nextPosition <- pinnedPhaseWith windowId ;;
  _ <- groupsPhaseWith windowId nextPosition ;;
  ungroupedPhaseWith windowId.
End Orchestrator.

(** A property of a run: of its final state, its log and its completion. *)
Definition ensures (S R : Type) (h : Host S) (p : Prog R) (s : S)
    (Q : S -> list Exchange -> Completion R -> Prop) : Prop :=
  Q (finalState h p s) (logOf h p s) (outcomeOf h p s).

(** What the claim on pinned tabs asks of a browser, for a reading
    [isPinned] of the pinned flag of a tab in a state and a set [valid] of
    states the browser stays in:
    - queries and the move of a whole group leave the flags alone;
    - a query for pinned tabs answers with pinned tabs, a query for unpinned
      tabs or for the tabs of a group with unpinned tabs, and no group has
      the identifier [-1], which stands for no group;
    - moving or grouping tabs pins no tab and leaves the flags of the other
      tabs alone (it may unpin the tabs it is given);
    - a fulfilled [update(id, {pinned: true})] pins the tab, and the request
      leaves the flags of the other tabs alone. *)
Record PinContract (S : Type) (h : Host S) (valid : S -> Prop)
    (isPinned : S -> Z -> bool) : Prop := {
  pc_valid : forall (X : Type) (c : Request X) s,
    valid s -> valid (fst (respond h c s));
  pc_window : forall s t, valid s ->
    isPinned (fst (respond h windows_getLastFocused s)) t = isPinned s t;
  pc_query : forall w p g s t, valid s ->
    isPinned (fst (respond h (tabs_query w p g) s)) t = isPinned s t;
  pc_groups_query : forall w s t, valid s ->
    isPinned (fst (respond h (tabGroups_query w) s)) t = isPinned s t;
  pc_groups_move : forall g i s t, valid s ->
    isPinned (fst (respond h (tabGroups_move g i) s)) t = isPinned s t;
  pc_pinned_answer : forall w s tabs tab, valid s ->
    snd (respond h (tabs_query w (Some true) None) s) = Normal tabs ->
    In tab tabs -> isPinned s (Tab.id tab) = true;
  pc_unpinned_answer : forall w g s tabs tab, valid s ->
    snd (respond h (tabs_query w (Some false) g) s) = Normal tabs ->
    In tab tabs -> isPinned s (Tab.id tab) = false;
  pc_groups_answer : forall w s groups group, valid s ->
    snd (respond h (tabGroups_query w) s) = Normal groups ->
    In group groups -> TabGroup.id group <> -1;
  pc_group_answer : forall w g s tabs tab, valid s ->
    g <> -1 ->
    snd (respond h (tabs_query w None (Some g)) s) = Normal tabs ->
    In tab tabs -> isPinned s (Tab.id tab) = false;
  pc_move_frame : forall ids i s t, valid s ->
    ~ In t ids ->
    isPinned (fst (respond h (tabs_move ids i) s)) t = isPinned s t;
  pc_move_pins_none : forall ids i s t, valid s ->
    isPinned (fst (respond h (tabs_move ids i) s)) t = true ->
    isPinned s t = true;
  pc_group_frame : forall g ids s t, valid s ->
    ~ In t ids ->
    isPinned (fst (respond h (tabs_group g ids) s)) t = isPinned s t;
  pc_group_pins_none : forall g ids s t, valid s ->
    isPinned (fst (respond h (tabs_group g ids) s)) t = true ->
    isPinned s t = true;
  pc_update_frame : forall id b s t, valid s ->
    t <> id ->
    isPinned (fst (respond h (tabs_update id b) s)) t = isPinned s t;
  pc_update_pins : forall id s, valid s ->
    snd (respond h (tabs_update id true) s) = Normal tt ->
    isPinned (fst (respond h (tabs_update id true) s)) id = true
}.

Arguments pc_valid {S h valid isPinned} _ {X} c s _.
Arguments pc_window {S h valid isPinned} _ s t _.
Arguments pc_query {S h valid isPinned} _ w p g s t _.
Arguments pc_groups_query {S h valid isPinned} _ w s t _.
Arguments pc_groups_move {S h valid isPinned} _ g i s t _.
Arguments pc_pinned_answer {S h valid isPinned} _ w s tabs tab _ _ _.
Arguments pc_unpinned_answer {S h valid isPinned} _ w g s tabs tab _ _ _.
Arguments pc_groups_answer {S h valid isPinned} _ w s groups group _ _ _.
Arguments pc_group_answer {S h valid isPinned} _ w g s tabs tab _ _ _ _.
Arguments pc_move_frame {S h valid isPinned} _ ids i s t _ _.
Arguments pc_move_pins_none {S h valid isPinned} _ ids i s t _ _.
Arguments pc_group_frame {S h valid isPinned} _ g ids s t _ _.
Arguments pc_group_pins_none {S h valid isPinned} _ g ids s t _ _.
Arguments pc_update_frame {S h valid isPinned} _ id b s t _ _.
Arguments pc_update_pins {S h valid isPinned} _ id s _ _.

Unset Implicit Arguments.

(* ================================================================== *)
(** * Notions on the logs of a run *)
(* ================================================================== *)

(** The error of a completion that is not normal. *)
Definition errorOf (A : Type) (r : Completion A) : option Exn :=
  match r with
  | Normal _ => None
  | Throws e => Some e
  end.

(** The rejection an exchange holds, when its request was rejected. *)
Definition rejectionOf (x : Exchange) : option Exn :=
  match x with
  | x_getLastFocused r => errorOf Z r
  | x_query _ _ _ r => errorOf (list Tab.t) r
  | x_move _ _ r => errorOf unit r
  | x_update _ _ r => errorOf unit r
  | x_group _ _ r => errorOf unit r
  | x_groups_query _ r => errorOf (list TabGroup.t) r
  | x_groups_move _ _ r => errorOf unit r
  end.

(** The first rejection of a log. *)
Fixpoint firstRejection (l : list Exchange) : option Exn :=
  match l with
  | [] => None
  | x :: l' =>
      match rejectionOf x with
      | Some e => Some e
      | None => firstRejection l'
      end
  end.

(** An exchange is a pin request, [chrome.tabs.update]. *)
Definition isUpdate (x : Exchange) : bool :=
  match x with
  | x_update _ _ _ => true
  | _ => false
  end.

(** The number of tabs that the fulfilled tab queries of a log listed. *)
Fixpoint tabsAnswered (l : list Exchange) : Z :=
  match l with
  | [] => 0
  | x_query _ _ _ (Normal tabs) :: l' =>
      Z.of_nat (List.length tabs) + tabsAnswered l'
  | _ :: l' => tabsAnswered l'
  end.

(** What the sorter reads of a tab: its identifier and its effective
    address. *)
Definition addressed (tab : Tab.t) : Z * string :=
  (Tab.id tab, effectiveAddress tab).

(** [sortAllTabs] of one of the two variants. *)
Definition EitherVariant {P : Platform} (sortAllTabs : Prog unit) : Prop :=
  sortAllTabs = Background.sortAllTabs \/ sortAllTabs = Part000.sortAllTabs.

(** The logs and completions of a piece of the program, whatever the
    browser answers. *)
Definition Trace (R : Type) : Type := list Exchange -> Completion R -> Prop.

(** [moveThenGroup]: the move is rejected, or it stands alone, or the
    grouping follows it. *)
Inductive MoveTrace (ids : list Z) (i g : Z) : Trace unit :=
| move_rejected e :
    MoveTrace ids i g [x_move ids i (Throws e)] (Throws e)
| move_alone :
    (g >? -1) = false ->
    MoveTrace ids i g [x_move ids i (Normal tt)] (Normal tt)
| move_grouped r :
    (g >? -1) = true ->
    MoveTrace ids i g [x_move ids i (Normal tt); x_group g ids r] r.

(** A scope sorter: nothing on an empty list, an exception of its own
    before any request, or the move of a permutation of the tabs. *)
Inductive ScopeTrace (Thrown : Exn -> Prop) (tabs : list Tab.t) (i g : Z) :
    Trace unit :=
| scope_nothing :
    tabs = [] -> ScopeTrace Thrown tabs i g [] (Normal tt)
| scope_thrown e :
    Thrown e -> ScopeTrace Thrown tabs i g [] (Throws e)
| scope_moved ids l o :
    Permutation ids (map Tab.id tabs) -> MoveTrace ids i g l o ->
    ScopeTrace Thrown tabs i g l o.

(** [Promise.all] over the pin requests: one exchange for every tab, and
    the first rejection, if any. *)
Inductive PinTrace : list Tab.t -> option Exn -> Trace unit :=
| pins_done failed :
    PinTrace [] failed []
      (match failed with
       | None => Normal tt
       | Some e => Throws e
       end)
| pins_next t tabs failed r l o :
    PinTrace tabs
      (match failed, r with
       | None, Throws e => Some e
       | _, _ => failed
       end) l o ->
    PinTrace (t :: tabs) failed (x_update (Tab.id t) true r :: l) o.

(** The block of the pinned tabs. *)
Inductive PinnedTrace (Thrown : Exn -> Prop) (w : Z) : Trace Z :=
| pinned_rejected e :
    PinnedTrace Thrown w [x_query w (Some true) None (Throws e)] (Throws e)
| pinned_none :
    PinnedTrace Thrown w [x_query w (Some true) None (Normal [])] (Normal 0)
| pinned_failed first rest l e :
    ScopeTrace Thrown (first :: rest) 0 (Tab.groupId first) l (Throws e) ->
    PinnedTrace Thrown w
      (x_query w (Some true) None (Normal (first :: rest)) :: l) (Throws e)
| pinned_sorted first rest l l' o :
    ScopeTrace Thrown (first :: rest) 0 (Tab.groupId first) l (Normal tt) ->
    PinTrace (first :: rest) None l' o ->
    PinnedTrace Thrown w
      (x_query w (Some true) None (Normal (first :: rest)) :: l ++ l')
      (match o with
       | Normal _ => Normal (Z.of_nat (List.length (first :: rest)))
       | Throws e => Throws e
       end).

(** The loop over the tab groups, from the running position [n]. *)
Inductive LoopTrace (Thrown : Exn -> Prop) (w : Z) :
    list TabGroup.t -> Z -> Trace Z :=
| loop_done n :
    LoopTrace Thrown w [] n [] (Normal n)
| loop_move_rejected group rest n e :
    LoopTrace Thrown w (group :: rest) n
      [x_groups_move (TabGroup.id group) n (Throws e)] (Throws e)
| loop_query_rejected group rest n e :
    LoopTrace Thrown w (group :: rest) n
      [x_groups_move (TabGroup.id group) n (Normal tt);
       x_query w None (Some (TabGroup.id group)) (Throws e)] (Throws e)
| loop_empty group rest n l o :
    LoopTrace Thrown w rest n l o ->
    LoopTrace Thrown w (group :: rest) n
      (x_groups_move (TabGroup.id group) n (Normal tt)
       :: x_query w None (Some (TabGroup.id group)) (Normal []) :: l) o
| loop_failed group rest n tabs m l e :
    tabs <> [] -> minIndex tabs = Normal m ->
    ScopeTrace Thrown tabs m (TabGroup.id group) l (Throws e) ->
    LoopTrace Thrown w (group :: rest) n
      (x_groups_move (TabGroup.id group) n (Normal tt)
       :: x_query w None (Some (TabGroup.id group)) (Normal tabs) :: l)
      (Throws e)
| loop_sorted group rest n tabs m l l' o :
    tabs <> [] -> minIndex tabs = Normal m ->
    ScopeTrace Thrown tabs m (TabGroup.id group) l (Normal tt) ->
    LoopTrace Thrown w rest (n + Z.of_nat (List.length tabs)) l' o ->
    LoopTrace Thrown w (group :: rest) n
      (x_groups_move (TabGroup.id group) n (Normal tt)
       :: x_query w None (Some (TabGroup.id group)) (Normal tabs)
       :: l ++ l') o.

(** The block of the tab groups. *)
Inductive GroupsTrace {P : Platform} (Thrown : Exn -> Prop) (w n : Z) :
    Trace Z :=
| groups_rejected e :
    GroupsTrace Thrown w n [x_groups_query w (Throws e)] (Throws e)
| groups_listed groups l o :
    LoopTrace Thrown w (Array_sort compareGroups groups) n l o ->
    GroupsTrace Thrown w n (x_groups_query w (Normal groups) :: l) o.

(** The block of the remaining tabs. *)
Inductive UngroupedTrace (Thrown : Exn -> Prop) (w : Z) : Trace unit :=
| ungrouped_rejected e :
    UngroupedTrace Thrown w
      [x_query w (Some false) (Some (-1)) (Throws e)] (Throws e)
| ungrouped_none :
    UngroupedTrace Thrown w
      [x_query w (Some false) (Some (-1)) (Normal [])] (Normal tt)
| ungrouped_sorted tabs m l o :
    tabs <> [] -> minIndex tabs = Normal m ->
    ScopeTrace Thrown tabs m (-1) l o ->
    UngroupedTrace Thrown w
      (x_query w (Some false) (Some (-1)) (Normal tabs) :: l) o.

(** [sortAllTabs]: the window, then the three blocks. *)
Inductive SortTrace {P : Platform} (Thrown : Exn -> Prop) : Trace unit :=
| sort_rejected e :
    SortTrace Thrown [x_getLastFocused (Throws e)] (Throws e)
| sort_pinned_failed w l e :
    PinnedTrace Thrown w l (Throws e) ->
    SortTrace Thrown (x_getLastFocused (Normal w) :: l) (Throws e)
| sort_groups_failed w l n l' e :
    PinnedTrace Thrown w l (Normal n) ->
    GroupsTrace Thrown w n l' (Throws e) ->
    SortTrace Thrown (x_getLastFocused (Normal w) :: l ++ l') (Throws e)
| sort_ungrouped w l n l' n' l'' o :
    PinnedTrace Thrown w l (Normal n) ->
    GroupsTrace Thrown w n l' (Normal n') ->
    UngroupedTrace Thrown w l'' o ->
    SortTrace Thrown (x_getLastFocused (Normal w) :: l ++ l' ++ l'') o.

(** Every exchange of a log stands in [R] to the exchanges before it. *)
Definition Always (R : list Exchange -> Exchange -> Prop)
    (l : list Exchange) : Prop :=
  forall l1 x l2, l = (l1 ++ x :: l2)%list -> R l1 x.

(** A completion agrees with a log: normal when the log holds no
    rejection, and else the first rejection of the log or, without one, an
    exception out of [Thrown]. *)
Definition Agrees (Thrown : Exn -> Prop) (R : Type) : Trace R :=
  fun l o =>
    match o with
    | Normal _ => firstRejection l = None
    | Throws e =>
        firstRejection l = Some e \/ (firstRejection l = None /\ Thrown e)
    end.

(** After a rejected exchange come only pin requests, and when one comes
    the rejected exchange is a pin request too. *)
Definition Quiet (l : list Exchange) : Prop :=
  forall l1 x l2, l = (l1 ++ x :: l2)%list -> rejectionOf x <> None ->
    Forall (fun y => isUpdate y = true) l2
    /\ (l2 <> [] -> isUpdate x = true).

(** A list ends with the exchanges of another. *)
Definition endsWith (l suffix : list Exchange) : Prop :=
  exists l0, l = (l0 ++ suffix)%list.

(** A property of an exchange and what stands before it that more
    exchanges in front do not disturb. *)
Definition Extends (R : list Exchange -> Exchange -> Prop) : Prop :=
  forall pre m y, R m y -> R (pre ++ m)%list y.

(** A move request stands right after the answer of a tab query that
    lists the tabs it moves; the target is 0 for the pinned tabs and else
    the least index of the answer. *)
Definition MoveFollowsQuery (before : list Exchange) (x : Exchange) : Prop :=
  match x with
  | x_move ids i _ =>
      exists w p q tabs,
        endsWith before [x_query w p q (Normal tabs)]
        /\ tabs <> []
        /\ Permutation ids (map Tab.id tabs)
        /\ match p with
           | Some true => i = 0
           | _ => minIndex tabs = Normal i
           end
  | _ => True
  end.

(** A grouping request stands right after the fulfilled move of the same
    identifiers, and its group is the one the query before asked for or,
    for the pinned tabs, the group of the first of them. *)
Definition GroupFollowsMove (before : list Exchange) (x : Exchange) : Prop :=
  match x with
  | x_group g ids _ =>
      -1 < g
      /\ exists w p q tabs i,
           endsWith before
             [x_query w p q (Normal tabs); x_move ids i (Normal tt)]
           /\ match p with
              | Some true =>
                  exists first, hd_error tabs = Some first
                                /\ g = Tab.groupId first
              | Some false => False
              | None => q = Some g
              end
  | _ => True
  end.

(** A group is moved to the position [n] plus the number of tabs listed
    before. *)
Definition AtCursor (n : Z) (before : list Exchange) (x : Exchange) : Prop :=
  match x with
  | x_groups_move _ i _ => i = n + tabsAnswered before
  | _ => True
  end.

(** An exchange of the scope sorter: a move or a grouping. *)
Definition isMoveOrGroup (x : Exchange) : bool :=
  match x with
  | x_move _ _ _ | x_group _ _ _ => true
  | _ => false
  end.

(** A query of an exchange is for the window [w], and the exchange does
    not ask for the focused window. *)
Definition InWindow (w : Z) (x : Exchange) : Prop :=
  match x with
  | x_getLastFocused _ => False
  | x_query w' _ _ _ => w' = w
  | x_groups_query w' _ => w' = w
  | _ => True
  end.

(** What the preservation of the groups asks of a browser, for a reading
    [groupOf] of the group of a tab in a state ([Some (-1)] for a tab
    outside every group, [None] where there is no such tab) and a set
    [valid] of states the browser stays in:
    - queries and the move of a whole group leave the groups alone;
    - a query answers with tabs that match it: pinned tabs, which are in
      no group and say so in [groupId], the tabs of the group asked for,
      the tabs outside every group; and the identifier of a tab group is
      not negative;
    - moving tabs may take the moved tabs out of their group, puts no tab
      into a group and leaves the other tabs alone;
    - a fulfilled [group] request puts the tabs it names into the group,
      and the request leaves the other tabs alone;
    - pinning a tab leaves the other tabs alone, and a tab outside every
      group stays there. *)
Record GroupContract (S : Type) (h : Host S) (valid : S -> Prop)
    (groupOf : S -> Z -> option Z) : Prop := {
  gc_valid : forall (X : Type) (c : Request X) s,
    valid s -> valid (fst (respond h c s));
  gc_window : forall s t, valid s ->
    groupOf (fst (respond h windows_getLastFocused s)) t = groupOf s t;
  gc_query : forall w p g s t, valid s ->
    groupOf (fst (respond h (tabs_query w p g) s)) t = groupOf s t;
  gc_groups_query : forall w s t, valid s ->
    groupOf (fst (respond h (tabGroups_query w) s)) t = groupOf s t;
  gc_groups_move : forall g i s t, valid s ->
    groupOf (fst (respond h (tabGroups_move g i) s)) t = groupOf s t;
  gc_pinned_answer : forall w s tabs tab, valid s ->
    snd (respond h (tabs_query w (Some true) None) s) = Normal tabs ->
    In tab tabs ->
    Tab.groupId tab = -1 /\ groupOf s (Tab.id tab) = Some (-1);
  gc_group_answer : forall w g s tabs tab, valid s ->
    snd (respond h (tabs_query w None (Some g)) s) = Normal tabs ->
    In tab tabs -> groupOf s (Tab.id tab) = Some g;
  gc_loose_answer : forall w s tabs tab, valid s ->
    snd (respond h (tabs_query w (Some false) (Some (-1))) s) = Normal tabs ->
    In tab tabs -> groupOf s (Tab.id tab) = Some (-1);
  gc_groups_answer : forall w s groups group, valid s ->
    snd (respond h (tabGroups_query w) s) = Normal groups ->
    In group groups -> -1 < TabGroup.id group;
  gc_move_frame : forall ids i s t, valid s ->
    ~ In t ids ->
    groupOf (fst (respond h (tabs_move ids i) s)) t = groupOf s t;
  gc_move_ungroups : forall ids i s t, valid s ->
    groupOf (fst (respond h (tabs_move ids i) s)) t = groupOf s t
    \/ (groupOf s t <> None
        /\ groupOf (fst (respond h (tabs_move ids i) s)) t = Some (-1));
  gc_group_frame : forall g ids s t, valid s ->
    ~ In t ids ->
    groupOf (fst (respond h (tabs_group g ids) s)) t = groupOf s t;
  gc_group_sets : forall g ids s t, valid s ->
    snd (respond h (tabs_group g ids) s) = Normal tt ->
    In t ids -> groupOf s t <> None ->
    groupOf (fst (respond h (tabs_group g ids) s)) t = Some g;
  gc_update_frame : forall id b s t, valid s ->
    t <> id ->
    groupOf (fst (respond h (tabs_update id b) s)) t = groupOf s t;
  gc_update_loose : forall id s, valid s ->
    groupOf s id = Some (-1) ->
    groupOf (fst (respond h (tabs_update id true) s)) id = Some (-1)
}.

(** A tab query without a filter on the pinned flag asks for the tabs of a
    group and stands right after the fulfilled move of that group. *)
Definition QueryFollowsGroupMove (before : list Exchange) (x : Exchange) :
    Prop :=
  match x with
  | x_query _ None q _ =>
      exists g i,
        q = Some g /\ endsWith before [x_groups_move g i (Normal tt)]
  | _ => True
  end.

(** An exchange is a tab query without a filter on the pinned flag. *)
Definition isGroupQuery (x : Exchange) : bool :=
  match x with
  | x_query _ None _ _ => true
  | _ => false
  end.

(** In the list [gs] of group identifiers, the group of the tab [a] does not
    come after the group of the tab [b]. *)
Definition NotAfter (gs : list Z) (a b : Tab.t) : Prop :=
  forall l1 l2, gs = (l1 ++ Tab.groupId b :: l2)%list ->
    ~ In (Tab.groupId a) l2.

(** The groups [done] are placed: the first [n] tabs of the row hold them
    in the order of [gs], and no tab of a group of [todo]; the other tabs
    hold no tab of a group of [done]. *)
Definition GroupsPlaced (gs done todo : list Z) (n : Z)
    (row : list Tab.t) : Prop :=
  exists pre rest,
    row = (pre ++ rest)%list
    /\ Z.of_nat (List.length pre) = n
    /\ StronglySorted (NotAfter gs) pre
    /\ (forall t, In t pre -> ~ In (Tab.groupId t) todo)
    /\ (forall t, In t rest -> ~ In (Tab.groupId t) done).

(** The first [n] tabs of the row are in no group. *)
Definition LooseFront (n : Z) (row : list Tab.t) : Prop :=
  exists pre rest,
    row = (pre ++ rest)%list
    /\ Z.of_nat (List.length pre) = n
    /\ forall t, In t pre -> Tab.groupId t = -1.

(* ================================================================== *)
(** * Sorting with a consistent comparator *)
(* ================================================================== *)

Section SortTheory.
Variable A : Type.
Variable cmp : A -> A -> Z.

Lemma sortInsert_perm x l : Permutation (sortInsert cmp x l) (x :: l).
Proof.
  induction l as [|y l IH]; simpl; [reflexivity|].
  destruct (0 <? cmp x y); [|reflexivity].
  rewrite IH. apply perm_swap.
Qed.

Lemma Array_sort_perm l : Permutation (Array_sort cmp l) l.
Proof.
  induction l as [|x l IH]; simpl; [constructor|].
  rewrite sortInsert_perm. now constructor.
Qed.

Lemma Array_sort_in x l : In x (Array_sort cmp l) <-> In x l.
Proof.
  split; apply Permutation_in;
    [apply Array_sort_perm | symmetry; apply Array_sort_perm].
Qed.

Hypothesis Hc : Consistent cmp.

Lemma cmp_pos_neg a b : 0 < cmp a b <-> cmp b a < 0.
Proof. pose proof (cmp_antisym Hc a b). lia. Qed.

Lemma cmp_zero_sym a b : cmp a b = 0 -> cmp b a = 0.
Proof. pose proof (cmp_antisym Hc a b). lia. Qed.

(** When [a <= b <= c] and [a] ties with [c], all three tie. *)
Lemma cmp_squeeze a b c :
  cmp a b <= 0 -> cmp b c <= 0 -> cmp a c = 0 ->
  cmp a b = 0 /\ cmp b c = 0.
Proof.
  intros Hab Hbc Hac.
  assert (Hca : cmp c a <= 0) by (rewrite (cmp_zero_sym _ _ Hac); lia).
  pose proof (cmp_trans Hc _ _ _ Hca Hab) as Hcb.
  pose proof (cmp_trans Hc _ _ _ Hbc Hca) as Hba.
  pose proof (cmp_antisym Hc a b). pose proof (cmp_antisym Hc b c).
  lia.
Qed.

Lemma sortInsert_sorted x l :
  StronglySorted (cmpLe cmp) l ->
  StronglySorted (cmpLe cmp) (sortInsert cmp x l).
Proof.
  induction 1 as [|y l Hs IH Hy]; simpl.
  - repeat constructor.
  - destruct (0 <? cmp x y) eqn:E.
    + apply Z.ltb_lt, cmp_pos_neg in E.
      constructor; [exact IH|].
      rewrite Forall_forall. intros z Hz.
      apply (Permutation_in _ (sortInsert_perm x l)) in Hz.
      destruct Hz as [<-|Hz]; [unfold cmpLe; lia|].
      rewrite Forall_forall in Hy. now apply Hy.
    + apply Z.ltb_ge in E.
      constructor; [now constructor|].
      constructor; [exact E|].
      rewrite Forall_forall in *. intros z Hz.
      exact (cmp_trans Hc _ _ _ E (Hy z Hz)).
Qed.

Lemma Array_sort_sorted l : StronglySorted (cmpLe cmp) (Array_sort cmp l).
Proof.
  induction l; simpl; [constructor | now apply sortInsert_sorted].
Qed.

(** A sorted array is left as it is. *)
Lemma Array_sort_id l : StronglySorted (cmpLe cmp) l -> Array_sort cmp l = l.
Proof.
  induction 1 as [|x l Hs IH Hx]; simpl; [reflexivity|].
  rewrite IH. destruct l as [|y l]; [reflexivity|]. simpl.
  apply Forall_inv in Hx. unfold cmpLe in Hx.
  destruct (0 <? cmp x y) eqn:E; [apply Z.ltb_lt in E; lia | reflexivity].
Qed.

(** Without ties, a list has one sorted arrangement: whatever sorting
    algorithm the platform runs, this is its result. *)
Lemma sorted_unique l l' :
  (forall a b, In a l -> In b l -> cmp a b = 0 -> a = b) ->
  StronglySorted (cmpLe cmp) l -> StronglySorted (cmpLe cmp) l' ->
  Permutation l l' -> l = l'.
Proof.
  intros Hties Hl. revert l'.
  induction Hl as [|x l Hs IH Hx]; intros l' Hl' Hp.
  - now apply Permutation_nil in Hp.
  - destruct Hl' as [|y l' Hs' Hy].
    + symmetry in Hp. now apply Permutation_nil in Hp.
    + assert (x = y) as <-.
      { assert (Hxy : cmp x y <= 0).
        { assert (Hin : In y (x :: l))
            by (apply (Permutation_in _ (Permutation_sym Hp)); now left).
          destruct Hin as [<-|Hin]; [rewrite (cmp_refl Hc); lia|].
          rewrite Forall_forall in Hx. now apply Hx. }
        assert (Hyx : cmp y x <= 0).
        { assert (Hin : In x (y :: l'))
            by (apply (Permutation_in _ Hp); now left).
          destruct Hin as [<-|Hin]; [rewrite (cmp_refl Hc); lia|].
          rewrite Forall_forall in Hy. now apply Hy. }
        apply Hties; [now left| |].
        - apply (Permutation_in _ (Permutation_sym Hp)). now left.
        - pose proof (cmp_antisym Hc x y). lia. }
      f_equal. apply IH; [|exact Hs'|now apply Permutation_cons_inv in Hp].
      intros a b Ha Hb. apply Hties; now right.
Qed.

Lemma Array_sort_unique l l' :
  (forall a b, In a l -> In b l -> cmp a b = 0 -> a = b) ->
  StronglySorted (cmpLe cmp) l' -> Permutation l l' -> Array_sort cmp l = l'.
Proof.
  intros Hties Hs Hp. apply sorted_unique.
  - intros a b Ha Hb. apply Hties; now apply Array_sort_in.
  - apply Array_sort_sorted.
  - exact Hs.
  - now rewrite Array_sort_perm.
Qed.

Lemma cmp_tie_trans a b c : cmp a b = 0 -> cmp b c = 0 -> cmp a c = 0.
Proof.
  intros Hab Hbc.
  pose proof (cmp_trans Hc a b c). pose proof (cmp_trans Hc c b a).
  pose proof (cmp_zero_sym _ _ Hab). pose proof (cmp_zero_sym _ _ Hbc).
  pose proof (cmp_antisym Hc a c). lia.
Qed.

(** The sort is stable: the elements that tie with a given one come out in
    the order they came in. *)
Lemma sortInsert_stable x a l :
  filter (fun y => cmp y x =? 0) (sortInsert cmp a l)
  = filter (fun y => cmp y x =? 0) (a :: l).
Proof.
  induction l as [|y l IH]; [reflexivity|].
  cbn [sortInsert]. destruct (0 <? cmp a y) eqn:E; [|reflexivity].
  apply Z.ltb_lt in E. cbn [filter] in *. rewrite IH.
  destruct (cmp a x =? 0) eqn:Ea; [|reflexivity].
  destruct (cmp y x =? 0) eqn:Ey; [|reflexivity].
  apply Z.eqb_eq in Ea, Ey.
  pose proof (cmp_tie_trans a x y Ea (cmp_zero_sym _ _ Ey)). lia.
Qed.

Lemma Array_sort_stable x l :
  filter (fun y => cmp y x =? 0) (Array_sort cmp l)
  = filter (fun y => cmp y x =? 0) l.
Proof.
  induction l as [|a l IH]; [reflexivity|].
  cbn [Array_sort]. rewrite sortInsert_stable. cbn [filter]. now rewrite IH.
Qed.

Lemma sorted_ordered l : StronglySorted (cmpLe cmp) l -> Ordered (cmpLe cmp) l.
Proof.
  induction 1 as [|x l Hs IH Hx]; intros i j a b Hij Hi Hj.
  - now destruct i.
  - destruct j as [|j]; [lia|]. simpl in Hj.
    destruct i as [|i]; simpl in Hi.
    + injection Hi as <-. rewrite Forall_forall in Hx.
      apply Hx. eapply nth_error_In; eassumption.
    + apply (IH i j); [lia|assumption|assumption].
Qed.
End SortTheory.

(** Sorting commutes with a map that respects the comparators. *)
Lemma Array_sort_map {A B : Type} (f : A -> B) (cmpA : A -> A -> Z)
    (cmpB : B -> B -> Z) :
  (forall a b, cmpB (f a) (f b) = cmpA a b) ->
  forall l, map f (Array_sort cmpA l) = Array_sort cmpB (map f l).
Proof.
  intros Hf. induction l as [|x l IH]; simpl; [reflexivity|].
  rewrite <- IH. generalize (Array_sort cmpA l) as s.
  induction s as [|y s IHs]; simpl; [reflexivity|].
  rewrite Hf. destruct (0 <? cmpA x y); simpl; [now rewrite IHs | reflexivity].
Qed.

Lemma ordered_sorted (A : Type) (R : A -> A -> Prop) (l : list A) :
  Ordered R l -> StronglySorted R l.
Proof.
  induction l as [|x l IH]; intros H; constructor.
  - apply IH. intros i j a b Hij Hi Hj.
    apply (H (S i) (S j)); [lia|assumption|assumption].
  - rewrite Forall_forall. intros y Hy.
    destruct (In_nth_error _ _ Hy) as [n Hn].
    apply (H 0%nat (S n)); [lia|reflexivity|exact Hn].
Qed.

(* ================================================================== *)
(** * The comparator of the scope sorter *)
(* ================================================================== *)

Section LexCompare.
Context {P : Platform}.
Hypothesis Collation : Consistent localeCompare.
Variable D : Type.
Variables bucket key : D -> string.
Variable idx : D -> Z.

Local Abbreviation cmp := (lexCompare bucket key idx).

Lemma lexCompare_cases a b :
  (localeCompare (bucket a) (bucket b) <> 0
   /\ cmp a b = localeCompare (bucket a) (bucket b))
  \/ (localeCompare (bucket a) (bucket b) = 0
      /\ localeCompare (key a) (key b) <> 0
      /\ cmp a b = localeCompare (key a) (key b))
  \/ (localeCompare (bucket a) (bucket b) = 0
      /\ localeCompare (key a) (key b) = 0
      /\ cmp a b = idx a - idx b).
Proof.
  unfold lexCompare.
  destruct (localeCompare (bucket a) (bucket b) =? 0) eqn:Eh; simpl.
  - apply Z.eqb_eq in Eh.
    destruct (localeCompare (key a) (key b) =? 0) eqn:Ek; simpl.
    + apply Z.eqb_eq in Ek. right. right. tauto.
    + apply Z.eqb_neq in Ek. right. left. tauto.
  - apply Z.eqb_neq in Eh. left. tauto.
Qed.

Lemma lexCompare_consistent : Consistent cmp.
Proof.
  split.
  - intros a. unfold lexCompare.
    rewrite !(cmp_refl Collation). simpl. lia.
  - intros a b.
    pose proof (cmp_antisym Collation (bucket a) (bucket b)).
    pose proof (cmp_antisym Collation (key a) (key b)).
    destruct (lexCompare_cases a b) as [[? ->]|[(?&?&->)|(?&?&->)]];
      destruct (lexCompare_cases b a) as [[? ->]|[(?&?&->)|(?&?&->)]];
      lia.
  - intros a b c Hab Hbc.
    pose proof (cmp_trans Collation (bucket a) (bucket b) (bucket c)) as Th.
    pose proof (cmp_trans Collation (key a) (key b) (key c)) as Tk.
    pose proof (cmp_squeeze _ _ Collation (bucket a) (bucket b) (bucket c))
      as Sh.
    pose proof (cmp_squeeze _ _ Collation (key a) (key b) (key c)) as Sk.
    destruct (lexCompare_cases a b) as [[? Eab]|[(?&?&Eab)|(?&?&Eab)]];
      destruct (lexCompare_cases b c) as [[? Ebc]|[(?&?&Ebc)|(?&?&Ebc)]];
      destruct (lexCompare_cases a c) as [[? ->]|[(?&?&->)|(?&?&->)]];
      rewrite Eab in Hab; rewrite Ebc in Hbc; lia.
Qed.

(** Below or tied under the comparator: before by bucket or key, or tied
    on both with the index not after. *)
Lemma lexCompare_le a b :
  cmp a b <= 0 <->
  Precedes bucket key idx a b
  \/ (localeCompare (bucket a) (bucket b) = 0
      /\ localeCompare (key a) (key b) = 0 /\ idx a = idx b).
Proof.
  unfold Precedes.
  destruct (lexCompare_cases a b) as [[? ->]|[(?&?&->)|(?&?&->)]]; lia.
Qed.

(** The comparator reads nothing but the three fields. *)
Lemma lexCompare_fields a b a' b' :
  bucket a' = bucket a -> key a' = key a ->
  bucket b' = bucket b -> key b' = key b ->
  cmp a b <= 0 -> idx a' <= idx b' -> cmp a' b' <= 0.
Proof.
  intros Ba Ka Bb Kb Hab Hi.
  destruct (lexCompare_cases a b) as [[? Eab]|[(?&?&Eab)|(?&?&Eab)]];
    destruct (lexCompare_cases a' b') as [[? ->]|[(?&?&->)|(?&?&->)]];
    rewrite ?Ba, ?Ka, ?Bb, ?Kb in *; lia.
Qed.
End LexCompare.

(* ================================================================== *)
(** * [map] with an index and a callback that may throw *)
(* ================================================================== *)

Section MapWithIndex.
Context {A B : Type} {f : A -> Z -> Completion B}.

Lemma mapWithIndexFrom_length i l ys :
  mapWithIndexFrom f i l = Normal ys -> List.length ys = List.length l.
Proof.
  revert i ys. induction l as [|x l IH]; simpl; intros i ys H.
  - now injection H as <-.
  - destruct (f x i); [|discriminate].
    destruct (mapWithIndexFrom f (i + 1) l) eqn:E; [|discriminate].
    injection H as <-. simpl. f_equal. eauto.
Qed.

Lemma mapWithIndexFrom_nth i l ys :
  mapWithIndexFrom f i l = Normal ys ->
  forall n y, nth_error ys n = Some y ->
    exists x, nth_error l n = Some x /\ f x (i + Z.of_nat n) = Normal y.
Proof.
  revert i ys. induction l as [|x l IH]; simpl; intros i ys H n y Hn.
  - injection H as <-. now destruct n.
  - destruct (f x i) eqn:Ex; [|discriminate].
    destruct (mapWithIndexFrom f (i + 1) l) eqn:E; [|discriminate].
    injection H as <-. destruct n as [|n]; simpl in *.
    + injection Hn as <-. exists x. now rewrite Z.add_0_r.
    + destruct (IH _ _ E n y Hn) as (x' & Hx' & Hf).
      exists x'. split; [exact Hx'|].
      now replace (i + Z.pos (Pos.of_succ_nat n)) with (i + 1 + Z.of_nat n)
        by lia.
Qed.

Lemma mapWithIndexFrom_combine i l ys :
  mapWithIndexFrom f i l = Normal ys ->
  forall x y, In (x, y) (combine l ys) -> exists j, f x j = Normal y.
Proof.
  revert i ys. induction l as [|x l IH]; simpl; intros i ys H x' y' Hin.
  - contradiction.
  - destruct (f x i) eqn:Ex; [|discriminate].
    destruct (mapWithIndexFrom f (i + 1) l) eqn:E; [|discriminate].
    injection H as <-. destruct Hin as [Heq|Hin].
    + injection Heq as <- <-. eauto.
    + eauto.
Qed.

(** The loop ends normally when the callback does on every element, and
    an exception of the loop is one of the callback. *)
Lemma mapWithIndexFrom_normal i l :
  (forall x j, In x l -> exists y, f x j = Normal y) ->
  exists ys, mapWithIndexFrom f i l = Normal ys.
Proof.
  revert i. induction l as [|x l IH]; simpl; intros i H; [eauto|].
  destruct (H x i (or_introl eq_refl)) as [y ->].
  destruct (IH (i + 1)) as [ys ->]; eauto.
Qed.

Lemma mapWithIndexFrom_throws i l e :
  mapWithIndexFrom f i l = Throws e ->
  exists x j, In x l /\ f x j = Throws e.
Proof.
  revert i. induction l as [|x l IH]; simpl; intros i H; [discriminate|].
  destruct (f x i) eqn:Ex.
  - destruct (mapWithIndexFrom f (i + 1) l) eqn:E; [discriminate|].
    injection H as <-. destruct (IH _ E) as (x' & j & Hin & Hf). eauto 6.
  - injection H as <-. eauto 6.
Qed.
End MapWithIndex.

Lemma mapWithIndexFrom_map (A B C : Type) (f : A -> Z -> Completion B)
    (g : B -> C) (h : A -> C) :
  (forall x j y, f x j = Normal y -> g y = h x) ->
  forall i l ys, mapWithIndexFrom f i l = Normal ys -> map g ys = map h l.
Proof.
  intros Hgh i l. revert i. induction l as [|x l IH]; simpl; intros i ys H.
  - now injection H as <-.
  - destruct (f x i) eqn:Ex; [|discriminate].
    destruct (mapWithIndexFrom f (i + 1) l) eqn:E; [|discriminate].
    injection H as <-. simpl. f_equal; eauto.
Qed.

Lemma map_snd_combine_same (A B : Type) (l : list A) (l' : list B) :
  List.length l' = List.length l -> map snd (combine l l') = l'.
Proof.
  revert l'. induction l as [|x l IH]; intros [|y l'] H; simpl in *;
    try discriminate; [reflexivity|].
  f_equal. apply IH. lia.
Qed.

(* ================================================================== *)
(** * One scope, for both variants *)
(* ================================================================== *)

(** The two variants decorate a tab differently and sort the decorations
    alike.  What follows holds for every decoration whose callback records
    the index and the identity it is given and whose bucket and sort key do
    not depend on the index. *)
Section ScopeSorter.
Context {P : Platform}.
Hypothesis Collation : Consistent localeCompare.
Variable D : Type.
Variables bucket key : D -> string.
Variables idx did : D -> Z.
Variable dec : Tab.t -> Z -> Completion D.

Hypothesis dec_fields : forall t i d,
  dec t i = Normal d -> idx d = i /\ did d = Tab.id t.
Hypothesis dec_shift : forall t i j d,
  dec t i = Normal d ->
  exists d', dec t j = Normal d' /\ bucket d' = bucket d /\ key d' = key d.

Local Abbreviation cmp := (lexCompare bucket key idx).
Local Abbreviation before := (Precedes bucket key idx).

Lemma decorated_nth tabs ds n d :
  mapWithIndex dec tabs = Normal ds -> nth_error ds n = Some d ->
  idx d = Z.of_nat n
  /\ exists t, nth_error tabs n = Some t /\ dec t (Z.of_nat n) = Normal d.
Proof.
  intros H Hn.
  destruct (mapWithIndexFrom_nth _ _ _ H n d Hn) as (t & Ht & Hd).
  simpl in Hd. split; [exact (proj1 (dec_fields _ _ _ Hd))|eauto].
Qed.

Lemma decorated_ids tabs ds :
  mapWithIndex dec tabs = Normal ds -> map did ds = map Tab.id tabs.
Proof.
  apply mapWithIndexFrom_map. intros t j d Hd.
  exact (proj2 (dec_fields _ _ _ Hd)).
Qed.

Lemma decorated_NoDup tabs ds :
  mapWithIndex dec tabs = Normal ds -> NoDup (map idx ds).
Proof.
  intros H. apply NoDup_nth_error. intros i j Hi E.
  rewrite length_map in Hi.
  destruct (nth_error ds i) as [a|] eqn:Ea;
    [|apply nth_error_None in Ea; lia].
  rewrite (map_nth_error idx _ _ Ea) in E.
  destruct (nth_error ds j) as [b|] eqn:Eb.
  - rewrite (map_nth_error idx _ _ Eb) in E. injection E as E.
    destruct (decorated_nth _ _ _ _ H Ea) as [Ia _].
    destruct (decorated_nth _ _ _ _ H Eb) as [Ib _]. lia.
  - apply nth_error_None in Eb.
    assert (nth_error (map idx ds) j = None)
      by (apply nth_error_None; now rewrite length_map).
    congruence.
Qed.

(** The output of [decorated.sort]: a rearrangement of the decorations in
    which every element sorts before every later one. *)
Lemma scope_sorted tabs ds :
  mapWithIndex dec tabs = Normal ds ->
  Permutation (Array_sort cmp ds) ds
  /\ Ordered before (Array_sort cmp ds).
Proof.
  intros H. split; [apply Array_sort_perm|].
  pose proof (lexCompare_consistent Collation D bucket key idx) as Hc.
  pose proof (sorted_ordered _ _ _ (Array_sort_sorted _ cmp Hc ds)) as Ho.
  intros i j a b Hij Hi Hj.
  destruct (proj1 (lexCompare_le D bucket key idx a b) (Ho i j a b Hij Hi Hj))
    as [Hb|(_ & _ & Hidx)]; [exact Hb|exfalso].
  assert (Hnd : NoDup (map idx (Array_sort cmp ds))).
  { eapply Permutation_NoDup; [|apply (decorated_NoDup _ _ H)].
    apply Permutation_map. symmetry. apply Array_sort_perm. }
  rewrite NoDup_nth_error in Hnd.
  assert (i = j); [|lia].
  apply Hnd.
  - rewrite length_map. apply nth_error_Some. congruence.
  - rewrite (map_nth_error idx _ _ Hi), (map_nth_error idx _ _ Hj).
    now f_equal.
Qed.

(** Two decorations of one scope never tie, so the sorted arrangement is
    the only one: any sorting algorithm gives the output of [Array_sort]. *)
Lemma scope_sort_unique tabs ds out :
  mapWithIndex dec tabs = Normal ds ->
  Permutation ds out -> StronglySorted (cmpLe cmp) out ->
  Array_sort cmp ds = out.
Proof.
  intros H Hp Hs.
  apply Array_sort_unique;
    [now apply lexCompare_consistent| |exact Hs|exact Hp].
  intros a b Ha Hb Hab.
  destruct (In_nth_error _ _ Ha) as [i Hi].
  destruct (In_nth_error _ _ Hb) as [j Hj].
  destruct (decorated_nth _ _ _ _ H Hi) as [Ia _].
  destruct (decorated_nth _ _ _ _ H Hj) as [Ib _].
  destruct (lexCompare_cases D bucket key idx a b)
    as [[? E]|[(?&?&E)|(?&?&E)]]; rewrite E in Hab; try contradiction.
  assert (i = j) by lia. subst j. congruence.
Qed.

(** The identities it lists are those of the tabs it was given. *)
Lemma scope_ids_perm tabs ds :
  mapWithIndex dec tabs = Normal ds ->
  Permutation (map did (Array_sort cmp ds)) (map Tab.id tabs).
Proof.
  intros H. rewrite <- (decorated_ids _ _ H).
  apply Permutation_map, Array_sort_perm.
Qed.

(** Decorating again a list of tabs that come with decorations of theirs:
    same buckets, keys and identities, and the indices count up. *)
Lemma redecorate ps : forall i,
  (forall t d, In (t, d) ps -> exists j, dec t j = Normal d) ->
  exists ds',
    mapWithIndexFrom dec i (map fst ps) = Normal ds'
    /\ Forall2 (fun p d' => bucket d' = bucket (snd p)
                            /\ key d' = key (snd p)
                            /\ did d' = did (snd p)
                            /\ did d' = Tab.id (fst p)) ps ds'
    /\ Forall (fun d' => i <= idx d') ds'
    /\ StronglySorted (fun a b => idx a < idx b) ds'.
Proof.
  induction ps as [|[t d] ps IH]; intros i Hps; simpl.
  - exists []. repeat split; constructor.
  - destruct (Hps t d (or_introl eq_refl)) as [j Hj].
    destruct (dec_shift _ _ i _ Hj) as (d' & Hd' & Hb & Hk).
    destruct (IH (i + 1)) as (ds' & -> & Hf2 & Hge & Hs).
    { intros t0 d0 Hin. apply Hps. now right. }
    rewrite Hd'. exists (d' :: ds').
    destruct (dec_fields _ _ _ Hd') as [Hi Hid].
    destruct (dec_fields _ _ _ Hj) as [_ Hid0].
    repeat split.
    + constructor; [|exact Hf2]. simpl. repeat split; congruence.
    + constructor; [lia|]. eapply Forall_impl; [|exact Hge].
      simpl. intros; lia.
    + constructor; [exact Hs|]. eapply Forall_impl; [|exact Hge].
      simpl. intros; lia.
Qed.

Lemma resorted ps ds' :
  Forall2 (fun p d' => bucket d' = bucket (snd p)
                       /\ key d' = key (snd p)
                       /\ did d' = did (snd p)
                       /\ did d' = Tab.id (fst p)) ps ds' ->
  StronglySorted (cmpLe cmp) (map snd ps) ->
  StronglySorted (fun a b => idx a < idx b) ds' ->
  StronglySorted (cmpLe cmp) ds'.
Proof.
  induction 1 as [|[t d] d' ps ds' (Hb & Hk & _) Hf2 IH]; simpl;
    intros Hs Hi; [constructor|].
  apply StronglySorted_inv in Hs. destruct Hs as [Hs Hd].
  apply StronglySorted_inv in Hi. destruct Hi as [Hi Hd'].
  constructor; [now apply IH|].
  clear IH Hs Hi. induction Hf2 as [|[t1 d1] d1' ps ds' (Hb1 & Hk1 & _)];
    [constructor|].
  simpl in Hd. apply Forall_inv in Hd as Hd1. apply Forall_inv_tail in Hd.
  apply Forall_inv in Hd' as Hd1'. apply Forall_inv_tail in Hd'.
  constructor; [|now apply IHHf2].
  unfold cmpLe in *.
  apply (lexCompare_fields D bucket key idx d d1); simpl in *;
    try assumption; lia.
Qed.

(** Idempotence: when the tabs stand in the order of a first pass, the
    decorations of a second pass are sorted already, and the identities
    listed again are those tabs in their order. *)
Lemma scope_idempotent tabs ds tabs' :
  mapWithIndex dec tabs = Normal ds ->
  arrange dec cmp tabs = Normal tabs' ->
  map Tab.id tabs' = map did (Array_sort cmp ds)
  /\ exists ds', mapWithIndex dec tabs' = Normal ds'
                 /\ Array_sort cmp ds' = ds'
                 /\ map did ds' = map Tab.id tabs'.
Proof.
  intros H Ha. unfold arrange in Ha. rewrite H in Ha. injection Ha as <-.
  set (ps := Array_sort (fun a b => cmp (snd a) (snd b)) (combine tabs ds)).
  assert (Hsnd : map snd ps = Array_sort cmp ds).
  { unfold ps. rewrite (Array_sort_map snd _ cmp) by reflexivity.
    f_equal. apply map_snd_combine_same.
    exact (mapWithIndexFrom_length _ _ _ H). }
  assert (Hps : forall t d, In (t, d) ps -> exists j, dec t j = Normal d).
  { intros t d Hin. apply Array_sort_in in Hin.
    exact (mapWithIndexFrom_combine _ _ _ H _ _ Hin). }
  destruct (redecorate ps 0 Hps) as (ds' & Hds' & Hf2 & _ & Hi).
  assert (Hids : map did ds' = map Tab.id (map fst ps)).
  { clear - Hf2. induction Hf2 as [|p d' ps ds' (_ & _ & _ & E)];
      simpl; [reflexivity|]. now f_equal. }
  split.
  - rewrite <- Hsnd, <- Hids. clear - Hf2.
    induction Hf2 as [|p d' ps ds' (_ & _ & E & _)];
      simpl; [reflexivity|]. now f_equal.
  - exists ds'. split; [exact Hds'|]. split; [|exact Hids].
    apply Array_sort_id.
    apply (resorted ps); [exact Hf2| |exact Hi].
    rewrite Hsnd. apply Array_sort_sorted.
    now apply lexCompare_consistent.
Qed.
End ScopeSorter.

(* ================================================================== *)
(** * The reference platform obeys the laws *)
(* ================================================================== *)

Lemma ascii_compare_refl c : Ascii.compare c c = Eq.
Proof. unfold Ascii.compare. apply N.compare_refl. Qed.

Lemma string_compare_refl s : String.compare s s = Eq.
Proof.
  induction s as [|c s IH]; simpl; [reflexivity|].
  now rewrite ascii_compare_refl.
Qed.

Lemma string_compare_le_trans a : forall b c,
  String.compare a b <> Gt -> String.compare b c <> Gt ->
  String.compare a c <> Gt.
Proof.
  induction a as [|x a IH]; intros [|y b] [|z c]; simpl; try congruence.
  unfold Ascii.compare.
  destruct (N.compare_spec (N_of_ascii x) (N_of_ascii y)) as [Exy|Lxy|Gxy];
    destruct (N.compare_spec (N_of_ascii y) (N_of_ascii z)) as [Eyz|Lyz|Gyz];
    destruct (N.compare_spec (N_of_ascii x) (N_of_ascii z)) as [Exz|Lxz|Gxz];
    try congruence; try lia; intros; eauto.
Qed.

Lemma reference_collation : Consistent Reference.localeCompare.
Proof.
  split; unfold Reference.localeCompare.
  - intros a. now rewrite string_compare_refl.
  - intros a b. rewrite (String.compare_antisym a b).
    destruct (String.compare b a); reflexivity.
  - intros a b c Hab Hbc.
    pose proof (string_compare_le_trans a b c) as T.
    destruct (String.compare a b); destruct (String.compare b c);
      destruct (String.compare a c); try lia;
      exfalso; apply T; congruence.
Qed.

Lemma startsWith_split s : forall p,
  startsWith s p = true -> exists r, s = p ++ r.
Proof.
  intros p. revert s. induction p as [|a p IH]; intros s H; simpl in *.
  - now exists s.
  - destruct s as [|b s]; [discriminate|].
    apply andb_prop in H. destruct H as [Hab Hp].
    apply Ascii.eqb_eq in Hab. subst b.
    destruct (IH _ Hp) as [r ->]. now exists r.
Qed.

Lemma stripTrailing_cons c s :
  Reference.isC0OrSpace c = false ->
  Reference.stripTrailing (String c s) = String c (Reference.stripTrailing s).
Proof.
  intros H. simpl. rewrite H. now destruct (Reference.stripTrailing s).
Qed.

Lemma splitAt_cons stop c s :
  stop c = false ->
  Reference.splitAt stop (String c s)
  = (String c (fst (Reference.splitAt stop s)),
     snd (Reference.splitAt stop s)).
Proof.
  intros H. simpl. rewrite H. now destruct (Reference.splitAt stop s).
Qed.

Lemma splitAt_stop stop c s :
  stop c = true ->
  Reference.splitAt stop (String c s) = (EmptyString, String c s).
Proof. intros H. simpl. now rewrite H. Qed.

Lemma reference_parser : URLParser Reference.URL_parse.
Proof.
  split.
  - intros h s Hh. unfold Reference.URL_parse.
    destruct Hh as [-> | ->]; simpl String.append; simpl Reference.stripLeading;
      rewrite !stripTrailing_cons by reflexivity;
      cbn -[Reference.splitAt Reference.hierarchicalPath Reference.searchOf
            Reference.hashOf];
      rewrite !splitAt_cons by reflexivity;
      rewrite splitAt_stop by reflexivity;
      cbn -[Reference.splitAt Reference.hierarchicalPath Reference.searchOf
            Reference.hashOf];
      destruct (Reference.splitAt Reference.isQueryOrFragmentStart _)
        as [pathText afterPath];
      eexists; repeat split.
  - intros p raw u Hp Hs Hu.
    destruct (startsWith_split _ _ Hs) as [r ->].
    unfold Reference.URL_parse in Hu.
    simpl in Hp.
    destruct Hp as [<-|[<-|[<-|[<-|[<-|[]]]]]];
      simpl String.append in Hu; simpl Reference.stripLeading in Hu;
      rewrite !stripTrailing_cons in Hu by reflexivity;
      cbn -[Reference.parseAfterScheme Reference.searchOf Reference.hashOf]
        in Hu;
      destruct (Reference.parseAfterScheme _ _) as [[[host path] rest]|];
      try discriminate; now injection Hu as <-.
Qed.

(* ================================================================== *)
(** * The two decorations *)
(* ================================================================== *)

Section Variants.
Context {P : Platform}.

Lemma background_compare :
  Background.compareDecorated
  = lexCompare Background.hostname Background.key Background.originalIndex.
Proof. reflexivity. Qed.

Lemma part000_compare :
  Part000.compareDecorated
  = lexCompare Part000.hostKey Part000.sortKey Part000.originalIndex.
Proof. reflexivity. Qed.

Lemma background_fields t i d :
  Background.decorateTab t i = Normal d ->
  Background.originalIndex d = i /\ Background.id d = Tab.id t.
Proof.
  unfold Background.decorateTab.
  destruct (Background.resolveTabUrl t); [|discriminate].
  intros H. injection H as <-. now split.
Qed.

Lemma background_shift t i j d :
  Background.decorateTab t i = Normal d ->
  exists d', Background.decorateTab t j = Normal d'
             /\ Background.hostname d' = Background.hostname d
             /\ Background.key d' = Background.key d.
Proof.
  unfold Background.decorateTab.
  destruct (Background.resolveTabUrl t); [|discriminate].
  intros H. injection H as <-. eexists. now repeat split.
Qed.

Lemma part000_fields t i d :
  Part000.decorateTab t i = Normal d ->
  Part000.originalIndex d = i /\ Part000.id d = Tab.id t.
Proof.
  unfold Part000.decorateTab.
  destruct (Part000.resolveTabUrl t); [|discriminate].
  intros H. injection H as <-. now split.
Qed.

Lemma part000_shift t i j d :
  Part000.decorateTab t i = Normal d ->
  exists d', Part000.decorateTab t j = Normal d'
             /\ Part000.hostKey d' = Part000.hostKey d
             /\ Part000.sortKey d' = Part000.sortKey d.
Proof.
  unfold Part000.decorateTab.
  destruct (Part000.resolveTabUrl t); [|discriminate].
  intros H. injection H as <-. eexists. now repeat split.
Qed.

(** With the placeholder at hand, [resolveTabUrl] of [src/background.js]
    never throws. *)
Lemma background_resolves (Parser : URLParser URL_parse) tab :
  exists u, Background.resolveTabUrl tab = Normal u.
Proof.
  unfold Background.resolveTabUrl, new_URL.
  destruct (URL_parse (effectiveAddress tab)); [eauto|].
  destruct (placeholder_parses Parser "invalid" (effectiveAddress tab))
    as (u & Hu & _); [now right|].
  simpl in Hu. simpl. rewrite Hu. eauto.
Qed.

Lemma background_decorates (Parser : URLParser URL_parse) tabs :
  exists ds, Background.decorate tabs = Normal ds.
Proof.
  apply mapWithIndexFrom_normal. intros t j _.
  unfold Background.decorateTab.
  destruct (background_resolves Parser t) as [u ->]. eauto.
Qed.

(** The requests of [sortTabsScope], once the identifiers are known. *)
Lemma background_scope_requests tabs ids startIndex groupId :
  tabs <> [] -> Background.sortedIds tabs = Normal ids ->
  Background.sortTabsScope tabs startIndex groupId
  = (_ <- await (tabs_move ids startIndex) ;;
     if groupId >? -1 then await (tabs_group groupId ids) else Ret tt).
Proof.
  intros Hne H. destruct tabs; [contradiction|].
  unfold Background.sortTabsScope. now rewrite H.
Qed.

Lemma part000_scope_requests tabs ids startIndex groupId :
  tabs <> [] -> Part000.sortedIds tabs = Normal ids ->
  Part000.sortTabsScope tabs startIndex groupId
  = (_ <- await (tabs_move ids startIndex) ;;
     if groupId >? -1 then await (tabs_group groupId ids) else Ret tt).
Proof.
  intros Hne H. destruct tabs; [contradiction|].
  unfold Part000.sortTabsScope. now rewrite H.
Qed.
End Variants.

(* ================================================================== *)
(** * Claims on the order within one scope *)
(* ================================================================== *)

(** Every element of the list has its image, at its own place. *)
Lemma mapWithIndexFrom_each (A B : Type) (f : A -> Z -> Completion B) i l ys :
  mapWithIndexFrom f i l = Normal ys ->
  forall n x, nth_error l n = Some x ->
    exists y, nth_error ys n = Some y /\ f x (i + Z.of_nat n) = Normal y.
Proof.
  intros H n x Hx.
  assert (Hlt : (n < List.length ys)%nat).
  { rewrite (mapWithIndexFrom_length _ _ _ H). apply nth_error_Some.
    congruence. }
  destruct (nth_error ys n) as [y|] eqn:Hy;
    [|now apply nth_error_Some in Hlt].
  destruct (mapWithIndexFrom_nth _ _ _ H n y Hy) as (x' & Hx' & Hf).
  exists y. split; [reflexivity|]. congruence.
Qed.

(** C1.  For a non-empty list of tabs whose addresses all resolve, the
    sorter decorates every tab: there are as many decorations as tabs, and
    the decoration at the place of a tab carries the identifier of the tab,
    its place as original index, and the sort key
    [bucket ++ pathname ++ search ++ hash] of its resolved address.  The
    move request lists the identities of the decorations rearranged so that
    every one sorts before every later one: by bucket key under the
    collation, then by sort key under the collation, then by original index.
    Two tabs whose bucket and sort keys tie keep their input order.  This
    holds in both variants. *)
Theorem scope_order {P : Platform} (Collation : Consistent localeCompare)
    (tabs : list Tab.t) (startIndex groupId : Z) (Hne : tabs <> []) :
  ((forall tab, In tab tabs ->
      exists url, Background.resolveTabUrl tab = Normal url) ->
   exists ds, Background.decorate tabs = Normal ds)
  /\
  (forall ds, Background.decorate tabs = Normal ds ->
     List.length ds = List.length tabs
     /\ (forall n tab, nth_error tabs n = Some tab ->
           exists d url,
             nth_error ds n = Some d
             /\ Background.resolveTabUrl tab = Normal url
             /\ Background.id d = Tab.id tab
             /\ Background.originalIndex d = Z.of_nat n
             /\ Background.key d
                = Background.hostname d ++ URL.pathname url
                    ++ URL.search url ++ URL.hash url)
     /\ exists out,
          Permutation out ds
          /\ Ordered (Precedes Background.hostname Background.key
                        Background.originalIndex) out
          /\ (forall i j a b, (i < j)%nat ->
                nth_error out i = Some a -> nth_error out j = Some b ->
                localeCompare (Background.hostname a) (Background.hostname b)
                = 0 ->
                localeCompare (Background.key a) (Background.key b) = 0 ->
                Background.originalIndex a < Background.originalIndex b)
          /\ Background.sortTabsScope tabs startIndex groupId
             = (_ <- await (tabs_move (map Background.id out) startIndex) ;;
                if groupId >? -1
                then await (tabs_group groupId (map Background.id out))
                else Ret tt))
  /\
  ((forall tab, In tab tabs ->
      exists url, Part000.resolveTabUrl tab = Normal url) ->
   exists ds, Part000.decorate tabs = Normal ds)
  /\
  (forall ds, Part000.decorate tabs = Normal ds ->
     List.length ds = List.length tabs
     /\ (forall n tab, nth_error tabs n = Some tab ->
           exists d url,
             nth_error ds n = Some d
             /\ Part000.resolveTabUrl tab = Normal url
             /\ Part000.id d = Tab.id tab
             /\ Part000.originalIndex d = Z.of_nat n
             /\ Part000.sortKey d
                = Part000.hostKey d ++ URL.pathname url ++ URL.search url
                    ++ URL.hash url)
     /\ exists out,
          Permutation out ds
          /\ Ordered (Precedes Part000.hostKey Part000.sortKey
                        Part000.originalIndex) out
          /\ (forall i j a b, (i < j)%nat ->
                nth_error out i = Some a -> nth_error out j = Some b ->
                localeCompare (Part000.hostKey a) (Part000.hostKey b) = 0 ->
                localeCompare (Part000.sortKey a) (Part000.sortKey b) = 0 ->
                Part000.originalIndex a < Part000.originalIndex b)
          /\ Part000.sortTabsScope tabs startIndex groupId
             = (_ <- await (tabs_move (map Part000.id out) startIndex) ;;
                if groupId >? -1
                then await (tabs_group groupId (map Part000.id out))
                else Ret tt)).
Proof.
  split; [|split; [|split]].
  - intros Hall. apply mapWithIndexFrom_normal. intros tab j Hin.
    destruct (Hall tab Hin) as [url Hu]. unfold Background.decorateTab.
    rewrite Hu. eauto.
  - intros ds Hds.
    split; [exact (mapWithIndexFrom_length _ _ _ Hds)|]. split.
    + intros n tab Hn.
      destruct (mapWithIndexFrom_each _ _ _ _ _ _ Hds n tab Hn)
        as (d & Hd & Hf).
      simpl in Hf. unfold Background.decorateTab in Hf.
      destruct (Background.resolveTabUrl tab) as [url|] eqn:Hu;
        [|discriminate].
      injection Hf as <-. eexists. exists url. split; [exact Hd|].
      simpl. now repeat split.
    + exists (Array_sort Background.compareDecorated ds).
      destruct (scope_sorted Collation _ Background.hostname Background.key
                  _ _ _ background_fields tabs ds Hds) as [Hp Ho].
      split; [exact Hp|]. split; [exact Ho|]. split.
      * intros i j a b Hij Hi Hj Hh Hk.
        destruct (Ho i j a b Hij Hi Hj) as [H|[[_ H]|(_ & _ & H)]]; lia.
      * apply background_scope_requests; [exact Hne|].
        unfold Background.sortedIds. now rewrite Hds.
  - intros Hall. apply mapWithIndexFrom_normal. intros tab j Hin.
    destruct (Hall tab Hin) as [url Hu]. unfold Part000.decorateTab.
    rewrite Hu. eauto.
  - intros ds Hds.
    split; [exact (mapWithIndexFrom_length _ _ _ Hds)|]. split.
    + intros n tab Hn.
      destruct (mapWithIndexFrom_each _ _ _ _ _ _ Hds n tab Hn)
        as (d & Hd & Hf).
      simpl in Hf. unfold Part000.decorateTab in Hf.
      destruct (Part000.resolveTabUrl tab) as [url|] eqn:Hu;
        [|discriminate].
      injection Hf as <-. eexists. exists url. split; [exact Hd|].
      simpl. now repeat split.
    + exists (Array_sort Part000.compareDecorated ds).
      destruct (scope_sorted Collation _ Part000.hostKey Part000.sortKey
                  _ _ _ part000_fields tabs ds Hds) as [Hp Ho].
      split; [exact Hp|]. split; [exact Ho|]. split.
      * intros i j a b Hij Hi Hj Hh Hk.
        destruct (Ho i j a b Hij Hi Hj) as [H|[[_ H]|(_ & _ & H)]]; lia.
      * apply part000_scope_requests; [exact Hne|].
        unfold Part000.sortedIds. now rewrite Hds.
Qed.

Lemma map_fst_combine_same (A B : Type) (l : list A) (l' : list B) :
  List.length l' = List.length l -> map fst (combine l l') = l.
Proof.
  revert l'. induction l as [|x l IH]; intros [|y l'] H; simpl in *;
    try discriminate; [reflexivity|].
  f_equal. apply IH. lia.
Qed.

(** [arrange] rearranges: it neither adds nor drops a tab. *)
Lemma arrange_perm (D : Type) (dec : Tab.t -> Z -> Completion D)
    (cmp : D -> D -> Z) tabs tabs' :
  arrange dec cmp tabs = Normal tabs' -> Permutation tabs' tabs.
Proof.
  unfold arrange. destruct (mapWithIndex dec tabs) as [ds|] eqn:H;
    [|discriminate].
  intros E. injection E as <-.
  rewrite <- (map_fst_combine_same _ _ tabs ds) at 2
    by exact (mapWithIndexFrom_length _ _ _ H).
  apply Permutation_map, Array_sort_perm.
Qed.

(** C7.  Sorting a scope is idempotent, in both variants: take the tabs in
    the order of the identifiers the sorter lists ([arrange]); given this
    list, the sorter lists the same identifiers again, which is the order
    the tabs already stand in, so the second pass moves no tab. *)
Theorem sort_idempotent {P : Platform}
    (Collation : Consistent localeCompare) (tabs : list Tab.t) :
  (forall ids, Background.sortedIds tabs = Normal ids ->
     exists tabs',
       arrange Background.decorateTab Background.compareDecorated tabs
       = Normal tabs'
       /\ Permutation tabs' tabs
       /\ map Tab.id tabs' = ids
       /\ Background.sortedIds tabs' = Normal (map Tab.id tabs'))
  /\
  (forall ids, Part000.sortedIds tabs = Normal ids ->
     exists tabs',
       arrange Part000.decorateTab Part000.compareDecorated tabs
       = Normal tabs'
       /\ Permutation tabs' tabs
       /\ map Tab.id tabs' = ids
       /\ Part000.sortedIds tabs' = Normal (map Tab.id tabs')).
Proof.
  split; intros ids Hids.
  - unfold Background.sortedIds in Hids.
    destruct (Background.decorate tabs) as [ds|] eqn:Hds; [|discriminate].
    injection Hids as <-.
    assert (Ha : exists tabs',
               arrange Background.decorateTab Background.compareDecorated tabs
               = Normal tabs').
    { unfold arrange. unfold Background.decorate in Hds. rewrite Hds. eauto. }
    destruct Ha as [tabs' Ha]. exists tabs'.
    destruct (scope_idempotent Collation _ Background.hostname Background.key
                Background.originalIndex Background.id Background.decorateTab
                background_fields background_shift tabs ds tabs' Hds Ha)
      as (Hid & ds' & Hds' & Hsame & Hids').
    split; [exact Ha|]. split; [exact (arrange_perm _ _ _ _ _ Ha)|].
    split; [exact Hid|].
    unfold Background.sortedIds, Background.decorate. rewrite Hds'.
    rewrite background_compare, Hsame. now f_equal.
  - unfold Part000.sortedIds in Hids.
    destruct (Part000.decorate tabs) as [ds|] eqn:Hds; [|discriminate].
    injection Hids as <-.
    assert (Ha : exists tabs',
               arrange Part000.decorateTab Part000.compareDecorated tabs
               = Normal tabs').
    { unfold arrange. unfold Part000.decorate in Hds. rewrite Hds. eauto. }
    destruct Ha as [tabs' Ha]. exists tabs'.
    destruct (scope_idempotent Collation _ Part000.hostKey Part000.sortKey
                Part000.originalIndex Part000.id Part000.decorateTab
                part000_fields part000_shift tabs ds tabs' Hds Ha)
      as (Hid & ds' & Hds' & Hsame & Hids').
    split; [exact Ha|]. split; [exact (arrange_perm _ _ _ _ _ Ha)|].
    split; [exact Hid|].
    unfold Part000.sortedIds, Part000.decorate. rewrite Hds'.
    rewrite part000_compare, Hsame. now f_equal.
Qed.

(* ================================================================== *)
(** * Runs against a browser *)
(* ================================================================== *)

Section Runs.
Context {S : Type} (h : Host S).

Lemma run_bind (R T : Type) (p : Prog R) (f : R -> Prog T) s :
  run h (bind p f) s
  = let '(s1, l1, o1) := run h p s in
    match o1 with
    | Normal r =>
        let '(s2, l2, o2) := run h (f r) s1 in (s2, (l1 ++ l2)%list, o2)
    | Throws e => (s1, l1, Throws e)
    end.
Proof.
  revert s. induction p as [r|e|X c k IH]; intros s; simpl.
  - now destruct (run h (f r) s) as [[s2 l2] o2].
  - reflexivity.
  - destruct (respond h c s) as [s1 a]. rewrite IH.
    destruct (run h (k a) s1) as [[s2 l2] [r|e]]; [|reflexivity].
    now destruct (run h (f r) s2) as [[s3 l3] o3].
Qed.

Lemma run_await (X : Type) (c : Request X) s :
  run h (await c) s
  = (fst (respond h c s), [exchange c (snd (respond h c s))],
     snd (respond h c s)).
Proof.
  unfold await. simpl. now destruct (respond h c s) as [s1 [x|e]].
Qed.
End Runs.

(** C6.  The move request of the scope sorter lists the identities of the
    tabs it was given, each as often as the input holds it: every move
    request in a run of [sortTabsScope] carries a permutation of the input
    identities and the start index, and a run on a non-empty list whose tabs
    all resolve sends exactly one such request.  This holds in both variants
    and against every browser. *)
Theorem scope_identities {P : Platform} (tabs : list Tab.t)
    (startIndex groupId : Z) :
  (forall (S : Type) (h : Host S) (s : S) ids i,
     In (ids, i)
        (movesOf (logOf h (Background.sortTabsScope tabs startIndex groupId) s))
     -> Permutation ids (map Tab.id tabs) /\ i = startIndex)
  /\ (forall (S : Type) (h : Host S) (s : S) ids i,
        In (ids, i)
           (movesOf (logOf h (Part000.sortTabsScope tabs startIndex groupId) s))
        -> Permutation ids (map Tab.id tabs) /\ i = startIndex)
  /\ (tabs <> [] ->
      forall ds, Background.decorate tabs = Normal ds ->
      exists ids,
        Background.sortedIds tabs = Normal ids
        /\ Permutation ids (map Tab.id tabs)
        /\ forall (S : Type) (h : Host S) (s : S),
             movesOf (logOf h (Background.sortTabsScope tabs startIndex groupId)
                        s)
             = [(ids, startIndex)])
  /\ (tabs <> [] ->
      forall ds, Part000.decorate tabs = Normal ds ->
      exists ids,
        Part000.sortedIds tabs = Normal ids
        /\ Permutation ids (map Tab.id tabs)
        /\ forall (S : Type) (h : Host S) (s : S),
             movesOf (logOf h (Part000.sortTabsScope tabs startIndex groupId) s)
             = [(ids, startIndex)]).
Proof.
  assert (Hlog : forall ids (S : Type) (h : Host S) (s : S),
             movesOf (logOf h (_ <- await (tabs_move ids startIndex) ;;
                               if groupId >? -1
                               then await (tabs_group groupId ids)
                               else Ret tt) s)
             = [(ids, startIndex)]).
  { intros ids S h s. unfold logOf. simpl.
    destruct (respond h (tabs_move ids startIndex) s) as [s1 [[]|e]]; simpl;
      [|reflexivity].
    destruct (groupId >? -1); simpl; [|reflexivity].
    now destruct (respond h (tabs_group groupId ids) s1) as [s2 [[]|e]]. }
  assert (HB : forall ds, Background.decorate tabs = Normal ds ->
             exists ids, Background.sortedIds tabs = Normal ids
                         /\ Permutation ids (map Tab.id tabs)).
  { intros ds Hds. unfold Background.sortedIds. rewrite Hds.
    eexists. split; [reflexivity|].
    exact (scope_ids_perm _ Background.hostname Background.key _ _ _
             background_fields tabs ds Hds). }
  assert (HP : forall ds, Part000.decorate tabs = Normal ds ->
             exists ids, Part000.sortedIds tabs = Normal ids
                         /\ Permutation ids (map Tab.id tabs)).
  { intros ds Hds. unfold Part000.sortedIds. rewrite Hds.
    eexists. split; [reflexivity|].
    exact (scope_ids_perm _ Part000.hostKey Part000.sortKey _ _ _
             part000_fields tabs ds Hds). }
  repeat split.
  - destruct tabs as [|t l] eqn:Et; [contradiction|]. rewrite <- Et in *.
    assert (Hne : tabs <> []) by (rewrite Et; discriminate).
    destruct (Background.decorate tabs) as [ds|e] eqn:Hds.
    + destruct (HB ds eq_refl) as (ids' & Hids & Hp).
      rewrite (background_scope_requests _ _ _ _ Hne Hids), Hlog in H.
      destruct H as [H|[]]. injection H as <- <-. exact Hp.
    + exfalso. revert H. rewrite Et. unfold Background.sortTabsScope.
      rewrite <- Et. unfold Background.sortedIds. rewrite Hds. simpl. tauto.
  - destruct tabs as [|t l] eqn:Et; [contradiction|]. rewrite <- Et in *.
    assert (Hne : tabs <> []) by (rewrite Et; discriminate).
    destruct (Background.decorate tabs) as [ds|e] eqn:Hds.
    + destruct (HB ds eq_refl) as (ids' & Hids & Hp).
      rewrite (background_scope_requests _ _ _ _ Hne Hids), Hlog in H.
      destruct H as [H|[]]. now injection H as <- <-.
    + exfalso. revert H. rewrite Et. unfold Background.sortTabsScope.
      rewrite <- Et. unfold Background.sortedIds. rewrite Hds. simpl. tauto.
  - destruct tabs as [|t l] eqn:Et; [contradiction|]. rewrite <- Et in *.
    assert (Hne : tabs <> []) by (rewrite Et; discriminate).
    destruct (Part000.decorate tabs) as [ds|e] eqn:Hds.
    + destruct (HP ds eq_refl) as (ids' & Hids & Hp).
      rewrite (part000_scope_requests _ _ _ _ Hne Hids), Hlog in H.
      destruct H as [H|[]]. injection H as <- <-. exact Hp.
    + exfalso. revert H. rewrite Et. unfold Part000.sortTabsScope.
      rewrite <- Et. unfold Part000.sortedIds. rewrite Hds. simpl. tauto.
  - destruct tabs as [|t l] eqn:Et; [contradiction|]. rewrite <- Et in *.
    assert (Hne : tabs <> []) by (rewrite Et; discriminate).
    destruct (Part000.decorate tabs) as [ds|e] eqn:Hds.
    + destruct (HP ds eq_refl) as (ids' & Hids & Hp).
      rewrite (part000_scope_requests _ _ _ _ Hne Hids), Hlog in H.
      destruct H as [H|[]]. now injection H as <- <-.
    + exfalso. revert H. rewrite Et. unfold Part000.sortTabsScope.
      rewrite <- Et. unfold Part000.sortedIds. rewrite Hds. simpl. tauto.
  - intros Hne ds Hds. destruct (HB ds Hds) as (ids & Hids & Hp).
    exists ids. repeat split; try assumption.
    intros S h s. now rewrite (background_scope_requests _ _ _ _ Hne Hids).
  - intros Hne ds Hds. destruct (HP ds Hds) as (ids & Hids & Hp).
    exists ids. repeat split; try assumption.
    intros S h s. now rewrite (part000_scope_requests _ _ _ _ Hne Hids).
Qed.

(* ================================================================== *)
(** * Claims on the classifier *)
(* ================================================================== *)

Lemma startsWith_app s : forall p q,
  startsWith s (p ++ q) = true -> startsWith s p = true.
Proof.
  intros p. revert s. induction p as [|a p IH]; intros s q H; simpl in *;
    [reflexivity|].
  destruct s as [|b s]; [discriminate|].
  apply andb_prop in H. destruct H as [-> H]. simpl. eauto.
Qed.




Example replace_WWW_RE_examples :
  replace_WWW_RE "WwW.Example.com" = "Example.com"
  /\ replace_WWW_RE "www.www.example.com" = "www.example.com"
  /\ replace_WWW_RE "wwwexample.com" = "wwwexample.com"
  /\ replace_WWW_RE "a.www.example.com" = "a.www.example.com"
  /\ toLowerCase (replace_WWW_RE "WWW.Example.COM:8080") = "example.com:8080".
Proof. repeat split; reflexivity. Qed.

Section Classifier.
Context {P : Platform}.
Hypothesis Parser : URLParser URL_parse.

(** An address that begins with one of the four prefixes of browser pages
    parses, if at all, with the scheme of that prefix. *)
Lemma internal_prefix_scheme raw u :
  startsWith raw "chrome://" || startsWith raw "about:"
  || startsWith raw "edge://" || startsWith raw "brave://" = true ->
  URL_parse raw = Some u ->
  URL.protocol u = "chrome:" \/ URL.protocol u = "about:"
  \/ URL.protocol u = "edge:" \/ URL.protocol u = "brave:".
Proof.
  intros H Hu.
  repeat (apply orb_prop in H; destruct H as [H|H]).
  - left. apply (scheme_of_prefix Parser "chrome:" raw u);
      [simpl; tauto| |exact Hu].
    exact (startsWith_app raw "chrome:" "//" H).
  - right. left. apply (scheme_of_prefix Parser "about:" raw u);
      [simpl; tauto|exact H|exact Hu].
  - right. right. left. apply (scheme_of_prefix Parser "edge:" raw u);
      [simpl; tauto| |exact Hu].
    exact (startsWith_app raw "edge:" "//" H).
  - right. right. right. apply (scheme_of_prefix Parser "brave:" raw u);
      [simpl; tauto| |exact Hu].
    exact (startsWith_app raw "brave:" "//" H).
Qed.

(** [resolveTabUrl] of [src/unnamed/part_000] returns the parsed address
    when its scheme is none of the four of browser pages. *)
Lemma part000_resolve_parsed tab u :
  URL_parse (effectiveAddress tab) = Some u ->
  URL.protocol u <> "chrome:" -> URL.protocol u <> "about:" ->
  URL.protocol u <> "edge:" -> URL.protocol u <> "brave:" ->
  Part000.resolveTabUrl tab = Normal u.
Proof.
  intros Hu N1 N2 N3 N4. unfold Part000.resolveTabUrl, new_URL.
  destruct (startsWith (effectiveAddress tab) "chrome-extension://");
    [now rewrite Hu|].
  destruct (startsWith (effectiveAddress tab) "chrome://"
            || startsWith (effectiveAddress tab) "about:"
            || startsWith (effectiveAddress tab) "edge://"
            || startsWith (effectiveAddress tab) "brave://") eqn:E.
  - destruct (internal_prefix_scheme _ _ E Hu) as [H|[H|[H|H]]];
      contradiction.
  - now rewrite Hu.
Qed.

Lemma background_resolve_parsed tab u :
  URL_parse (effectiveAddress tab) = Some u ->
  Background.resolveTabUrl tab = Normal u.
Proof.
  intros Hu. unfold Background.resolveTabUrl, new_URL. now rewrite Hu.
Qed.
End Classifier.

(** C3, as the code has it.  For a tab whose effective address (the pending
    address when there is a non-empty one, else the committed address)
    parses with the scheme [chrome-extension], [src/unnamed/part_000] gives
    the bucket key ["ext:"] followed by the host of the address;
    [src/background.js] has no case for extension pages and gives the host
    in lower case without a leading [www.]. *)
Theorem extension_bucket {P : Platform} (Parser : URLParser URL_parse)
    (tab : Tab.t) (u : URL.t) (i : Z)
    (Hparse : URL_parse (effectiveAddress tab) = Some u)
    (Hscheme : URL.protocol u = "chrome-extension:") :
  (exists d, Part000.decorateTab tab i = Normal d
             /\ Part000.hostKey d = "ext:" ++ URL.host u)
  /\ (exists d, Background.decorateTab tab i = Normal d
                /\ Background.hostname d
                   = toLowerCase (replace_WWW_RE (URL.host u))).
Proof.
  split.
  - unfold Part000.decorateTab.
    rewrite (part000_resolve_parsed Parser tab u Hparse)
      by (rewrite Hscheme; discriminate).
    eexists. split; [reflexivity|]. simpl.
    unfold Part000.hostKeyOf. now rewrite Hscheme.
  - unfold Background.decorateTab.
    rewrite (background_resolve_parsed tab u Hparse).
    eexists. split; reflexivity.
Qed.

(** C3 as stated fails on [src/background.js]: the extension page
    [chrome-extension://abcdef/page.html] gets the bucket key [abcdef]. *)
Lemma extension_bucket_counterexample :
  let tab := Reference.tab 1 "chrome-extension://abcdef/page.html" in
  exists u d,
    Reference.URL_parse (effectiveAddress tab) = Some u
    /\ URL.protocol u = "chrome-extension:"
    /\ Background.decorateTab (P := Reference.platform) tab 0 = Normal d
    /\ Background.hostname d = "abcdef"
    /\ Background.hostname d <> "ext:" ++ URL.host u.
Proof.
  simpl. eexists. eexists.
  split; [reflexivity|]. split; [reflexivity|]. split; [reflexivity|].
  split; [reflexivity|discriminate].
Qed.




Section Placeholders.
Context {P : Platform}.
Hypothesis Parser : URLParser URL_parse.

(** The placeholder of [src/background.js] and its decoration. *)
Lemma background_invalid tab i :
  URL_parse (effectiveAddress tab) = None ->
  exists u d,
    URL_parse ("http://invalid/" ++ encodeURIComponent (effectiveAddress tab))
    = Some u
    /\ URL.protocol u = "http:" /\ URL.host u = "invalid"
    /\ Background.resolveTabUrl tab = Normal u
    /\ Background.decorateTab tab i = Normal d
    /\ Background.id d = Tab.id tab
    /\ Background.originalIndex d = i
    /\ Background.hostname d = "invalid"
    /\ Background.key d
       = "invalid" ++ URL.pathname u ++ URL.search u ++ URL.hash u.
Proof.
  intros Hfail.
  destruct (placeholder_parses Parser "invalid" (effectiveAddress tab))
    as (u & Hu & Hp & Hh); [now right|].
  assert (Hr : Background.resolveTabUrl tab = Normal u).
  { unfold Background.resolveTabUrl, new_URL. rewrite Hfail.
    simpl in Hu. simpl. now rewrite Hu. }
  exists u. eexists. split; [exact Hu|]. split; [exact Hp|].
  split; [exact Hh|]. split; [exact Hr|].
  unfold Background.decorateTab. rewrite Hr, Hh.
  split; [reflexivity|]. simpl. now repeat split.
Qed.

(** The placeholders of [src/unnamed/part_000], for an address without the
    extension prefix: [internal] for the prefixes of browser pages,
    [invalid] for an address that does not parse. *)
Lemma part000_placeholder tab i :
  startsWith (effectiveAddress tab) "chrome-extension://" = false ->
  internalPrefix (effectiveAddress tab) = true
  \/ URL_parse (effectiveAddress tab) = None ->
  let h := if internalPrefix (effectiveAddress tab)
           then "internal" else "invalid" in
  exists u d,
    URL_parse ("http://" ++ h ++ "/"
                 ++ encodeURIComponent (effectiveAddress tab)) = Some u
    /\ URL.protocol u = "http:" /\ URL.host u = h
    /\ Part000.resolveTabUrl tab = Normal u
    /\ Part000.decorateTab tab i = Normal d
    /\ Part000.id d = Tab.id tab
    /\ Part000.originalIndex d = i
    /\ Part000.hostKey d = h
    /\ Part000.sortKey d = h ++ URL.pathname u ++ URL.search u ++ URL.hash u.
Proof.
  intros Hext Hcase h.
  assert (Hh : h = "internal" \/ h = "invalid")
    by (unfold h; destruct (internalPrefix _); tauto).
  destruct (placeholder_parses Parser h (effectiveAddress tab) Hh)
    as (u & Hu & Hp & Hhost).
  assert (Hr : Part000.resolveTabUrl tab = Normal u).
  { unfold Part000.resolveTabUrl, new_URL. rewrite Hext.
    fold (internalPrefix (effectiveAddress tab)).
    unfold h in Hu. destruct (internalPrefix (effectiveAddress tab)).
    - simpl in Hu. simpl. now rewrite Hu.
    - destruct Hcase as [Hcase| ->]; [discriminate|].
      simpl in Hu. simpl. now rewrite Hu. }
  exists u. eexists. split; [exact Hu|]. split; [exact Hp|].
  split; [exact Hhost|]. split; [exact Hr|].
  unfold Part000.decorateTab. rewrite Hr.
  split; [reflexivity|]. simpl.
  assert (Hk : Part000.hostKeyOf u = h).
  { unfold Part000.hostKeyOf. rewrite Hp, Hhost. simpl.
    destruct Hh as [-> | ->]; reflexivity. }
  rewrite Hk. now repeat split.
Qed.
End Placeholders.

(** C9, as the code has it.  Take a tab whose effective address does not
    parse.  [src/background.js] resolves it to the placeholder
    [http://invalid/<encoded address>], with bucket key [invalid], and its
    sorter never throws, whatever the tabs.  [src/unnamed/part_000] does
    the same when the address begins with none of its five prefixes; when
    the address begins with [chrome://], [about:], [edge://] or [brave://]
    the placeholder is [http://internal/<encoded address>] and the bucket
    key is [internal]; and its sorter does not throw on tabs that lack the
    extension prefix. *)
Theorem unparseable_address {P : Platform} (Parser : URLParser URL_parse)
    (tab : Tab.t) (i : Z)
    (Hfail : URL_parse (effectiveAddress tab) = None) :
  (exists u d,
     URL_parse ("http://invalid/" ++ encodeURIComponent (effectiveAddress tab))
     = Some u
     /\ Background.resolveTabUrl tab = Normal u
     /\ Background.decorateTab tab i = Normal d
     /\ Background.hostname d = "invalid")
  /\ (forall tabs, exists ids, Background.sortedIds tabs = Normal ids)
  /\ (startsWith (effectiveAddress tab) "chrome-extension://" = false ->
      internalPrefix (effectiveAddress tab) = false ->
      exists u d,
        URL_parse ("http://invalid/"
                     ++ encodeURIComponent (effectiveAddress tab)) = Some u
        /\ Part000.resolveTabUrl tab = Normal u
        /\ Part000.decorateTab tab i = Normal d
        /\ Part000.hostKey d = "invalid")
  /\ (startsWith (effectiveAddress tab) "chrome-extension://" = false ->
      internalPrefix (effectiveAddress tab) = true ->
      exists u d,
        URL_parse ("http://internal/"
                     ++ encodeURIComponent (effectiveAddress tab)) = Some u
        /\ Part000.resolveTabUrl tab = Normal u
        /\ Part000.decorateTab tab i = Normal d
        /\ Part000.hostKey d = "internal")
  /\ (forall tabs,
        (forall t, In t tabs ->
           startsWith (effectiveAddress t) "chrome-extension://" = false) ->
        exists ids, Part000.sortedIds tabs = Normal ids).
Proof.
  split; [|split; [|split; [|split]]].
  - destruct (background_invalid Parser tab i Hfail)
      as (u & d & Hu & _ & _ & Hr & Hd & _ & _ & Hh & _).
    exists u, d. now repeat split.
  - intros tabs. unfold Background.sortedIds.
    destruct (background_decorates Parser tabs) as [ds ->]. eauto.
  - intros Hext Hint.
    destruct (part000_placeholder Parser tab i Hext (or_intror Hfail))
      as (u & d & Hu & _ & _ & Hr & Hd & _ & _ & Hh & _).
    rewrite Hint in *. exists u, d. now repeat split.
  - intros Hext Hint.
    destruct (part000_placeholder Parser tab i Hext (or_intror Hfail))
      as (u & d & Hu & _ & _ & Hr & Hd & _ & _ & Hh & _).
    rewrite Hint in *. exists u, d. now repeat split.
  - intros tabs Hext. unfold Part000.sortedIds.
    destruct (@mapWithIndexFrom_normal _ _ Part000.decorateTab 0 tabs)
      as [ds Hds].
    + intros t j Hin. unfold Part000.decorateTab.
      destruct (URL_parse (effectiveAddress t)) as [u|] eqn:Hu.
      * destruct (internalPrefix (effectiveAddress t)) eqn:Hi.
        -- destruct (part000_placeholder Parser t j (Hext t Hin)
                       (or_introl Hi)) as (u' & d & _ & _ & _ & Hr & _).
           rewrite Hr. eauto.
        -- unfold Part000.resolveTabUrl, new_URL. rewrite (Hext t Hin).
           fold (internalPrefix (effectiveAddress t)). rewrite Hi, Hu. eauto.
      * destruct (part000_placeholder Parser t j (Hext t Hin)
                    (or_intror Hu)) as (u' & d & _ & _ & _ & Hr & _).
        rewrite Hr. eauto.
    + unfold Part000.decorate, mapWithIndex. rewrite Hds. eauto.
Qed.

(** C9 as stated fails on [src/unnamed/part_000]: the address
    [chrome://a:b/] does not parse, and its bucket key is [internal]. *)
Lemma unparseable_address_counterexample :
  let tab := Reference.tab 1 "chrome://a:b/" in
  Reference.URL_parse (effectiveAddress tab) = None
  /\ exists d,
       Part000.decorateTab (P := Reference.platform) tab 0 = Normal d
       /\ Part000.hostKey d = "internal"
       /\ Part000.hostKey d <> "invalid".
Proof.
  simpl. split; [reflexivity|]. eexists.
  split; [reflexivity|]. split; [reflexivity|discriminate].
Qed.

(** The early [return new URL(raw)] of [src/unnamed/part_000] is outside
    the [try]: an address with the extension prefix that does not parse
    makes [resolveTabUrl] throw, the sorter sends no request and the
    exception leaves [sortTabsScope]; [src/background.js] sorts the same
    tabs. *)
Lemma part000_extension_prefix_throws :
  let bad := Reference.tab 2 "chrome-extension://abc:xyz/page.html" in
  let tabs := [Reference.tab 1 "https://example.com/"; bad] in
  Reference.URL_parse (effectiveAddress bad) = None
  /\ Part000.resolveTabUrl (P := Reference.platform) bad = Throws TypeError
  /\ Part000.sortTabsScope (P := Reference.platform) tabs 0 (-1)
     = Throw TypeError
  /\ Background.sortedIds (P := Reference.platform) tabs = Normal [1; 2].
Proof. simpl. repeat split; reflexivity. Qed.

(* ================================================================== *)
(** * The two variants side by side *)
(* ================================================================== *)

Lemma asPart000_compare {P : Platform} a b :
  Part000.compareDecorated (asPart000 a) (asPart000 b)
  = Background.compareDecorated a b.
Proof. reflexivity. Qed.

Lemma decorate_alike {P : Platform} tabs :
  (forall t j, In t tabs ->
     exists b, Background.decorateTab t j = Normal b
               /\ Part000.decorateTab t j = Normal (asPart000 b)) ->
  forall i, exists ds,
    mapWithIndexFrom Background.decorateTab i tabs = Normal ds
    /\ mapWithIndexFrom Part000.decorateTab i tabs = Normal (map asPart000 ds).
Proof.
  induction tabs as [|t tabs IH]; intros H i; simpl.
  - exists []. now split.
  - destruct (H t i (or_introl eq_refl)) as (b & -> & ->).
    destruct (IH (fun t' j Hin => H t' j (or_intror Hin)) (i + 1))
      as (ds & -> & ->).
    exists (b :: ds). now split.
Qed.

(** C10, as the code has it.  On a tab whose effective address does not
    begin with [chrome-extension://] and either parses with the scheme
    [http] or [https], or does not parse and begins with none of
    [chrome://], [about:], [edge://], [brave://], the two variants build
    the same decoration: same identity, index, bucket key and sort key.  On
    a scope of such tabs both sorters list the same identifiers. *)
Theorem variants_agree {P : Platform} (Parser : URLParser URL_parse) :
  (forall tab i, CommonAddress (effectiveAddress tab) ->
     exists b p,
       Background.decorateTab tab i = Normal b
       /\ Part000.decorateTab tab i = Normal p
       /\ Part000.id p = Background.id b
       /\ Part000.originalIndex p = Background.originalIndex b
       /\ Part000.hostKey p = Background.hostname b
       /\ Part000.sortKey p = Background.key b)
  /\ (forall tabs,
        (forall tab, In tab tabs -> CommonAddress (effectiveAddress tab)) ->
        exists ids, Background.sortedIds tabs = Normal ids
                    /\ Part000.sortedIds tabs = Normal ids).
Proof.
  assert (Hone : forall tab i, CommonAddress (effectiveAddress tab) ->
            exists b, Background.decorateTab tab i = Normal b
                      /\ Part000.decorateTab tab i = Normal (asPart000 b)).
  { intros tab i [Hext [(u & Hu & Hs)|[Hfail Hint]]].
    - unfold Background.decorateTab, Part000.decorateTab.
      rewrite (background_resolve_parsed tab u Hu).
      rewrite (part000_resolve_parsed Parser tab u Hu)
        by (destruct Hs as [-> | ->]; discriminate).
      eexists. split; [reflexivity|].
      unfold asPart000, Part000.hostKeyOf. simpl.
      now destruct Hs as [-> | ->].
    - destruct (background_invalid Parser tab i Hfail)
        as (u & b & Hu & _ & _ & _ & Hb & Hbi & Hbo & Hbh & Hbk).
      destruct (part000_placeholder Parser tab i Hext (or_intror Hfail))
        as (u' & p & Hu' & _ & _ & _ & Hp & Hpi & Hpo & Hph & Hpk).
      rewrite Hint in *. simpl in Hu, Hu'.
      assert (u' = u) by congruence. subst u'.
      exists b. split; [exact Hb|]. rewrite Hp. f_equal.
      destruct p, b. unfold asPart000. simpl in *. congruence. }
  split.
  - intros tab i Hc. destruct (Hone tab i Hc) as (b & Hb & Hp).
    exists b, (asPart000 b). now repeat split.
  - intros tabs Hc.
    destruct (decorate_alike tabs (fun t j Hin => Hone t j (Hc t Hin)) 0)
      as (ds & Hb & Hp).
    unfold Background.sortedIds, Part000.sortedIds, Background.decorate,
      Part000.decorate, mapWithIndex.
    rewrite Hb, Hp. eexists. split; [reflexivity|]. f_equal.
    rewrite <- (Array_sort_map asPart000 Background.compareDecorated
                  Part000.compareDecorated asPart000_compare).
    rewrite map_map. reflexivity.
Qed.

(** C10 as stated fails at the address [chrome://a:b/]: it does not begin
    with the extension prefix and does not parse, and the bucket key is
    [invalid] in [src/background.js] and [internal] in
    [src/unnamed/part_000]. *)
Lemma variants_agree_counterexample :
  let tab := Reference.tab 1 "chrome://a:b/" in
  startsWith (effectiveAddress tab) "chrome-extension://" = false
  /\ Reference.URL_parse (effectiveAddress tab) = None
  /\ exists b p,
       Background.decorateTab (P := Reference.platform) tab 0 = Normal b
       /\ Part000.decorateTab (P := Reference.platform) tab 0 = Normal p
       /\ Background.hostname b = "invalid"
       /\ Part000.hostKey p = "internal"
       /\ Background.hostname b <> Part000.hostKey p.
Proof.
  simpl. split; [reflexivity|]. split; [reflexivity|]. eexists. eexists.
  split; [reflexivity|]. split; [reflexivity|].
  split; [reflexivity|]. split; [reflexivity|discriminate].
Qed.

(* ================================================================== *)
(** * Browser pages *)
(* ================================================================== *)

(** Tabs of one bucket stand together in the sorted output: between two
    decorations of the bucket [internal], every decoration has a bucket key
    that collates equal to [internal]. *)
Lemma internal_block {P : Platform} (Collation : Consistent localeCompare)
    tabs ds i k j a c b :
  Part000.decorate tabs = Normal ds ->
  (i < k < j)%nat ->
  nth_error (Array_sort Part000.compareDecorated ds) i = Some a ->
  nth_error (Array_sort Part000.compareDecorated ds) k = Some c ->
  nth_error (Array_sort Part000.compareDecorated ds) j = Some b ->
  Part000.hostKey a = "internal" -> Part000.hostKey b = "internal" ->
  localeCompare (Part000.hostKey c) "internal" = 0.
Proof.
  intros Hds [Hik Hkj] Ha Hc Hb Ea Eb.
  destruct (scope_sorted Collation _ Part000.hostKey Part000.sortKey
              _ _ _ part000_fields tabs ds Hds) as [_ Ho].
  pose proof (Ho i k a c Hik Ha Hc) as Hac.
  pose proof (Ho k j c b Hkj Hc Hb) as Hcb.
  unfold Precedes in Hac, Hcb. rewrite Ea in Hac. rewrite Eb in Hcb.
  pose proof (cmp_refl Collation "internal") as R.
  pose proof (cmp_antisym Collation "internal" (Part000.hostKey c)) as A.
  lia.
Qed.

(** C2, as the code has it.  In [src/unnamed/part_000] the addresses
    [chrome://settings] and [about:blank] are resolved to placeholders under
    the host [internal] and both get the bucket key [internal]; in the
    sorted output of any scope, whatever stands between two tabs of the
    bucket [internal] has a bucket key that collates equal to [internal];
    and a scope of these two tabs alone lists the two, one after the other.
    [src/background.js] has no such bucket: it takes the host of the parsed
    address. *)
Theorem internal_pages {P : Platform} (Collation : Consistent localeCompare)
    (Parser : URLParser URL_parse) (settings blank : Tab.t)
    (Hs : effectiveAddress settings = "chrome://settings")
    (Hb : effectiveAddress blank = "about:blank") :
  (forall i, exists us ub ds db,
     URL_parse "http://internal/chrome%3A%2F%2Fsettings" = Some us
     /\ URL_parse "http://internal/about%3Ablank" = Some ub
     /\ Part000.resolveTabUrl settings = Normal us
     /\ Part000.resolveTabUrl blank = Normal ub
     /\ URL.host us = "internal" /\ URL.host ub = "internal"
     /\ Part000.decorateTab settings i = Normal ds
     /\ Part000.decorateTab blank i = Normal db
     /\ Part000.hostKey ds = "internal"
     /\ Part000.hostKey db = "internal")
  /\ (forall tabs ds i k j a c b,
        Part000.decorate tabs = Normal ds ->
        (i < k < j)%nat ->
        nth_error (Array_sort Part000.compareDecorated ds) i = Some a ->
        nth_error (Array_sort Part000.compareDecorated ds) k = Some c ->
        nth_error (Array_sort Part000.compareDecorated ds) j = Some b ->
        Part000.hostKey a = "internal" -> Part000.hostKey b = "internal" ->
        localeCompare (Part000.hostKey c) "internal" = 0)
  /\ (forall tabs,
        tabs = [settings; blank] \/ tabs = [blank; settings] ->
        Part000.sortedIds tabs = Normal [Tab.id settings; Tab.id blank]
        \/ Part000.sortedIds tabs = Normal [Tab.id blank; Tab.id settings])
  /\ (forall u i, URL_parse "chrome://settings" = Some u ->
        exists d, Background.decorateTab settings i = Normal d
                  /\ Background.hostname d
                     = toLowerCase (replace_WWW_RE (URL.host u)))
  /\ (forall u i, URL_parse "about:blank" = Some u ->
        exists d, Background.decorateTab blank i = Normal d
                  /\ Background.hostname d
                     = toLowerCase (replace_WWW_RE (URL.host u))).
Proof.
  assert (Hdec : forall i, exists us ub ds db,
     URL_parse "http://internal/chrome%3A%2F%2Fsettings" = Some us
     /\ URL_parse "http://internal/about%3Ablank" = Some ub
     /\ Part000.resolveTabUrl settings = Normal us
     /\ Part000.resolveTabUrl blank = Normal ub
     /\ URL.host us = "internal" /\ URL.host ub = "internal"
     /\ Part000.decorateTab settings i = Normal ds
     /\ Part000.decorateTab blank i = Normal db
     /\ Part000.hostKey ds = "internal"
     /\ Part000.hostKey db = "internal"
     /\ Part000.id ds = Tab.id settings /\ Part000.id db = Tab.id blank).
  { intros i.
    destruct (part000_placeholder Parser settings i)
      as (us & ds & Hus & _ & Hhs & Hrs & Hds & Hids & _ & Hks & _);
      [now rewrite Hs|left; now rewrite Hs|].
    destruct (part000_placeholder Parser blank i)
      as (ub & db & Hub & _ & Hhb & Hrb & Hdb & Hidb & _ & Hkb & _);
      [now rewrite Hb|left; now rewrite Hb|].
    rewrite Hs in Hus, Hhs, Hks. rewrite Hb in Hub, Hhb, Hkb.
    exists us, ub, ds, db. simpl in *. now repeat split. }
  split; [|split; [|split; [|split]]].
  - intros i. destruct (Hdec i) as (us & ub & ds & db & H).
    exists us, ub, ds, db. tauto.
  - intros tabs ds i k j a c b. apply (internal_block Collation).
  - intros tabs Htabs.
    destruct (Hdec 0) as (us0 & ub0 & s0 & b0 & _ & _ & _ & _ & _ & _
                            & Hs0 & Hb0 & _ & _ & Is0 & Ib0).
    destruct (Hdec (0 + 1)) as (us1 & ub1 & s1 & b1 & _ & _ & _ & _ & _ & _
                                  & Hs1 & Hb1 & _ & _ & Is1 & Ib1).
    unfold Part000.sortedIds, Part000.decorate, mapWithIndex.
    destruct Htabs as [-> | ->]; cbn [mapWithIndexFrom];
      rewrite ?Hs0, ?Hb0, ?Hs1, ?Hb1; simpl;
      match goal with
      | |- context [0 <? ?c] => destruct (0 <? c)
      end; simpl; rewrite ?Is0, ?Ib0, ?Is1, ?Ib1; tauto.
  - intros u i Hu. unfold Background.decorateTab.
    rewrite (background_resolve_parsed settings u) by now rewrite Hs.
    eexists. split; reflexivity.
  - intros u i Hu. unfold Background.decorateTab.
    rewrite (background_resolve_parsed blank u) by now rewrite Hb.
    eexists. split; reflexivity.
Qed.

(** C2 as stated fails on [src/background.js], where [chrome://settings]
    gets the bucket key [settings] and [about:blank] the empty bucket key;
    and in [src/unnamed/part_000] a third browser page can sort between the
    two: [brave://x] does. *)
Lemma internal_pages_counterexample :
  let settings := Reference.tab 1 "chrome://settings" in
  let blank := Reference.tab 2 "about:blank" in
  let brave := Reference.tab 3 "brave://x" in
  (exists d, Background.decorateTab (P := Reference.platform) settings 0
             = Normal d
             /\ Background.hostname d = "settings"
             /\ Background.hostname d <> "internal")
  /\ (exists d, Background.decorateTab (P := Reference.platform) blank 0
                = Normal d
                /\ Background.hostname d = ""
                /\ Background.hostname d <> "internal")
  /\ Part000.sortedIds (P := Reference.platform) [settings; blank; brave]
     = Normal [2; 3; 1].
Proof.
  simpl. split; [|split].
  - eexists. split; [reflexivity|]. split; [reflexivity|discriminate].
  - eexists. split; [reflexivity|]. split; [reflexivity|discriminate].
  - reflexivity.
Qed.

(* ================================================================== *)
(** * Reasoning on runs *)
(* ================================================================== *)

Section Ensures.
Context {S : Type} (h : Host S).

Lemma ensures_ret (R : Type) (r : R) s Q :
  Q s [] (Normal r) -> ensures h (Ret r) s Q.
Proof. exact (fun H => H). Qed.

Lemma ensures_throw (R : Type) e s
    (Q : S -> list Exchange -> Completion R -> Prop) :
  Q s [] (Throws e) -> ensures h (Throw e) s Q.
Proof. exact (fun H => H). Qed.

Lemma ensures_lift (R : Type) (c : Completion R) s Q :
  Q s [] c -> ensures h (lift c) s Q.
Proof. destruct c; exact (fun H => H). Qed.

Lemma ensures_await (X : Type) (c : Request X) s Q :
  Q (fst (respond h c s)) [exchange c (snd (respond h c s))]
    (snd (respond h c s)) ->
  ensures h (await c) s Q.
Proof.
  unfold ensures, finalState, logOf, outcomeOf. now rewrite run_await.
Qed.

Lemma ensures_bind (R T : Type) (p : Prog R) (f : R -> Prog T) s Q :
  ensures h p s
    (fun s1 l1 o1 =>
       match o1 with
       | Normal r =>
           ensures h (f r) s1 (fun s2 l2 o2 => Q s2 (l1 ++ l2)%list o2)
       | Throws e => Q s1 l1 (Throws e)
       end) ->
  ensures h (bind p f) s Q.
Proof.
  unfold ensures, finalState, logOf, outcomeOf. rewrite run_bind.
  destruct (run h p s) as [[s1 l1] [r|e]]; simpl; [|exact (fun H => H)].
  now destruct (run h (f r) s1) as [[s2 l2] o2].
Qed.

Lemma ensures_weaken (R : Type) (p : Prog R) s
    (Q Q' : S -> list Exchange -> Completion R -> Prop) :
  ensures h p s Q -> (forall s' l o, Q s' l o -> Q' s' l o) ->
  ensures h p s Q'.
Proof. unfold ensures. auto. Qed.

Lemma ensures_and (R : Type) (p : Prog R) s
    (Q Q' : S -> list Exchange -> Completion R -> Prop) :
  ensures h p s Q -> ensures h p s Q' ->
  ensures h p s (fun s' l o => Q s' l o /\ Q' s' l o).
Proof. unfold ensures. auto. Qed.
End Ensures.

Lemma updatesOf_app l l' :
  updatesOf (l ++ l') = (updatesOf l ++ updatesOf l')%list.
Proof. apply flat_map_app. Qed.

Lemma movesOf_app l l' : movesOf (l ++ l') = (movesOf l ++ movesOf l')%list.
Proof. apply flat_map_app. Qed.

Lemma groupMovesOf_app l l' :
  groupMovesOf (l ++ l') = (groupMovesOf l ++ groupMovesOf l')%list.
Proof. apply flat_map_app. Qed.

(** The log of the move and the grouping. *)
Lemma moveThenGroup_log {S : Type} (h : Host S) ids i g s :
  ensures h (moveThenGroup ids i g) s
    (fun _ l o =>
       updatesOf l = [] /\ groupMovesOf l = [] /\ movesOf l = [(ids, i)]
       /\ (o = Normal tt ->
           exists rest, l = x_move ids i (Normal tt) :: rest
                        /\ updatesOf rest = [] /\ movesOf rest = [])).
Proof.
  unfold ensures, moveThenGroup, finalState, logOf, outcomeOf. simpl.
  destruct (respond h (tabs_move ids i) s) as [s1 [[]|e]]; simpl.
  - destruct (g >? -1); simpl.
    + destruct (respond h (tabs_group g ids) s1) as [s2 [[]|e]]; simpl;
        repeat split; try discriminate.
      intros _. eexists. now repeat split.
    + repeat split. intros _. exists []. now repeat split.
  - repeat split. discriminate.
Qed.

(** The log of [Promise.all] over the pin requests. *)
Lemma sendAll_log {S : Type} (h : Host S) tabs : forall failed s,
  ensures h (sendAll (map (fun t => tabs_update (Tab.id t) true) tabs) failed)
    s
    (fun _ l o =>
       updatesOf l = map (fun t => (Tab.id t, true)) tabs
       /\ groupMovesOf l = [] /\ movesOf l = []
       /\ (o = Normal tt ->
           failed = None
           /\ l = map (fun t => x_update (Tab.id t) true (Normal tt)) tabs)).
Proof.
  unfold ensures, finalState, logOf, outcomeOf.
  induction tabs as [|t tabs IH]; intros failed s; simpl.
  - destruct failed; simpl; repeat split; try discriminate.
  - destruct (respond h (tabs_update (Tab.id t) true) s) as [s1 r].
    match goal with
    | |- context [sendAll _ ?f] => specialize (IH f s1)
    end.
    destruct (run h _ s1) as [[s2 l2] o2]. simpl in *.
    destruct IH as (Hu & Hg & Hm & Hn).
    split; [now f_equal|]. split; [exact Hg|]. split; [exact Hm|].
    intros Ho. destruct (Hn Ho) as [Hf ->].
    destruct failed; [discriminate|]. destruct r as [[]|e]; [|discriminate].
    now split.
Qed.

(* ================================================================== *)
(** * The logs of the orchestrator *)
(* ================================================================== *)

Ltac run_open :=
  unfold ensures, finalState, logOf, outcomeOf in *.

Section OrchestratorLogs.
Context {P : Platform} {S : Type} (h : Host S).
Variable scope : list Tab.t -> Z -> Z -> Prog unit.

(** A scope sorter returns at once on an empty list, throws before any
    request, or moves and groups a permutation of the identities. *)
Hypothesis scope_cases : forall tabs i g,
  (tabs = [] /\ scope tabs i g = Ret tt)
  \/ (exists e, scope tabs i g = Throw e)
  \/ (exists ids, Permutation ids (map Tab.id tabs)
                  /\ scope tabs i g = moveThenGroup ids i g).

Lemma scope_log tabs i g s :
  ensures h (scope tabs i g) s
    (fun _ l o =>
       updatesOf l = [] /\ groupMovesOf l = []
       /\ (o = Normal tt -> tabs <> [] ->
           exists ids rest,
             Permutation ids (map Tab.id tabs)
             /\ l = x_move ids i (Normal tt) :: rest
             /\ updatesOf rest = [] /\ movesOf rest = [])).
Proof.
  destruct (scope_cases tabs i g) as [[-> ->]|[[e ->]|(ids & Hp & ->)]].
  - run_open. simpl. repeat split. intros _ H. now contradiction H.
  - run_open. simpl. repeat split. discriminate.
  - eapply ensures_weaken; [apply moveThenGroup_log|].
    intros s' l o (Hu & Hg & Hm & Hn). split; [exact Hu|].
    split; [exact Hg|]. intros Ho _. destruct (Hn Ho) as (rest & -> & Hr).
    exists ids, rest. tauto.
Qed.

Lemma pinnedPhase_log w s :
  let answer := snd (respond h (tabs_query w (Some true) None) s) in
  ensures h (pinnedPhaseWith scope w) s
    (fun _ l o =>
       exists l',
         l = x_query w (Some true) None answer :: l'
         /\ groupMovesOf l' = []
         /\ (forall t b, In (t, b) (updatesOf l') ->
               b = true
               /\ exists tabs tab,
                    answer = Normal tabs /\ In tab tabs /\ Tab.id tab = t)
         /\ (forall n, o = Normal n ->
               exists tabs,
                 answer = Normal tabs /\ n = Z.of_nat (List.length tabs)
                 /\ (tabs <> [] ->
                     exists ids rest,
                       l' = (x_move ids 0 (Normal tt) :: rest
                             ++ map (fun t => x_update (Tab.id t) true
                                                (Normal tt)) tabs)%list
                       /\ Permutation ids (map Tab.id tabs)
                       /\ updatesOf rest = [] /\ movesOf rest = []))).
Proof.
  intros answer. subst answer. run_open. unfold pinnedPhaseWith.
  rewrite run_bind, run_await.
  destruct (respond h (tabs_query w (Some true) None) s) as [s1 [tabs|e]];
    cbn [fst snd exchange].
  2:{ eexists. split; [reflexivity|]. repeat split; try discriminate;
      simpl in *; contradiction. }
  rewrite run_bind.
  destruct tabs as [|first tabs0] eqn:Et.
  { simpl. eexists. split; [reflexivity|]. split; [reflexivity|].
    split; [simpl; contradiction|].
    intros n Hn. exists []. split; [reflexivity|].
    split; [now injection Hn as <-|].
    intros H. now contradiction H. }
  rewrite <- Et. rewrite run_bind.
  pose proof (scope_log tabs 0 (Tab.groupId first) s1) as Hs. run_open.
  destruct (run h (scope tabs 0 (Tab.groupId first)) s1)
    as [[s2 l2] [[]|e]]; cbn [fst snd] in Hs;
    destruct Hs as (Hu2 & Hg2 & Hn2).
  2:{ cbn [fst snd]. eexists. split; [reflexivity|]. split; [exact Hg2|].
      split; [rewrite Hu2; simpl; contradiction|discriminate]. }
  pose proof (sendAll_log h tabs None s2) as Ha. run_open.
  unfold Promise_all.
  destruct (run h (sendAll (map (fun t => tabs_update (Tab.id t) true) tabs)
                     None) s2) as [[s3 l3] o3]; cbn [fst snd] in Ha.
  destruct Ha as (Hu3 & Hg3 & Hm3 & Hn3).
  assert (Hupd : forall t b, In (t, b) (updatesOf (l2 ++ l3)) ->
            b = true /\ exists tabs' tab,
              Normal tabs = Normal tabs' /\ In tab tabs' /\ Tab.id tab = t).
  { intros t b Hin. rewrite updatesOf_app, Hu2, Hu3 in Hin. simpl in Hin.
    apply in_map_iff in Hin. destruct Hin as (tab & Heq & Hin).
    injection Heq as <- <-. split; [reflexivity|]. exists tabs, tab. tauto. }
  destruct o3 as [[]|e]; cbn [fst snd].
  - simpl. rewrite app_nil_r. eexists. split; [reflexivity|].
    split; [now rewrite groupMovesOf_app, Hg2, Hg3|].
    split; [exact Hupd|].
    intros n Hn. injection Hn as <-. exists tabs.
    split; [reflexivity|]. split; [reflexivity|].
    intros Hne. destruct (Hn2 eq_refl Hne) as (ids & rest & Hp & -> & Hr).
    destruct (Hn3 eq_refl) as [_ ->]. exists ids, rest.
    split; [now rewrite <- app_comm_cons|]. tauto.
  - eexists. split; [reflexivity|].
    split; [now rewrite groupMovesOf_app, Hg2, Hg3|].
    split; [exact Hupd|discriminate].
Qed.

Lemma groupLoop_log w gs : forall n s,
  ensures h (groupLoopWith scope w gs n) s
    (fun _ l o =>
       updatesOf l = []
       /\ (exists rest,
             map TabGroup.id gs = (map fst (groupMovesOf l) ++ rest)%list)
       /\ (forall n', o = Normal n' ->
             n <= n' /\ map fst (groupMovesOf l) = map TabGroup.id gs)
       /\ StronglySorted Z.le (n :: map snd (groupMovesOf l))
       /\ (forall g i, hd_error (groupMovesOf l) = Some (g, i) -> i = n)).
Proof.
  induction gs as [|g gs IH]; intros n s.
  - run_open. simpl. split; [reflexivity|]. split; [now exists []|].
    split; [intros n' H; injection H as <-; split; [lia|reflexivity]|].
    split; [repeat constructor|discriminate].
  - run_open. cbn [groupLoopWith]. rewrite run_bind, run_await.
    destruct (respond h (tabGroups_move (TabGroup.id g) n) s) as [s1 [[]|e]];
      cbn [fst snd exchange].
    2:{ simpl. split; [reflexivity|]. split; [now exists (map TabGroup.id gs)|].
        split; [discriminate|]. split; [repeat constructor; lia|].
        intros g' i H. now injection H as <- <-. }
    rewrite run_bind, run_await.
    destruct (respond h (tabs_query w None (Some (TabGroup.id g))) s1)
      as [s2 [tabs|e]]; cbn [fst snd exchange].
    2:{ simpl. split; [reflexivity|]. split; [now exists (map TabGroup.id gs)|].
        split; [discriminate|]. split; [repeat constructor; lia|].
        intros g' i H. now injection H as <- <-. }
    rewrite run_bind.
    assert (Hbody : exists s3 l3 o3,
              run h (match tabs with
                     | [] => Ret n
                     | _ :: _ =>
                         m <- lift (minIndex tabs) ;;
                         _ <- scope tabs m (TabGroup.id g) ;;
                         Ret (n + Z.of_nat (List.length tabs))
                     end) s2 = (s3, l3, o3)
              /\ updatesOf l3 = [] /\ groupMovesOf l3 = []
              /\ (forall n', o3 = Normal n' -> n <= n')).
    { destruct tabs as [|t0 tabs0] eqn:Et.
      - exists s2, [], (Normal n). simpl. repeat split.
        intros n' H. injection H as <-. lia.
      - rewrite <- Et. rewrite run_bind.
        assert (Hm : exists m, minIndex tabs = Normal m)
          by (rewrite Et; simpl; eauto).
        destruct Hm as [m ->]. cbn [lift run]. rewrite run_bind.
        pose proof (scope_log tabs m (TabGroup.id g) s2) as Hs. run_open.
        destruct (run h (scope tabs m (TabGroup.id g)) s2)
          as [[s3 l3] [[]|e]]; cbn [fst snd] in Hs;
          destruct Hs as (Hu & Hg & _).
        + exists s3, (l3 ++ [])%list,
            (Normal (n + Z.of_nat (List.length tabs))).
          simpl. rewrite app_nil_r. repeat split; try assumption.
          intros n' H. injection H as <-. lia.
        + exists s3, l3, (Throws e). simpl. repeat split; try assumption.
          discriminate. }
    destruct Hbody as (s3 & l3 & o3 & -> & Hu3 & Hg3 & Hn3).
    destruct o3 as [n3|e].
    2:{ simpl. rewrite Hu3, Hg3. split; [reflexivity|].
        split; [now exists (map TabGroup.id gs)|].
        split; [discriminate|]. split; [repeat constructor; lia|].
        intros g' i H. now injection H as <- <-. }
    specialize (IH n3 s3). run_open.
    destruct (run h (groupLoopWith scope w gs n3) s3) as [[s4 l4] o4].
    cbn [fst snd] in IH. destruct IH as (Hu4 & [rest Hr] & Hn4 & Hs4 & _).
    specialize (Hn3 n3 eq_refl).
    simpl. rewrite updatesOf_app, groupMovesOf_app, Hu3, Hg3, Hu4. simpl.
    split; [reflexivity|]. split; [exists rest; now f_equal|].
    split.
    { intros n' Ho. destruct (Hn4 n' Ho) as [Hle ->].
      split; [lia|reflexivity]. }
    split.
    { apply StronglySorted_inv in Hs4. destruct Hs4 as [Hs4 Hall].
      constructor; [constructor; [exact Hs4|]|].
      - eapply Forall_impl; [|exact Hall]. simpl. intros; lia.
      - constructor; [lia|]. eapply Forall_impl; [|exact Hall].
        simpl. intros; lia. }
    intros g' i H. now injection H as <- <-.
Qed.

Lemma ungroupedPhase_log w s :
  ensures h (ungroupedPhaseWith scope w) s
    (fun _ l o => updatesOf l = [] /\ groupMovesOf l = []).
Proof.
  run_open. unfold ungroupedPhaseWith. rewrite run_bind, run_await.
  destruct (respond h (tabs_query w (Some false) (Some (-1))) s)
    as [s1 [tabs|e]]; cbn [fst snd exchange]; [|now split].
  destruct tabs as [|t0 tabs0] eqn:Et; [now split|]. rewrite <- Et.
  rewrite run_bind.
  assert (Hm : exists m, minIndex tabs = Normal m)
    by (rewrite Et; simpl; eauto).
  destruct Hm as [m ->]. cbn [lift run].
  pose proof (scope_log tabs m (-1) s1) as Hs. run_open.
  destruct (run h (scope tabs m (-1)) s1) as [[s2 l2] o2].
  cbn [fst snd] in *. destruct Hs as (Hu & Hg & _).
  simpl. now split.
Qed.
End OrchestratorLogs.

(* ================================================================== *)
(** * The pinned flags through a run *)
(* ================================================================== *)

Section OrchestratorPins.
Context {P : Platform} {S : Type} (h : Host S).
Variable valid : S -> Prop.
Variable isPinned : S -> Z -> bool.
Hypothesis Contract : PinContract h valid isPinned.
Variable scope : list Tab.t -> Z -> Z -> Prog unit.
Hypothesis scope_cases : forall tabs i g,
  (tabs = [] /\ scope tabs i g = Ret tt)
  \/ (exists e, scope tabs i g = Throw e)
  \/ (exists ids, Permutation ids (map Tab.id tabs)
                  /\ scope tabs i g = moveThenGroup ids i g).

Lemma moveThenGroup_pins ids i g s :
  valid s ->
  ensures h (moveThenGroup ids i g) s
    (fun s' _ _ =>
       valid s'
       /\ (forall t, ~ In t ids -> isPinned s' t = isPinned s t)
       /\ (forall t, isPinned s' t = true -> isPinned s t = true)).
Proof.
  intros Hv. run_open. unfold moveThenGroup. rewrite run_bind, run_await.
  pose proof (pc_valid Contract (tabs_move ids i) s Hv) as Hv1.
  pose proof (fun t => pc_move_frame Contract ids i s t Hv) as Hf1.
  pose proof (fun t => pc_move_pins_none Contract ids i s t Hv) as Hp1.
  destruct (respond h (tabs_move ids i) s) as [s1 [[]|e]];
    cbn [fst snd] in *; [|now repeat split].
  destruct (g >? -1); [|simpl; now repeat split].
  rewrite run_await.
  pose proof (pc_valid Contract (tabs_group g ids) s1 Hv1) as Hv2.
  pose proof (fun t => pc_group_frame Contract g ids s1 t Hv1) as Hf2.
  pose proof (fun t => pc_group_pins_none Contract g ids s1 t Hv1) as Hp2.
  destruct (respond h (tabs_group g ids) s1) as [s2 r]; cbn [fst snd] in *.
  split; [exact Hv2|]. split.
  - intros t Ht. now rewrite Hf2, Hf1.
  - intros t Ht. auto.
Qed.

Lemma scope_pins tabs i g s :
  valid s ->
  ensures h (scope tabs i g) s
    (fun s' _ _ =>
       valid s'
       /\ (forall t, ~ In t (map Tab.id tabs) -> isPinned s' t = isPinned s t)
       /\ (forall t, isPinned s' t = true -> isPinned s t = true)).
Proof.
  intros Hv.
  destruct (scope_cases tabs i g) as [[-> ->]|[[e ->]|(ids & Hp & ->)]].
  - run_open. simpl. now repeat split.
  - run_open. simpl. now repeat split.
  - eapply ensures_weaken; [apply (moveThenGroup_pins ids i g s Hv)|].
    intros s' l o (Hv' & Hf & Hn). split; [exact Hv'|]. split; [|exact Hn].
    intros t Ht. apply Hf. intros Hin. apply Ht.
    exact (Permutation_in _ Hp Hin).
Qed.

(** Sorting a scope of unpinned tabs changes no flag. *)
Lemma scope_unpinned tabs i g s :
  valid s ->
  (forall tab, In tab tabs -> isPinned s (Tab.id tab) = false) ->
  ensures h (scope tabs i g) s
    (fun s' _ _ => valid s' /\ forall t, isPinned s' t = isPinned s t).
Proof.
  intros Hv Hun.
  eapply ensures_weaken; [apply (scope_pins tabs i g s Hv)|].
  intros s' l o (Hv' & Hf & Hn). split; [exact Hv'|]. intros t.
  destruct (in_dec Z.eq_dec t (map Tab.id tabs)) as [Hin|Hout]; [|auto].
  apply in_map_iff in Hin. destruct Hin as (tab & <- & Hin).
  rewrite (Hun tab Hin).
  destruct (isPinned s' (Tab.id tab)) eqn:E; [|reflexivity].
  pose proof (Hn _ E) as H1. rewrite (Hun tab Hin) in H1. discriminate.
Qed.

Lemma sendAll_pins tabs : forall failed s,
  valid s ->
  ensures h (sendAll (map (fun t => tabs_update (Tab.id t) true) tabs) failed)
    s
    (fun s' _ o =>
       valid s'
       /\ (forall t, ~ In t (map Tab.id tabs) -> isPinned s' t = isPinned s t)
       /\ (o = Normal tt ->
           failed = None
           /\ forall t, In t (map Tab.id tabs) -> isPinned s' t = true)).
Proof.
  induction tabs as [|tab tabs IH]; intros failed s Hv; run_open.
  - simpl. destruct failed; simpl; repeat split; try assumption;
      try discriminate; contradiction.
  - cbn [map sendAll run].
    pose proof (pc_valid Contract (tabs_update (Tab.id tab) true) s Hv) as Hv1.
    pose proof (fun t => pc_update_frame Contract (Tab.id tab) true s t Hv)
      as Hf1.
    pose proof (pc_update_pins Contract (Tab.id tab) s Hv) as Hp1.
    destruct (respond h (tabs_update (Tab.id tab) true) s) as [s1 r];
      cbn [fst snd] in *.
    match goal with
    | |- context [sendAll _ ?f] => specialize (IH f s1 Hv1)
    end.
    run_open. destruct (run h _ s1) as [[s2 l2] o2]. cbn [fst snd] in *.
    destruct IH as (Hv2 & Hf2 & Hn2).
    split; [exact Hv2|]. split.
    + intros t Ht. simpl in Ht. rewrite Hf2 by tauto. apply Hf1.
      intros E. apply Ht. left. now symmetry.
    + intros Ho. destruct (Hn2 Ho) as [Hnone Hall].
      destruct failed; [discriminate|]. destruct r as [[]|e]; [|discriminate].
      split; [reflexivity|]. intros t Ht.
      destruct (in_dec Z.eq_dec t (map Tab.id tabs)) as [Hin|Hout]; [auto|].
      destruct Ht as [<-|Ht]; [|contradiction].
      rewrite Hf2 by exact Hout. now apply Hp1.
Qed.

Lemma pinnedPhase_pins w s :
  valid s ->
  ensures h (pinnedPhaseWith scope w) s
    (fun s' _ o =>
       valid s'
       /\ forall n, o = Normal n -> forall t, isPinned s' t = isPinned s t).
Proof.
  intros Hv. run_open. unfold pinnedPhaseWith. rewrite run_bind, run_await.
  pose proof (pc_valid Contract (tabs_query w (Some true) None) s Hv) as Hv1.
  pose proof (fun t => pc_query Contract w (Some true) None s t Hv) as Hq.
  pose proof (fun tabs tab => pc_pinned_answer Contract w s tabs tab Hv)
    as Hans.
  destruct (respond h (tabs_query w (Some true) None) s) as [s1 [tabs|e]];
    cbn [fst snd] in *; [|split; [exact Hv1|discriminate]].
  specialize (Hans tabs). rewrite run_bind.
  destruct tabs as [|first tabs0] eqn:Et.
  { simpl. split; [exact Hv1|]. intros n _ t. apply Hq. }
  rewrite <- Et in *. rewrite run_bind.
  pose proof (scope_pins tabs 0 (Tab.groupId first) s1 Hv1) as Hs. run_open.
  destruct (run h (scope tabs 0 (Tab.groupId first)) s1)
    as [[s2 l2] [[]|e]]; cbn [fst snd] in *;
    destruct Hs as (Hv2 & Hf2 & Hn2); [|split; [exact Hv2|discriminate]].
  pose proof (sendAll_pins tabs None s2 Hv2) as Ha. run_open.
  unfold Promise_all.
  destruct (run h (sendAll (map (fun t => tabs_update (Tab.id t) true) tabs)
                     None) s2) as [[s3 l3] [[]|e]]; cbn [fst snd] in *;
    destruct Ha as (Hv3 & Hf3 & Hn3); [|split; [exact Hv3|discriminate]].
  simpl. split; [exact Hv3|]. intros n _ t.
  destruct (Hn3 eq_refl) as [_ Hall].
  destruct (in_dec Z.eq_dec t (map Tab.id tabs)) as [Hin|Hout].
  - rewrite (Hall t Hin). apply in_map_iff in Hin.
    destruct Hin as (tab & <- & Hin). symmetry. now apply Hans.
  - now rewrite Hf3, Hf2, Hq.
Qed.

Lemma groupLoop_pins w gs : forall n s,
  valid s ->
  (forall g, In g gs -> TabGroup.id g <> -1) ->
  ensures h (groupLoopWith scope w gs n) s
    (fun s' _ _ => valid s' /\ forall t, isPinned s' t = isPinned s t).
Proof.
  induction gs as [|g gs IH]; intros n s Hv Hids; run_open.
  - simpl. now split.
  - assert (Hg : TabGroup.id g <> -1) by (apply Hids; now left).
    assert (Hids' : forall g', In g' gs -> TabGroup.id g' <> -1)
      by (intros g' Hin; apply Hids; now right).
    cbn [groupLoopWith]. rewrite run_bind, run_await.
    pose proof (pc_valid Contract (tabGroups_move (TabGroup.id g) n) s Hv)
      as Hv1.
    pose proof (fun t => pc_groups_move Contract (TabGroup.id g) n s t Hv)
      as Hf1.
    destruct (respond h (tabGroups_move (TabGroup.id g) n) s)
      as [s1 [[]|e]]; cbn [fst snd] in *; [|now split].
    rewrite run_bind, run_await.
    pose proof (pc_valid Contract (tabs_query w None (Some (TabGroup.id g)))
                  s1 Hv1) as Hv2.
    pose proof (fun t => pc_query Contract w None (Some (TabGroup.id g)) s1 t
                           Hv1) as Hf2.
    pose proof (fun tabs tab =>
                  pc_group_answer Contract w (TabGroup.id g) s1 tabs tab Hv1
                    Hg) as Hans.
    destruct (respond h (tabs_query w None (Some (TabGroup.id g))) s1)
      as [s2 [tabs|e]]; cbn [fst snd] in *.
    2:{ split; [exact Hv2|]. intros t. now rewrite Hf2, Hf1. }
    specialize (Hans tabs). rewrite run_bind.
    assert (Hbody : exists s3 l3 o3,
              run h (match tabs with
                     | [] => Ret n
                     | _ :: _ =>
                         m <- lift (minIndex tabs) ;;
                         _ <- scope tabs m (TabGroup.id g) ;;
                         Ret (n + Z.of_nat (List.length tabs))
                     end) s2 = (s3, l3, o3)
              /\ valid s3 /\ forall t, isPinned s3 t = isPinned s2 t).
    { destruct tabs as [|t0 tabs0] eqn:Et.
      - exists s2, [], (Normal n). simpl. now repeat split.
      - rewrite <- Et in *. rewrite run_bind.
        assert (Hm : exists m, minIndex tabs = Normal m)
          by (rewrite Et; simpl; eauto).
        destruct Hm as [m ->]. cbn [lift run]. rewrite run_bind.
        assert (Hun : forall tab, In tab tabs ->
                  isPinned s2 (Tab.id tab) = false).
        { intros tab Hin. rewrite Hf2. now apply Hans. }
        pose proof (scope_unpinned tabs m (TabGroup.id g) s2 Hv2 Hun) as Hs.
        run_open.
        destruct (run h (scope tabs m (TabGroup.id g)) s2)
          as [[s3 l3] [[]|e]]; cbn [fst snd] in *; destruct Hs as [Hv3 Hf3].
        + eexists. eexists. eexists. simpl. split; [reflexivity|]. now split.
        + eexists. eexists. eexists. split; [reflexivity|]. now split. }
    destruct Hbody as (s3 & l3 & o3 & -> & Hv3 & Hf3).
    destruct o3 as [n3|e].
    2:{ split; [exact Hv3|]. intros t. now rewrite Hf3, Hf2, Hf1. }
    specialize (IH n3 s3 Hv3 Hids'). run_open.
    destruct (run h (groupLoopWith scope w gs n3) s3) as [[s4 l4] o4].
    cbn [fst snd] in *. destruct IH as [Hv4 Hf4].
    split; [exact Hv4|]. intros t. now rewrite Hf4, Hf3, Hf2, Hf1.
Qed.

Lemma ungroupedPhase_pins w s :
  valid s ->
  ensures h (ungroupedPhaseWith scope w) s
    (fun s' _ _ => valid s' /\ forall t, isPinned s' t = isPinned s t).
Proof.
  intros Hv. run_open. unfold ungroupedPhaseWith.
  rewrite run_bind, run_await.
  pose proof (pc_valid Contract (tabs_query w (Some false) (Some (-1))) s Hv)
    as Hv1.
  pose proof (fun t => pc_query Contract w (Some false) (Some (-1)) s t Hv)
    as Hf1.
  pose proof (fun tabs tab =>
                pc_unpinned_answer Contract w (Some (-1)) s tabs tab Hv)
    as Hans.
  destruct (respond h (tabs_query w (Some false) (Some (-1))) s)
    as [s1 [tabs|e]]; cbn [fst snd] in *; [|now split].
  specialize (Hans tabs).
  destruct tabs as [|t0 tabs0] eqn:Et; [simpl; now split|].
  rewrite <- Et in *. rewrite run_bind.
  assert (Hm : exists m, minIndex tabs = Normal m)
    by (rewrite Et; simpl; eauto).
  destruct Hm as [m ->]. cbn [lift run].
  assert (Hun : forall tab, In tab tabs -> isPinned s1 (Tab.id tab) = false).
  { intros tab Hin. rewrite Hf1. now apply Hans. }
  pose proof (scope_unpinned tabs m (-1) s1 Hv1 Hun) as Hs. run_open.
  destruct (run h (scope tabs m (-1)) s1) as [[s2 l2] o2].
  cbn [fst snd] in *. destruct Hs as [Hv2 Hf2].
  split; [exact Hv2|]. intros t. now rewrite Hf2, Hf1.
Qed.

(** A fulfilled run of the orchestrator leaves every pinned flag as it
    found it. *)
Lemma sortAllTabsWith_pins s :
  valid s ->
  ensures h (sortAllTabsWith scope) s
    (fun s' _ o =>
       o = Normal tt -> forall t, isPinned s' t = isPinned s t).
Proof.
  intros Hv. run_open. unfold sortAllTabsWith. rewrite run_bind, run_await.
  pose proof (pc_valid Contract windows_getLastFocused s Hv) as Hv1.
  pose proof (fun t => pc_window Contract s t Hv) as Hf1.
  destruct (respond h windows_getLastFocused s) as [s1 [w|e]];
    cbn [fst snd] in *; [|discriminate].
  rewrite run_bind.
  pose proof (pinnedPhase_pins w s1 Hv1) as Hp. run_open.
  destruct (run h (pinnedPhaseWith scope w) s1) as [[s2 l2] [n|e]];
    cbn [fst snd] in *; [|discriminate].
  destruct Hp as [Hv2 Hf2]. specialize (Hf2 n eq_refl).
  rewrite run_bind. unfold groupsPhaseWith. rewrite run_bind, run_await.
  pose proof (pc_valid Contract (tabGroups_query w) s2 Hv2) as Hv3.
  pose proof (fun t => pc_groups_query Contract w s2 t Hv2) as Hf3.
  pose proof (fun groups group =>
                pc_groups_answer Contract w s2 groups group Hv2) as Hga.
  destruct (respond h (tabGroups_query w) s2) as [s3 [groups|e]];
    cbn [fst snd] in *; [|discriminate].
  assert (Hids : forall g, In g (Array_sort compareGroups groups) ->
            TabGroup.id g <> -1).
  { intros g Hin. apply (Hga groups g eq_refl).
    now apply Array_sort_in in Hin. }
  pose proof (groupLoop_pins w (Array_sort compareGroups groups) n s3 Hv3
                Hids) as Hg. run_open.
  destruct (run h (groupLoopWith scope w (Array_sort compareGroups groups) n)
              s3) as [[s4 l4] [n4|e]]; cbn [fst snd] in *; [|discriminate].
  destruct Hg as [Hv4 Hf4].
  pose proof (ungroupedPhase_pins w s4 Hv4) as Hu. run_open.
  destruct (run h (ungroupedPhaseWith scope w) s4) as [[s5 l5] o5].
  cbn [fst snd] in *. destruct Hu as [Hv5 Hf5].
  intros _ t. now rewrite Hf5, Hf4, Hf3, Hf2, Hf1.
Qed.
End OrchestratorPins.

Section OrchestratorUpdates.
Context {P : Platform} {S : Type} (h : Host S).
Variable scope : list Tab.t -> Z -> Z -> Prog unit.
Hypothesis scope_cases : forall tabs i g,
  (tabs = [] /\ scope tabs i g = Ret tt)
  \/ (exists e, scope tabs i g = Throw e)
  \/ (exists ids, Permutation ids (map Tab.id tabs)
                  /\ scope tabs i g = moveThenGroup ids i g).

Lemma groupsPhase_log w n s :
  let answer := snd (respond h (tabGroups_query w) s) in
  ensures h (groupsPhaseWith scope w n) s
    (fun _ l o =>
       updatesOf l = []
       /\ forall groups, answer = Normal groups ->
            (exists rest,
               map TabGroup.id (Array_sort compareGroups groups)
               = (map fst (groupMovesOf l) ++ rest)%list)
            /\ (forall n', o = Normal n' ->
                  map fst (groupMovesOf l)
                  = map TabGroup.id (Array_sort compareGroups groups))
            /\ StronglySorted Z.le (n :: map snd (groupMovesOf l))
            /\ (forall g i, hd_error (groupMovesOf l) = Some (g, i) -> i = n)).
Proof.
  intros answer. subst answer. run_open. unfold groupsPhaseWith.
  rewrite run_bind, run_await.
  destruct (respond h (tabGroups_query w) s) as [s1 [groups|e]];
    cbn [fst snd exchange]; [|split; [reflexivity|discriminate]].
  pose proof (groupLoop_log h scope scope_cases w
                (Array_sort compareGroups groups) n s1) as Hg. run_open.
  destruct (run h (groupLoopWith scope w (Array_sort compareGroups groups) n)
              s1) as [[s2 l2] o2]. cbn [fst snd] in *.
  destruct Hg as (Hu & Hr & Hn & Hs & Hh).
  split; [exact Hu|]. intros groups' E. injection E as <-. simpl.
  split; [exact Hr|]. split; [|split; [exact Hs|exact Hh]].
  intros n' Ho. now destruct (Hn n' Ho).
Qed.

Lemma sortAllTabsWith_updates s :
  ensures h (sortAllTabsWith scope) s
    (fun _ l _ =>
       forall t b, In (t, b) (updatesOf l) ->
         b = true
         /\ exists w tabs tab,
              In (x_query w (Some true) None (Normal tabs)) l
              /\ In tab tabs /\ Tab.id tab = t).
Proof.
  run_open. unfold sortAllTabsWith. rewrite run_bind, run_await.
  destruct (respond h windows_getLastFocused s) as [s1 [w|e]];
    cbn [fst snd exchange]; [|simpl; contradiction].
  rewrite run_bind.
  pose proof (pinnedPhase_log h scope scope_cases w s1) as Hp. run_open.
  destruct (run h (pinnedPhaseWith scope w) s1) as [[s2 l2] o2].
  cbn [fst snd] in Hp. destruct Hp as (l' & -> & _ & Hupd & _).
  assert (Htail : exists s3 l3 o3,
            match o2 with
            | Normal n =>
                let '(s3, l3, o3) :=
                  run h (_ <- groupsPhaseWith scope w n ;;
                         ungroupedPhaseWith scope w) s2 in
                (s3, ((x_query w (Some true) None
                         (snd (respond h (tabs_query w (Some true) None) s1))
                       :: l') ++ l3)%list, o3)
            | Throws e0 =>
                (s2, x_query w (Some true) None
                       (snd (respond h (tabs_query w (Some true) None) s1))
                     :: l', Throws e0)
            end
            = (s3, (x_query w (Some true) None
                      (snd (respond h (tabs_query w (Some true) None) s1))
                    :: l' ++ l3)%list, o3)
            /\ updatesOf l3 = []).
  { destruct o2 as [n|e].
    - rewrite run_bind.
      pose proof (groupsPhase_log w n s2) as Hg. run_open.
      destruct (run h (groupsPhaseWith scope w n) s2) as [[s3 l3] [n3|e]];
        cbn [fst snd] in Hg; destruct Hg as [Hu3 _].
      + pose proof (ungroupedPhase_log h scope scope_cases w s3) as Hu.
        run_open.
        destruct (run h (ungroupedPhaseWith scope w) s3) as [[s4 l4] o4].
        cbn [fst snd] in Hu. destruct Hu as [Hu4 _].
        exists s4, (l3 ++ l4)%list, o4. split; [reflexivity|].
        now rewrite updatesOf_app, Hu3, Hu4.
      + exists s3, l3, (Throws e). now split.
    - exists s2, [], (Throws e). rewrite app_nil_r. now split. }
  destruct Htail as (s3 & l3 & o3 & -> & Hu3). cbn [fst snd].
  intros t b Hin.
  assert (Hin' : In (t, b) (updatesOf l')).
  { unfold updatesOf in Hin. apply in_flat_map in Hin.
    destruct Hin as (e & He & Ht). simpl in He.
    destruct He as [<-|[<-|He]]; try contradiction.
    apply in_app_or in He. destruct He as [He|He].
    - unfold updatesOf. apply in_flat_map. eauto.
    - assert (Hc : In (t, b) (updatesOf l3))
        by (unfold updatesOf; apply in_flat_map; eauto).
      rewrite Hu3 in Hc. contradiction. }
  clear Hin. rename Hin' into Hin.
  destruct (Hupd t b Hin) as (-> & tabs & tab & Ha & Hi & Hid).
  split; [reflexivity|]. exists w, tabs, tab. rewrite Ha.
  split; [right; now left|now split].
Qed.
End OrchestratorUpdates.

(* ================================================================== *)
(** * The orchestrators of the two variants *)
(* ================================================================== *)

Section VariantOrchestrators.
Context {P : Platform}.

Lemma background_scope_cases tabs i g :
  (tabs = [] /\ Background.sortTabsScope tabs i g = Ret tt)
  \/ (exists e, Background.sortTabsScope tabs i g = Throw e)
  \/ (exists ids, Permutation ids (map Tab.id tabs)
                  /\ Background.sortTabsScope tabs i g
                     = moveThenGroup ids i g).
Proof.
  destruct tabs as [|t l] eqn:Et; [now left|]. rewrite <- Et.
  assert (Hne : tabs <> []) by (rewrite Et; discriminate).
  right. destruct (Background.decorate tabs) as [ds|e] eqn:Hds.
  - right.
    exists (map Background.id (Array_sort Background.compareDecorated ds)).
    split.
    + exact (scope_ids_perm _ Background.hostname Background.key _ _ _
               background_fields tabs ds Hds).
    + apply background_scope_requests; [exact Hne|].
      unfold Background.sortedIds. now rewrite Hds.
  - left. exists e. rewrite Et. unfold Background.sortTabsScope.
    rewrite <- Et. unfold Background.sortedIds. now rewrite Hds.
Qed.

Lemma part000_scope_cases tabs i g :
  (tabs = [] /\ Part000.sortTabsScope tabs i g = Ret tt)
  \/ (exists e, Part000.sortTabsScope tabs i g = Throw e)
  \/ (exists ids, Permutation ids (map Tab.id tabs)
                  /\ Part000.sortTabsScope tabs i g = moveThenGroup ids i g).
Proof.
  destruct tabs as [|t l] eqn:Et; [now left|]. rewrite <- Et.
  assert (Hne : tabs <> []) by (rewrite Et; discriminate).
  right. destruct (Part000.decorate tabs) as [ds|e] eqn:Hds.
  - right. exists (map Part000.id (Array_sort Part000.compareDecorated ds)).
    split.
    + exact (scope_ids_perm _ Part000.hostKey Part000.sortKey _ _ _
               part000_fields tabs ds Hds).
    + apply part000_scope_requests; [exact Hne|].
      unfold Part000.sortedIds. now rewrite Hds.
  - left. exists e. rewrite Et. unfold Part000.sortTabsScope.
    rewrite <- Et. unfold Part000.sortedIds. now rewrite Hds.
Qed.

Lemma background_pinnedPhase w :
  Background.pinnedPhase w = pinnedPhaseWith Background.sortTabsScope w.
Proof. reflexivity. Qed.

Lemma part000_pinnedPhase w :
  Part000.pinnedPhase w = pinnedPhaseWith Part000.sortTabsScope w.
Proof. reflexivity. Qed.

Lemma part000_groupsPhase w n :
  Part000.groupsPhase w n = groupsPhaseWith Part000.sortTabsScope w n.
Proof. reflexivity. Qed.

Lemma part000_sortAllTabs :
  Part000.sortAllTabs = sortAllTabsWith Part000.sortTabsScope.
Proof. reflexivity. Qed.

(** The guard [if (tabGroups.length)] of [src/background.js] changes no
    run: the loop over no group does nothing. *)
Lemma background_groupsPhase {S : Type} (h : Host S) w n s :
  run h (Background.groupsPhase w n) s
  = run h (groupsPhaseWith Background.sortTabsScope w n) s.
Proof.
  unfold Background.groupsPhase, groupsPhaseWith. rewrite !run_bind.
  destruct (run h (await (tabGroups_query w)) s) as [[s1 l1] [groups|e]];
    [|reflexivity].
  now destruct groups.
Qed.

Lemma background_sortAllTabs {S : Type} (h : Host S) s :
  run h Background.sortAllTabs s
  = run h (sortAllTabsWith Background.sortTabsScope) s.
Proof.
  unfold Background.sortAllTabs, sortAllTabsWith. rewrite !run_bind.
  destruct (run h (await windows_getLastFocused) s) as [[s1 l1] [w|e]];
    [|reflexivity].
  rewrite !run_bind. rewrite background_pinnedPhase.
  destruct (run h (pinnedPhaseWith Background.sortTabsScope w) s1)
    as [[s2 l2] [n|e]]; [|reflexivity].
  rewrite !run_bind. now rewrite background_groupsPhase.
Qed.
End VariantOrchestrators.

(* ================================================================== *)
(** * The comparator of the groups *)
(* ================================================================== *)

Lemma compareGroups_consistent {P : Platform}
    (Collation : Consistent localeCompare) : Consistent compareGroups.
Proof.
  unfold compareGroups. split.
  - intros a. apply (cmp_refl Collation).
  - intros a b. apply (cmp_antisym Collation).
  - intros a b c Hab Hbc. exact (cmp_trans Collation _ _ _ Hbc Hab).
Qed.

(* ================================================================== *)
(** * The small browser keeps the contract *)
(* ================================================================== *)

Lemma mem_In t ids : Simulated.mem t ids = true <-> In t ids.
Proof.
  unfold Simulated.mem. rewrite existsb_exists. split.
  - intros (x & Hin & E). apply Z.eqb_eq in E. now subst.
  - intros Hin. exists t. split; [exact Hin|apply Z.eqb_refl].
Qed.

Lemma NoDup_map_injective (A B : Type) (f : A -> B) l x y :
  NoDup (map f l) -> In x l -> In y l -> f x = f y -> x = y.
Proof.
  induction l as [|a l IH]; simpl; intros Hnd Hx Hy E; [contradiction|].
  apply NoDup_cons_iff in Hnd. destruct Hnd as [Hnot Hnd].
  destruct Hx as [<-|Hx]; destruct Hy as [<-|Hy]; auto.
  - exfalso. apply Hnot. rewrite E. now apply in_map.
  - exfalso. apply Hnot. rewrite <- E. now apply in_map.
Qed.

Lemma isPinned_true st t :
  Simulated.isPinned st t = true <->
  exists tab, In tab (Simulated.tabs st) /\ Tab.id tab = t
              /\ Tab.pinned tab = true.
Proof.
  unfold Simulated.isPinned. rewrite existsb_exists. split.
  - intros (tab & Hin & E). apply andb_prop in E. destruct E as [E1 E2].
    apply Z.eqb_eq in E1. eauto.
  - intros (tab & Hin & E1 & E2). exists tab. split; [exact Hin|].
    rewrite E2, andb_true_r. now apply Z.eqb_eq.
Qed.

Lemma isPinned_false_of st tab :
  Simulated.valid st -> In tab (Simulated.tabs st) ->
  Tab.pinned tab = false -> Simulated.isPinned st (Tab.id tab) = false.
Proof.
  intros (Hnd & _) Hin Hp.
  destruct (Simulated.isPinned st (Tab.id tab)) eqn:E; [|reflexivity].
  apply isPinned_true in E. destruct E as (tab' & Hin' & Hid & Hp').
  rewrite (NoDup_map_injective _ _ Tab.id _ tab' tab Hnd Hin' Hin Hid) in Hp'.
  congruence.
Qed.

Section OnTabs.
Variable ids : list Z.
Variable f : Tab.t -> Tab.t.
Hypothesis f_id : forall tab, Tab.id (f tab) = Tab.id tab.

Lemma onTabs_ids st :
  map Tab.id (Simulated.tabs (Simulated.onTabs ids f st))
  = map Tab.id (Simulated.tabs st).
Proof.
  unfold Simulated.onTabs. simpl. rewrite map_map. apply map_ext.
  intros tab. now destruct (Simulated.mem (Tab.id tab) ids).
Qed.

Lemma onTabs_frame st t :
  ~ In t ids ->
  Simulated.isPinned (Simulated.onTabs ids f st) t = Simulated.isPinned st t.
Proof.
  intros Hout. unfold Simulated.isPinned, Simulated.onTabs. simpl.
  induction (Simulated.tabs st) as [|tab l IH]; simpl; [reflexivity|].
  rewrite IH. f_equal.
  destruct (Simulated.mem (Tab.id tab) ids) eqn:E; [|reflexivity].
  apply mem_In in E. rewrite f_id.
  destruct (Z.eqb_spec (Tab.id tab) t) as [Heq|Hne]; [|reflexivity].
  rewrite Heq in E. contradiction.
Qed.

Lemma onTabs_pins_none st t :
  (forall tab, Tab.pinned (f tab) = true -> Tab.pinned tab = true) ->
  Simulated.isPinned (Simulated.onTabs ids f st) t = true ->
  Simulated.isPinned st t = true.
Proof.
  intros Hf H. apply isPinned_true in H.
  destruct H as (tab' & Hin & Hid & Hp). apply isPinned_true.
  unfold Simulated.onTabs in Hin. simpl in Hin. apply in_map_iff in Hin.
  destruct Hin as (tab & E & Hin). exists tab. split; [exact Hin|].
  destruct (Simulated.mem (Tab.id tab) ids); subst tab'.
  - rewrite f_id in Hid. split; [exact Hid|]. now apply Hf.
  - now split.
Qed.

Lemma onTabs_valid st :
  (forall tab, Tab.pinned (f tab) = true -> Tab.groupId (f tab) = -1) ->
  Simulated.valid st -> Simulated.valid (Simulated.onTabs ids f st).
Proof.
  intros Hf (Hnd & Hg & Hgr). split; [now rewrite onTabs_ids|]. split.
  - intros tab' Hin Hp. unfold Simulated.onTabs in Hin. simpl in Hin.
    apply in_map_iff in Hin. destruct Hin as (tab & E & Hin).
    destruct (Simulated.mem (Tab.id tab) ids); subst tab'; auto.
  - exact Hgr.
Qed.
End OnTabs.

Lemma isPinned_members st st' t :
  (forall tab, In tab (Simulated.tabs st) <-> In tab (Simulated.tabs st')) ->
  Simulated.isPinned st t = Simulated.isPinned st' t.
Proof.
  intros H.
  destruct (Simulated.isPinned st' t) eqn:E.
  - apply isPinned_true in E. destruct E as (tab & Hin & Hid & Hp).
    apply isPinned_true. exists tab. rewrite H. tauto.
  - destruct (Simulated.isPinned st t) eqn:E'; [|reflexivity].
    apply isPinned_true in E'. destruct E' as (tab & Hin & Hid & Hp).
    rewrite <- E. symmetry. apply isPinned_true. exists tab.
    rewrite <- H. tauto.
Qed.

Lemma In_relocate picked others i tab :
  In tab (Simulated.relocate picked others i) <->
  In tab picked \/ In tab others.
Proof.
  unfold Simulated.relocate. rewrite !in_app_iff.
  rewrite <- (firstn_skipn (Z.to_nat i) others) at 3.
  rewrite in_app_iff. tauto.
Qed.

Lemma relocate_perm picked others i :
  Permutation (Simulated.relocate picked others i) (picked ++ others).
Proof.
  unfold Simulated.relocate.
  rewrite <- (firstn_skipn (Z.to_nat i) others) at 3.
  rewrite Permutation_app_comm, <- app_assoc.
  apply Permutation_app_head, Permutation_app_comm.
Qed.

Lemma In_pick ids l tab :
  In tab (Simulated.pick ids l) <-> In tab l /\ In (Tab.id tab) ids.
Proof.
  unfold Simulated.pick. rewrite in_flat_map. split.
  - intros (x & Hx & Hin). apply nodup_In in Hx. apply filter_In in Hin.
    destruct Hin as [Hin E]. apply Z.eqb_eq in E. now subst.
  - intros [Hin Hid]. exists (Tab.id tab). split; [now apply nodup_In|].
    apply filter_In. split; [exact Hin|apply Z.eqb_refl].
Qed.

Lemma NoDup_ids_filter p l :
  NoDup (map Tab.id l) -> NoDup (map Tab.id (filter p l)).
Proof.
  induction l as [|t l IH]; simpl; intros H; [constructor|].
  apply NoDup_cons_iff in H. destruct H as [Hnot Hnd].
  destruct (p t); simpl; [|auto].
  constructor; [|auto]. intros Hin. apply Hnot.
  apply in_map_iff in Hin. destruct Hin as (t' & E & Hin).
  apply filter_In in Hin. apply in_map_iff. exists t'. tauto.
Qed.

Lemma NoDup_ids_pick ids l :
  NoDup (map Tab.id l) -> NoDup (map Tab.id (Simulated.pick ids l)).
Proof.
  intros Hl. unfold Simulated.pick.
  pose proof (NoDup_nodup Z.eq_dec ids) as Hx.
  induction (nodup Z.eq_dec ids) as [|x xs IH]; simpl; [constructor|].
  apply NoDup_cons_iff in Hx. destruct Hx as [Hnot Hx].
  rewrite map_app. apply NoDup_app.
  - now apply NoDup_ids_filter.
  - now apply IH.
  - intros a Ha Hb. apply in_map_iff in Ha. destruct Ha as (t & <- & Ht).
    apply filter_In in Ht. destruct Ht as [_ E]. apply Z.eqb_eq in E.
    apply in_map_iff in Hb. destruct Hb as (t' & E' & Ht').
    apply in_flat_map in Ht'. destruct Ht' as (y & Hy & Ht').
    apply filter_In in Ht'. destruct Ht' as [_ E'']. apply Z.eqb_eq in E''.
    apply Hnot. congruence.
Qed.

Lemma filter_split_perm (A : Type) (p : A -> bool) l :
  Permutation (filter p l ++ filter (fun x => negb (p x)) l) l.
Proof.
  induction l as [|x l IH]; simpl; [constructor|].
  destruct (p x); simpl.
  - now constructor.
  - symmetry. apply Permutation_cons_app. now symmetry.
Qed.

Lemma In_positionedFrom l : forall i tab,
  In tab (Simulated.positionedFrom i l) ->
  exists tab0 j, In tab0 l /\ tab = Simulated.setIndex j tab0.
Proof.
  induction l as [|t l IH]; simpl; intros i tab H; [contradiction|].
  destruct H as [<-|H]; [eauto|].
  destruct (IH _ _ H) as (tab0 & j & Hin & E). eauto.
Qed.

(** The tabs after a move are those of the row with the moved tabs
    unpinned. *)
Lemma moved_members ids i st tab :
  In tab (Simulated.relocate
            (map Simulated.unpin (Simulated.pick ids (Simulated.tabs st)))
            (filter (fun t => negb (Simulated.mem (Tab.id t) ids))
               (Simulated.tabs st)) i)
  <-> In tab (Simulated.tabs (Simulated.onTabs ids Simulated.unpin st)).
Proof.
  rewrite In_relocate. unfold Simulated.onTabs. simpl.
  rewrite !in_map_iff. split.
  - intros [(t & E & Hin)|Hin].
    + apply In_pick in Hin. destruct Hin as [Hin Hid]. exists t.
      apply mem_In in Hid. rewrite Hid. tauto.
    + apply filter_In in Hin. destruct Hin as [Hin Hid]. exists tab.
      apply negb_true_iff in Hid. rewrite Hid. tauto.
  - intros (t & E & Hin).
    destruct (Simulated.mem (Tab.id t) ids) eqn:Hid.
    + left. exists t. split; [exact E|]. apply In_pick.
      apply mem_In in Hid. tauto.
    + right. subst tab. apply filter_In. now rewrite Hid.
Qed.

Lemma group_moved_members g i l tab :
  In tab (Simulated.relocate (filter (Simulated.inGroup g) l)
            (filter (fun t => negb (Simulated.inGroup g t)) l) i)
  <-> In tab l.
Proof.
  rewrite In_relocate, !filter_In.
  destruct (Simulated.inGroup g tab); simpl; intuition congruence.
Qed.

Lemma simulated_contract :
  PinContract Simulated.browser Simulated.valid Simulated.isPinned.
Proof.
  split; simpl.
  - intros X c s Hv. destruct c; simpl; try exact Hv.
    + destruct Hv as (Hnd & Hp & Hg). split; [|split; [|exact Hg]]; simpl.
      * eapply Permutation_NoDup;
          [symmetry; apply Permutation_map, relocate_perm|].
        rewrite map_app, map_map. simpl. apply NoDup_app.
        -- now apply NoDup_ids_pick.
        -- now apply NoDup_ids_filter.
        -- intros a Ha Hb. apply in_map_iff in Ha.
           destruct Ha as (t & <- & Ht). apply In_pick in Ht.
           apply in_map_iff in Hb. destruct Hb as (t' & E & Ht').
           apply filter_In in Ht'. destruct Ht' as [_ Hm].
           apply negb_true_iff in Hm. rewrite E in Hm.
           destruct Ht as [_ Ht]. apply mem_In in Ht. congruence.
      * intros t Hin Hpin. apply In_relocate in Hin.
        destruct Hin as [Hin|Hin].
        -- apply in_map_iff in Hin. destruct Hin as (t' & <- & _).
           discriminate.
        -- apply filter_In in Hin. destruct Hin as [Hin _]. auto.
    + destruct (Simulated.mem tabId (map Tab.id (Simulated.tabs s)));
        [|exact Hv].
      simpl. apply onTabs_valid; [reflexivity| |exact Hv].
      intros tab. simpl. now destruct pinned.
    + apply onTabs_valid; [reflexivity|discriminate|exact Hv].
    + destruct Hv as (Hnd & Hp & Hg). split; [|split; [|exact Hg]]; simpl.
      * eapply Permutation_NoDup; [|exact Hnd].
        apply Permutation_map. symmetry.
        rewrite relocate_perm. apply filter_split_perm.
      * intros t Hin. apply group_moved_members in Hin. auto.
  - reflexivity.
  - reflexivity.
  - reflexivity.
  - intros g i s t Hv. apply isPinned_members. intros tab.
    apply group_moved_members.
  - intros w s tabs tab Hv E Hin. injection E as <-.
    apply filter_In in Hin. destruct Hin as [Hin Hm].
    unfold Simulated.matches in Hm. rewrite andb_true_r in Hm.
    destruct (In_positionedFrom _ _ _ Hin) as (tab0 & j & Hin0 & ->).
    apply isPinned_true. exists tab0. split; [exact Hin0|].
    split; [reflexivity|]. simpl in Hm. now destruct (Tab.pinned tab0).
  - intros w g s tabs tab Hv E Hin. injection E as <-.
    apply filter_In in Hin. destruct Hin as [Hin Hm].
    unfold Simulated.matches in Hm. apply andb_prop in Hm.
    destruct Hm as [Hm _].
    destruct (In_positionedFrom _ _ _ Hin) as (tab0 & j & Hin0 & ->).
    apply (isPinned_false_of s tab0 Hv Hin0).
    simpl in Hm. now destruct (Tab.pinned tab0).
  - intros w s groups group (_ & _ & Hg) E Hin. injection E as <-. auto.
  - intros w g s tabs tab Hv Hg E Hin. injection E as <-.
    apply filter_In in Hin. destruct Hin as [Hin Hm].
    unfold Simulated.matches in Hm. simpl in Hm. apply Z.eqb_eq in Hm.
    destruct (In_positionedFrom _ _ _ Hin) as (tab0 & j & Hin0 & ->).
    apply (isPinned_false_of s tab0 Hv Hin0).
    destruct Hv as (_ & Hp & _). simpl in Hm.
    destruct (Tab.pinned tab0) eqn:E; [|reflexivity].
    specialize (Hp tab0 Hin0 E). congruence.
  - intros ids i s t Hv Hout.
    rewrite <- (onTabs_frame ids Simulated.unpin (fun _ => eq_refl) s t Hout).
    apply isPinned_members. intros tab. apply moved_members.
  - intros ids i s t Hv H.
    apply (onTabs_pins_none ids Simulated.unpin (fun _ => eq_refl) s t);
      [discriminate|].
    rewrite <- H. symmetry. apply isPinned_members. intros tab.
    apply moved_members.
  - intros g ids s t Hv Hout. now apply onTabs_frame.
  - intros g ids s t Hv. apply onTabs_pins_none; [reflexivity|discriminate].
  - intros id b s t Hv Hne.
    destruct (Simulated.mem id (map Tab.id (Simulated.tabs s)));
      [|reflexivity].
    simpl. apply onTabs_frame; [reflexivity|]. simpl. intros [E|[]].
    now symmetry in E.
  - intros id s Hv.
    destruct (Simulated.mem id (map Tab.id (Simulated.tabs s))) eqn:E;
      [|discriminate].
    intros _. simpl. apply mem_In in E. apply in_map_iff in E.
    destruct E as (tab & Hid & Hin). apply isPinned_true.
    exists (Simulated.setFlags true (-1) tab). split; [|now split].
    unfold Simulated.onTabs. simpl. apply in_map_iff. exists tab.
    split; [|exact Hin]. rewrite Hid. unfold Simulated.mem. simpl.
    now rewrite Z.eqb_refl.
Qed.

Lemma simulated_window_valid : Simulated.valid Simulated.window.
Proof.
  split; [|split].
  - simpl. repeat constructor; simpl; intuition lia.
  - intros t Hin Hp. simpl in Hin.
    repeat (destruct Hin as [<-|Hin]; [simpl in *; congruence|]).
    contradiction.
  - intros g Hin. simpl in Hin.
    repeat (destruct Hin as [<-|Hin]; [simpl; lia|]). contradiction.
Qed.

(* ================================================================== *)
(** * The theorems at work on the reference platform *)
(* ================================================================== *)

(** C1 on three tabs given in reverse order: three decorations, and the
    move lists the tabs 3, 2, 1. *)
Lemma scope_order_witness :
  let tabs := [Reference.tab 1 "https://other.com/x";
               Reference.tab 2 "https://example.com/b";
               Reference.tab 3 "https://www.example.com/a"] in
  Consistent Reference.localeCompare
  /\ tabs <> []
  /\ exists ds,
       Background.decorate (P := Reference.platform) tabs = Normal ds
       /\ List.length ds = 3%nat
       /\ (exists out,
             Permutation out ds
             /\ Ordered (Precedes (P := Reference.platform)
                           Background.hostname Background.key
                           Background.originalIndex) out
             /\ Background.sortTabsScope (P := Reference.platform) tabs 0
                  (-1)
                = (_ <- await (tabs_move (map Background.id out) 0) ;;
                   Ret tt))
       /\ Background.sortTabsScope (P := Reference.platform) tabs 0 (-1)
          = (_ <- await (tabs_move [3; 2; 1] 0) ;; Ret tt).
Proof.
  intros tabs.
  assert (Hne : tabs <> []) by discriminate.
  split; [exact reference_collation|]. split; [exact Hne|].
  destruct (scope_order (P := Reference.platform) reference_collation tabs 0
              (-1) Hne) as (HBe & HB & _).
  assert (Hall : forall tab, In tab tabs ->
            exists url,
              Background.resolveTabUrl (P := Reference.platform) tab
              = Normal url).
  { intros tab [<-|[<-|[<-|[]]]]; eexists; reflexivity. }
  destruct (HBe Hall) as [ds Hds].
  exists ds. split; [exact Hds|].
  destruct (HB ds Hds) as (Hlen & _ & out & Hp & Ho & _ & Hreq).
  split; [exact Hlen|]. split.
  - exists out. split; [exact Hp|]. split; [exact Ho|exact Hreq].
  - reflexivity.
Defined.

(** C2 on the two addresses of the claim. *)
Lemma internal_pages_witness :
  let settings := Reference.tab 1 "chrome://settings" in
  let blank := Reference.tab 2 "about:blank" in
  Consistent Reference.localeCompare
  /\ URLParser Reference.URL_parse
  /\ effectiveAddress settings = "chrome://settings"
  /\ effectiveAddress blank = "about:blank"
  /\ exists us ub ds db,
       Reference.URL_parse "http://internal/chrome%3A%2F%2Fsettings" = Some us
       /\ Reference.URL_parse "http://internal/about%3Ablank" = Some ub
       /\ Part000.resolveTabUrl (P := Reference.platform) settings = Normal us
       /\ Part000.resolveTabUrl (P := Reference.platform) blank = Normal ub
       /\ URL.host us = "internal" /\ URL.host ub = "internal"
       /\ Part000.decorateTab (P := Reference.platform) settings 0 = Normal ds
       /\ Part000.decorateTab (P := Reference.platform) blank 0 = Normal db
       /\ Part000.hostKey ds = "internal"
       /\ Part000.hostKey db = "internal".
Proof.
  intros settings blank.
  split; [exact reference_collation|]. split; [exact reference_parser|].
  split; [reflexivity|]. split; [reflexivity|].
  exact (proj1 (internal_pages (P := Reference.platform) reference_collation
                  reference_parser settings blank eq_refl eq_refl) 0).
Defined.

(** C3 on an extension page. *)
Lemma extension_bucket_witness :
  let tab := Reference.tab 1 "chrome-extension://abcdef/page.html" in
  let u := URL.mk "chrome-extension:" "abcdef" "/page.html" "" "" in
  URLParser Reference.URL_parse
  /\ Reference.URL_parse (effectiveAddress tab) = Some u
  /\ URL.protocol u = "chrome-extension:"
  /\ (exists d, Part000.decorateTab (P := Reference.platform) tab 0 = Normal d
                /\ Part000.hostKey d = "ext:" ++ URL.host u)
  /\ (exists d, Background.decorateTab (P := Reference.platform) tab 0
                = Normal d
                /\ Background.hostname d
                   = toLowerCase (replace_WWW_RE (URL.host u))).
Proof.
  intros tab u. split; [exact reference_parser|].
  split; [reflexivity|]. split; [reflexivity|].
  exact (extension_bucket (P := Reference.platform) reference_parser tab u 0
           eq_refl eq_refl).
Defined.


(** C6 on a scope of two tabs, against the small browser. *)
Lemma scope_identities_witness :
  let tabs := [Reference.tab 1 "https://other.com/x";
               Reference.tab 2 "https://example.com/b"] in
  tabs <> []
  /\ exists ds ids,
       Background.decorate (P := Reference.platform) tabs = Normal ds
       /\ Background.sortedIds (P := Reference.platform) tabs = Normal ids
       /\ Permutation ids (map Tab.id tabs)
       /\ movesOf (logOf Simulated.browser
                     (Background.sortTabsScope (P := Reference.platform)
                        tabs 0 (-1)) Simulated.window)
          = [(ids, 0)].
Proof.
  intros tabs.
  assert (Hne : tabs <> []) by discriminate.
  split; [exact Hne|].
  destruct (scope_identities (P := Reference.platform) tabs 0 (-1))
    as (_ & _ & HB & _).
  eexists.
  destruct (HB Hne _ eq_refl) as (ids & Hids & Hp & Hlog).
  exists ids. split; [reflexivity|]. split; [exact Hids|].
  split; [exact Hp|]. exact (Hlog _ Simulated.browser Simulated.window).
Defined.

(** C7 on three tabs given in reverse order. *)
Lemma sort_idempotent_witness :
  let tabs := [Reference.tab 1 "https://other.com/x";
               Reference.tab 2 "https://example.com/b";
               Reference.tab 3 "https://www.example.com/a"] in
  Consistent Reference.localeCompare
  /\ Background.sortedIds (P := Reference.platform) tabs = Normal [3; 2; 1]
  /\ exists tabs',
       arrange (Background.decorateTab (P := Reference.platform))
         (Background.compareDecorated (P := Reference.platform)) tabs
       = Normal tabs'
       /\ Permutation tabs' tabs
       /\ map Tab.id tabs' = [3; 2; 1]
       /\ Background.sortedIds (P := Reference.platform) tabs'
          = Normal (map Tab.id tabs').
Proof.
  intros tabs. split; [exact reference_collation|].
  split; [reflexivity|].
  exact (proj1 (sort_idempotent (P := Reference.platform) reference_collation
                  tabs) [3; 2; 1] eq_refl).
Defined.

(** The orchestrators at work on the small browser: the pinned tabs come
    first, then the group [Work], then the group [Shopping], then the loose
    tabs, each scope sorted; the pinned tabs are pinned again after their
    move; and a second run finds every tab in its place. *)
Example sorted_window :
  let run1 := run Simulated.browser
                (Background.sortAllTabs (P := Reference.platform))
                Simulated.window in
  snd run1 = Normal tt
  /\ map (fun t => (Tab.id t, Tab.pinned t, Tab.groupId t))
       (Simulated.tabs (fst (fst run1)))
     = [(2, true, -1); (1, true, -1); (5, false, 8); (4, false, 8);
        (3, false, 7); (7, false, -1); (6, false, -1)]
  /\ map Tab.id
       (Simulated.tabs
          (finalState Simulated.browser
             (Background.sortAllTabs (P := Reference.platform))
             (fst (fst run1))))
     = [2; 1; 5; 4; 3; 7; 6].
Proof. repeat split; reflexivity. Qed.

Example sorted_window_part000 :
  let run1 := run Simulated.browser
                (Part000.sortAllTabs (P := Reference.platform))
                Simulated.window in
  snd run1 = Normal tt
  /\ map (fun t => (Tab.id t, Tab.pinned t, Tab.groupId t))
       (Simulated.tabs (fst (fst run1)))
     = [(2, true, -1); (1, true, -1); (5, false, 8); (4, false, 8);
        (3, false, 7); (7, false, -1); (6, false, -1)]
  /\ map Tab.id
       (Simulated.tabs
          (finalState Simulated.browser
             (Part000.sortAllTabs (P := Reference.platform))
             (fst (fst run1))))
     = [2; 1; 5; 4; 3; 7; 6].
Proof. repeat split; reflexivity. Qed.

(** C9 on an address without a scheme. *)
Lemma unparseable_address_witness :
  let tab := Reference.tab 1 "not a url" in
  URLParser Reference.URL_parse
  /\ Reference.URL_parse (effectiveAddress tab) = None
  /\ exists u d,
       Reference.URL_parse
         ("http://invalid/" ++ encodeURIComponent (effectiveAddress tab))
       = Some u
       /\ Background.resolveTabUrl (P := Reference.platform) tab = Normal u
       /\ Background.decorateTab (P := Reference.platform) tab 0 = Normal d
       /\ Background.hostname d = "invalid".
Proof.
  intros tab. split; [exact reference_parser|]. split; [reflexivity|].
  exact (proj1 (unparseable_address (P := Reference.platform) reference_parser
                  tab 0 eq_refl)).
Defined.

(** C10 on a web address and on an address without a scheme. *)
Lemma variants_agree_witness :
  let tabs := [Reference.tab 1 "https://www.example.com/a";
               Reference.tab 2 "not a url"] in
  URLParser Reference.URL_parse
  /\ (forall tab, In tab tabs ->
        CommonAddress (P := Reference.platform) (effectiveAddress tab))
  /\ exists ids,
       Background.sortedIds (P := Reference.platform) tabs = Normal ids
       /\ Part000.sortedIds (P := Reference.platform) tabs = Normal ids.
Proof.
  intros tabs. split; [exact reference_parser|].
  assert (Hc : forall tab, In tab tabs ->
            CommonAddress (P := Reference.platform) (effectiveAddress tab)).
  { intros tab [<-|[<-|[]]]; (split; [reflexivity|]).
    - left. eexists. split; [reflexivity|]. now right.
    - right. split; reflexivity. }
  split; [exact Hc|].
  exact (proj2 (variants_agree (P := Reference.platform) reference_parser)
           tabs Hc).
Defined.

(* ================================================================== *)
(** * The shape of every log *)
(* ================================================================== *)

Section TraceOfRun.
Context {P : Platform} {S : Type} (h : Host S).
Variable scope : list Tab.t -> Z -> Z -> Prog unit.
Variable Thrown : Exn -> Prop.

Hypothesis scope_cases : forall tabs i g,
  (tabs = [] /\ scope tabs i g = Ret tt)
  \/ (exists e, Thrown e /\ scope tabs i g = Throw e)
  \/ (exists ids, Permutation ids (map Tab.id tabs)
                  /\ scope tabs i g = moveThenGroup ids i g).

Lemma moveThenGroup_trace ids i g s :
  ensures h (moveThenGroup ids i g) s (fun _ l o => MoveTrace ids i g l o).
Proof.
  run_open. unfold moveThenGroup. simpl.
  destruct (respond h (tabs_move ids i) s) as [s1 [[]|e]]; simpl.
  - destruct (g >? -1) eqn:E; simpl.
    + destruct (respond h (tabs_group g ids) s1) as [s2 [[]|e]]; simpl;
        now constructor.
    + now constructor.
  - constructor.
Qed.

Lemma scope_trace tabs i g s :
  ensures h (scope tabs i g) s (fun _ l o => ScopeTrace Thrown tabs i g l o).
Proof.
  destruct (scope_cases tabs i g) as [[-> ->]|[(e & He & ->)|(ids & Hp & ->)]].
  - now constructor.
  - now constructor.
  - eapply ensures_weaken; [apply moveThenGroup_trace|].
    intros s1 l o H. now apply scope_moved with ids.
Qed.

Lemma sendAll_trace tabs : forall failed s,
  ensures h (sendAll (map (fun t => tabs_update (Tab.id t) true) tabs) failed)
    s (fun _ l o => PinTrace tabs failed l o).
Proof.
  induction tabs as [|t tabs IH]; intros failed s.
  - run_open. simpl. destruct failed; constructor.
  - run_open. simpl.
    destruct (respond h (tabs_update (Tab.id t) true) s) as [s1 r].
    match goal with
    | |- context [sendAll _ ?f] => specialize (IH f s1)
    end.
    destruct (run h _ s1) as [[s2 l2] o2]. simpl in *.
    apply pins_next. destruct failed; exact IH.
Qed.

Lemma pinnedPhase_trace w s :
  ensures h (pinnedPhaseWith scope w) s
    (fun _ l o => PinnedTrace Thrown w l o).
Proof.
  run_open. unfold pinnedPhaseWith. rewrite run_bind, run_await.
  destruct (respond h (tabs_query w (Some true) None) s) as [s1 [tabs|e]];
    cbn [fst snd exchange]; [|constructor].
  rewrite run_bind. destruct tabs as [|first rest]; [constructor|].
  rewrite run_bind.
  pose proof (scope_trace (first :: rest) 0 (Tab.groupId first) s1) as Hs.
  run_open.
  destruct (run h (scope (first :: rest) 0 (Tab.groupId first)) s1)
    as [[s2 l2] [[]|e]]; cbn [fst snd] in Hs.
  2:{ cbn [fst snd]. now constructor. }
  pose proof (sendAll_trace (first :: rest) None s2) as Ha. run_open.
  unfold Promise_all.
  destruct (run h (sendAll (map (fun t => tabs_update (Tab.id t) true)
                             (first :: rest)) None) s2) as [[s3 l3] o3].
  cbn [fst snd] in Ha.
  pose proof (pinned_sorted Thrown w first rest l2 l3 o3 Hs Ha) as H.
  destruct o3 as [[]|e]; cbn [fst snd run]; rewrite ?app_nil_r; exact H.
Qed.

Lemma groupLoop_trace w gs : forall n s,
  ensures h (groupLoopWith scope w gs n) s
    (fun _ l o => LoopTrace Thrown w gs n l o).
Proof.
  induction gs as [|g gs IH]; intros n s.
  - run_open. simpl. constructor.
  - run_open. cbn [groupLoopWith]. rewrite run_bind, run_await.
    destruct (respond h (tabGroups_move (TabGroup.id g) n) s) as [s1 [[]|e]];
      cbn [fst snd exchange]; [|constructor].
    rewrite run_bind, run_await.
    destruct (respond h (tabs_query w None (Some (TabGroup.id g))) s1)
      as [s2 [tabs|e]]; cbn [fst snd exchange]; [|constructor].
    rewrite run_bind.
    destruct tabs as [|t0 tabs0] eqn:Et.
    { cbn [run]. specialize (IH n s2). run_open.
      destruct (run h (groupLoopWith scope w gs n) s2) as [[s3 l3] o3].
      cbn [fst snd app] in *. now constructor. }
    rewrite <- Et.
    assert (Hne : tabs <> []) by (rewrite Et; discriminate).
    assert (Hm : exists m, minIndex tabs = Normal m)
      by (rewrite Et; simpl; eauto).
    destruct Hm as [m Hm]. rewrite run_bind, Hm. cbn [lift run].
    rewrite run_bind.
    pose proof (scope_trace tabs m (TabGroup.id g) s2) as Hs. run_open.
    destruct (run h (scope tabs m (TabGroup.id g)) s2)
      as [[s3 l3] [[]|e]]; cbn [fst snd] in Hs.
    2:{ cbn [fst snd app]. now apply loop_failed with m. }
    cbn [run]. rewrite app_nil_r.
    specialize (IH (n + Z.of_nat (List.length tabs)) s3). run_open.
    destruct (run h (groupLoopWith scope w gs
                       (n + Z.of_nat (List.length tabs))) s3)
      as [[s4 l4] o4].
    cbn [fst snd app] in *. now apply loop_sorted with m.
Qed.

Lemma groupsPhase_trace w n s :
  ensures h (groupsPhaseWith scope w n) s
    (fun _ l o => GroupsTrace Thrown w n l o).
Proof.
  run_open. unfold groupsPhaseWith. rewrite run_bind, run_await.
  destruct (respond h (tabGroups_query w) s) as [s1 [groups|e]];
    cbn [fst snd exchange]; [|constructor].
  pose proof (groupLoop_trace w (Array_sort compareGroups groups) n s1) as H.
  run_open.
  destruct (run h (groupLoopWith scope w (Array_sort compareGroups groups) n)
              s1) as [[s2 l2] o2].
  cbn [fst snd app] in *. now constructor.
Qed.

Lemma ungroupedPhase_trace w s :
  ensures h (ungroupedPhaseWith scope w) s
    (fun _ l o => UngroupedTrace Thrown w l o).
Proof.
  run_open. unfold ungroupedPhaseWith. rewrite run_bind, run_await.
  destruct (respond h (tabs_query w (Some false) (Some (-1))) s)
    as [s1 [tabs|e]]; cbn [fst snd exchange]; [|constructor].
  destruct tabs as [|t0 tabs0] eqn:Et; [constructor|]. rewrite <- Et.
  assert (Hne : tabs <> []) by (rewrite Et; discriminate).
  assert (Hm : exists m, minIndex tabs = Normal m)
    by (rewrite Et; simpl; eauto).
  destruct Hm as [m Hm]. rewrite run_bind, Hm. cbn [lift run].
  pose proof (scope_trace tabs m (-1) s1) as Hs. run_open.
  destruct (run h (scope tabs m (-1)) s1) as [[s2 l2] o2].
  cbn [fst snd app] in *. now apply ungrouped_sorted with m.
Qed.

Lemma sortAllTabsWith_trace s :
  ensures h (sortAllTabsWith scope) s (fun _ l o => SortTrace Thrown l o).
Proof.
  run_open. unfold sortAllTabsWith. rewrite run_bind, run_await.
  destruct (respond h windows_getLastFocused s) as [s1 [w|e]];
    cbn [fst snd exchange]; [|constructor].
  rewrite run_bind.
  pose proof (pinnedPhase_trace w s1) as H1. run_open.
  destruct (run h (pinnedPhaseWith scope w) s1) as [[s2 l2] [n|e]];
    cbn [fst snd] in H1; [|cbn [fst snd app]; now constructor].
  rewrite run_bind.
  pose proof (groupsPhase_trace w n s2) as H2. run_open.
  destruct (run h (groupsPhaseWith scope w n) s2) as [[s3 l3] [n'|e]];
    cbn [fst snd] in H2;
    [|cbn [fst snd app]; now apply sort_groups_failed with n].
  pose proof (ungroupedPhase_trace w s3) as H3. run_open.
  destruct (run h (ungroupedPhaseWith scope w) s3) as [[s4 l4] o4].
  cbn [fst snd app] in *. now apply sort_ungrouped with n n'.
Qed.
End TraceOfRun.

(* ================================================================== *)
(** * The exceptions of the scope sorters *)
(* ================================================================== *)

Section VariantTraces.
Context {P : Platform}.

Lemma new_URL_throws s e : new_URL s = Throws e -> e = TypeError.
Proof.
  unfold new_URL. destruct (URL_parse s); [discriminate|].
  intros H. now injection H.
Qed.

Lemma background_decorate_throws tabs e :
  Background.decorate tabs = Throws e -> e = TypeError.
Proof.
  intros H. apply mapWithIndexFrom_throws in H.
  destruct H as (t & j & _ & H). unfold Background.decorateTab in H.
  destruct (Background.resolveTabUrl t) as [u|e'] eqn:E; [discriminate|].
  injection H as <-. unfold Background.resolveTabUrl in E.
  destruct (new_URL (effectiveAddress t)); [discriminate|].
  exact (new_URL_throws _ _ E).
Qed.

Lemma part000_resolve_throws t e :
  Part000.resolveTabUrl t = Throws e -> e = TypeError.
Proof.
  unfold Part000.resolveTabUrl.
  destruct (startsWith (effectiveAddress t) "chrome-extension://");
    [apply new_URL_throws|].
  destruct (startsWith (effectiveAddress t) "chrome://"
            || startsWith (effectiveAddress t) "about:"
            || startsWith (effectiveAddress t) "edge://"
            || startsWith (effectiveAddress t) "brave://");
    [apply new_URL_throws|].
  destruct (new_URL (effectiveAddress t)); [discriminate|].
  apply new_URL_throws.
Qed.

Lemma part000_decorate_throws tabs e :
  Part000.decorate tabs = Throws e -> e = TypeError.
Proof.
  intros H. apply mapWithIndexFrom_throws in H.
  destruct H as (t & j & _ & H). unfold Part000.decorateTab in H.
  destruct (Part000.resolveTabUrl t) as [u|e'] eqn:E; [discriminate|].
  injection H as <-. exact (part000_resolve_throws _ _ E).
Qed.

(** What the scope sorters do, with the exceptions they may throw. *)
Lemma background_scope_throws tabs i g :
  (tabs = [] /\ Background.sortTabsScope tabs i g = Ret tt)
  \/ (exists e, e = TypeError /\ Background.sortTabsScope tabs i g = Throw e)
  \/ (exists ids, Permutation ids (map Tab.id tabs)
                  /\ Background.sortTabsScope tabs i g
                     = moveThenGroup ids i g).
Proof.
  destruct (background_scope_cases tabs i g) as [H|[[e H]|H]]; [tauto| |tauto].
  right. left. exists e. split; [|exact H].
  destruct tabs as [|t l]; [discriminate|].
  unfold Background.sortTabsScope, Background.sortedIds in H.
  destruct (Background.decorate (t :: l)) as [ds|e'] eqn:E; [discriminate|].
  injection H as <-. exact (background_decorate_throws _ _ E).
Qed.

Lemma part000_scope_throws tabs i g :
  (tabs = [] /\ Part000.sortTabsScope tabs i g = Ret tt)
  \/ (exists e, e = TypeError /\ Part000.sortTabsScope tabs i g = Throw e)
  \/ (exists ids, Permutation ids (map Tab.id tabs)
                  /\ Part000.sortTabsScope tabs i g = moveThenGroup ids i g).
Proof.
  destruct (part000_scope_cases tabs i g) as [H|[[e H]|H]]; [tauto| |tauto].
  right. left. exists e. split; [|exact H].
  destruct tabs as [|t l]; [discriminate|].
  unfold Part000.sortTabsScope, Part000.sortedIds in H.
  destruct (Part000.decorate (t :: l)) as [ds|e'] eqn:E; [discriminate|].
  injection H as <-. exact (part000_decorate_throws _ _ E).
Qed.

(** On a platform whose parser takes the placeholders, the scope sorter of
    [src/background.js] throws nothing of its own. *)
Lemma background_scope_total (Parser : URLParser URL_parse) tabs i g :
  (tabs = [] /\ Background.sortTabsScope tabs i g = Ret tt)
  \/ (exists e : Exn, False /\ Background.sortTabsScope tabs i g = Throw e)
  \/ (exists ids, Permutation ids (map Tab.id tabs)
                  /\ Background.sortTabsScope tabs i g
                     = moveThenGroup ids i g).
Proof.
  destruct (background_scope_cases tabs i g) as [H|[[e H]|H]]; [tauto| |tauto].
  exfalso. destruct tabs as [|t l]; [discriminate|].
  unfold Background.sortTabsScope, Background.sortedIds in H.
  destruct (background_decorates Parser (t :: l)) as [ds Hds].
  rewrite Hds in H. discriminate.
Qed.

(** The log and the completion of every run of [sortAllTabs]. *)
Lemma background_trace {S : Type} (h : Host S) s :
  SortTrace (fun e => e = TypeError) (logOf h Background.sortAllTabs s)
    (outcomeOf h Background.sortAllTabs s).
Proof.
  unfold logOf, outcomeOf. rewrite background_sortAllTabs.
  exact (sortAllTabsWith_trace h _ _ background_scope_throws s).
Qed.

Lemma background_trace_total (Parser : URLParser URL_parse)
    {S : Type} (h : Host S) s :
  SortTrace (fun _ => False) (logOf h Background.sortAllTabs s)
    (outcomeOf h Background.sortAllTabs s).
Proof.
  unfold logOf, outcomeOf. rewrite background_sortAllTabs.
  exact (sortAllTabsWith_trace h _ _ (background_scope_total Parser) s).
Qed.

Lemma part000_trace {S : Type} (h : Host S) s :
  SortTrace (fun e => e = TypeError) (logOf h Part000.sortAllTabs s)
    (outcomeOf h Part000.sortAllTabs s).
Proof.
  exact (sortAllTabsWith_trace h _ _ part000_scope_throws s).
Qed.

Lemma variant_trace sortAllTabs {S : Type} (h : Host S) s :
  EitherVariant sortAllTabs ->
  SortTrace (fun e => e = TypeError) (logOf h sortAllTabs s)
    (outcomeOf h sortAllTabs s).
Proof.
  intros [->| ->]; [apply background_trace|apply part000_trace].
Qed.
End VariantTraces.

(* ================================================================== *)
(** * Rejections *)
(* ================================================================== *)

Lemma firstRejection_app l l' :
  firstRejection (l ++ l')
  = match firstRejection l with
    | Some e => Some e
    | None => firstRejection l'
    end.
Proof.
  induction l as [|x l IH]; simpl; [reflexivity|].
  now destruct (rejectionOf x).
Qed.

Section Agreement.
Context {P : Platform}.
Variable Thrown : Exn -> Prop.

Lemma move_agrees ids i g l o :
  MoveTrace ids i g l o -> Agrees (fun _ => False) unit l o.
Proof.
  intros [e| |r]; simpl; try tauto. destruct r as [[]|e]; simpl; tauto.
Qed.

Lemma scope_agrees tabs i g l o :
  ScopeTrace Thrown tabs i g l o -> Agrees Thrown unit l o.
Proof.
  intros [_|e He|ids l' o' _ H]; simpl; try tauto.
  apply move_agrees in H. destruct o'; simpl in *; tauto.
Qed.

Lemma pins_agree tabs failed l o :
  PinTrace tabs failed l o ->
  o = match failed with
      | Some e => Throws e
      | None =>
          match firstRejection l with
          | Some e => Throws e
          | None => Normal tt
          end
      end.
Proof.
  induction 1 as [failed|t tabs failed r l o _ IH]; simpl.
  - now destruct failed.
  - destruct failed; [exact IH|]. destruct r as [[]|e]; exact IH.
Qed.

Lemma pinned_agrees w l o :
  PinnedTrace Thrown w l o -> Agrees Thrown Z l o.
Proof.
  intros [e| |first rest l' e H|first rest l' l'' o' H H']; simpl;
    try tauto.
  - apply scope_agrees in H. exact H.
  - apply scope_agrees in H. apply pins_agree in H'. simpl in H.
    unfold Agrees. cbn [firstRejection rejectionOf errorOf].
    rewrite firstRejection_app, H. subst o'.
    destruct (firstRejection l''); simpl; tauto.
Qed.

Lemma loop_agrees w gs n l o :
  LoopTrace Thrown w gs n l o -> Agrees Thrown Z l o.
Proof.
  induction 1 as [n|g gs n e|g gs n e|g gs n l o _ IH
                 |g gs n tabs m l e _ _ H
                 |g gs n tabs m l l' o _ _ H _ IH];
    unfold Agrees in *; cbn [firstRejection rejectionOf errorOf] in *;
    try tauto.
  - exact (scope_agrees _ _ _ _ _ H).
  - apply scope_agrees in H. simpl in H.
    now rewrite firstRejection_app, H.
Qed.

Lemma groups_agree w n l o :
  GroupsTrace Thrown w n l o -> Agrees Thrown Z l o.
Proof.
  intros [e|groups l' o' H]; simpl; [tauto|].
  exact (loop_agrees _ _ _ _ _ H).
Qed.

Lemma ungrouped_agrees w l o :
  UngroupedTrace Thrown w l o -> Agrees Thrown unit l o.
Proof.
  intros [e| |tabs m l' o' _ _ H]; simpl; try tauto.
  exact (scope_agrees _ _ _ _ _ H).
Qed.

Lemma sort_agrees l o : SortTrace Thrown l o -> Agrees Thrown unit l o.
Proof.
  intros [e|w l1 e H1|w l1 n l2 e H1 H2|w l1 n l2 n' l3 o' H1 H2 H3];
    unfold Agrees; cbn [firstRejection rejectionOf errorOf]; try tauto.
  - exact (pinned_agrees _ _ _ H1).
  - apply pinned_agrees in H1. apply groups_agree in H2. simpl in *.
    now rewrite firstRejection_app, H1.
  - apply pinned_agrees in H1. apply groups_agree in H2.
    apply ungrouped_agrees in H3. simpl in *.
    now rewrite !firstRejection_app, H1, H2.
Qed.
End Agreement.

Lemma firstRejection_none l :
  firstRejection l = None <-> Forall (fun x => rejectionOf x = None) l.
Proof.
  induction l as [|x l IH]; simpl.
  - split; [constructor|reflexivity].
  - destruct (rejectionOf x) eqn:E.
    + split; [discriminate|]. intros H. apply Forall_inv in H. congruence.
    + rewrite IH. split; [now constructor|apply Forall_inv_tail].
Qed.

(** Where an element of a concatenation stands. *)
Lemma split_app (A : Type) (l1 l2 la lb : list A) x :
  (l1 ++ x :: l2 = la ++ lb)%list ->
  (exists m, la = l1 ++ x :: m /\ l2 = m ++ lb)%list
  \/ (exists m, l1 = la ++ m /\ lb = m ++ x :: l2)%list.
Proof.
  revert l1. induction la as [|a la IH]; intros l1 H; simpl in *.
  - right. exists l1. now split.
  - destruct l1 as [|b l1]; simpl in *.
    + injection H as Ha Hl. subst. left. exists la. now split.
    + injection H as <- H. destruct (IH _ H) as [(m & -> & ->)|(m & -> & ->)].
      * left. exists m. now split.
      * right. exists m. now split.
Qed.

Lemma quiet_clean l : firstRejection l = None -> Quiet l.
Proof.
  intros H l1 x l2 -> Hx. apply firstRejection_none in H.
  apply Forall_elt in H. contradiction.
Qed.

Lemma quiet_app l l' : firstRejection l = None -> Quiet l' -> Quiet (l ++ l').
Proof.
  intros H H' l1 x l2 E Hx.
  destruct (split_app _ _ _ _ _ _ (eq_sym E)) as [(m & -> & ->)|(m & -> & ->)].
  - apply firstRejection_none in H. apply Forall_elt in H. contradiction.
  - exact (H' m x l2 eq_refl Hx).
Qed.

Lemma quiet_cons x l : rejectionOf x = None -> Quiet l -> Quiet (x :: l).
Proof.
  intros H. apply (quiet_app [x]). simpl. now rewrite H.
Qed.

Lemma quiet_one x : Quiet [x].
Proof.
  intros l1 y l2 E _.
  destruct l1 as [|a [|b l1]]; simpl in E; try discriminate.
  injection E as <- <-. split; [constructor|]. intros H. now contradiction H.
Qed.

Lemma quiet_updates l : Forall (fun y => isUpdate y = true) l -> Quiet l.
Proof.
  intros H l1 x l2 -> _. split.
  - apply Forall_app in H. destruct H as [_ H]. now apply Forall_inv_tail in H.
  - intros _. now apply Forall_elt in H.
Qed.

Section Quietness.
Context {P : Platform}.
Variable Thrown : Exn -> Prop.

Lemma move_quiet ids i g l o : MoveTrace ids i g l o -> Quiet l.
Proof.
  intros [e| |r].
  - apply quiet_one.
  - apply quiet_one.
  - apply quiet_cons; [reflexivity|apply quiet_one].
Qed.

Lemma scope_quiet tabs i g l o : ScopeTrace Thrown tabs i g l o -> Quiet l.
Proof.
  intros [_|e _|ids l' o' _ H]; try (now apply quiet_clean).
  exact (move_quiet _ _ _ _ _ H).
Qed.

Lemma pins_updates tabs failed l o :
  PinTrace tabs failed l o -> Forall (fun y => isUpdate y = true) l.
Proof. induction 1; now constructor. Qed.

Lemma scope_clean tabs i g l :
  ScopeTrace Thrown tabs i g l (Normal tt) -> firstRejection l = None.
Proof. exact (scope_agrees Thrown tabs i g l (Normal tt)). Qed.

Lemma pinned_quiet w l o : PinnedTrace Thrown w l o -> Quiet l.
Proof.
  intros [e| |first rest l' e H|first rest l' l'' o' H H'].
  - apply quiet_one.
  - apply quiet_one.
  - apply quiet_cons; [reflexivity|]. exact (scope_quiet _ _ _ _ _ H).
  - apply quiet_cons; [reflexivity|].
    apply quiet_app; [exact (scope_clean _ _ _ _ H)|].
    apply quiet_updates. exact (pins_updates _ _ _ _ H').
Qed.

Lemma loop_quiet w gs n l o : LoopTrace Thrown w gs n l o -> Quiet l.
Proof.
  induction 1 as [n|g gs n e|g gs n e|g gs n l o _ IH
                 |g gs n tabs m l e _ _ H
                 |g gs n tabs m l l' o _ _ H _ IH].
  - now apply quiet_clean.
  - apply quiet_one.
  - apply quiet_cons; [reflexivity|apply quiet_one].
  - do 2 (apply quiet_cons; [reflexivity|]). exact IH.
  - do 2 (apply quiet_cons; [reflexivity|]). exact (scope_quiet _ _ _ _ _ H).
  - do 2 (apply quiet_cons; [reflexivity|]).
    apply quiet_app; [exact (scope_clean _ _ _ _ H)|exact IH].
Qed.

Lemma groups_quiet w n l o : GroupsTrace Thrown w n l o -> Quiet l.
Proof.
  intros [e|groups l' o' H]; [apply quiet_one|].
  apply quiet_cons; [reflexivity|]. exact (loop_quiet _ _ _ _ _ H).
Qed.

Lemma ungrouped_quiet w l o : UngroupedTrace Thrown w l o -> Quiet l.
Proof.
  intros [e| |tabs m l' o' _ _ H]; try apply quiet_one.
  apply quiet_cons; [reflexivity|]. exact (scope_quiet _ _ _ _ _ H).
Qed.

Lemma sort_quiet l o : SortTrace Thrown l o -> Quiet l.
Proof.
  intros [e|w l1 e H1|w l1 n l2 e H1 H2|w l1 n l2 n' l3 o' H1 H2 H3].
  - apply quiet_one.
  - apply quiet_cons; [reflexivity|]. exact (pinned_quiet _ _ _ H1).
  - apply quiet_cons; [reflexivity|].
    apply quiet_app; [exact (pinned_agrees Thrown _ _ _ H1)|].
    exact (groups_quiet _ _ _ _ H2).
  - apply quiet_cons; [reflexivity|].
    apply quiet_app; [exact (pinned_agrees Thrown _ _ _ H1)|].
    apply quiet_app; [exact (groups_agree Thrown _ _ _ _ H2)|].
    exact (ungrouped_quiet _ _ _ H3).
Qed.
End Quietness.

Section AlwaysRules.
Variable R : list Exchange -> Exchange -> Prop.

Lemma always_nil : Always R [].
Proof. intros [|a l1] x l2 H; discriminate. Qed.

Lemma always_app la lb :
  Always R la -> Always (fun m y => R (la ++ m)%list y) lb ->
  Always R (la ++ lb).
Proof.
  intros Ha Hb l1 x l2 E.
  destruct (split_app _ _ _ _ _ _ (eq_sym E)) as [(m & -> & ->)|(m & -> & ->)].
  - exact (Ha l1 x m eq_refl).
  - exact (Hb m x l2 eq_refl).
Qed.

Lemma always_one x : R [] x -> Always R [x].
Proof.
  intros H l1 y l2 E.
  destruct l1 as [|a [|b l1]]; simpl in E; try discriminate.
  now injection E as <- <-.
Qed.

Lemma always_forall l : Forall (fun y => forall m, R m y) l -> Always R l.
Proof. intros H l1 x l2 ->. apply Forall_elt in H. apply H. Qed.

Hypothesis R_extends : Extends R.

Lemma always_app_ext la lb : Always R la -> Always R lb -> Always R (la ++ lb).
Proof.
  intros Ha Hb. apply always_app; [exact Ha|].
  intros l1 x l2 E. apply R_extends. exact (Hb l1 x l2 E).
Qed.

Lemma always_cons_ext x l : R [] x -> Always R l -> Always R (x :: l).
Proof. intros Hx. apply (always_app_ext [x]). now apply always_one. Qed.
End AlwaysRules.

Lemma always_weaken (R R' : list Exchange -> Exchange -> Prop) l :
  (forall m y, R m y -> R' m y) -> Always R l -> Always R' l.
Proof. intros H Ha l1 x l2 E. apply H. exact (Ha l1 x l2 E). Qed.

Lemma endsWith_extends pre l suffix :
  endsWith l suffix -> endsWith (pre ++ l) suffix.
Proof. intros [l0 ->]. exists (pre ++ l0)%list. now rewrite app_assoc. Qed.

Lemma MoveFollowsQuery_extends : Extends MoveFollowsQuery.
Proof.
  intros pre m [] H; simpl in *; try exact I.
  destruct H as (w & p & q & tabs & He & H).
  exists w, p, q, tabs. split; [now apply endsWith_extends|exact H].
Qed.

Lemma GroupFollowsMove_extends : Extends GroupFollowsMove.
Proof.
  intros pre m [] H; simpl in *; try exact I.
  destruct H as (Hg & w & p & q & tabs & i & He & H).
  split; [exact Hg|]. exists w, p, q, tabs, i.
  split; [now apply endsWith_extends|exact H].
Qed.

(* ================================================================== *)
(** * The exchanges of each block *)
(* ================================================================== *)

Lemma tabsAnswered_app l l' :
  tabsAnswered (l ++ l') = tabsAnswered l + tabsAnswered l'.
Proof.
  induction l as [|x l IH]; simpl; [reflexivity|].
  destruct x as [| ? ? ? [tabs|]| | | | |]; simpl; lia.
Qed.

Lemma moves_answer_nothing l :
  Forall (fun y => isMoveOrGroup y = true) l ->
  tabsAnswered l = 0 /\ updatesOf l = [] /\ groupMovesOf l = []
  /\ forall w, Forall (InWindow w) l.
Proof.
  induction 1 as [|x l Hx _ (IH1 & IH2 & IH3 & IH4)];
    [repeat split; constructor|].
  destruct x; try discriminate; simpl; repeat split; try assumption;
    intros w; (constructor; [exact I|apply IH4]).
Qed.

Lemma updates_answer_nothing l :
  Forall (fun y => isUpdate y = true) l ->
  tabsAnswered l = 0 /\ groupMovesOf l = []
  /\ forall w, Forall (InWindow w) l.
Proof.
  induction 1 as [|x l Hx _ (IH1 & IH3 & IH4)];
    [repeat split; constructor|].
  destruct x; try discriminate; simpl; repeat split; try assumption;
    intros w; (constructor; [exact I|apply IH4]).
Qed.

Section Shapes.
Context {P : Platform}.
Variable Thrown : Exn -> Prop.

Lemma move_shape ids i g l o :
  MoveTrace ids i g l o -> Forall (fun y => isMoveOrGroup y = true) l.
Proof. intros [e| |r]; repeat constructor. Qed.

Lemma scope_shape tabs i g l o :
  ScopeTrace Thrown tabs i g l o -> Forall (fun y => isMoveOrGroup y = true) l.
Proof.
  intros [_|e _|ids l' o' _ H]; try constructor.
  exact (move_shape _ _ _ _ _ H).
Qed.

Lemma pins_shape tabs failed l o :
  PinTrace tabs failed l o ->
  updatesOf l = map (fun t => (Tab.id t, true)) tabs.
Proof. induction 1; simpl; [reflexivity|now f_equal]. Qed.

(** A move of a scope, after the query that listed its tabs. *)
Lemma scope_moves w p q tabs i g l o :
  ScopeTrace Thrown tabs i g l o ->
  tabs <> [] ->
  match p with
  | Some true => i = 0
  | _ => minIndex tabs = Normal i
  end ->
  Always MoveFollowsQuery (x_query w p q (Normal tabs) :: l).
Proof.
  intros H Hne Hi.
  apply (always_app _ [_]); [now apply always_one|].
  destruct H as [_|e _|ids l' o' Hp H]; try apply always_nil.
  assert (Hm : forall r, MoveFollowsQuery
                      ([x_query w p q (Normal tabs)] ++ [])
                      (x_move ids i r)).
  { intros r. exists w, p, q, tabs. split; [now exists []|]. tauto. }
  destruct H as [e| |r].
  - apply always_one. apply Hm.
  - apply always_one. apply Hm.
  - apply (always_app _ [_]); [apply always_one; apply Hm|].
    now apply always_one.
Qed.

(** The grouping of a scope, after its move and the query before. *)
Lemma scope_groups w p q tabs i g l o :
  ScopeTrace Thrown tabs i g l o ->
  (-1 < g ->
   match p with
   | Some true =>
       exists first, hd_error tabs = Some first /\ g = Tab.groupId first
   | Some false => False
   | None => q = Some g
   end) ->
  Always GroupFollowsMove (x_query w p q (Normal tabs) :: l).
Proof.
  intros H Hg.
  apply (always_app _ [_]); [now apply always_one|].
  destruct H as [_|e _|ids l' o' Hp H]; try apply always_nil.
  destruct H as [e| |r E]; try (now apply always_one).
  apply (always_app _ [_]); [now apply always_one|].
  apply always_one. simpl. apply Z.gtb_lt in E.
  split; [lia|]. exists w, p, q, tabs, i.
  split; [now exists []|]. apply Hg. lia.
Qed.
End Shapes.

(** A property of the moves and groupings that holds of every scope after
    its query holds of the whole log. *)
Section ScopesInContext.
Context {P : Platform}.
Variable Thrown : Exn -> Prop.
Variable R : list Exchange -> Exchange -> Prop.

Hypothesis R_extends : Extends R.
Hypothesis R_other : forall m y, isMoveOrGroup y = false -> R m y.
Hypothesis R_pinned : forall w first rest l o,
  ScopeTrace Thrown (first :: rest) 0 (Tab.groupId first) l o ->
  Always R (x_query w (Some true) None (Normal (first :: rest)) :: l).
Hypothesis R_group : forall w g tabs m l o,
  tabs <> [] -> minIndex tabs = Normal m ->
  ScopeTrace Thrown tabs m g l o ->
  Always R (x_query w None (Some g) (Normal tabs) :: l).
Hypothesis R_ungrouped : forall w tabs m l o,
  tabs <> [] -> minIndex tabs = Normal m ->
  ScopeTrace Thrown tabs m (-1) l o ->
  Always R (x_query w (Some false) (Some (-1)) (Normal tabs) :: l).

Lemma other_one x : isMoveOrGroup x = false -> Always R [x].
Proof. intros H. apply always_one. now apply R_other. Qed.

Lemma other_cons x l :
  isMoveOrGroup x = false -> Always R l -> Always R (x :: l).
Proof.
  intros H. apply always_cons_ext; [exact R_extends|now apply R_other].
Qed.

Lemma pinned_always w l o : PinnedTrace Thrown w l o -> Always R l.
Proof.
  intros [e| |first rest l' e H|first rest l' l'' o' H H'].
  - now apply other_one.
  - now apply other_one.
  - exact (R_pinned _ _ _ _ _ H).
  - rewrite app_comm_cons. apply always_app_ext; [exact R_extends| |].
    + exact (R_pinned _ _ _ _ _ H).
    + apply always_forall. apply pins_updates in H'.
      eapply Forall_impl; [|exact H']. intros y Hy m. apply R_other.
      now destruct y.
Qed.

Lemma loop_always w gs n l o : LoopTrace Thrown w gs n l o -> Always R l.
Proof.
  induction 1 as [n|g gs n e|g gs n e|g gs n l o _ IH
                 |g gs n tabs m l e Hne Hm H
                 |g gs n tabs m l l' o Hne Hm H _ IH].
  - apply always_nil.
  - now apply other_one.
  - apply other_cons; [reflexivity|now apply other_one].
  - do 2 (apply other_cons; [reflexivity|]). exact IH.
  - apply other_cons; [reflexivity|]. exact (R_group _ _ _ _ _ _ Hne Hm H).
  - apply other_cons; [reflexivity|]. rewrite app_comm_cons.
    apply always_app_ext; [exact R_extends| |exact IH].
    exact (R_group _ _ _ _ _ _ Hne Hm H).
Qed.

Lemma groups_always w n l o : GroupsTrace Thrown w n l o -> Always R l.
Proof.
  intros [e|groups l' o' H]; [now apply other_one|].
  apply other_cons; [reflexivity|]. exact (loop_always _ _ _ _ _ H).
Qed.

Lemma ungrouped_always w l o : UngroupedTrace Thrown w l o -> Always R l.
Proof.
  intros [e| |tabs m l' o' Hne Hm H]; try (now apply other_one).
  exact (R_ungrouped _ _ _ _ _ Hne Hm H).
Qed.

Lemma sort_always l o : SortTrace Thrown l o -> Always R l.
Proof.
  intros [e|w l1 e H1|w l1 n l2 e H1 H2|w l1 n l2 n' l3 o' H1 H2 H3].
  - now apply other_one.
  - apply other_cons; [reflexivity|]. exact (pinned_always _ _ _ H1).
  - apply other_cons; [reflexivity|].
    apply always_app_ext; [exact R_extends| |].
    + exact (pinned_always _ _ _ H1).
    + exact (groups_always _ _ _ _ H2).
  - apply other_cons; [reflexivity|].
    apply always_app_ext; [exact R_extends| |].
    + exact (pinned_always _ _ _ H1).
    + apply always_app_ext; [exact R_extends| |].
      * exact (groups_always _ _ _ _ H2).
      * exact (ungrouped_always _ _ _ H3).
Qed.
End ScopesInContext.

Section LogsOfSort.
Context {P : Platform}.
Variable Thrown : Exn -> Prop.

Lemma sort_moves l o : SortTrace Thrown l o -> Always MoveFollowsQuery l.
Proof.
  apply sort_always.
  - exact MoveFollowsQuery_extends.
  - intros m []; try discriminate; intros _; exact I.
  - intros w first rest l' o' H.
    apply (scope_moves Thrown w (Some true) None _ _ _ _ _ H);
      [discriminate|reflexivity].
  - intros w g tabs m l' o' Hne Hm H.
    now apply (scope_moves Thrown w None (Some g) _ _ _ _ _ H).
  - intros w tabs m l' o' Hne Hm H.
    now apply (scope_moves Thrown w (Some false) (Some (-1)) _ _ _ _ _ H).
Qed.

Lemma sort_groupings l o : SortTrace Thrown l o -> Always GroupFollowsMove l.
Proof.
  apply sort_always.
  - exact GroupFollowsMove_extends.
  - intros m []; try discriminate; intros _; exact I.
  - intros w first rest l' o' H.
    apply (scope_groups Thrown w (Some true) None _ _ _ _ _ H).
    intros _. now exists first.
  - intros w g tabs m l' o' Hne Hm H.
    now apply (scope_groups Thrown w None (Some g) _ _ _ _ _ H).
  - intros w tabs m l' o' Hne Hm H.
    apply (scope_groups Thrown w (Some false) (Some (-1)) _ _ _ _ _ H). lia.
Qed.

(** The cursor. *)
Lemma cursor_free n l :
  groupMovesOf l = [] -> Always (AtCursor n) l.
Proof.
  intros H. apply always_forall.
  induction l as [|x l IH]; constructor.
  - destruct x; try (intros; exact I). discriminate.
  - apply IH. destruct x; try exact H. discriminate.
Qed.

Lemma cursor_app n la lb :
  Always (AtCursor n) la -> Always (AtCursor (n + tabsAnswered la)) lb ->
  Always (AtCursor n) (la ++ lb).
Proof.
  intros Ha Hb. apply always_app; [exact Ha|].
  eapply always_weaken; [|exact Hb].
  intros m []; simpl; try tauto. rewrite tabsAnswered_app. lia.
Qed.

Lemma pinned_cursor w l o :
  PinnedTrace Thrown w l o ->
  groupMovesOf l = [] /\ forall n, o = Normal n -> tabsAnswered l = n.
Proof.
  intros [e| |first rest l' e H|first rest l' l'' o' H H'].
  - split; [reflexivity|discriminate].
  - split; [reflexivity|]. intros n E. now injection E as <-.
  - apply scope_shape, moves_answer_nothing in H.
    split; [apply H|discriminate].
  - apply scope_shape, moves_answer_nothing in H.
    apply pins_updates, updates_answer_nothing in H'.
    destruct H as (H1 & _ & H3 & _), H' as (H1' & H3' & _). split.
    + simpl. now rewrite groupMovesOf_app, H3, H3'.
    + intros n E. destruct o'; [|discriminate]. injection E as <-.
      cbn [tabsAnswered]. rewrite tabsAnswered_app, H1, H1'. simpl. lia.
Qed.

Lemma loop_cursor w gs n l o :
  LoopTrace Thrown w gs n l o -> Always (AtCursor n) l.
Proof.
  induction 1 as [n|g gs n e|g gs n e|g gs n l o _ IH
                 |g gs n tabs m l e Hne Hm H
                 |g gs n tabs m l l' o Hne Hm H _ IH].
  - apply always_nil.
  - apply always_one. simpl. lia.
  - apply (cursor_app _ [_]); [apply always_one; simpl; lia|].
    now apply always_one.
  - apply (cursor_app _ [_; _]).
    + apply (cursor_app _ [_]); [apply always_one; simpl; lia|].
      now apply always_one.
    + simpl. now rewrite Z.add_0_r.
  - apply (cursor_app _ [_]); [apply always_one; simpl; lia|].
    apply (cursor_app _ [_]); [now apply always_one|].
    apply cursor_free. apply scope_shape, moves_answer_nothing in H. apply H.
  - apply (cursor_app _ [_]); [apply always_one; simpl; lia|].
    apply (cursor_app _ [_]); [now apply always_one|].
    apply scope_shape, moves_answer_nothing in H.
    destruct H as (H1 & _ & H3 & _).
    apply cursor_app; [now apply cursor_free|].
    rewrite H1. simpl. now rewrite !Z.add_0_r.
Qed.

Lemma groups_cursor w n l o :
  GroupsTrace Thrown w n l o -> Always (AtCursor n) l.
Proof.
  intros [e|groups l' o' H]; [now apply always_one|].
  apply (cursor_app _ [_]); [now apply always_one|].
  simpl. rewrite Z.add_0_r. exact (loop_cursor _ _ _ _ _ H).
Qed.

Lemma ungrouped_cursor w l o :
  UngroupedTrace Thrown w l o -> groupMovesOf l = [].
Proof.
  intros [e| |tabs m l' o' _ _ H]; try reflexivity.
  apply scope_shape, moves_answer_nothing in H. apply H.
Qed.

Lemma sort_cursor l o : SortTrace Thrown l o -> Always (AtCursor 0) l.
Proof.
  intros [e|w l1 e H1|w l1 n l2 e H1 H2|w l1 n l2 n' l3 o' H1 H2 H3].
  - now apply always_one.
  - apply cursor_free. simpl. apply (pinned_cursor _ _ _ H1).
  - destruct (pinned_cursor _ _ _ H1) as [Hg Hn].
    apply (cursor_app _ [_]); [now apply always_one|].
    apply cursor_app; [now apply cursor_free|].
    simpl. rewrite (Hn n eq_refl). exact (groups_cursor _ _ _ _ H2).
  - destruct (pinned_cursor _ _ _ H1) as [Hg Hn].
    apply (cursor_app _ [_]); [now apply always_one|].
    apply cursor_app; [now apply cursor_free|].
    apply cursor_app.
    + simpl. rewrite (Hn n eq_refl). exact (groups_cursor _ _ _ _ H2).
    + apply cursor_free. exact (ungrouped_cursor _ _ _ H3).
Qed.

(** The window. *)
Lemma scope_window w tabs i g l o :
  ScopeTrace Thrown tabs i g l o -> Forall (InWindow w) l.
Proof. intros H. apply scope_shape, moves_answer_nothing in H. apply H. Qed.

Lemma pinned_window w l o : PinnedTrace Thrown w l o -> Forall (InWindow w) l.
Proof.
  intros [e| |first rest l' e H|first rest l' l'' o' H H'];
    repeat (constructor; [reflexivity|]); try constructor.
  - exact (scope_window _ _ _ _ _ _ H).
  - apply Forall_app. split; [exact (scope_window _ _ _ _ _ _ H)|].
    apply pins_updates, updates_answer_nothing in H'. apply H'.
Qed.

Lemma loop_window w gs n l o :
  LoopTrace Thrown w gs n l o -> Forall (InWindow w) l.
Proof.
  induction 1 as [n|g gs n e|g gs n e|g gs n l o _ IH
                 |g gs n tabs m l e Hne Hm H
                 |g gs n tabs m l l' o Hne Hm H _ IH];
    repeat (constructor; [first [exact I|reflexivity]|]);
    try constructor; try assumption.
  - exact (scope_window _ _ _ _ _ _ H).
  - apply Forall_app. split; [exact (scope_window _ _ _ _ _ _ H)|exact IH].
Qed.

Lemma groups_window w n l o :
  GroupsTrace Thrown w n l o -> Forall (InWindow w) l.
Proof.
  intros [e|groups l' o' H]; (constructor; [reflexivity|]); [constructor|].
  exact (loop_window _ _ _ _ _ H).
Qed.

Lemma ungrouped_window w l o :
  UngroupedTrace Thrown w l o -> Forall (InWindow w) l.
Proof.
  intros [e| |tabs m l' o' _ _ H]; (constructor; [reflexivity|]);
    try constructor.
  exact (scope_window _ _ _ _ _ _ H).
Qed.

Lemma sort_window l o :
  SortTrace Thrown l o ->
  exists r rest,
    l = x_getLastFocused r :: rest
    /\ match r with
       | Normal w => Forall (InWindow w) rest
       | Throws _ => rest = []
       end.
Proof.
  intros [e|w l1 e H1|w l1 n l2 e H1 H2|w l1 n l2 n' l3 o' H1 H2 H3];
    eexists; eexists; (split; [reflexivity|]); try reflexivity.
  - exact (pinned_window _ _ _ H1).
  - apply Forall_app. split; [exact (pinned_window _ _ _ H1)|].
    exact (groups_window _ _ _ _ H2).
  - apply Forall_app. split; [exact (pinned_window _ _ _ H1)|].
    apply Forall_app. split; [exact (groups_window _ _ _ _ H2)|].
    exact (ungrouped_window _ _ _ H3).
Qed.

(** The pin requests. *)
Lemma pinned_updates w l o :
  PinnedTrace Thrown w l o ->
  updatesOf l = []
  \/ exists tabs,
       In (x_query w (Some true) None (Normal tabs)) l
       /\ updatesOf l = map (fun t => (Tab.id t, true)) tabs.
Proof.
  intros [e| |first rest l' e H|first rest l' l'' o' H H'].
  - now left.
  - now left.
  - left. apply scope_shape, moves_answer_nothing in H. apply H.
  - right. exists (first :: rest). split; [now left|].
    apply scope_shape, moves_answer_nothing in H. apply pins_shape in H'.
    destruct H as (_ & H & _). cbn [updatesOf flat_map app].
    fold (updatesOf (l' ++ l'')). now rewrite updatesOf_app, H, H'.
Qed.

Lemma loop_updates w gs n l o :
  LoopTrace Thrown w gs n l o -> updatesOf l = [].
Proof.
  induction 1 as [n|g gs n e|g gs n e|g gs n l o _ IH
                 |g gs n tabs m l e Hne Hm H
                 |g gs n tabs m l l' o Hne Hm H _ IH];
    cbn [updatesOf flat_map app]; try reflexivity; try exact IH.
  - apply scope_shape, moves_answer_nothing in H. apply H.
  - apply scope_shape, moves_answer_nothing in H. destruct H as (_ & H & _).
    fold (updatesOf (l ++ l')). now rewrite updatesOf_app, H, IH.
Qed.

Lemma sort_updates l o :
  SortTrace Thrown l o ->
  updatesOf l = []
  \/ exists w tabs,
       In (x_query w (Some true) None (Normal tabs)) l
       /\ updatesOf l = map (fun t => (Tab.id t, true)) tabs.
Proof.
  assert (Hg : forall w n l o, GroupsTrace Thrown w n l o -> updatesOf l = []).
  { intros w n l' o' [e|groups l'' o'' H]; [reflexivity|].
    exact (loop_updates _ _ _ _ _ H). }
  assert (Hu : forall w l o, UngroupedTrace Thrown w l o -> updatesOf l = []).
  { intros w l' o' [e| |tabs m l'' o'' _ _ H]; try reflexivity.
    apply scope_shape, moves_answer_nothing in H. apply H. }
  assert (Hp : forall w l1 l2, updatesOf l2 = [] ->
            (updatesOf l1 = []
             \/ exists tabs,
                  In (x_query w (Some true) None (Normal tabs)) l1
                  /\ updatesOf l1 = map (fun t => (Tab.id t, true)) tabs) ->
            updatesOf (x_getLastFocused (Normal w) :: l1 ++ l2) = []
            \/ exists w' tabs,
                 In (x_query w' (Some true) None (Normal tabs))
                    (x_getLastFocused (Normal w) :: l1 ++ l2)
                 /\ updatesOf (x_getLastFocused (Normal w) :: l1 ++ l2)
                    = map (fun t => (Tab.id t, true)) tabs).
  { intros w l1 l2 H2 [H1|(tabs & Hin & H1)];
      cbn [updatesOf flat_map app]; fold (updatesOf (l1 ++ l2));
      rewrite updatesOf_app, H1, H2, app_nil_r; [now left|].
    right. exists w, tabs. split; [|reflexivity].
    right. apply in_or_app. now left. }
  intros [e|w l1 e H1|w l1 n l2 e H1 H2|w l1 n l2 n' l3 o' H1 H2 H3].
  - now left.
  - rewrite <- (app_nil_r l1). apply Hp; [reflexivity|].
    exact (pinned_updates _ _ _ H1).
  - apply Hp; [exact (Hg _ _ _ _ H2)|exact (pinned_updates _ _ _ H1)].
  - apply Hp; [|exact (pinned_updates _ _ _ H1)].
    now rewrite updatesOf_app, (Hg _ _ _ _ H2), (Hu _ _ _ H3).
Qed.
End LogsOfSort.

(* ================================================================== *)
(** * The least index *)
(* ================================================================== *)

Lemma fold_least rest : forall m0,
  let m := fold_left (fun m t => if Tab.index t <? m then Tab.index t else m)
             rest m0 in
  m <= m0
  /\ (forall t, In t rest -> m <= Tab.index t)
  /\ (m = m0 \/ exists t, In t rest /\ Tab.index t = m).
Proof.
  induction rest as [|t rest IH]; intros m0; simpl.
  - split; [lia|]. split; [contradiction|now left].
  - specialize (IH (if Tab.index t <? m0 then Tab.index t else m0)).
    simpl in IH. destruct IH as (Hle & Hall & Hex).
    destruct (Tab.index t <? m0) eqn:E;
      [apply Z.ltb_lt in E|apply Z.ltb_ge in E].
    + split; [lia|]. split.
      * intros t' [<-|Hin]; [exact Hle|now apply Hall].
      * right. destruct Hex as [->|(t' & Hin & Ht')]; eauto.
    + split; [lia|]. split.
      * intros t' [<-|Hin]; [lia|now apply Hall].
      * destruct Hex as [->|(t' & Hin & Ht')]; [now left|eauto].
Qed.

(** X1.  [minIndex] throws on an empty array, where [tabs[0]] is
    undefined; on any other array it returns the [index] of one of the tabs,
    and no tab of the array has a smaller one. *)
Theorem minIndex_least :
  minIndex [] = Throws TypeError
  /\ forall first rest,
       exists m,
         minIndex (first :: rest) = Normal m
         /\ (exists t, In t (first :: rest) /\ Tab.index t = m)
         /\ (forall t, In t (first :: rest) -> m <= Tab.index t).
Proof.
  split; [reflexivity|]. intros first rest. eexists.
  split; [reflexivity|].
  destruct (fold_least rest (Tab.index first)) as (Hle & Hall & Hex).
  split.
  - destruct Hex as [->|(t & Hin & Ht)]; [exists first|exists t];
      simpl; tauto.
  - intros t [<-|Hin]; [exact Hle|now apply Hall].
Qed.

(** The least index does not depend on the order of the array. *)
Lemma minIndex_perm tabs tabs' :
  Permutation tabs tabs' -> minIndex tabs = minIndex tabs'.
Proof.
  intros Hp. destruct tabs as [|a l]; destruct tabs' as [|b l'].
  - reflexivity.
  - now apply Permutation_nil in Hp.
  - symmetry in Hp. now apply Permutation_nil in Hp.
  - simpl. f_equal.
    destruct (fold_least l (Tab.index a)) as (Hle & Hall & Hex).
    destruct (fold_least l' (Tab.index b)) as (Hle' & Hall' & Hex').
    simpl in *.
    assert (Hm : forall t, In t (a :: l) ->
              fold_left (fun m t => if Tab.index t <? m then Tab.index t
                                    else m) l (Tab.index a) <= Tab.index t).
    { intros t [<-|Hin]; [exact Hle|now apply Hall]. }
    assert (Hm' : forall t, In t (b :: l') ->
              fold_left (fun m t => if Tab.index t <? m then Tab.index t
                                    else m) l' (Tab.index b) <= Tab.index t).
    { intros t [<-|Hin]; [exact Hle'|now apply Hall']. }
    assert (Ha : exists t, In t (a :: l) /\ Tab.index t
              = fold_left (fun m t => if Tab.index t <? m then Tab.index t
                                      else m) l (Tab.index a)).
    { destruct Hex as [->|(t & Hin & Ht)]; [exists a|exists t];
        simpl; tauto. }
    assert (Hb : exists t, In t (b :: l') /\ Tab.index t
              = fold_left (fun m t => if Tab.index t <? m then Tab.index t
                                      else m) l' (Tab.index b)).
    { destruct Hex' as [->|(t & Hin & Ht)]; [exists b|exists t];
        simpl; tauto. }
    destruct Ha as (t & Hin & Ht), Hb as (t' & Hin' & Ht').
    apply (Permutation_in _ Hp) in Hin.
    apply (Permutation_in _ (Permutation_sym Hp)) in Hin'.
    specialize (Hm _ Hin'). specialize (Hm' _ Hin). lia.
Qed.

(* ================================================================== *)
(** * More on one scope, for both variants *)
(* ================================================================== *)

Section ScopeSorterMore.
Context {P : Platform}.
Hypothesis Collation : Consistent localeCompare.
Variable D : Type.
Variables bucket key : D -> string.
Variables idx did : D -> Z.
Variable dec : Tab.t -> Z -> Completion D.

Hypothesis dec_fields : forall t i d,
  dec t i = Normal d -> idx d = i /\ did d = Tab.id t.
Hypothesis dec_shift : forall t i j d,
  dec t i = Normal d ->
  exists d', dec t j = Normal d' /\ bucket d' = bucket d /\ key d' = key d.
Hypothesis dec_error : forall t i e, dec t i = Throws e -> e = TypeError.

Local Abbreviation cmp := (lexCompare bucket key idx).

(** Two decorations of one scope that the comparator ties are one. *)
Lemma decorated_tie tabs ds a b :
  mapWithIndex dec tabs = Normal ds -> In a ds -> In b ds ->
  cmp a b = 0 -> a = b.
Proof.
  intros H Ha Hb Hab.
  destruct (In_nth_error _ _ Ha) as [i Hi].
  destruct (In_nth_error _ _ Hb) as [j Hj].
  destruct (decorated_nth D idx did dec dec_fields _ _ _ _ H Hi) as [Ia _].
  destruct (decorated_nth D idx did dec dec_fields _ _ _ _ H Hj) as [Ib _].
  destruct (lexCompare_cases D bucket key idx a b)
    as [[? E]|[(?&?&E)|(?&?&E)]]; rewrite E in Hab; try contradiction.
  assert (i = j) by lia. subst j. congruence.
Qed.

(** The tabs of one bucket stand together in the sorted output. *)
Lemma bucket_block tabs ds i k j a c b :
  mapWithIndex dec tabs = Normal ds ->
  (i < k < j)%nat ->
  nth_error (Array_sort cmp ds) i = Some a ->
  nth_error (Array_sort cmp ds) k = Some c ->
  nth_error (Array_sort cmp ds) j = Some b ->
  localeCompare (bucket a) (bucket b) = 0 ->
  localeCompare (bucket a) (bucket c) = 0
  /\ localeCompare (bucket c) (bucket b) = 0.
Proof.
  intros Hds [Hik Hkj] Ha Hc Hb E.
  destruct (scope_sorted Collation D bucket key idx did dec dec_fields
              tabs ds Hds) as [_ Ho].
  pose proof (Ho i k a c Hik Ha Hc) as Hac.
  pose proof (Ho k j c b Hkj Hc Hb) as Hcb.
  unfold Precedes in Hac, Hcb.
  pose proof (cmp_trans Collation (bucket a) (bucket c) (bucket b)) as T.
  pose proof (cmp_antisym Collation (bucket a) (bucket c)) as A1.
  pose proof (cmp_antisym Collation (bucket c) (bucket b)) as A2.
  pose proof (cmp_antisym Collation (bucket a) (bucket b)) as A3.
  pose proof (cmp_trans Collation (bucket b) (bucket a) (bucket c)) as T1.
  pose proof (cmp_trans Collation (bucket c) (bucket b) (bucket a)) as T2.
  lia.
Qed.

(** What a decoration keeps of its tab, whatever the index. *)
Local Abbreviation kept :=
  (fun d : D => (did d, (bucket d, key d))).
Local Abbreviation keptOf :=
  (fun t : Tab.t => match dec t 0 with
                    | Normal d => kept d
                    | Throws _ => (0, ("", ""))
                    end).
Local Abbreviation cmpKept :=
  (lexCompare (D := Z * (string * string))
     (fun x => fst (snd x)) (fun x => snd (snd x)) (fun _ => 0)).

Lemma kept_of_tab t i d : dec t i = Normal d -> kept d = keptOf t.
Proof.
  intros H. destruct (dec_shift _ _ 0 _ H) as (d' & H' & Hb & Hk).
  rewrite H'. destruct (dec_fields _ _ _ H) as [_ ->].
  destruct (dec_fields _ _ _ H') as [_ ->]. now rewrite Hb, Hk.
Qed.

Lemma kept_of_tabs tabs ds :
  mapWithIndex dec tabs = Normal ds -> map kept ds = map keptOf tabs.
Proof.
  apply (mapWithIndexFrom_map _ _ _ dec kept keptOf).
  intros t j d. apply kept_of_tab.
Qed.

Lemma kept_sorted l :
  StronglySorted (cmpLe cmp) l -> StronglySorted (cmpLe cmpKept) (map kept l).
Proof.
  induction 1 as [|a l Hs IH Ha]; simpl; constructor; [exact IH|].
  rewrite Forall_map. eapply Forall_impl; [|exact Ha].
  intros b Hab. unfold cmpLe in *.
  destruct (lexCompare_cases D bucket key idx a b)
    as [[? E]|[(?&?&E)|(?&?&E)]];
    destruct (lexCompare_cases _ (fun x : Z * (string * string) =>
                                    fst (snd x))
                (fun x => snd (snd x)) (fun _ => 0) (kept a) (kept b))
      as [[? ->]|[(?&?&->)|(?&?&->)]]; simpl in *; lia.
Qed.

(** A callback that throws on a tab throws on it at every index. *)
Lemma dec_throws_everywhere t i j e :
  dec t i = Throws e -> dec t j = Throws TypeError.
Proof.
  intros H. destruct (dec t j) as [d|e'] eqn:E.
  - destruct (dec_shift _ _ i _ E) as (d' & H' & _). congruence.
  - now rewrite (dec_error _ _ _ E).
Qed.

Lemma decorate_throws_perm tabs tabs' e :
  Permutation tabs tabs' ->
  mapWithIndex dec tabs = Throws e ->
  mapWithIndex dec tabs' = Throws TypeError /\ e = TypeError.
Proof.
  intros Hp H. unfold mapWithIndex in *.
  destruct (mapWithIndexFrom_throws _ _ _ H) as (t & j & Hin & Ht).
  split; [|exact (dec_error _ _ _ Ht)].
  apply (Permutation_in _ Hp) in Hin.
  destruct (mapWithIndexFrom dec 0 tabs') as [ds'|e'] eqn:E.
  - exfalso. destruct (In_nth_error _ _ Hin) as [n Hn].
    destruct (nth_error ds' n) as [d|] eqn:Ed.
    + destruct (mapWithIndexFrom_nth _ _ _ E n d Ed) as (t' & Ht' & Hd).
      assert (t' = t) by congruence. subst t'.
      pose proof (dec_throws_everywhere _ _ (0 + Z.of_nat n) _ Ht).
      congruence.
    + apply nth_error_None in Ed.
      rewrite (mapWithIndexFrom_length _ _ _ E) in Ed.
      assert (nth_error tabs' n = None) by now apply nth_error_None.
      congruence.
  - destruct (mapWithIndexFrom_throws _ _ _ E) as (t' & j' & _ & Ht').
    now rewrite (dec_error _ _ _ Ht').
Qed.

(** Without two tabs that tie on bucket and sort key, the sorted
    identifiers do not depend on the order of the tabs. *)
Lemma sorted_ids_perm tabs tabs' ds ds' :
  Permutation tabs tabs' ->
  (forall a b da db, In a tabs -> In b tabs ->
     dec a 0 = Normal da -> dec b 0 = Normal db ->
     localeCompare (bucket da) (bucket db) = 0 ->
     localeCompare (key da) (key db) = 0 -> a = b) ->
  mapWithIndex dec tabs = Normal ds ->
  mapWithIndex dec tabs' = Normal ds' ->
  map did (Array_sort cmp ds) = map did (Array_sort cmp ds').
Proof.
  intros Hp Hties H H'.
  pose proof (lexCompare_consistent Collation D bucket key idx) as Hc.
  pose proof (lexCompare_consistent Collation (Z * (string * string))
                (fun x => fst (snd x)) (fun x => snd (snd x)) (fun _ => 0))
    as Hk.
  assert (E : map kept (Array_sort cmp ds) = map kept (Array_sort cmp ds')).
  { apply (sorted_unique _ cmpKept Hk).
    - intros x y Hx Hy Hxy.
      apply in_map_iff in Hx. destruct Hx as (dx & <- & Hx).
      apply in_map_iff in Hy. destruct Hy as (dy & <- & Hy).
      apply Array_sort_in in Hx, Hy.
      destruct (In_nth_error _ _ Hx) as [i Hi].
      destruct (In_nth_error _ _ Hy) as [j Hj].
      destruct (mapWithIndexFrom_nth _ _ _ H i dx Hi) as (a & Ha & Hda).
      destruct (mapWithIndexFrom_nth _ _ _ H j dy Hj) as (b & Hb & Hdb).
      rewrite (kept_of_tab _ _ _ Hda), (kept_of_tab _ _ _ Hdb).
      destruct (dec_shift _ _ 0 _ Hda) as (da & Hda0 & Ba & Ka).
      destruct (dec_shift _ _ 0 _ Hdb) as (db & Hdb0 & Bb & Kb).
      assert (a = b); [|now subst].
      apply (Hties a b da db);
        try (eapply nth_error_In; eassumption); try assumption.
      + destruct (lexCompare_cases _ (fun x : Z * (string * string) =>
                                        fst (snd x))
                    (fun x => snd (snd x)) (fun _ => 0) (kept dx) (kept dy))
          as [[? E]|[(?&?&E)|(?&?&E)]]; simpl in *; rewrite ?Ba, ?Bb;
          congruence.
      + destruct (lexCompare_cases _ (fun x : Z * (string * string) =>
                                        fst (snd x))
                    (fun x => snd (snd x)) (fun _ => 0) (kept dx) (kept dy))
          as [[? E]|[(?&?&E)|(?&?&E)]]; simpl in *; rewrite ?Ka, ?Kb;
          congruence.
    - apply kept_sorted, Array_sort_sorted, Hc.
    - apply kept_sorted, Array_sort_sorted, Hc.
    - rewrite (Permutation_map kept (Array_sort_perm _ cmp ds)).
      rewrite (Permutation_map kept (Array_sort_perm _ cmp ds')).
      rewrite (kept_of_tabs _ _ H), (kept_of_tabs _ _ H').
      now apply Permutation_map. }
  rewrite <- (map_map kept fst (Array_sort cmp ds)).
  rewrite <- (map_map kept fst (Array_sort cmp ds')).
  now rewrite E.
Qed.

(** The sorted identifiers depend on the tabs through their identifiers
    and what [dec] reads of them. *)
Lemma decorate_alike_from tabs : forall tabs' i,
  Forall2 (fun t t' => forall j, dec t j = dec t' j) tabs tabs' ->
  mapWithIndexFrom dec i tabs = mapWithIndexFrom dec i tabs'.
Proof.
  induction tabs as [|t tabs IH]; intros tabs' i H; inversion H; subst;
    [reflexivity|].
  simpl. rewrite <- (H2 i). destruct (dec t i); [|reflexivity].
  now rewrite (IH _ (i + 1) H4).
Qed.
End ScopeSorterMore.

Section VariantsMore.
Context {P : Platform}.

Lemma background_decorateTab_throws t i e :
  Background.decorateTab t i = Throws e -> e = TypeError.
Proof.
  unfold Background.decorateTab.
  destruct (Background.resolveTabUrl t) as [u|e'] eqn:E; [discriminate|].
  intros H. injection H as <-. unfold Background.resolveTabUrl in E.
  destruct (new_URL (effectiveAddress t)); [discriminate|].
  exact (new_URL_throws _ _ E).
Qed.

Lemma part000_decorateTab_throws t i e :
  Part000.decorateTab t i = Throws e -> e = TypeError.
Proof.
  unfold Part000.decorateTab.
  destruct (Part000.resolveTabUrl t) as [u|e'] eqn:E; [discriminate|].
  intros H. injection H as <-. exact (part000_resolve_throws _ _ E).
Qed.

(** The callbacks read the identifier and the effective address of a tab,
    and nothing else. *)
Lemma background_reads t t' j :
  addressed t = addressed t' ->
  Background.decorateTab t j = Background.decorateTab t' j.
Proof.
  unfold addressed. intros H. injection H as Hi Ha.
  unfold Background.decorateTab, Background.resolveTabUrl.
  now rewrite Hi, Ha.
Qed.

Lemma part000_reads t t' j :
  addressed t = addressed t' ->
  Part000.decorateTab t j = Part000.decorateTab t' j.
Proof.
  unfold addressed. intros H. injection H as Hi Ha.
  unfold Part000.decorateTab, Part000.resolveTabUrl.
  now rewrite Hi, Ha.
Qed.

Lemma addressed_alike (D : Type) (dec : Tab.t -> Z -> Completion D) tabs :
  (forall t t' j, addressed t = addressed t' -> dec t j = dec t' j) ->
  forall tabs', map addressed tabs = map addressed tabs' ->
  Forall2 (fun t t' => forall j, dec t j = dec t' j) tabs tabs'.
Proof.
  intros Hd. induction tabs as [|t tabs IH]; intros [|t' tabs'] H;
    try discriminate; [constructor|].
  cbn [map] in H. assert (Ht : addressed t = addressed t') by congruence.
  assert (Hl : map addressed tabs = map addressed tabs') by congruence.
  constructor; [|now apply IH]. intros j. now apply Hd.
Qed.
End VariantsMore.

(* ================================================================== *)
(** * More on the order within one scope *)
(* ================================================================== *)

(** X2.  The comparator of [decorated.sort] is a consistent comparator and
    it ties no two decorations of a scope, since their original indices
    differ.  So the sorted arrangement is the only one: whatever the
    algorithm behind [Array.prototype.sort], stable or not, a
    rearrangement of the decorations in which no element compares above a
    later one is the array that the sorter maps to identifiers.  This
    holds in both variants. *)
Theorem comparator_total {P : Platform} (Collation : Consistent localeCompare)
    (tabs : list Tab.t) :
  (Consistent Background.compareDecorated
   /\ forall ds, Background.decorate tabs = Normal ds ->
        (forall a b, In a ds -> In b ds ->
           Background.compareDecorated a b = 0 -> a = b)
        /\ (forall out, Permutation ds out ->
              StronglySorted (cmpLe Background.compareDecorated) out ->
              out = Array_sort Background.compareDecorated ds))
  /\ (Consistent Part000.compareDecorated
      /\ forall ds, Part000.decorate tabs = Normal ds ->
           (forall a b, In a ds -> In b ds ->
              Part000.compareDecorated a b = 0 -> a = b)
           /\ (forall out, Permutation ds out ->
                 StronglySorted (cmpLe Part000.compareDecorated) out ->
                 out = Array_sort Part000.compareDecorated ds)).
Proof.
  split; (split; [now apply lexCompare_consistent|]); intros ds Hds; split.
  - intros a b. exact (decorated_tie _ Background.hostname Background.key _ _
                         _ background_fields tabs ds a b Hds).
  - intros out Hp Hs. symmetry.
    exact (scope_sort_unique Collation _ Background.hostname Background.key
             _ _ _ background_fields tabs ds out Hds Hp Hs).
  - intros a b. exact (decorated_tie _ Part000.hostKey Part000.sortKey _ _
                         _ part000_fields tabs ds a b Hds).
  - intros out Hp Hs. symmetry.
    exact (scope_sort_unique Collation _ Part000.hostKey Part000.sortKey
             _ _ _ part000_fields tabs ds out Hds Hp Hs).
Qed.

(** X3.  The sorter reads two things of a tab, its identifier and its
    effective address: two arrays of tabs that agree on these, tab by tab,
    get the same sorted identifiers, or the same exception, in both
    variants.  The [index], the pinned flag and the group of a tab play no
    part, nor does the committed address of a tab with a pending one; ties
    go by the place in the array, not by [tab.index]. *)
Theorem sorted_by_address_only {P : Platform} (tabs tabs' : list Tab.t) :
  map addressed tabs = map addressed tabs' ->
  Background.sortedIds tabs = Background.sortedIds tabs'
  /\ Part000.sortedIds tabs = Part000.sortedIds tabs'.
Proof.
  intros H. split.
  - unfold Background.sortedIds, Background.decorate, mapWithIndex.
    now rewrite (decorate_alike_from _ _ tabs tabs' 0
                   (addressed_alike _ _ tabs background_reads tabs' H)).
  - unfold Part000.sortedIds, Part000.decorate, mapWithIndex.
    now rewrite (decorate_alike_from _ _ tabs tabs' 0
                   (addressed_alike _ _ tabs part000_reads tabs' H)).
Qed.

(** X4.  Tabs of one bucket end up side by side: in the sorted array of
    either variant, when the bucket keys of two decorations collate equal,
    so does the bucket key of every decoration between them. *)
Theorem buckets_stand_together {P : Platform}
    (Collation : Consistent localeCompare) (tabs : list Tab.t)
    (i k j : nat) (Hikj : (i < k < j)%nat) :
  (forall ds a c b,
     Background.decorate tabs = Normal ds ->
     nth_error (Array_sort Background.compareDecorated ds) i = Some a ->
     nth_error (Array_sort Background.compareDecorated ds) k = Some c ->
     nth_error (Array_sort Background.compareDecorated ds) j = Some b ->
     localeCompare (Background.hostname a) (Background.hostname b) = 0 ->
     localeCompare (Background.hostname a) (Background.hostname c) = 0
     /\ localeCompare (Background.hostname c) (Background.hostname b) = 0)
  /\ (forall ds a c b,
        Part000.decorate tabs = Normal ds ->
        nth_error (Array_sort Part000.compareDecorated ds) i = Some a ->
        nth_error (Array_sort Part000.compareDecorated ds) k = Some c ->
        nth_error (Array_sort Part000.compareDecorated ds) j = Some b ->
        localeCompare (Part000.hostKey a) (Part000.hostKey b) = 0 ->
        localeCompare (Part000.hostKey a) (Part000.hostKey c) = 0
        /\ localeCompare (Part000.hostKey c) (Part000.hostKey b) = 0).
Proof.
  split; intros ds a c b Hds.
  - exact (bucket_block Collation _ Background.hostname Background.key _ _ _
             background_fields tabs ds i k j a c b Hds Hikj).
  - exact (bucket_block Collation _ Part000.hostKey Part000.sortKey _ _ _
             part000_fields tabs ds i k j a c b Hds Hikj).
Qed.

(** X5.  The order in which the browser lists the tabs of a scope matters
    between tied tabs only.  Take two arrays that hold the same tabs in
    different orders.  [minIndex] is the same on both; and when no two
    different tabs tie on bucket key and on sort key under the collation,
    the sorter of either variant lists the same identifiers in the same
    order for both arrays, or throws on both. *)
Theorem answer_order_irrelevant {P : Platform}
    (Collation : Consistent localeCompare) (tabs tabs' : list Tab.t)
    (Hperm : Permutation tabs tabs') :
  minIndex tabs = minIndex tabs'
  /\ ((forall a b da db, In a tabs -> In b tabs ->
         Background.decorateTab a 0 = Normal da ->
         Background.decorateTab b 0 = Normal db ->
         localeCompare (Background.hostname da) (Background.hostname db) = 0 ->
         localeCompare (Background.key da) (Background.key db) = 0 ->
         a = b) ->
      Background.sortedIds tabs = Background.sortedIds tabs')
  /\ ((forall a b da db, In a tabs -> In b tabs ->
         Part000.decorateTab a 0 = Normal da ->
         Part000.decorateTab b 0 = Normal db ->
         localeCompare (Part000.hostKey da) (Part000.hostKey db) = 0 ->
         localeCompare (Part000.sortKey da) (Part000.sortKey db) = 0 ->
         a = b) ->
      Part000.sortedIds tabs = Part000.sortedIds tabs').
Proof.
  split; [now apply minIndex_perm|]. split; intros Hties.
  - unfold Background.sortedIds, Background.decorate.
    destruct (mapWithIndex Background.decorateTab tabs) as [ds|e] eqn:E;
      destruct (mapWithIndex Background.decorateTab tabs') as [ds'|e'] eqn:E'.
    + f_equal.
      exact (sorted_ids_perm Collation _ Background.hostname Background.key
               _ _ _ background_fields background_shift tabs tabs' ds ds'
               Hperm Hties E E').
    + destruct (decorate_throws_perm _ Background.hostname Background.key _
                  background_shift background_decorateTab_throws
                  tabs' tabs e' (Permutation_sym Hperm) E'); congruence.
    + destruct (decorate_throws_perm _ Background.hostname Background.key _
                  background_shift background_decorateTab_throws
                  tabs tabs' e Hperm E); congruence.
    + destruct (decorate_throws_perm _ Background.hostname Background.key _
                  background_shift background_decorateTab_throws
                  tabs tabs' e Hperm E); congruence.
  - unfold Part000.sortedIds, Part000.decorate.
    destruct (mapWithIndex Part000.decorateTab tabs) as [ds|e] eqn:E;
      destruct (mapWithIndex Part000.decorateTab tabs') as [ds'|e'] eqn:E'.
    + f_equal.
      exact (sorted_ids_perm Collation _ Part000.hostKey Part000.sortKey
               _ _ _ part000_fields part000_shift tabs tabs' ds ds'
               Hperm Hties E E').
    + destruct (decorate_throws_perm _ Part000.hostKey Part000.sortKey _
                  part000_shift part000_decorateTab_throws
                  tabs' tabs e' (Permutation_sym Hperm) E'); congruence.
    + destruct (decorate_throws_perm _ Part000.hostKey Part000.sortKey _
                  part000_shift part000_decorateTab_throws
                  tabs tabs' e Hperm E); congruence.
    + destruct (decorate_throws_perm _ Part000.hostKey Part000.sortKey _
                  part000_shift part000_decorateTab_throws
                  tabs tabs' e Hperm E); congruence.
Qed.

(** A callback that throws on an element at every index makes the loop
    throw. *)
Lemma mapWithIndexFrom_throws_at (A B : Type) (f : A -> Z -> Completion B)
    x l :
  In x l -> (forall j, exists e, f x j = Throws e) ->
  forall i, exists e, mapWithIndexFrom f i l = Throws e.
Proof.
  intros Hin Hx. induction l as [|y l IH]; intros i; [contradiction|].
  simpl. destruct Hin as [->|Hin].
  - destruct (Hx i) as [e ->]. eauto.
  - destruct (f y i); [|eauto].
    destruct (IH Hin (i + 1)) as [e ->]. eauto.
Qed.

(** X6.  When [sortTabsScope] of [src/unnamed/part_000] throws.  If the
    effective address of some tab begins with [chrome-extension://] and
    [new URL] does not take it, the early [return new URL(raw)] throws
    outside the [try]: the sorter throws a [TypeError] before any request,
    so no tab of the scope is moved.  On a platform whose [URL] takes the
    placeholder addresses this is the only case: when every address with
    that prefix parses, the sorter lists the identifiers. *)
Theorem part000_throws_exactly {P : Platform} (Parser : URLParser URL_parse)
    (tabs : list Tab.t) :
  ((exists tab,
      In tab tabs
      /\ startsWith (effectiveAddress tab) "chrome-extension://" = true
      /\ URL_parse (effectiveAddress tab) = None) ->
   Part000.sortedIds tabs = Throws TypeError
   /\ forall startIndex groupId,
        Part000.sortTabsScope tabs startIndex groupId = Throw TypeError)
  /\ ((forall tab, In tab tabs ->
         startsWith (effectiveAddress tab) "chrome-extension://" = true ->
         URL_parse (effectiveAddress tab) <> None) ->
      exists ids, Part000.sortedIds tabs = Normal ids).
Proof.
  split.
  - intros (tab & Hin & Hext & Hnone).
    assert (Hs : Part000.sortedIds tabs = Throws TypeError).
    { unfold Part000.sortedIds.
      destruct (mapWithIndexFrom_throws_at _ _ Part000.decorateTab tab tabs
                  Hin) with (i := 0) as [e He].
      - intros j. unfold Part000.decorateTab, Part000.resolveTabUrl, new_URL.
        rewrite Hext, Hnone. eauto.
      - unfold Part000.decorate, mapWithIndex. rewrite He.
        now rewrite (part000_decorate_throws tabs e He). }
    split; [exact Hs|]. intros startIndex groupId.
    destruct tabs as [|t l]; [contradiction|].
    unfold Part000.sortTabsScope. now rewrite Hs.
  - intros Hext. unfold Part000.sortedIds.
    destruct (@mapWithIndexFrom_normal _ _ Part000.decorateTab 0 tabs)
      as [ds Hds].
    + intros t j Hin. unfold Part000.decorateTab.
      destruct (startsWith (effectiveAddress t) "chrome-extension://")
        eqn:He.
      * specialize (Hext t Hin He).
        unfold Part000.resolveTabUrl, new_URL. rewrite He.
        destruct (URL_parse (effectiveAddress t)); [eauto|contradiction].
      * destruct (URL_parse (effectiveAddress t)) as [u|] eqn:Hu.
        -- destruct (internalPrefix (effectiveAddress t)) eqn:Hi.
           ++ destruct (part000_placeholder Parser t j He (or_introl Hi))
                as (u' & d & _ & _ & _ & Hr & _).
              rewrite Hr. eauto.
           ++ unfold Part000.resolveTabUrl, new_URL. rewrite He.
              fold (internalPrefix (effectiveAddress t)). rewrite Hi, Hu.
              eauto.
        -- destruct (part000_placeholder Parser t j He (or_intror Hu))
             as (u' & d & _ & _ & _ & Hr & _).
           rewrite Hr. eauto.
    + unfold Part000.decorate, mapWithIndex. rewrite Hds. eauto.
Qed.

(** X7.  An address that parses under a scheme other than [http], [https]
    and [chrome-extension], such as [file:] or [ftp:], and begins with none
    of the four prefixes of browser pages: [src/unnamed/part_000] keeps its
    parsed form and puts it in the bucket [internal], so that its sort key
    is [internal] followed by the path, query and fragment of the address
    itself, without the host; [src/background.js] takes the host, in lower
    case without a leading [www.], as for any other address. *)
Theorem other_schemes {P : Platform} (tab : Tab.t) (u : URL.t) (i : Z) :
  URL_parse (effectiveAddress tab) = Some u ->
  internalPrefix (effectiveAddress tab) = false ->
  URL.protocol u <> "chrome-extension:" ->
  URL.protocol u <> "http:" -> URL.protocol u <> "https:" ->
  Part000.decorateTab tab i
  = Normal (Part000.mkDecorated (Tab.id tab) i "internal"
              ("internal" ++ URL.pathname u ++ URL.search u ++ URL.hash u))
  /\ Background.decorateTab tab i
     = Normal (Background.mkDecorated (Tab.id tab) i
                 (toLowerCase (replace_WWW_RE (URL.host u)))
                 (toLowerCase (replace_WWW_RE (URL.host u))
                    ++ URL.pathname u ++ URL.search u ++ URL.hash u)).
Proof.
  intros Hu Hi N1 N2 N3. split.
  - assert (Hr : Part000.resolveTabUrl tab = Normal u).
    { unfold Part000.resolveTabUrl, new_URL.
      fold (internalPrefix (effectiveAddress tab)). rewrite Hi, Hu.
      now destruct (startsWith (effectiveAddress tab) "chrome-extension://"). }
    unfold Part000.decorateTab. rewrite Hr. unfold Part000.hostKeyOf.
    apply String.eqb_neq in N1, N2, N3. now rewrite N1, N2, N3.
  - unfold Background.decorateTab.
    now rewrite (background_resolve_parsed tab u Hu).
Qed.

(* ================================================================== *)
(** * More on the order of the groups *)
(* ================================================================== *)

(** X8.  [tabGroups.sort] with the comparator of the orchestrator is
    stable and can be repeated: the groups whose titles collate equal to
    the title of a given group, untitled groups among themselves for one,
    come out in the order of the answer of the query; and sorting the
    sorted groups again changes nothing, so that a second click moves the
    groups in the same order. *)
Theorem groups_keep_order {P : Platform}
    (Collation : Consistent localeCompare) (groups : list TabGroup.t) :
  (forall g,
     filter (fun x => localeCompare (titleOrEmpty x) (titleOrEmpty g) =? 0)
       (Array_sort compareGroups groups)
     = filter (fun x => localeCompare (titleOrEmpty x) (titleOrEmpty g) =? 0)
         groups)
  /\ Array_sort compareGroups (Array_sort compareGroups groups)
     = Array_sort compareGroups groups.
Proof.
  pose proof (compareGroups_consistent Collation) as Hc. split.
  - intros g.
    pose proof (Array_sort_stable _ compareGroups Hc g groups) as H.
    assert (E : forall l,
              filter (fun x => localeCompare (titleOrEmpty x)
                                 (titleOrEmpty g) =? 0) l
              = filter (fun y => compareGroups y g =? 0) l).
    { intros l. apply filter_ext. intros x. unfold compareGroups.
      pose proof (cmp_antisym Collation (titleOrEmpty x) (titleOrEmpty g)).
      destruct (localeCompare (titleOrEmpty x) (titleOrEmpty g) =? 0) eqn:E1;
        destruct (localeCompare (titleOrEmpty g) (titleOrEmpty x) =? 0)
          eqn:E2; try reflexivity;
        rewrite ?Z.eqb_eq, ?Z.eqb_neq in *; lia. }
    now rewrite !E.
  - apply Array_sort_id. apply Array_sort_sorted. exact Hc.
Qed.

(* ================================================================== *)
(** * Every run of the orchestrator *)
(* ================================================================== *)

(** X9.  A run of [sortAllTabs], of either variant and against any
    browser, never swallows a rejection: when the browser rejects a
    request, the run fails with the first rejection of its log, the
    answers being taken in the order of the requests.  And a run whose
    requests were all fulfilled completes, or fails with the [TypeError]
    of an address that [new URL] did not take. *)
Theorem failure_is_rejection {P : Platform} (sortAllTabs : Prog unit)
    (S : Type) (h : Host S) (s : S) (Hv : EitherVariant sortAllTabs) :
  (forall e, firstRejection (logOf h sortAllTabs s) = Some e ->
     outcomeOf h sortAllTabs s = Throws e)
  /\ (firstRejection (logOf h sortAllTabs s) = None ->
      outcomeOf h sortAllTabs s = Normal tt
      \/ outcomeOf h sortAllTabs s = Throws TypeError).
Proof.
  pose proof (sort_agrees _ _ _ (variant_trace sortAllTabs h s Hv)) as H.
  unfold Agrees in H.
  destruct (outcomeOf h sortAllTabs s) as [[]|e]; split.
  - intros e He. congruence.
  - now left.
  - intros e' He. destruct H as [H|[H _]]; congruence.
  - intros Hn. right. destruct H as [H|[_ ->]]; congruence.
Qed.

(** X10.  Once a request is rejected the run sends nothing new: in the log
    of [sortAllTabs], of either variant and against any browser, every
    exchange after a rejected one is a pin request of [Promise.all], which
    were all sent before their answers were looked at, and then the
    rejected exchange is such a pin request too.  So no move, grouping or
    query follows a rejection. *)
Theorem nothing_after_rejection {P : Platform} (sortAllTabs : Prog unit)
    (S : Type) (h : Host S) (s : S) (Hv : EitherVariant sortAllTabs)
    (l1 : list Exchange) (x : Exchange) (l2 : list Exchange) :
  logOf h sortAllTabs s = (l1 ++ x :: l2)%list ->
  rejectionOf x <> None ->
  Forall (fun y => isUpdate y = true) l2
  /\ (l2 <> [] -> isUpdate x = true).
Proof.
  exact (sort_quiet _ _ _ (variant_trace sortAllTabs h s Hv) l1 x l2).
Qed.

(** X11.  Every move request of [sortAllTabs], of either variant and
    against any browser, stands right after the fulfilled tab query whose
    answer it sorts: the answer is not empty, the request lists a
    permutation of the identifiers of the answer, and the target index is
    0 when the query asked for the pinned tabs and else the least [index]
    among the tabs of the answer. *)
Theorem moves_follow_queries {P : Platform} (sortAllTabs : Prog unit)
    (S : Type) (h : Host S) (s : S) (Hv : EitherVariant sortAllTabs)
    (l1 : list Exchange) (ids : list Z) (i : Z) (r : Completion unit)
    (l2 : list Exchange) :
  logOf h sortAllTabs s = (l1 ++ x_move ids i r :: l2)%list ->
  exists l0 w p q tabs,
    l1 = (l0 ++ [x_query w p q (Normal tabs)])%list
    /\ tabs <> []
    /\ Permutation ids (map Tab.id tabs)
    /\ match p with
       | Some true => i = 0
       | _ => minIndex tabs = Normal i
       end.
Proof.
  intros E.
  pose proof (sort_moves _ _ _ (variant_trace sortAllTabs h s Hv) l1 _ l2 E)
    as (w & p & q & tabs & [l0 H0] & H).
  now exists l0, w, p, q, tabs.
Qed.

(** X12.  Every grouping request of [sortAllTabs], of either variant and
    against any browser, names a group ([groupId > -1]) and stands right
    after the fulfilled move of the same identifiers, itself right after
    the query that listed these tabs.  The group is the one that query
    asked for, so that the tabs of a group are put back into their group;
    after the query for the pinned tabs it is the group of the first
    pinned tab; and no grouping follows the query for the tabs without a
    group. *)
Theorem groupings_follow_moves {P : Platform} (sortAllTabs : Prog unit)
    (S : Type) (h : Host S) (s : S) (Hv : EitherVariant sortAllTabs)
    (l1 : list Exchange) (g : Z) (ids : list Z) (r : Completion unit)
    (l2 : list Exchange) :
  logOf h sortAllTabs s = (l1 ++ x_group g ids r :: l2)%list ->
  -1 < g
  /\ exists l0 w p q tabs i,
       l1 = (l0 ++ [x_query w p q (Normal tabs);
                    x_move ids i (Normal tt)])%list
       /\ match p with
          | Some true =>
              exists first, hd_error tabs = Some first
                            /\ g = Tab.groupId first
          | Some false => False
          | None => q = Some g
          end.
Proof.
  intros E.
  pose proof (sort_groupings _ _ _ (variant_trace sortAllTabs h s Hv)
                l1 _ l2 E) as (Hg & w & p & q & tabs & i & [l0 H0] & H).
  split; [exact Hg|]. now exists l0, w, p, q, tabs, i.
Qed.

(** X13.  The running position: every request to move a tab group, in a
    run of [sortAllTabs] of either variant against any browser, targets
    the index equal to the number of tabs that the fulfilled tab queries
    before it have listed, that is the pinned tabs and the tabs of the
    groups moved before. *)
Theorem group_cursor {P : Platform} (sortAllTabs : Prog unit)
    (S : Type) (h : Host S) (s : S) (Hv : EitherVariant sortAllTabs)
    (l1 : list Exchange) (g i : Z) (r : Completion unit)
    (l2 : list Exchange) :
  logOf h sortAllTabs s = (l1 ++ x_groups_move g i r :: l2)%list ->
  i = tabsAnswered l1.
Proof.
  intros E.
  exact (sort_cursor _ _ _ (variant_trace sortAllTabs h s Hv) l1 _ l2 E).
Qed.

(** X14.  The pin requests of a run are sent all or none: the log of
    [sortAllTabs], of either variant and against any browser, holds no
    [chrome.tabs.update] request at all, or exactly one
    [update(id, {pinned: true})] for every tab of the answer to the query
    for pinned tabs, in the order of the answer, whatever the browser
    answers to them. *)
Theorem pins_all_or_none {P : Platform} (sortAllTabs : Prog unit)
    (S : Type) (h : Host S) (s : S) (Hv : EitherVariant sortAllTabs) :
  updatesOf (logOf h sortAllTabs s) = []
  \/ exists w tabs,
       In (x_query w (Some true) None (Normal tabs)) (logOf h sortAllTabs s)
       /\ updatesOf (logOf h sortAllTabs s)
          = map (fun t => (Tab.id t, true)) tabs.
Proof.
  exact (sort_updates _ _ _ (variant_trace sortAllTabs h s Hv)).
Qed.

(** X15.  Only the focused window is read: the log of [sortAllTabs], of
    either variant and against any browser, begins with the one request
    for the focused window; when it is rejected nothing else is sent, and
    otherwise every tab query and the tab group query carry the window
    identifier of its answer. *)
Theorem focused_window_only {P : Platform} (sortAllTabs : Prog unit)
    (S : Type) (h : Host S) (s : S) (Hv : EitherVariant sortAllTabs) :
  exists r rest,
    logOf h sortAllTabs s = x_getLastFocused r :: rest
    /\ match r with
       | Normal w => Forall (InWindow w) rest
       | Throws _ => rest = []
       end.
Proof.
  exact (sort_window _ _ _ (variant_trace sortAllTabs h s Hv)).
Qed.

(* ================================================================== *)
(** * The listener *)
(* ================================================================== *)

Lemma run_catch {S : Type} (h : Host S) (R : Type) (p : Prog R)
    (handler : Exn -> Prog R) s :
  run h (catch p handler) s
  = let '(s1, l1, o1) := run h p s in
    match o1 with
    | Normal r => (s1, l1, Normal r)
    | Throws e =>
        let '(s2, l2, o2) := run h (handler e) s1 in (s2, (l1 ++ l2)%list, o2)
    end.
Proof.
  revert s. induction p as [r|e|X c k IH]; intros s; simpl.
  - reflexivity.
  - now destruct (run h (handler e) s) as [[s2 l2] o2].
  - destruct (respond h c s) as [s1 a]. rewrite IH.
    destruct (run h (k a) s1) as [[s2 l2] [r|e]]; [reflexivity|].
    now destruct (run h (handler e) s2) as [[s3 l3] o3].
Qed.

(** The listener sends the requests of [sortAllTabs] and turns its failure
    into a line on the console. *)
Lemma listener_run {S : Type} (h : Host S) (sortAllTabs : Prog unit) s :
  run h (catch (_ <- sortAllTabs ;; Ret [])
           (fun err => Ret [console_error "Sort failed:" err])) s
  = (finalState h sortAllTabs s, logOf h sortAllTabs s,
     Normal match outcomeOf h sortAllTabs s with
            | Normal _ => []
            | Throws e => [console_error "Sort failed:" e]
            end).
Proof.
  rewrite run_catch, run_bind. unfold finalState, logOf, outcomeOf.
  destruct (run h sortAllTabs s) as [[s1 l1] [[]|e]]; simpl;
    now rewrite app_nil_r.
Qed.

(** X16.  The click listener never fails: it sends the requests of
    [sortAllTabs] and completes, whatever the browser answers.  With the
    listener of [src/background.js], on a platform whose [URL] takes the
    placeholder addresses, the console tells exactly what the browser did:
    no line when every request was fulfilled, and else the one line
    [Sort failed:] with the first rejection.  The listener of
    [src/unnamed/part_000] writes that line too when a request was
    rejected, and without a rejection it writes nothing or the line with
    the [TypeError] of an address. *)
Theorem listener_reports {P : Platform} (Parser : URLParser URL_parse)
    (S : Type) (h : Host S) (s : S) :
  (logOf h Background.onClicked s = logOf h Background.sortAllTabs s
   /\ outcomeOf h Background.onClicked s
      = Normal match firstRejection (logOf h Background.onClicked s) with
               | None => []
               | Some e => [console_error "Sort failed:" e]
               end)
  /\ (logOf h Part000.onClicked s = logOf h Part000.sortAllTabs s
      /\ exists lines,
           outcomeOf h Part000.onClicked s = Normal lines
           /\ (forall e,
                 firstRejection (logOf h Part000.onClicked s) = Some e ->
                 lines = [console_error "Sort failed:" e])
           /\ (firstRejection (logOf h Part000.onClicked s) = None ->
               lines = []
               \/ lines = [console_error "Sort failed:" TypeError])).
Proof.
  split.
  - unfold Background.onClicked, logOf at 1 3, outcomeOf at 1.
    rewrite listener_run. cbn [fst snd]. split; [reflexivity|].
    pose proof (sort_agrees _ _ _ (background_trace_total Parser h s)) as H.
    unfold Agrees in H.
    destruct (outcomeOf h Background.sortAllTabs s) as [[]|e].
    + now rewrite H.
    + destruct H as [->|[_ []]]. reflexivity.
  - unfold Part000.onClicked, logOf at 1 3 4, outcomeOf at 1.
    rewrite listener_run. cbn [fst snd]. split; [reflexivity|].
    eexists. split; [reflexivity|].
    pose proof (sort_agrees _ _ _ (part000_trace h s)) as H.
    unfold Agrees in H.
    destruct (outcomeOf h Part000.sortAllTabs s) as [[]|e]; split.
    + intros e He. congruence.
    + now left.
    + intros e' He. destruct H as [H|[H _]]; congruence.
    + intros Hn. right. destruct H as [H|[_ ->]]; congruence.
Qed.

(* ================================================================== *)
(** * The groups through a run *)
(* ================================================================== *)

Section OrchestratorGroups.
Context {P : Platform} {S : Type} (h : Host S).
Variable valid : S -> Prop.
Variable groupOf : S -> Z -> option Z.
Hypothesis Contract : GroupContract S h valid groupOf.
Variable scope : list Tab.t -> Z -> Z -> Prog unit.
Hypothesis scope_cases : forall tabs i g,
  (tabs = [] /\ scope tabs i g = Ret tt)
  \/ (exists e, scope tabs i g = Throw e)
  \/ (exists ids, Permutation ids (map Tab.id tabs)
                  /\ scope tabs i g = moveThenGroup ids i g).

(** A move and the grouping that follows it, on tabs of the group [g], or
    a move alone on tabs outside every group: every tab is in its group
    again. *)
Lemma moveThenGroup_membership ids i g s :
  valid s ->
  (forall t, In t ids -> groupOf s t = Some g) ->
  g = -1 \/ -1 < g ->
  ensures h (moveThenGroup ids i g) s
    (fun s' _ o =>
       valid s' /\ (o = Normal tt -> forall t, groupOf s' t = groupOf s t)).
Proof.
  intros Hv Hin Hg. run_open. unfold moveThenGroup.
  rewrite run_bind, run_await.
  pose proof (gc_valid _ _ _ _ Contract _ (tabs_move ids i) s Hv) as Hv1.
  pose proof (fun t => gc_move_frame _ _ _ _ Contract ids i s t Hv) as Hf1.
  pose proof (fun t => gc_move_ungroups _ _ _ _ Contract ids i s t Hv) as Hu1.
  destruct (respond h (tabs_move ids i) s) as [s1 [[]|e]];
    cbn [fst snd] in *; [|split; [exact Hv1|discriminate]].
  destruct (g >? -1) eqn:E.
  - rewrite run_await.
    pose proof (gc_valid _ _ _ _ Contract _ (tabs_group g ids) s1 Hv1) as Hv2.
    pose proof (fun t => gc_group_frame _ _ _ _ Contract g ids s1 t Hv1)
      as Hf2.
    pose proof (fun t => gc_group_sets _ _ _ _ Contract g ids s1 t Hv1)
      as Hs2.
    destruct (respond h (tabs_group g ids) s1) as [s2 r]; cbn [fst snd] in *.
    split; [exact Hv2|]. intros -> t.
    destruct (in_dec Z.eq_dec t ids) as [Ht|Ht].
    + rewrite (Hin t Ht). apply (Hs2 t eq_refl Ht).
      destruct (Hu1 t) as [H1|[_ H1]]; rewrite H1; [rewrite (Hin t Ht)|];
        discriminate.
    + now rewrite Hf2, Hf1.
  - simpl. split; [exact Hv1|]. intros _ t.
    assert (g = -1) as -> by (rewrite Z.gtb_ltb in E; apply Z.ltb_ge in E; lia).
    destruct (in_dec Z.eq_dec t ids) as [Ht|Ht]; [|now apply Hf1].
    destruct (Hu1 t) as [H1|[_ H1]]; [exact H1|].
    now rewrite H1, (Hin t Ht).
Qed.

Lemma scope_membership tabs i g s :
  valid s ->
  (forall tab, In tab tabs -> groupOf s (Tab.id tab) = Some g) ->
  g = -1 \/ -1 < g ->
  ensures h (scope tabs i g) s
    (fun s' _ o =>
       valid s' /\ (o = Normal tt -> forall t, groupOf s' t = groupOf s t)).
Proof.
  intros Hv Hin Hg.
  destruct (scope_cases tabs i g) as [[-> ->]|[[e ->]|(ids & Hp & ->)]].
  - run_open. simpl. now split.
  - run_open. simpl. split; [exact Hv|discriminate].
  - apply moveThenGroup_membership; [exact Hv| |exact Hg].
    intros t Ht. apply (Permutation_in _ Hp) in Ht.
    apply in_map_iff in Ht. destruct Ht as (tab & <- & Ht). now apply Hin.
Qed.

Lemma sendAll_membership tabs : forall failed s,
  valid s ->
  (forall tab, In tab tabs -> groupOf s (Tab.id tab) = Some (-1)) ->
  ensures h (sendAll (map (fun t => tabs_update (Tab.id t) true) tabs) failed)
    s (fun s' _ _ => valid s' /\ forall t, groupOf s' t = groupOf s t).
Proof.
  induction tabs as [|tab tabs IH]; intros failed s Hv Hin; run_open.
  - simpl. destruct failed; simpl; now split.
  - cbn [map sendAll run].
    pose proof (gc_valid _ _ _ _ Contract _ (tabs_update (Tab.id tab) true)
                  s Hv) as Hv1.
    pose proof (fun t => gc_update_frame _ _ _ _ Contract (Tab.id tab) true
                           s t Hv) as Hf1.
    pose proof (gc_update_loose _ _ _ _ Contract (Tab.id tab) s Hv
                  (Hin tab (or_introl eq_refl))) as Hl1.
    destruct (respond h (tabs_update (Tab.id tab) true) s) as [s1 r];
      cbn [fst snd] in *.
    assert (Heq : forall t, groupOf s1 t = groupOf s t).
    { intros t. destruct (Z.eq_dec t (Tab.id tab)) as [->|Hne].
      - now rewrite Hl1, (Hin tab (or_introl eq_refl)).
      - now apply Hf1. }
    match goal with
    | |- context [sendAll _ ?f] => specialize (IH f s1 Hv1)
    end.
    run_open. destruct (run h _ s1) as [[s2 l2] o2]. cbn [fst snd] in *.
    destruct IH as [Hv2 Hf2].
    { intros tab' Hin'. rewrite Heq. apply Hin. now right. }
    split; [exact Hv2|]. intros t. now rewrite Hf2, Heq.
Qed.

Lemma pinnedPhase_membership w s :
  valid s ->
  ensures h (pinnedPhaseWith scope w) s
    (fun s' _ o =>
       valid s'
       /\ forall n, o = Normal n -> forall t, groupOf s' t = groupOf s t).
Proof.
  intros Hv. run_open. unfold pinnedPhaseWith. rewrite run_bind, run_await.
  pose proof (gc_valid _ _ _ _ Contract _ (tabs_query w (Some true) None)
                s Hv) as Hv1.
  pose proof (fun t => gc_query _ _ _ _ Contract w (Some true) None s t Hv)
    as Hq.
  pose proof (fun tabs tab => gc_pinned_answer _ _ _ _ Contract w s tabs tab
                                Hv) as Hans.
  destruct (respond h (tabs_query w (Some true) None) s) as [s1 [tabs|e]];
    cbn [fst snd] in *; [|split; [exact Hv1|discriminate]].
  specialize (Hans tabs). rewrite run_bind.
  destruct tabs as [|first tabs0] eqn:Et.
  { simpl. split; [exact Hv1|]. intros n _ t. apply Hq. }
  rewrite <- Et in *. rewrite run_bind.
  assert (Hfirst : Tab.groupId first = -1).
  { apply (Hans first eq_refl). rewrite Et. now left. }
  assert (Hin1 : forall tab, In tab tabs ->
            groupOf s1 (Tab.id tab) = Some (-1)).
  { intros tab Hin. rewrite Hq. now apply Hans. }
  pose proof (scope_membership tabs 0 (Tab.groupId first) s1 Hv1) as Hs.
  rewrite Hfirst in *. specialize (Hs Hin1 (or_introl eq_refl)). run_open.
  destruct (run h (scope tabs 0 (-1)) s1)
    as [[s2 l2] [[]|e]]; cbn [fst snd] in *;
    destruct Hs as (Hv2 & Hf2); [|split; [exact Hv2|discriminate]].
  specialize (Hf2 eq_refl).
  pose proof (sendAll_membership tabs None s2 Hv2) as Ha. run_open.
  unfold Promise_all.
  destruct (run h (sendAll (map (fun t => tabs_update (Tab.id t) true) tabs)
                     None) s2) as [[s3 l3] o3]; cbn [fst snd] in *.
  destruct Ha as (Hv3 & Hf3).
  { intros tab Hin. rewrite Hf2. now apply Hin1. }
  destruct o3 as [[]|e]; cbn [fst snd run];
    (split; [exact Hv3|]); [|discriminate].
  intros n _ t. now rewrite Hf3, Hf2, Hq.
Qed.

Lemma groupLoop_membership w gs : forall n s,
  valid s ->
  (forall g, In g gs -> -1 < TabGroup.id g) ->
  ensures h (groupLoopWith scope w gs n) s
    (fun s' _ o =>
       valid s'
       /\ forall n', o = Normal n' -> forall t, groupOf s' t = groupOf s t).
Proof.
  induction gs as [|g gs IH]; intros n s Hv Hids; run_open.
  - simpl. now split.
  - assert (Hg : -1 < TabGroup.id g) by (apply Hids; now left).
    assert (Hids' : forall g', In g' gs -> -1 < TabGroup.id g')
      by (intros g' Hin; apply Hids; now right).
    cbn [groupLoopWith]. rewrite run_bind, run_await.
    pose proof (gc_valid _ _ _ _ Contract _
                  (tabGroups_move (TabGroup.id g) n) s Hv) as Hv1.
    pose proof (fun t => gc_groups_move _ _ _ _ Contract (TabGroup.id g) n
                           s t Hv) as Hf1.
    destruct (respond h (tabGroups_move (TabGroup.id g) n) s)
      as [s1 [[]|e]]; cbn [fst snd] in *; [|split; [exact Hv1|discriminate]].
    rewrite run_bind, run_await.
    pose proof (gc_valid _ _ _ _ Contract _
                  (tabs_query w None (Some (TabGroup.id g))) s1 Hv1) as Hv2.
    pose proof (fun t => gc_query _ _ _ _ Contract w None
                           (Some (TabGroup.id g)) s1 t Hv1) as Hf2.
    pose proof (fun tabs tab =>
                  gc_group_answer _ _ _ _ Contract w (TabGroup.id g) s1
                    tabs tab Hv1) as Hans.
    destruct (respond h (tabs_query w None (Some (TabGroup.id g))) s1)
      as [s2 [tabs|e]]; cbn [fst snd] in *;
      [|split; [exact Hv2|discriminate]].
    specialize (Hans tabs). rewrite run_bind.
    assert (Hbody : exists s3 l3 o3,
              run h (match tabs with
                     | [] => Ret n
                     | _ :: _ =>
                         m <- lift (minIndex tabs) ;;
                         _ <- scope tabs m (TabGroup.id g) ;;
                         Ret (n + Z.of_nat (List.length tabs))
                     end) s2 = (s3, l3, o3)
              /\ valid s3
              /\ forall n', o3 = Normal n' ->
                   forall t, groupOf s3 t = groupOf s2 t).
    { destruct tabs as [|t0 tabs0] eqn:Et.
      - exists s2, [], (Normal n). simpl. now repeat split.
      - rewrite <- Et in *. rewrite run_bind.
        assert (Hm : exists m, minIndex tabs = Normal m)
          by (rewrite Et; simpl; eauto).
        destruct Hm as [m ->]. cbn [lift run]. rewrite run_bind.
        assert (Hin2 : forall tab, In tab tabs ->
                  groupOf s2 (Tab.id tab) = Some (TabGroup.id g)).
        { intros tab Hin. rewrite Hf2. now apply Hans. }
        pose proof (scope_membership tabs m (TabGroup.id g) s2 Hv2 Hin2
                      (or_intror Hg)) as Hs.
        run_open.
        destruct (run h (scope tabs m (TabGroup.id g)) s2)
          as [[s3 l3] [[]|e]]; cbn [fst snd] in *; destruct Hs as [Hv3 Hf3].
        + eexists. eexists. eexists. simpl. split; [reflexivity|].
          split; [exact Hv3|]. intros n' _. now apply Hf3.
        + eexists. eexists. eexists. split; [reflexivity|].
          split; [exact Hv3|discriminate]. }
    destruct Hbody as (s3 & l3 & o3 & -> & Hv3 & Hf3).
    destruct o3 as [n3|e]; [|split; [exact Hv3|discriminate]].
    specialize (Hf3 n3 eq_refl).
    specialize (IH n3 s3 Hv3 Hids'). run_open.
    destruct (run h (groupLoopWith scope w gs n3) s3) as [[s4 l4] o4].
    cbn [fst snd] in *. destruct IH as [Hv4 Hf4].
    split; [exact Hv4|]. intros n' Ho t.
    now rewrite (Hf4 n' Ho), Hf3, Hf2, Hf1.
Qed.

Lemma ungroupedPhase_membership w s :
  valid s ->
  ensures h (ungroupedPhaseWith scope w) s
    (fun s' _ o =>
       valid s' /\ (o = Normal tt -> forall t, groupOf s' t = groupOf s t)).
Proof.
  intros Hv. run_open. unfold ungroupedPhaseWith.
  rewrite run_bind, run_await.
  pose proof (gc_valid _ _ _ _ Contract _
                (tabs_query w (Some false) (Some (-1))) s Hv) as Hv1.
  pose proof (fun t => gc_query _ _ _ _ Contract w (Some false) (Some (-1))
                         s t Hv) as Hf1.
  pose proof (fun tabs tab => gc_loose_answer _ _ _ _ Contract w s tabs tab
                                Hv) as Hans.
  destruct (respond h (tabs_query w (Some false) (Some (-1))) s)
    as [s1 [tabs|e]]; cbn [fst snd] in *; [|split; [exact Hv1|discriminate]].
  specialize (Hans tabs).
  destruct tabs as [|t0 tabs0] eqn:Et.
  { simpl. split; [exact Hv1|]. intros _ t. apply Hf1. }
  rewrite <- Et in *. rewrite run_bind.
  assert (Hm : exists m, minIndex tabs = Normal m)
    by (rewrite Et; simpl; eauto).
  destruct Hm as [m ->]. cbn [lift run].
  assert (Hin1 : forall tab, In tab tabs ->
            groupOf s1 (Tab.id tab) = Some (-1)).
  { intros tab Hin. rewrite Hf1. now apply Hans. }
  pose proof (scope_membership tabs m (-1) s1 Hv1 Hin1 (or_introl eq_refl))
    as Hs.
  run_open.
  destruct (run h (scope tabs m (-1)) s1) as [[s2 l2] o2].
  cbn [fst snd] in *. destruct Hs as [Hv2 Hf2].
  split; [exact Hv2|]. intros Ho t. now rewrite (Hf2 Ho), Hf1.
Qed.

(** A fulfilled run of the orchestrator leaves every tab in its group. *)
Lemma sortAllTabsWith_membership s :
  valid s ->
  ensures h (sortAllTabsWith scope) s
    (fun s' _ o =>
       o = Normal tt -> forall t, groupOf s' t = groupOf s t).
Proof.
  intros Hv. run_open. unfold sortAllTabsWith. rewrite run_bind, run_await.
  pose proof (gc_valid _ _ _ _ Contract _ windows_getLastFocused s Hv) as Hv1.
  pose proof (fun t => gc_window _ _ _ _ Contract s t Hv) as Hf1.
  destruct (respond h windows_getLastFocused s) as [s1 [w|e]];
    cbn [fst snd] in *; [|discriminate].
  rewrite run_bind.
  pose proof (pinnedPhase_membership w s1 Hv1) as Hp. run_open.
  destruct (run h (pinnedPhaseWith scope w) s1) as [[s2 l2] [n|e]];
    cbn [fst snd] in *; [|discriminate].
  destruct Hp as [Hv2 Hf2]. specialize (Hf2 n eq_refl).
  rewrite run_bind. unfold groupsPhaseWith. rewrite run_bind, run_await.
  pose proof (gc_valid _ _ _ _ Contract _ (tabGroups_query w) s2 Hv2) as Hv3.
  pose proof (fun t => gc_groups_query _ _ _ _ Contract w s2 t Hv2) as Hf3.
  pose proof (fun groups group =>
                gc_groups_answer _ _ _ _ Contract w s2 groups group Hv2)
    as Hga.
  destruct (respond h (tabGroups_query w) s2) as [s3 [groups|e]];
    cbn [fst snd] in *; [|discriminate].
  assert (Hids : forall g, In g (Array_sort compareGroups groups) ->
            -1 < TabGroup.id g).
  { intros g Hin. apply (Hga groups g eq_refl).
    now apply Array_sort_in in Hin. }
  pose proof (groupLoop_membership w (Array_sort compareGroups groups) n s3
                Hv3 Hids) as Hg. run_open.
  destruct (run h (groupLoopWith scope w (Array_sort compareGroups groups) n)
              s3) as [[s4 l4] [n4|e]]; cbn [fst snd] in *; [|discriminate].
  destruct Hg as [Hv4 Hf4]. specialize (Hf4 n4 eq_refl).
  pose proof (ungroupedPhase_membership w s4 Hv4) as Hu. run_open.
  destruct (run h (ungroupedPhaseWith scope w) s4) as [[s5 l5] o5].
  cbn [fst snd] in *. destruct Hu as [Hv5 Hf5].
  intros Ho t. now rewrite (Hf5 Ho), Hf4, Hf3, Hf2, Hf1.
Qed.
End OrchestratorGroups.

(* ================================================================== *)
(** * The small browser keeps the groups *)
(* ================================================================== *)

Lemma filter_id_map (F : Tab.t -> Tab.t) l t :
  (forall x, Tab.id (F x) = Tab.id x) ->
  filter (fun tab => Tab.id tab =? t) (map F l)
  = map F (filter (fun tab => Tab.id tab =? t) l).
Proof.
  intros HF. induction l as [|x l IH]; simpl; [reflexivity|].
  rewrite HF. destruct (Tab.id x =? t); simpl; now rewrite IH.
Qed.

Section GroupsOnTabs.
Variable ids : list Z.
Variable f : Tab.t -> Tab.t.
Hypothesis f_id : forall tab, Tab.id (f tab) = Tab.id tab.

Lemma onTabs_filter st t :
  filter (fun tab => Tab.id tab =? t)
    (Simulated.tabs (Simulated.onTabs ids f st))
  = map (fun tab => if Simulated.mem t ids then f tab else tab)
      (filter (fun tab => Tab.id tab =? t) (Simulated.tabs st)).
Proof.
  unfold Simulated.onTabs. simpl. rewrite filter_id_map.
  - induction (Simulated.tabs st) as [|x l IH]; [reflexivity|].
    cbn [filter].
    destruct (Z.eqb_spec (Tab.id x) t) as [E|Hne]; cbn [map];
      now rewrite IH, ?E.
  - intros x. now destruct (Simulated.mem (Tab.id x) ids).
Qed.

Lemma groupOf_onTabs_out st t :
  ~ In t ids ->
  Simulated.groupOf (Simulated.onTabs ids f st) t = Simulated.groupOf st t.
Proof.
  intros Hout. unfold Simulated.groupOf. rewrite onTabs_filter.
  destruct (Simulated.mem t ids) eqn:E;
    [apply mem_In in E; contradiction|].
  now rewrite map_id.
Qed.

Lemma groupOf_onTabs_same st t :
  (forall tab, Tab.groupId (f tab) = Tab.groupId tab) ->
  Simulated.groupOf (Simulated.onTabs ids f st) t = Simulated.groupOf st t.
Proof.
  intros Hf. unfold Simulated.groupOf. rewrite onTabs_filter, map_map.
  f_equal. apply map_ext. intros tab.
  now destruct (Simulated.mem t ids).
Qed.

Lemma groupOf_onTabs_in st t g :
  (forall tab, Tab.groupId (f tab) = g) ->
  In t ids -> Simulated.groupOf st t <> None ->
  Simulated.groupOf (Simulated.onTabs ids f st) t = Some g.
Proof.
  intros Hf Hin. unfold Simulated.groupOf. rewrite onTabs_filter.
  apply mem_In in Hin. rewrite Hin.
  destruct (filter (fun tab => Tab.id tab =? t) (Simulated.tabs st))
    as [|x l]; simpl; [congruence|].
  intros _. now rewrite Hf.
Qed.
End GroupsOnTabs.

Lemma filter_none (A : Type) (p : A -> bool) l :
  (forall x, In x l -> p x = false) -> filter p l = [].
Proof.
  induction l as [|x l IH]; simpl; intros H; [reflexivity|].
  rewrite (H x (or_introl eq_refl)). apply IH. intros y Hy. apply H.
  now right.
Qed.

(** With one tab for every identifier, the group of a tab is read off any
    tab of the row with its identifier. *)
Lemma filter_id_one l tab :
  NoDup (map Tab.id l) -> In tab l ->
  filter (fun x => Tab.id x =? Tab.id tab) l = [tab].
Proof.
  induction l as [|x l IH]; simpl; intros Hnd Hin; [contradiction|].
  apply NoDup_cons_iff in Hnd. destruct Hnd as [Hnot Hnd].
  destruct Hin as [->|Hin].
  - rewrite Z.eqb_refl. f_equal.
    apply filter_none.
    intros y Hy. apply Z.eqb_neq. intros E. apply Hnot. rewrite <- E.
    now apply in_map.
  - destruct (Z.eqb_spec (Tab.id x) (Tab.id tab)) as [E|_]; [|auto].
    exfalso. apply Hnot. rewrite E. now apply in_map.
Qed.

Lemma groupOf_In st tab :
  NoDup (map Tab.id (Simulated.tabs st)) -> In tab (Simulated.tabs st) ->
  Simulated.groupOf st (Tab.id tab) = Some (Tab.groupId tab).
Proof.
  intros Hnd Hin. unfold Simulated.groupOf.
  now rewrite (filter_id_one _ _ Hnd Hin).
Qed.

Lemma groupOf_absent st t :
  (forall tab, In tab (Simulated.tabs st) -> Tab.id tab <> t) ->
  Simulated.groupOf st t = None.
Proof.
  intros H. unfold Simulated.groupOf.
  rewrite filter_none; [reflexivity|].
  intros x Hx. apply Z.eqb_neq. now apply H.
Qed.

Lemma groupOf_members st st' t :
  NoDup (map Tab.id (Simulated.tabs st)) ->
  NoDup (map Tab.id (Simulated.tabs st')) ->
  (forall tab, In tab (Simulated.tabs st) <-> In tab (Simulated.tabs st')) ->
  Simulated.groupOf st t = Simulated.groupOf st' t.
Proof.
  intros Hnd Hnd' H.
  destruct (in_dec Z.eq_dec t (map Tab.id (Simulated.tabs st))) as [Hin|Hout].
  - apply in_map_iff in Hin. destruct Hin as (tab & <- & Hin).
    rewrite (groupOf_In st tab Hnd Hin).
    now rewrite (groupOf_In st' tab Hnd' (proj1 (H tab) Hin)).
  - rewrite !groupOf_absent; [reflexivity| |].
    + intros tab Hin E. apply Hout. rewrite <- E. apply in_map.
      now apply H.
    + intros tab Hin E. apply Hout. rewrite <- E. now apply in_map.
Qed.

Lemma simulated_groups X (c : Request X) st :
  Simulated.groups (fst (respond Simulated.browser c st))
  = Simulated.groups st.
Proof.
  destruct c; simpl; try reflexivity.
  now destruct (Simulated.mem tabId (map Tab.id (Simulated.tabs st))).
Qed.

Lemma simulated_group_contract :
  GroupContract Simulated.State Simulated.browser Simulated.wellGrouped
    Simulated.groupOf.
Proof.
  pose proof simulated_contract as PC.
  split.
  - intros X c s [Hv Hg]. split; [exact (pc_valid PC c s Hv)|].
    now rewrite simulated_groups.
  - reflexivity.
  - reflexivity.
  - reflexivity.
  - intros g i s t [Hv _].
    pose proof (pc_valid PC (tabGroups_move g i) s Hv) as (Hnd' & _).
    symmetry. apply groupOf_members; [apply Hv|exact Hnd'|].
    intros tab. symmetry. apply group_moved_members.
  - intros w s tabs tab [(Hnd & Hp & _) _] E Hin. simpl in E.
    injection E as <-. apply filter_In in Hin. destruct Hin as [Hin Hm].
    unfold Simulated.matches in Hm. rewrite andb_true_r in Hm.
    destruct (In_positionedFrom _ _ _ Hin) as (tab0 & j & Hin0 & ->).
    simpl in Hm. assert (Hpin : Tab.pinned tab0 = true)
      by now destruct (Tab.pinned tab0).
    pose proof (Hp tab0 Hin0 Hpin) as Hg0. split; [exact Hg0|].
    change (Tab.id (Simulated.setIndex j tab0)) with (Tab.id tab0).
    now rewrite (groupOf_In s tab0 Hnd Hin0), Hg0.
  - intros w g s tabs tab [(Hnd & _) _] E Hin. simpl in E.
    injection E as <-. apply filter_In in Hin. destruct Hin as [Hin Hm].
    unfold Simulated.matches in Hm. simpl in Hm. apply Z.eqb_eq in Hm.
    destruct (In_positionedFrom _ _ _ Hin) as (tab0 & j & Hin0 & ->).
    change (Tab.id (Simulated.setIndex j tab0)) with (Tab.id tab0).
    rewrite (groupOf_In s tab0 Hnd Hin0). now f_equal.
  - intros w s tabs tab [(Hnd & _) _] E Hin. simpl in E.
    injection E as <-. apply filter_In in Hin. destruct Hin as [Hin Hm].
    unfold Simulated.matches in Hm. apply andb_prop in Hm.
    destruct Hm as [_ Hm]. apply Z.eqb_eq in Hm.
    destruct (In_positionedFrom _ _ _ Hin) as (tab0 & j & Hin0 & ->).
    change (Tab.id (Simulated.setIndex j tab0)) with (Tab.id tab0).
    rewrite (groupOf_In s tab0 Hnd Hin0). now f_equal.
  - intros w s groups group [_ Hg] E Hin. simpl in E. injection E as <-.
    auto.
  - intros ids i s t [Hv _] _.
    pose proof (pc_valid PC (tabs_move ids i) s Hv) as (Hnd' & _).
    rewrite <- (groupOf_onTabs_same ids Simulated.unpin (fun _ => eq_refl)
                  s t (fun _ => eq_refl)).
    apply groupOf_members; [exact Hnd'| |].
    + rewrite onTabs_ids; [apply Hv|reflexivity].
    + intros tab. apply moved_members.
  - intros ids i s t [Hv _]. left.
    pose proof (pc_valid PC (tabs_move ids i) s Hv) as (Hnd' & _).
    rewrite <- (groupOf_onTabs_same ids Simulated.unpin (fun _ => eq_refl)
                  s t (fun _ => eq_refl)).
    apply groupOf_members; [exact Hnd'| |].
    + rewrite onTabs_ids; [apply Hv|reflexivity].
    + intros tab. apply moved_members.
  - intros g ids s t _ Hout.
    now apply (groupOf_onTabs_out ids (Simulated.setFlags false g)
                 (fun _ => eq_refl)).
  - intros g ids s t _ _ Hin Hsome.
    now apply (groupOf_onTabs_in ids (Simulated.setFlags false g)
                 (fun _ => eq_refl) s t g (fun _ => eq_refl)).
  - intros id b s t _ Hne. simpl.
    destruct (Simulated.mem id (map Tab.id (Simulated.tabs s)));
      [|reflexivity].
    simpl.
    apply (groupOf_onTabs_out [id]
             (fun t0 => Simulated.setFlags b
                          (if b then -1 else Tab.groupId t0) t0)
             (fun _ => eq_refl)).
    simpl. intros [E|[]]. now symmetry in E.
  - intros id s _ Hl. simpl.
    destruct (Simulated.mem id (map Tab.id (Simulated.tabs s)));
      [|exact Hl].
    simpl.
    apply (groupOf_onTabs_in [id] (fun t0 => Simulated.setFlags true (-1) t0)
             (fun _ => eq_refl) s id (-1) (fun _ => eq_refl)); [now left|].
    rewrite Hl. discriminate.
Qed.

Lemma simulated_window_wellGrouped : Simulated.wellGrouped Simulated.window.
Proof.
  split; [exact simulated_window_valid|].
  intros g Hin. simpl in Hin.
  repeat (destruct Hin as [<-|Hin]; [simpl; lia|]). contradiction.
Qed.

(** X17.  Sorting moves no tab across groups.  Against a browser that
    keeps the contract [GroupContract], where a move may take the moved
    tabs out of their group, a fulfilled run of [sortAllTabs], of either
    variant, leaves every tab in the group it was in, and every tab
    outside the groups outside of them: the grouping request after the
    move of a group's tabs puts back what the move took out. *)
Theorem groups_preserved {P : Platform} (sortAllTabs : Prog unit)
    (S : Type) (h : Host S) (valid : S -> Prop)
    (groupOf : S -> Z -> option Z) (s : S) :
  EitherVariant sortAllTabs ->
  GroupContract S h valid groupOf ->
  valid s ->
  outcomeOf h sortAllTabs s = Normal tt ->
  forall t, groupOf (finalState h sortAllTabs s) t = groupOf s t.
Proof.
  intros [->| ->] Contract Hv.
  - unfold outcomeOf, finalState. rewrite background_sortAllTabs.
    exact (sortAllTabsWith_membership h valid groupOf Contract
             Background.sortTabsScope background_scope_cases s Hv).
  - exact (sortAllTabsWith_membership h valid groupOf Contract
             Part000.sortTabsScope part000_scope_cases s Hv).
Qed.

(* ================================================================== *)
(** * The pinned flags through a run that may fail *)
(* ================================================================== *)

Section OrchestratorPinsOnly.
Context {P : Platform} {S : Type} (h : Host S).
Variable valid : S -> Prop.
Variable isPinned : S -> Z -> bool.
Hypothesis Contract : PinContract h valid isPinned.
Variable scope : list Tab.t -> Z -> Z -> Prog unit.
Hypothesis scope_cases : forall tabs i g,
  (tabs = [] /\ scope tabs i g = Ret tt)
  \/ (exists e, scope tabs i g = Throw e)
  \/ (exists ids, Permutation ids (map Tab.id tabs)
                  /\ scope tabs i g = moveThenGroup ids i g).

(** The pin requests pin nothing but the tabs they name, whatever the
    answers. *)
Lemma sendAll_pins_only tabs : forall failed s,
  valid s ->
  ensures h (sendAll (map (fun t => tabs_update (Tab.id t) true) tabs) failed)
    s
    (fun s' _ _ =>
       valid s'
       /\ forall t, isPinned s' t = true ->
            isPinned s t = true \/ In t (map Tab.id tabs)).
Proof.
  induction tabs as [|tab tabs IH]; intros failed s Hv; run_open.
  - simpl. destruct failed; simpl; split; auto.
  - cbn [map sendAll run].
    pose proof (pc_valid Contract (tabs_update (Tab.id tab) true) s Hv) as Hv1.
    pose proof (fun t => pc_update_frame Contract (Tab.id tab) true s t Hv)
      as Hf1.
    destruct (respond h (tabs_update (Tab.id tab) true) s) as [s1 r];
      cbn [fst snd] in *.
    match goal with
    | |- context [sendAll _ ?f] => specialize (IH f s1 Hv1)
    end.
    run_open. destruct (run h _ s1) as [[s2 l2] o2]. cbn [fst snd] in *.
    destruct IH as [Hv2 Hn2]. split; [exact Hv2|]. intros t Ht.
    destruct (Hn2 t Ht) as [H1|Hin]; [|right; now right].
    destruct (Z.eq_dec t (Tab.id tab)) as [->|Hne]; [right; now left|].
    left. now rewrite <- Hf1.
Qed.

Lemma pinnedPhase_pins_only w s :
  valid s ->
  ensures h (pinnedPhaseWith scope w) s
    (fun s' _ _ =>
       valid s' /\ forall t, isPinned s' t = true -> isPinned s t = true).
Proof.
  intros Hv. run_open. unfold pinnedPhaseWith. rewrite run_bind, run_await.
  pose proof (pc_valid Contract (tabs_query w (Some true) None) s Hv) as Hv1.
  pose proof (fun t => pc_query Contract w (Some true) None s t Hv) as Hq.
  pose proof (fun tabs tab => pc_pinned_answer Contract w s tabs tab Hv)
    as Hans.
  destruct (respond h (tabs_query w (Some true) None) s) as [s1 [tabs|e]];
    cbn [fst snd] in *.
  2:{ split; [exact Hv1|]. intros t. now rewrite Hq. }
  specialize (Hans tabs). rewrite run_bind.
  destruct tabs as [|first tabs0] eqn:Et.
  { simpl. split; [exact Hv1|]. intros t. now rewrite Hq. }
  rewrite <- Et in *. rewrite run_bind.
  pose proof (scope_pins h valid isPinned Contract scope scope_cases
                tabs 0 (Tab.groupId first) s1 Hv1) as Hs. run_open.
  destruct (run h (scope tabs 0 (Tab.groupId first)) s1)
    as [[s2 l2] [[]|e]]; cbn [fst snd] in *;
    destruct Hs as (Hv2 & Hf2 & Hn2).
  2:{ split; [exact Hv2|]. intros t Ht. rewrite <- Hq. now apply Hn2. }
  pose proof (sendAll_pins_only tabs None s2 Hv2) as Ha. run_open.
  unfold Promise_all.
  destruct (run h (sendAll (map (fun t => tabs_update (Tab.id t) true) tabs)
                     None) s2) as [[s3 l3] o3]; cbn [fst snd] in *.
  destruct Ha as (Hv3 & Hn3).
  assert (H : forall t, isPinned s3 t = true -> isPinned s t = true).
  { intros t Ht. destruct (Hn3 t Ht) as [H2|Hin].
    - rewrite <- Hq. now apply Hn2.
    - apply in_map_iff in Hin. destruct Hin as (tab & <- & Hin).
      now apply Hans. }
  destruct o3 as [[]|e]; cbn [fst snd run]; now split.
Qed.

(** A run of the orchestrator pins no tab that was not pinned, whether it
    completes or fails. *)
Lemma sortAllTabsWith_pins_only s :
  valid s ->
  ensures h (sortAllTabsWith scope) s
    (fun s' _ _ => forall t, isPinned s' t = true -> isPinned s t = true).
Proof.
  intros Hv. run_open. unfold sortAllTabsWith. rewrite run_bind, run_await.
  pose proof (pc_valid Contract windows_getLastFocused s Hv) as Hv1.
  pose proof (fun t => pc_window Contract s t Hv) as Hf1.
  destruct (respond h windows_getLastFocused s) as [s1 [w|e]];
    cbn [fst snd] in *; [|intros t; now rewrite Hf1].
  rewrite run_bind.
  pose proof (pinnedPhase_pins_only w s1 Hv1) as Hp. run_open.
  destruct (run h (pinnedPhaseWith scope w) s1) as [[s2 l2] [n|e]];
    cbn [fst snd] in *; destruct Hp as [Hv2 Hn2].
  2:{ intros t Ht. rewrite <- Hf1. now apply Hn2. }
  rewrite run_bind. unfold groupsPhaseWith. rewrite run_bind, run_await.
  pose proof (pc_valid Contract (tabGroups_query w) s2 Hv2) as Hv3.
  pose proof (fun t => pc_groups_query Contract w s2 t Hv2) as Hf3.
  pose proof (fun groups group =>
                pc_groups_answer Contract w s2 groups group Hv2) as Hga.
  destruct (respond h (tabGroups_query w) s2) as [s3 [groups|e]];
    cbn [fst snd] in *.
  2:{ intros t Ht. rewrite <- Hf1. apply Hn2. now rewrite <- Hf3. }
  assert (Hids : forall g, In g (Array_sort compareGroups groups) ->
            TabGroup.id g <> -1).
  { intros g Hin. apply (Hga groups g eq_refl).
    now apply Array_sort_in in Hin. }
  pose proof (groupLoop_pins h valid isPinned Contract scope scope_cases w
                (Array_sort compareGroups groups) n s3 Hv3 Hids) as Hg.
  run_open.
  destruct (run h (groupLoopWith scope w (Array_sort compareGroups groups) n)
              s3) as [[s4 l4] [n4|e]]; cbn [fst snd] in *;
    destruct Hg as [Hv4 Hf4].
  2:{ intros t Ht. rewrite <- Hf1. apply Hn2. now rewrite <- Hf3, <- Hf4. }
  pose proof (ungroupedPhase_pins h valid isPinned Contract scope scope_cases
                w s4 Hv4) as Hu. run_open.
  destruct (run h (ungroupedPhaseWith scope w) s4) as [[s5 l5] o5].
  cbn [fst snd] in *. destruct Hu as [Hv5 Hf5].
  intros t Ht. rewrite <- Hf1. apply Hn2.
  now rewrite <- Hf3, <- Hf4, <- Hf5.
Qed.
End OrchestratorPinsOnly.

(** The small browser keeps the contract on the pinned flags when it
    rejects some requests: a rejected request changes nothing. *)
Lemma refusing_contract (refuse : forall X : Type, Request X -> bool) :
  PinContract (Simulated.refusing refuse) Simulated.valid Simulated.isPinned.
Proof.
  pose proof simulated_contract as PC.
  split; simpl.
  - intros X c s Hv. destruct (refuse X c); [exact Hv|].
    exact (pc_valid PC c s Hv).
  - intros s t Hv. now destruct (refuse Z windows_getLastFocused).
  - intros w p g s t Hv. now destruct (refuse _ (tabs_query w p g)).
  - intros w s t Hv. now destruct (refuse _ (tabGroups_query w)).
  - intros g i s t Hv. destruct (refuse _ (tabGroups_move g i));
      [reflexivity|]. exact (pc_groups_move PC g i s t Hv).
  - intros w s tabs tab Hv.
    destruct (refuse _ (tabs_query w (Some true) None)); [discriminate|].
    exact (pc_pinned_answer PC w s tabs tab Hv).
  - intros w g s tabs tab Hv.
    destruct (refuse _ (tabs_query w (Some false) g)); [discriminate|].
    exact (pc_unpinned_answer PC w g s tabs tab Hv).
  - intros w s groups group Hv.
    destruct (refuse _ (tabGroups_query w)); [discriminate|].
    exact (pc_groups_answer PC w s groups group Hv).
  - intros w g s tabs tab Hv Hg.
    destruct (refuse _ (tabs_query w None (Some g))); [discriminate|].
    exact (pc_group_answer PC w g s tabs tab Hv Hg).
  - intros ids i s t Hv Hout. destruct (refuse _ (tabs_move ids i));
      [reflexivity|]. exact (pc_move_frame PC ids i s t Hv Hout).
  - intros ids i s t Hv. destruct (refuse _ (tabs_move ids i));
      [exact (fun H => H)|]. exact (pc_move_pins_none PC ids i s t Hv).
  - intros g ids s t Hv Hout. destruct (refuse _ (tabs_group g ids));
      [reflexivity|]. exact (pc_group_frame PC g ids s t Hv Hout).
  - intros g ids s t Hv. destruct (refuse _ (tabs_group g ids));
      [exact (fun H => H)|]. exact (pc_group_pins_none PC g ids s t Hv).
  - intros id b s t Hv Hne. destruct (refuse _ (tabs_update id b));
      [reflexivity|]. exact (pc_update_frame PC id b s t Hv Hne).
  - intros id s Hv. destruct (refuse _ (tabs_update id true));
      [discriminate|]. exact (pc_update_pins PC id s Hv).
Qed.

(** X18.  A run pins no tab that was not pinned, whether it completes or
    fails.  Against a browser that keeps the contract [PinContract], where
    a move may unpin the tabs it moves, every tab that is pinned after a
    run of [sortAllTabs], of either variant, was pinned before it.  A run
    that fails may leave pinned tabs unpinned: the block of the pinned
    tabs moves them first and pins them again afterwards. *)
Theorem no_tab_gets_pinned {P : Platform} (sortAllTabs : Prog unit)
    (S : Type) (h : Host S) (valid : S -> Prop) (isPinned : S -> Z -> bool)
    (s : S) :
  EitherVariant sortAllTabs ->
  PinContract h valid isPinned ->
  valid s ->
  forall t, isPinned (finalState h sortAllTabs s) t = true ->
            isPinned s t = true.
Proof.
  intros [->| ->] Contract Hv.
  - unfold finalState. rewrite background_sortAllTabs.
    exact (sortAllTabsWith_pins_only h valid isPinned Contract
             Background.sortTabsScope background_scope_cases s Hv).
  - exact (sortAllTabsWith_pins_only h valid isPinned Contract
             Part000.sortTabsScope part000_scope_cases s Hv).
Qed.

(* ================================================================== *)
(** * The queries for the tabs of a group *)
(* ================================================================== *)

Lemma QueryFollowsGroupMove_extends : Extends QueryFollowsGroupMove.
Proof.
  intros pre m [] H; simpl in *; try exact I.
  destruct pinned; [exact I|].
  destruct H as (g & i & Hq & He). exists g, i.
  split; [exact Hq|now apply endsWith_extends].
Qed.

Lemma no_group_query l :
  Forall (fun y => isGroupQuery y = false) l ->
  Always QueryFollowsGroupMove l.
Proof.
  intros H. apply always_forall. eapply Forall_impl; [|exact H].
  intros [] Hy m; simpl in *; try exact I.
  destruct pinned; [exact I|discriminate].
Qed.

Section GroupQueries.
Context {P : Platform}.
Variable Thrown : Exn -> Prop.

Lemma scope_no_group_query tabs i g l o :
  ScopeTrace Thrown tabs i g l o ->
  Forall (fun y => isGroupQuery y = false) l.
Proof.
  intros H. apply scope_shape in H. eapply Forall_impl; [|exact H].
  intros []; simpl; congruence.
Qed.

Lemma pinned_no_group_query w l o :
  PinnedTrace Thrown w l o -> Forall (fun y => isGroupQuery y = false) l.
Proof.
  intros [e| |first rest l' e H|first rest l' l'' o' H H'];
    repeat (constructor; [reflexivity|]); try constructor.
  - exact (scope_no_group_query _ _ _ _ _ H).
  - apply Forall_app. split; [exact (scope_no_group_query _ _ _ _ _ H)|].
    apply pins_updates in H'. eapply Forall_impl; [|exact H'].
    intros []; simpl; congruence.
Qed.

Lemma group_query_after_move w n g r :
  Always QueryFollowsGroupMove
    [x_groups_move g n (Normal tt); x_query w None (Some g) r].
Proof.
  apply (always_app _ [_]); [now apply always_one|].
  apply always_one. exists g, n. split; [reflexivity|now exists []].
Qed.

Lemma loop_group_queries w gs n l o :
  LoopTrace Thrown w gs n l o -> Always QueryFollowsGroupMove l.
Proof.
  induction 1 as [n|g gs n e|g gs n e|g gs n l o _ IH
                 |g gs n tabs m l e Hne Hm H
                 |g gs n tabs m l l' o Hne Hm H _ IH].
  - apply always_nil.
  - now apply always_one.
  - apply group_query_after_move.
  - apply (always_app_ext _ QueryFollowsGroupMove_extends [_; _]);
      [apply group_query_after_move|exact IH].
  - apply (always_app_ext _ QueryFollowsGroupMove_extends [_; _]);
      [apply group_query_after_move|].
    apply no_group_query. exact (scope_no_group_query _ _ _ _ _ H).
  - apply (always_app_ext _ QueryFollowsGroupMove_extends [_; _]);
      [apply group_query_after_move|].
    apply (always_app_ext _ QueryFollowsGroupMove_extends); [|exact IH].
    apply no_group_query. exact (scope_no_group_query _ _ _ _ _ H).
Qed.

Lemma sort_group_queries l o :
  SortTrace Thrown l o -> Always QueryFollowsGroupMove l.
Proof.
  assert (Hg : forall w n l o, GroupsTrace Thrown w n l o ->
            Always QueryFollowsGroupMove l).
  { intros w n l' o' [e|groups l'' o'' H]; [now apply always_one|].
    apply (always_app_ext _ QueryFollowsGroupMove_extends [_]);
      [now apply always_one|].
    exact (loop_group_queries _ _ _ _ _ H). }
  assert (Hu : forall w l o, UngroupedTrace Thrown w l o ->
            Always QueryFollowsGroupMove l).
  { intros w l' o' [e| |tabs m l'' o'' _ _ H]; try (now apply always_one).
    apply (always_app_ext _ QueryFollowsGroupMove_extends [_]);
      [now apply always_one|].
    apply no_group_query. exact (scope_no_group_query _ _ _ _ _ H). }
  assert (Hp : forall w l o, PinnedTrace Thrown w l o ->
            Always QueryFollowsGroupMove l).
  { intros w l' o' H. apply no_group_query.
    exact (pinned_no_group_query _ _ _ H). }
  intros [e|w l1 e H1|w l1 n l2 e H1 H2|w l1 n l2 n' l3 o' H1 H2 H3].
  - now apply always_one.
  - apply (always_app_ext _ QueryFollowsGroupMove_extends [_]);
      [now apply always_one|]. exact (Hp _ _ _ H1).
  - apply (always_app_ext _ QueryFollowsGroupMove_extends [_]);
      [now apply always_one|].
    apply (always_app_ext _ QueryFollowsGroupMove_extends);
      [exact (Hp _ _ _ H1)|exact (Hg _ _ _ _ H2)].
  - apply (always_app_ext _ QueryFollowsGroupMove_extends [_]);
      [now apply always_one|].
    apply (always_app_ext _ QueryFollowsGroupMove_extends);
      [exact (Hp _ _ _ H1)|].
    apply (always_app_ext _ QueryFollowsGroupMove_extends);
      [exact (Hg _ _ _ _ H2)|exact (Hu _ _ _ H3)].
Qed.
End GroupQueries.

(** X19.  A group is moved before its tabs are looked at: in the log of
    [sortAllTabs], of either variant and against any browser, every tab
    query that does not filter on the pinned flag asks for the tabs of one
    group and stands right after the fulfilled request to move that group,
    so that the least index of its answer is read off the positions after
    that move. *)
Theorem group_queries_follow_group_moves {P : Platform}
    (sortAllTabs : Prog unit) (S : Type) (h : Host S) (s : S)
    (Hv : EitherVariant sortAllTabs)
    (l1 : list Exchange) (w : Z) (q : option Z)
    (r : Completion (list Tab.t)) (l2 : list Exchange) :
  logOf h sortAllTabs s = (l1 ++ x_query w None q r :: l2)%list ->
  exists l0 g i,
    q = Some g /\ l1 = (l0 ++ [x_groups_move g i (Normal tt)])%list.
Proof.
  intros E.
  pose proof (sort_group_queries _ _ _ (variant_trace sortAllTabs h s Hv)
                l1 _ l2 E) as (g & i & Hq & [l0 H0]).
  now exists l0, g, i.
Qed.

(* ================================================================== *)
(** * The two variants on one window *)
(* ================================================================== *)

(** Two scope sorters that do the same on the tabs a browser lists make
    the same run. *)
Section SameRuns.
Context {P : Platform} {S : Type} (h : Host S).
Variable Inv : S -> Prop.
Variable Good : Tab.t -> Prop.
Variables scopeA scopeB : list Tab.t -> Z -> Z -> Prog unit.

Hypothesis Inv_kept : forall (X : Type) (c : Request X) s,
  Inv s -> Inv (fst (respond h c s)).
Hypothesis answers_good : forall w p g s tabs tab,
  Inv s -> snd (respond h (tabs_query w p g) s) = Normal tabs ->
  In tab tabs -> Good tab.
Hypothesis same_scope : forall tabs i g,
  (forall tab, In tab tabs -> Good tab) ->
  scopeA tabs i g = scopeB tabs i g.

Lemma inv_run (R : Type) (p : Prog R) : forall s,
  Inv s -> Inv (finalState h p s).
Proof.
  unfold finalState.
  induction p as [r|e|X c k IH]; intros s Hs; simpl; try exact Hs.
  pose proof (Inv_kept X c s Hs) as H1.
  destruct (respond h c s) as [s1 a]. specialize (IH a s1 H1).
  now destruct (run h (k a) s1) as [[s2 l2] o2].
Qed.

Lemma pinnedPhase_same w s :
  Inv s ->
  run h (pinnedPhaseWith scopeA w) s = run h (pinnedPhaseWith scopeB w) s.
Proof.
  intros Hs. unfold pinnedPhaseWith. rewrite !run_bind, !run_await.
  pose proof (answers_good w (Some true) None s) as Hg.
  destruct (respond h (tabs_query w (Some true) None) s) as [s1 [tabs|e]];
    cbn [fst snd] in *; [|reflexivity].
  pose proof (fun tab => Hg tabs tab Hs eq_refl) as Hg'.
  destruct tabs as [|first rest]; [reflexivity|].
  now rewrite (same_scope (first :: rest) 0 (Tab.groupId first) Hg').
Qed.

Lemma groupLoop_same w gs : forall n s,
  Inv s ->
  run h (groupLoopWith scopeA w gs n) s
  = run h (groupLoopWith scopeB w gs n) s.
Proof.
  induction gs as [|g gs IH]; intros n s Hs; [reflexivity|].
  cbn [groupLoopWith]. rewrite !run_bind, !run_await.
  pose proof (Inv_kept _ (tabGroups_move (TabGroup.id g) n) s Hs) as H1.
  destruct (respond h (tabGroups_move (TabGroup.id g) n) s) as [s1 [[]|e]];
    cbn [fst snd] in *; [|reflexivity].
  rewrite !run_bind, !run_await.
  pose proof (Inv_kept _ (tabs_query w None (Some (TabGroup.id g))) s1 H1)
    as H2.
  pose proof (answers_good w None (Some (TabGroup.id g)) s1) as Hg.
  destruct (respond h (tabs_query w None (Some (TabGroup.id g))) s1)
    as [s2 [tabs|e]]; cbn [fst snd] in *; [|reflexivity].
  pose proof (fun tab => Hg tabs tab H1 eq_refl) as Hg'. rewrite !run_bind.
  assert (E : match tabs with
              | [] => Ret n
              | _ :: _ =>
                  m <- lift (minIndex tabs) ;;
                  _ <- scopeA tabs m (TabGroup.id g) ;;
                  Ret (n + Z.of_nat (List.length tabs))
              end
              = match tabs with
                | [] => Ret n
                | _ :: _ =>
                    m <- lift (minIndex tabs) ;;
                    _ <- scopeB tabs m (TabGroup.id g) ;;
                    Ret (n + Z.of_nat (List.length tabs))
                end).
  { destruct tabs as [|t0 tabs0] eqn:Et; [reflexivity|]. rewrite <- Et in *.
    destruct (minIndex tabs) as [m|e]; [|reflexivity]. simpl.
    now rewrite (same_scope tabs m (TabGroup.id g) Hg'). }
  rewrite E.
  match goal with
  | |- context [run h ?body s2] =>
      pose proof (inv_run _ body s2 H2) as H3; unfold finalState in H3;
      destruct (run h body s2) as [[s3 l3] [n3|e]]
  end; [|reflexivity].
  cbn [fst] in H3. now rewrite (IH n3 s3 H3).
Qed.

Lemma ungroupedPhase_same w s :
  Inv s ->
  run h (ungroupedPhaseWith scopeA w) s
  = run h (ungroupedPhaseWith scopeB w) s.
Proof.
  intros Hs. unfold ungroupedPhaseWith. rewrite !run_bind, !run_await.
  pose proof (answers_good w (Some false) (Some (-1)) s) as Hg.
  destruct (respond h (tabs_query w (Some false) (Some (-1))) s)
    as [s1 [tabs|e]]; cbn [fst snd] in *; [|reflexivity].
  pose proof (fun tab => Hg tabs tab Hs eq_refl) as Hg'.
  destruct tabs as [|t0 tabs0] eqn:Et; [reflexivity|]. rewrite <- Et in *.
  destruct (minIndex tabs) as [m|e]; [|reflexivity]. simpl.
  now rewrite (same_scope tabs m (-1) Hg').
Qed.

Lemma sortAllTabsWith_same s :
  Inv s ->
  run h (sortAllTabsWith scopeA) s = run h (sortAllTabsWith scopeB) s.
Proof.
  intros Hs. unfold sortAllTabsWith. rewrite !run_bind, !run_await.
  pose proof (Inv_kept _ windows_getLastFocused s Hs) as H1.
  destruct (respond h windows_getLastFocused s) as [s1 [w|e]];
    cbn [fst snd] in *; [|reflexivity].
  rewrite !run_bind, (pinnedPhase_same w s1 H1).
  pose proof (inv_run _ (pinnedPhaseWith scopeB w) s1 H1) as H2.
  unfold finalState in H2.
  destruct (run h (pinnedPhaseWith scopeB w) s1) as [[s2 l2] [n|e]];
    [|reflexivity].
  cbn [fst] in H2. rewrite !run_bind. unfold groupsPhaseWith.
  rewrite !run_bind, !run_await.
  pose proof (Inv_kept _ (tabGroups_query w) s2 H2) as H3.
  destruct (respond h (tabGroups_query w) s2) as [s3 [groups|e]];
    cbn [fst snd] in *; [|reflexivity].
  rewrite (groupLoop_same w (Array_sort compareGroups groups) n s3 H3).
  pose proof (inv_run _ (groupLoopWith scopeB w
                           (Array_sort compareGroups groups) n) s3 H3) as H4.
  unfold finalState in H4.
  destruct (run h (groupLoopWith scopeB w (Array_sort compareGroups groups)
                     n) s3) as [[s4 l4] [n4|e]]; [|reflexivity].
  cbn [fst] in H4. now rewrite (ungroupedPhase_same w s4 H4).
Qed.
End SameRuns.

(** On tabs with common addresses the two scope sorters are one. *)
Lemma common_scopes {P : Platform} (Parser : URLParser URL_parse) tabs i g :
  (forall tab, In tab tabs -> CommonAddress (effectiveAddress tab)) ->
  Background.sortTabsScope tabs i g = Part000.sortTabsScope tabs i g.
Proof.
  intros Hc.
  assert (Hone : forall tab j, In tab tabs ->
            exists b, Background.decorateTab tab j = Normal b
                      /\ Part000.decorateTab tab j = Normal (asPart000 b)).
  { intros tab j Hin.
    destruct (Hc tab Hin) as [Hext [(u & Hu & Hs)|[Hfail Hint]]].
    - unfold Background.decorateTab, Part000.decorateTab.
      rewrite (background_resolve_parsed tab u Hu).
      rewrite (part000_resolve_parsed Parser tab u Hu)
        by (destruct Hs as [-> | ->]; discriminate).
      eexists. split; [reflexivity|].
      unfold asPart000, Part000.hostKeyOf. simpl.
      now destruct Hs as [-> | ->].
    - destruct (background_invalid Parser tab j Hfail)
        as (u & b & Hu & _ & _ & _ & Hb & Hbi & Hbo & Hbh & Hbk).
      destruct (part000_placeholder Parser tab j Hext (or_intror Hfail))
        as (u' & p & Hu' & _ & _ & _ & Hp & Hpi & Hpo & Hph & Hpk).
      rewrite Hint in *. simpl in Hu, Hu'.
      assert (u' = u) by congruence. subst u'.
      exists b. split; [exact Hb|]. rewrite Hp. f_equal.
      destruct p, b. unfold asPart000. simpl in *. congruence. }
  destruct (decorate_alike tabs Hone 0) as (ds & Hb & Hp).
  assert (E : Background.sortedIds tabs = Part000.sortedIds tabs).
  { unfold Background.sortedIds, Part000.sortedIds, Background.decorate,
      Part000.decorate, mapWithIndex.
    rewrite Hb, Hp. f_equal.
    rewrite <- (Array_sort_map asPart000 Background.compareDecorated
                  Part000.compareDecorated asPart000_compare).
    now rewrite map_map. }
  unfold Background.sortTabsScope, Part000.sortTabsScope. now rewrite E.
Qed.

(** X20.  On a window without extension pages and browser pages the two
    variants are one program.  Take a browser that, in the states it can
    be in, lists only tabs whose effective address has no extension prefix
    and either parses with the scheme [http] or [https], or does not parse
    and has no prefix of a browser page.  Then [sortAllTabs] of
    [src/background.js] and of [src/unnamed/part_000] send the same
    requests, get the same answers, leave the browser in the same state
    and complete alike. *)
Theorem variants_run_alike {P : Platform} (Parser : URLParser URL_parse)
    (S : Type) (h : Host S) (Inv : S -> Prop) (s : S) :
  (forall (X : Type) (c : Request X) s',
     Inv s' -> Inv (fst (respond h c s'))) ->
  (forall w p g s' tabs tab,
     Inv s' -> snd (respond h (tabs_query w p g) s') = Normal tabs ->
     In tab tabs -> CommonAddress (effectiveAddress tab)) ->
  Inv s ->
  run h Background.sortAllTabs s = run h Part000.sortAllTabs s.
Proof.
  intros Hk Hg Hs. rewrite background_sortAllTabs.
  exact (sortAllTabsWith_same h Inv
           (fun tab => CommonAddress (effectiveAddress tab))
           Background.sortTabsScope Part000.sortTabsScope Hk Hg
           (common_scopes Parser) s Hs).
Qed.

(** The small browser changes no address: what holds of the addresses of
    all its tabs goes on holding, and holds of the tabs it lists. *)
Lemma simulated_addresses (Q : string -> Prop) :
  (forall (X : Type) (c : Request X) st,
     (forall tab, In tab (Simulated.tabs st) -> Q (effectiveAddress tab)) ->
     forall tab,
       In tab (Simulated.tabs (fst (respond Simulated.browser c st))) ->
       Q (effectiveAddress tab))
  /\ (forall w p g st tabs tab,
        (forall tab, In tab (Simulated.tabs st) -> Q (effectiveAddress tab)) ->
        snd (respond Simulated.browser (tabs_query w p g) st) = Normal tabs ->
        In tab tabs -> Q (effectiveAddress tab)).
Proof.
  assert (Hmap : forall (f : Tab.t -> Tab.t) l,
            (forall t, effectiveAddress (f t) = effectiveAddress t) ->
            (forall tab, In tab l -> Q (effectiveAddress tab)) ->
            forall tab, In tab (map f l) -> Q (effectiveAddress tab)).
  { intros f l Hf H tab Hin. apply in_map_iff in Hin.
    destruct Hin as (t & <- & Hin). rewrite Hf. now apply H. }
  assert (Hon : forall ids f st,
            (forall t, effectiveAddress (f t) = effectiveAddress t) ->
            (forall tab, In tab (Simulated.tabs st) ->
               Q (effectiveAddress tab)) ->
            forall tab, In tab (Simulated.tabs (Simulated.onTabs ids f st)) ->
              Q (effectiveAddress tab)).
  { intros ids f st Hf H. unfold Simulated.onTabs. cbn [Simulated.tabs].
    apply Hmap; [|exact H].
    intros t. now destruct (Simulated.mem (Tab.id t) ids). }
  split.
  - intros X c st H tab Hin.
    destruct c;
      cbn [respond Simulated.browser Simulated.respond fst Simulated.tabs]
        in Hin; try (now apply H).
    + apply moved_members in Hin.
      exact (Hon tabIds Simulated.unpin st (fun _ => eq_refl) H tab Hin).
    + destruct (Simulated.mem tabId (map Tab.id (Simulated.tabs st)));
        cbn [fst] in Hin; [|now apply H].
      apply (fun Hf => Hon _ _ _ Hf H tab Hin). reflexivity.
    + apply (fun Hf => Hon _ _ _ Hf H tab Hin). reflexivity.
    + apply group_moved_members in Hin. now apply H.
  - intros w p g st tabs tab H E Hin. simpl in E. injection E as <-.
    apply filter_In in Hin. destruct Hin as [Hin _].
    destruct (In_positionedFrom _ _ _ Hin) as (tab0 & j & Hin0 & ->).
    exact (H tab0 Hin0).
Qed.

(* ================================================================== *)
(** * Lists in which every element stands in a relation to the later ones *)
(* ================================================================== *)

Section StronglySortedLists.
Context {A : Type} (R : A -> A -> Prop).

Lemma ssorted_app l1 l2 :
  StronglySorted R (l1 ++ l2)
  <-> StronglySorted R l1 /\ StronglySorted R l2
      /\ (forall a b, In a l1 -> In b l2 -> R a b).
Proof.
  induction l1 as [|x l1 IH]; simpl.
  - split; [intros H|intros (_ & H & _); exact H].
    split; [constructor|]. split; [exact H|contradiction].
  - split.
    + intros H. apply StronglySorted_inv in H. destruct H as [Hs Hx].
      apply IH in Hs. destruct Hs as (H1 & H2 & H12).
      rewrite Forall_forall in Hx. split; [|split; [exact H2|]].
      * constructor; [exact H1|]. rewrite Forall_forall.
        intros y Hy. apply Hx, in_or_app. now left.
      * intros a b [<-|Ha] Hb; [|now apply H12].
        apply Hx, in_or_app. now right.
    + intros (H1 & H2 & H12). apply StronglySorted_inv in H1.
      destruct H1 as [H1 Hx]. rewrite Forall_forall in Hx.
      constructor.
      * apply IH. split; [exact H1|]. split; [exact H2|]. intros a b Ha.
        apply H12. now right.
      * rewrite Forall_forall. intros y Hy. apply in_app_or in Hy.
        destruct Hy as [Hy|Hy]; [now apply Hx|]. apply H12; [now left|exact Hy].
Qed.

Lemma ssorted_filter (p : A -> bool) l :
  StronglySorted R l -> StronglySorted R (filter p l).
Proof.
  induction 1 as [|x l Hs IH Hx]; simpl; [constructor|].
  destruct (p x); [|exact IH]. constructor; [exact IH|].
  rewrite Forall_forall in *. intros y Hy. apply filter_In in Hy.
  now apply Hx.
Qed.

Lemma ssorted_pairs l :
  (forall a b, In a l -> In b l -> R a b) -> StronglySorted R l.
Proof.
  induction l as [|x l IH]; intros H; constructor.
  - apply IH. intros a b Ha Hb. apply H; now right.
  - rewrite Forall_forall. intros y Hy. apply H; [now left|now right].
Qed.

Lemma ssorted_nth l i j a b :
  StronglySorted R l -> (i < j)%nat ->
  nth_error l i = Some a -> nth_error l j = Some b -> R a b.
Proof.
  intros H. revert i j. induction H as [|x l Hs IH Hx]; intros i j Hij Hi Hj.
  - now destruct i.
  - destruct j as [|j]; [lia|]. simpl in Hj.
    destruct i as [|i]; simpl in Hi.
    + injection Hi as <-. rewrite Forall_forall in Hx.
      apply Hx. eapply nth_error_In; eassumption.
    + apply (IH i j); [lia|assumption|assumption].
Qed.

(** Elements that stand in the relation to everything, both ways, can be
    put in anywhere. *)
Lemma ssorted_insert l1 ins l2 :
  (forall x y, In x ins -> R x y /\ R y x) ->
  StronglySorted R (l1 ++ l2) -> StronglySorted R (l1 ++ ins ++ l2).
Proof.
  intros Hn H. apply ssorted_app in H. destruct H as (H1 & H2 & H12).
  apply ssorted_app. split; [exact H1|]. split.
  - apply ssorted_app. split; [|split; [exact H2|]].
    + apply ssorted_pairs. intros a b Ha _. exact (proj1 (Hn a b Ha)).
    + intros a b Ha _. exact (proj1 (Hn a b Ha)).
  - intros a b Ha Hb. apply in_app_or in Hb.
    destruct Hb as [Hb|Hb]; [exact (proj2 (Hn b a Hb))|now apply H12].
Qed.
End StronglySortedLists.

Lemma filter_all (A : Type) (p : A -> bool) l :
  (forall x, In x l -> p x = true) -> filter p l = l.
Proof.
  induction l as [|x l IH]; simpl; intros H; [reflexivity|].
  rewrite (H x (or_introl eq_refl)). f_equal. apply IH. intros y Hy.
  apply H. now right.
Qed.

Lemma firstn_length_app (A : Type) (l1 l2 : list A) :
  firstn (List.length l1) (l1 ++ l2) = l1.
Proof. induction l1; simpl; [now destruct l2|now f_equal]. Qed.

Lemma skipn_length_app (A : Type) (l1 l2 : list A) :
  skipn (List.length l1) (l1 ++ l2) = l2.
Proof. induction l1; simpl; [reflexivity|assumption]. Qed.

(** An element of a list without repetition splits it in one way only. *)
Lemma NoDup_split_unique (A : Type) (x : A) l1 : forall l2 l1' l2',
  NoDup (l1 ++ x :: l2) ->
  (l1 ++ x :: l2 = l1' ++ x :: l2')%list -> l1 = l1' /\ l2 = l2'.
Proof.
  induction l1 as [|y l1 IH]; intros l2 l1' l2' Hnd E.
  - destruct l1' as [|y' l1']; simpl in *.
    + injection E as ->. now split.
    + injection E as <- ->. apply NoDup_cons_iff in Hnd.
      destruct Hnd as [Hnot _]. exfalso. apply Hnot, in_or_app.
      right. now left.
  - destruct l1' as [|y' l1']; simpl in *.
    + injection E as -> <-. apply NoDup_cons_iff in Hnd.
      destruct Hnd as [Hnot _]. exfalso. apply Hnot, in_or_app.
      right. now left.
    + injection E as <- E. apply NoDup_cons_iff in Hnd.
      destruct Hnd as [_ Hnd]. destruct (IH _ _ _ Hnd E) as [-> ->].
      now split.
Qed.

(* ================================================================== *)
(** * The order of the groups in a row of tabs *)
(* ================================================================== *)

Section GroupOrder.
Variable gs : list Z.
Hypothesis gs_nodup : NoDup gs.

Lemma notAfter_outside a b :
  ~ In (Tab.groupId a) gs -> NotAfter gs a b /\ NotAfter gs b a.
Proof.
  intros Hout. split; intros l1 l2 E Hin; apply Hout; rewrite E;
    apply in_or_app; right; [now right|now left].
Qed.

Lemma notAfter_same a b : Tab.groupId a = Tab.groupId b -> NotAfter gs a b.
Proof.
  intros E l1 l2 Hg Hin. rewrite Hg in gs_nodup.
  apply NoDup_remove_2 in gs_nodup. apply gs_nodup, in_or_app.
  right. now rewrite <- E.
Qed.

Lemma notAfter_earlier D g T a b :
  gs = (D ++ g :: T)%list -> ~ In (Tab.groupId a) (g :: T) ->
  Tab.groupId b = g -> NotAfter gs a b.
Proof.
  intros Hg Ha Hb l1 l2 E Hin. rewrite Hb in E. rewrite Hg in E, gs_nodup.
  destruct (NoDup_split_unique _ _ _ _ _ _ gs_nodup E) as [_ <-].
  apply Ha. now right.
Qed.

Lemma notAfter_groupId a b a' b' :
  Tab.groupId a' = Tab.groupId a -> Tab.groupId b' = Tab.groupId b ->
  NotAfter gs a b -> NotAfter gs a' b'.
Proof. unfold NotAfter. intros -> ->. exact (fun H => H). Qed.

(** A map that keeps the group of every tab keeps the order. *)
Lemma ssorted_groupId_map (F : Tab.t -> Tab.t) l :
  (forall t, In t l -> Tab.groupId (F t) = Tab.groupId t) ->
  StronglySorted (NotAfter gs) l -> StronglySorted (NotAfter gs) (map F l).
Proof.
  intros HF H. induction H as [|x l Hs IH Hx]; simpl; constructor.
  - apply IH. intros t Ht. apply HF. now right.
  - rewrite Forall_forall in *. intros y Hy. apply in_map_iff in Hy.
    destruct Hy as (y0 & <- & Hy0).
    apply (notAfter_groupId x y0); [apply HF; now left|apply HF; now right|].
    now apply Hx.
Qed.
End GroupOrder.

(* ================================================================== *)
(** * The row of the small browser, request by request *)
(* ================================================================== *)

Lemma positionedFrom_app l1 : forall i l2,
  Simulated.positionedFrom i (l1 ++ l2)
  = (Simulated.positionedFrom i l1
     ++ Simulated.positionedFrom (i + Z.of_nat (List.length l1)) l2)%list.
Proof.
  induction l1 as [|t l1 IH]; intros i l2; simpl.
  - now rewrite Z.add_0_r.
  - f_equal. rewrite IH. do 2 f_equal. lia.
Qed.

Lemma positionedFrom_ids l : forall i,
  map Tab.id (Simulated.positionedFrom i l) = map Tab.id l.
Proof. induction l; intros i; simpl; [reflexivity|now f_equal]. Qed.

Lemma positionedFrom_length l : forall i,
  List.length (Simulated.positionedFrom i l) = List.length l.
Proof. induction l; intros i; simpl; [reflexivity|now f_equal]. Qed.

Lemma positionedFrom_index l : forall i t,
  In t (Simulated.positionedFrom i l) -> i <= Tab.index t.
Proof.
  induction l as [|x l IH]; intros i t; simpl; [contradiction|].
  intros [<-|H]; [simpl; lia|]. apply IH in H. lia.
Qed.

Lemma positionedFrom_filter_all p q l : forall i,
  (forall t, In t l -> Simulated.matches p q t = true) ->
  filter (Simulated.matches p q) (Simulated.positionedFrom i l)
  = Simulated.positionedFrom i l.
Proof.
  intros i H. apply filter_all. intros t Ht.
  destruct (In_positionedFrom _ _ _ Ht) as (t0 & j & Hin & ->).
  exact (H t0 Hin).
Qed.

Lemma positionedFrom_filter_none p q l : forall i,
  (forall t, In t l -> Simulated.matches p q t = false) ->
  filter (Simulated.matches p q) (Simulated.positionedFrom i l) = [].
Proof.
  intros i H. apply filter_none. intros t Ht.
  destruct (In_positionedFrom _ _ _ Ht) as (t0 & j & Hin & ->).
  exact (H t0 Hin).
Qed.

(** The least index of a block of the row is the place of its first tab. *)
Lemma minIndex_positionedFrom l i :
  l <> [] -> minIndex (Simulated.positionedFrom i l) = Normal i.
Proof.
  destruct l as [|t l]; [intros H; now contradiction H|intros _].
  simpl. f_equal.
  destruct (fold_least (Simulated.positionedFrom (i + 1) l) i)
    as (_ & _ & [E|(x & Hx & E)]); [exact E|].
  apply positionedFrom_index in Hx.
  destruct (fold_least (Simulated.positionedFrom (i + 1) l) i)
    as (Hle & _ & _).
  lia.
Qed.

(** The tabs picked by the identifiers of some tabs of a row are as many. *)
Lemma pick_length ids l :
  NoDup ids -> NoDup (map Tab.id l) ->
  (forall x, In x ids -> In x (map Tab.id l)) ->
  List.length (Simulated.pick ids l) = List.length ids.
Proof.
  intros Hids Hl Hin. unfold Simulated.pick.
  rewrite (nodup_fixed_point Z.eq_dec Hids). clear Hids.
  induction ids as [|x ids IH]; simpl; [reflexivity|].
  rewrite length_app, IH by (intros y Hy; apply Hin; now right).
  destruct (proj1 (in_map_iff _ _ _) (Hin x (or_introl eq_refl)))
    as (tab & <- & Htab).
  now rewrite (filter_id_one l tab Hl Htab).
Qed.

Lemma NoDup_app_apart (A : Type) (x : A) l1 l2 :
  NoDup (l1 ++ l2) -> In x l1 -> In x l2 -> False.
Proof.
  induction l1 as [|y l1 IH]; simpl; intros Hnd H1 H2; [contradiction|].
  apply NoDup_cons_iff in Hnd. destruct Hnd as [Hnot Hnd].
  destruct H1 as [->|H1]; [|now apply IH].
  apply Hnot, in_or_app. now right.
Qed.

(** The move of a block of the row, to the place where it stands: the block
    is rearranged and the tabs around it stay. *)
Lemma move_block pre B rest ids st :
  Simulated.tabs st = (pre ++ B ++ rest)%list ->
  NoDup (map Tab.id (Simulated.tabs st)) ->
  Permutation ids (map Tab.id B) ->
  exists B',
    Simulated.tabs
      (fst (respond Simulated.browser
              (tabs_move ids (Z.of_nat (List.length pre))) st))
    = (pre ++ B' ++ rest)%list
    /\ List.length B' = List.length B
    /\ (forall t, In t B' ->
          exists t0, In t0 B /\ Tab.id t = Tab.id t0
                     /\ Tab.groupId t = Tab.groupId t0)
    /\ (forall t, In t pre \/ In t rest ->
          Simulated.mem (Tab.id t) ids = false).
Proof.
  intros Ht Hnd Hp.
  assert (HB : forall t, In t B -> In t (Simulated.tabs st)).
  { intros t Hin. rewrite Ht. apply in_or_app. right. apply in_or_app.
    now left. }
  assert (HinB : forall t, In t (Simulated.tabs st) ->
            In (Tab.id t) ids -> In t B).
  { intros t Hin Hid. apply (Permutation_in _ Hp), in_map_iff in Hid.
    destruct Hid as (b & E & Hb).
    now rewrite (NoDup_map_injective _ _ Tab.id _ t b Hnd Hin (HB b Hb)). }
  assert (Hids : NoDup (map Tab.id pre ++ map Tab.id B ++ map Tab.id rest))
    by now rewrite Ht, !map_app in Hnd.
  assert (Hpre : forall t, In t pre -> Simulated.mem (Tab.id t) ids = false).
  { intros t Hin. destruct (Simulated.mem (Tab.id t) ids) eqn:E;
      [|reflexivity].
    apply mem_In in E. exfalso. apply (Permutation_in _ Hp) in E.
    apply (NoDup_app_apart _ (Tab.id t) _ _ Hids); [now apply in_map|].
    apply in_or_app. now left. }
  assert (Hrest : forall t, In t rest ->
            Simulated.mem (Tab.id t) ids = false).
  { intros t Hin. destruct (Simulated.mem (Tab.id t) ids) eqn:E;
      [|reflexivity].
    apply mem_In in E. exfalso. apply (Permutation_in _ Hp) in E.
    apply NoDup_app_remove_l in Hids.
    apply (NoDup_app_apart _ (Tab.id t) _ _ Hids); [exact E|].
    now apply in_map. }
  assert (Hblock : forall t, In t B -> Simulated.mem (Tab.id t) ids = true).
  { intros t Hin. apply mem_In. apply (Permutation_in _ (Permutation_sym Hp)).
    now apply in_map. }
  exists (map Simulated.unpin (Simulated.pick ids (Simulated.tabs st))).
  split; [|split; [|split; [|intros t [Hin|Hin]; auto]]].
  - cbn [respond Simulated.browser Simulated.respond fst Simulated.tabs].
    rewrite Ht at 2. rewrite !filter_app.
    rewrite (filter_all _ _ pre), (filter_none _ _ B), (filter_all _ _ rest).
    + unfold Simulated.relocate. rewrite Nat2Z.id. simpl.
      now rewrite firstn_length_app, skipn_length_app.
    + intros t Hin. now rewrite (Hrest t Hin).
    + intros t Hin. now rewrite (Hblock t Hin).
    + intros t Hin. now rewrite (Hpre t Hin).
  - rewrite length_map, pick_length.
    + rewrite (Permutation_length Hp). apply length_map.
    + apply (Permutation_NoDup (Permutation_sym Hp)).
      apply NoDup_app_remove_l in Hids. now apply NoDup_app_remove_r in Hids.
    + exact Hnd.
    + intros x Hx. apply (Permutation_in _ Hp), in_map_iff in Hx.
      destruct Hx as (b & <- & Hb). apply in_map. now apply HB.
  - intros t Hin. apply in_map_iff in Hin. destruct Hin as (t0 & <- & Hin).
    apply In_pick in Hin. destruct Hin as [Hin Hid].
    exists t0. split; [now apply HinB|]. now split.
Qed.

(** The move of a whole group behind a part of the row that holds no tab of
    the group: the part stays, the tabs of the group follow it, in their
    order, and then the other tabs, in theirs. *)
Lemma move_group pre rest g st :
  Simulated.tabs st = (pre ++ rest)%list ->
  (forall t, In t pre -> Tab.groupId t <> g) ->
  Simulated.tabs
    (fst (respond Simulated.browser
            (tabGroups_move g (Z.of_nat (List.length pre))) st))
  = (pre ++ filter (Simulated.inGroup g) rest
     ++ filter (fun t => negb (Simulated.inGroup g t)) rest)%list.
Proof.
  intros Ht Hpre.
  cbn [respond Simulated.browser Simulated.respond fst Simulated.tabs].
  rewrite Ht, !filter_app.
  rewrite (filter_none _ _ pre), (filter_all _ _ pre).
  - unfold Simulated.relocate. rewrite Nat2Z.id. simpl.
    now rewrite firstn_length_app, skipn_length_app.
  - intros t Hin. unfold Simulated.inGroup.
    apply negb_true_iff, Z.eqb_neq. now apply Hpre.
  - intros t Hin. unfold Simulated.inGroup. apply Z.eqb_neq. now apply Hpre.
Qed.

(** The answer to the query for the tabs of a group that stand together. *)
Lemma query_block pre B rest w g st :
  Simulated.tabs st = (pre ++ B ++ rest)%list ->
  (forall t, In t pre -> Tab.groupId t <> g) ->
  (forall t, In t B -> Tab.groupId t = g) ->
  (forall t, In t rest -> Tab.groupId t <> g) ->
  snd (respond Simulated.browser (tabs_query w None (Some g)) st)
  = Normal (Simulated.positionedFrom (Z.of_nat (List.length pre)) B).
Proof.
  intros Ht Hpre HB Hrest.
  cbn [respond Simulated.browser Simulated.respond snd]. f_equal.
  unfold Simulated.positioned. rewrite Ht, !positionedFrom_app, !filter_app.
  rewrite positionedFrom_filter_none, positionedFrom_filter_all,
    positionedFrom_filter_none.
  - simpl. now rewrite app_nil_r.
  - intros t Hin. unfold Simulated.matches. simpl. apply Z.eqb_neq.
    now apply Hrest.
  - intros t Hin. unfold Simulated.matches. simpl. apply Z.eqb_eq.
    now apply HB.
  - intros t Hin. unfold Simulated.matches. simpl. apply Z.eqb_neq.
    now apply Hpre.
Qed.

(* ================================================================== *)
(** * The groups placed one after the other *)
(* ================================================================== *)

(** The groups and the validity of the state of the small browser through
    a run. *)
Lemma simulated_run_groups (R : Type) (p : Prog R) : forall st,
  Simulated.groups (finalState Simulated.browser p st) = Simulated.groups st.
Proof.
  unfold finalState.
  induction p as [r|e|X c k IH]; intros st; cbn [run]; try reflexivity.
  pose proof (simulated_groups X c st) as Hg.
  destruct (respond Simulated.browser c st) as [s1 a].
  specialize (IH a s1).
  destruct (run Simulated.browser (k a) s1) as [[s2 l2] o2].
  cbn [fst] in *. congruence.
Qed.

Lemma simulated_run_valid (R : Type) (p : Prog R) : forall st,
  Simulated.valid st -> Simulated.valid (finalState Simulated.browser p st).
Proof.
  unfold finalState.
  induction p as [r|e|X c k IH]; intros st Hv; cbn [run]; try exact Hv.
  pose proof (pc_valid simulated_contract c st Hv) as Hv1.
  destruct (respond Simulated.browser c st) as [s1 a].
  specialize (IH a s1 Hv1).
  now destruct (run Simulated.browser (k a) s1) as [[s2 l2] o2].
Qed.

(** One more group placed. *)
Lemma placed_step gs done g todo pre rest B :
  NoDup gs -> gs = (done ++ g :: todo)%list ->
  StronglySorted (NotAfter gs) pre ->
  (forall t, In t pre -> ~ In (Tab.groupId t) (g :: todo)) ->
  (forall t, In t rest -> ~ In (Tab.groupId t) done) ->
  (forall t, In t B -> Tab.groupId t = g) ->
  GroupsPlaced gs (done ++ [g]) todo (Z.of_nat (List.length (pre ++ B)))
    (pre ++ B ++ filter (fun t => negb (Simulated.inGroup g t)) rest).
Proof.
  intros Hnd Hgs Hs Hpre Hrest HB.
  exists (pre ++ B)%list,
    (filter (fun t => negb (Simulated.inGroup g t)) rest).
  split; [now rewrite app_assoc|]. split; [reflexivity|]. split; [|split].
  - apply ssorted_app. split; [exact Hs|]. split.
    + apply ssorted_pairs. intros a b Ha Hb.
      apply (notAfter_same gs Hnd). now rewrite (HB a Ha), (HB b Hb).
    + intros a b Ha Hb.
      exact (notAfter_earlier gs Hnd done g todo a b Hgs (Hpre a Ha)
               (HB b Hb)).
  - intros t Hin Ht. apply in_app_or in Hin. destruct Hin as [Hin|Hin].
    + apply (Hpre t Hin). now right.
    + rewrite (HB t Hin) in Ht. rewrite Hgs in Hnd.
      apply NoDup_remove_2 in Hnd. apply Hnd, in_or_app. now right.
  - intros t Hin Ht. apply filter_In in Hin. destruct Hin as [Hin Hg].
    apply in_app_or in Ht. destruct Ht as [Ht|[Ht|[]]].
    + exact (Hrest t Hin Ht).
    + unfold Simulated.inGroup in Hg. apply negb_true_iff, Z.eqb_neq in Hg.
      congruence.
Qed.

(** When all groups are placed the whole row is in their order. *)
Lemma placed_all gs n row :
  GroupsPlaced gs gs [] n row -> StronglySorted (NotAfter gs) row.
Proof.
  intros (pre & rest & -> & _ & Hs & _ & Hrest).
  apply ssorted_app. split; [exact Hs|]. split.
  - apply ssorted_pairs. intros a b Ha _.
    exact (proj1 (notAfter_outside gs a b (Hrest a Ha))).
  - intros a b _ Hb. exact (proj2 (notAfter_outside gs b a (Hrest b Hb))).
Qed.

Section SimulatedLayout.
Context {P : Platform}.
Variable scope : list Tab.t -> Z -> Z -> Prog unit.
Hypothesis scope_cases : forall tabs i g,
  (tabs = [] /\ scope tabs i g = Ret tt)
  \/ (exists e, scope tabs i g = Throw e)
  \/ (exists ids, Permutation ids (map Tab.id tabs)
                  /\ scope tabs i g = moveThenGroup ids i g).

(** The move and the grouping of a block of the row whose tabs are in the
    group [g]: the block is rearranged where it stands. *)
Lemma moveThenGroup_block pre B rest ids g st :
  Simulated.tabs st = (pre ++ B ++ rest)%list ->
  Simulated.valid st ->
  Permutation ids (map Tab.id B) ->
  (forall t, In t B -> Tab.groupId t = g) ->
  ensures Simulated.browser
    (moveThenGroup ids (Z.of_nat (List.length pre)) g) st
    (fun st' _ o =>
       o = Normal tt /\ Simulated.valid st'
       /\ exists B',
            Simulated.tabs st' = (pre ++ B' ++ rest)%list
            /\ List.length B' = List.length B
            /\ forall t, In t B' -> Tab.groupId t = g).
Proof.
  intros Ht Hv Hp HB. run_open. unfold moveThenGroup.
  rewrite run_bind, run_await.
  destruct (move_block pre B rest ids st Ht (proj1 Hv) Hp)
    as (B' & Ht1 & Hlen & HB' & Hout).
  pose proof (pc_valid simulated_contract
                (tabs_move ids (Z.of_nat (List.length pre))) st Hv) as Hv1.
  assert (Ho1 : snd (respond Simulated.browser
                       (tabs_move ids (Z.of_nat (List.length pre))) st)
                = Normal tt) by reflexivity.
  destruct (respond Simulated.browser
              (tabs_move ids (Z.of_nat (List.length pre))) st) as [s1 r1].
  cbn [fst snd] in *. subst r1.
  assert (Hg' : forall t, In t B' -> Tab.groupId t = g).
  { intros t Hin. destruct (HB' t Hin) as (t0 & Hin0 & _ & ->).
    now apply HB. }
  destruct (g >? -1).
  - rewrite run_await.
    pose proof (pc_valid simulated_contract (tabs_group g ids) s1 Hv1)
      as Hv2.
    cbn [respond Simulated.browser Simulated.respond fst snd] in *.
    split; [reflexivity|]. split; [exact Hv2|].
    exists (map (fun t => if Simulated.mem (Tab.id t) ids
                          then Simulated.setFlags false g t else t) B').
    unfold Simulated.onTabs. cbn [Simulated.tabs].
    rewrite Ht1, !map_app. split; [|split].
    + f_equal; [|f_equal].
      * rewrite <- (map_id pre) at 2. apply map_ext_in. intros t Hin.
        now rewrite (Hout t (or_introl Hin)).
      * rewrite <- (map_id rest) at 2. apply map_ext_in. intros t Hin.
        now rewrite (Hout t (or_intror Hin)).
    + now rewrite length_map.
    + intros t Hin. apply in_map_iff in Hin.
      destruct Hin as (t0 & <- & Hin).
      destruct (Simulated.mem (Tab.id t0) ids); [reflexivity|now apply Hg'].
  - cbn [run fst snd]. split; [reflexivity|]. split; [exact Hv1|].
    exists B'. now repeat split.
Qed.

(** The scope sorter on a block of the row, as the query lists it. *)
Lemma scope_block pre B rest g st :
  Simulated.tabs st = (pre ++ B ++ rest)%list ->
  Simulated.valid st ->
  (forall t, In t B -> Tab.groupId t = g) ->
  ensures Simulated.browser
    (scope (Simulated.positionedFrom (Z.of_nat (List.length pre)) B)
       (Z.of_nat (List.length pre)) g) st
    (fun st' _ o =>
       Simulated.valid st'
       /\ (o = Normal tt ->
           exists B',
             Simulated.tabs st' = (pre ++ B' ++ rest)%list
             /\ List.length B' = List.length B
             /\ forall t, In t B' -> Tab.groupId t = g)).
Proof.
  intros Ht Hv HB.
  destruct (scope_cases
              (Simulated.positionedFrom (Z.of_nat (List.length pre)) B)
              (Z.of_nat (List.length pre)) g)
    as [[E ->]|[[e ->]|(ids & Hp & ->)]].
  - run_open. cbn [run fst snd]. split; [exact Hv|]. intros _.
    exists B. now repeat split.
  - run_open. cbn [run fst snd]. split; [exact Hv|discriminate].
  - rewrite positionedFrom_ids in Hp.
    eapply ensures_weaken;
      [exact (moveThenGroup_block pre B rest ids g st Ht Hv Hp HB)|].
    intros st' l o (_ & Hv' & H). split; [exact Hv'|]. intros _. exact H.
Qed.

Variable gs : list Z.
Hypothesis gs_nodup : NoDup gs.

(** The loop over the groups places them one after the other. *)
Lemma groupLoop_layout w sg : forall done n st,
  gs = (done ++ map TabGroup.id sg)%list ->
  Simulated.valid st ->
  GroupsPlaced gs done (map TabGroup.id sg) n (Simulated.tabs st) ->
  ensures Simulated.browser (groupLoopWith scope w sg n) st
    (fun st' _ o =>
       Simulated.valid st'
       /\ forall n', o = Normal n' ->
            GroupsPlaced gs gs [] n' (Simulated.tabs st')).
Proof.
  induction sg as [|g sg IH]; intros done n st Hgs Hv Hpl.
  - run_open. cbn [groupLoopWith run fst snd]. split; [exact Hv|].
    intros n' E. injection E as <-. simpl in Hgs. rewrite app_nil_r in Hgs.
    now subst done.
  - destruct Hpl as (pre & rest & Ht & Hn & Hs & Hpre & Hrest). subst n.
    cbn [map] in Hgs, Hpre.
    assert (Hpre_g : forall t, In t pre -> Tab.groupId t <> TabGroup.id g).
    { intros t Hin E. apply (Hpre t Hin). rewrite E. now left. }
    run_open. cbn [groupLoopWith]. rewrite run_bind, run_await.
    pose proof (move_group pre rest (TabGroup.id g) st Ht Hpre_g) as Ht1.
    pose proof (pc_valid simulated_contract
                  (tabGroups_move (TabGroup.id g)
                     (Z.of_nat (List.length pre))) st Hv) as Hv1.
    assert (Ho1 : snd (respond Simulated.browser
                         (tabGroups_move (TabGroup.id g)
                            (Z.of_nat (List.length pre))) st) = Normal tt)
      by reflexivity.
    destruct (respond Simulated.browser
                (tabGroups_move (TabGroup.id g)
                   (Z.of_nat (List.length pre))) st) as [s1 r1].
    cbn [fst snd] in *. subst r1.
    rewrite run_bind, run_await.
    set (B := filter (Simulated.inGroup (TabGroup.id g)) rest) in *.
    set (rest' := filter (fun t => negb (Simulated.inGroup (TabGroup.id g) t))
                    rest) in *.
    assert (HB : forall t, In t B -> Tab.groupId t = TabGroup.id g).
    { intros t Hin. apply filter_In in Hin. destruct Hin as [_ Hin].
      now apply Z.eqb_eq in Hin. }
    assert (Hrest' : forall t, In t rest' -> Tab.groupId t <> TabGroup.id g).
    { intros t Hin. apply filter_In in Hin. destruct Hin as [_ Hin].
      now apply negb_true_iff, Z.eqb_neq in Hin. }
    pose proof (query_block pre B rest' w (TabGroup.id g) s1 Ht1 Hpre_g HB
                  Hrest') as Hq.
    assert (Hs2 : fst (respond Simulated.browser
                         (tabs_query w None (Some (TabGroup.id g))) s1) = s1)
      by reflexivity.
    destruct (respond Simulated.browser
                (tabs_query w None (Some (TabGroup.id g))) s1) as [s2 r2].
    cbn [fst snd] in *. subst s2 r2. rewrite run_bind.
    set (n := Z.of_nat (List.length pre)) in *.
    assert (Hbody : exists s3 l3 o3,
              run Simulated.browser
                (match Simulated.positionedFrom n B with
                 | [] => Ret n
                 | _ :: _ =>
                     m <- lift (minIndex (Simulated.positionedFrom n B)) ;;
                     _ <- scope (Simulated.positionedFrom n B) m
                            (TabGroup.id g) ;;
                     Ret (n + Z.of_nat
                                (List.length (Simulated.positionedFrom n B)))
                 end) s1 = (s3, l3, o3)
              /\ Simulated.valid s3
              /\ forall n3, o3 = Normal n3 ->
                   GroupsPlaced gs (done ++ [TabGroup.id g])
                     (map TabGroup.id sg) n3 (Simulated.tabs s3)).
    { destruct B as [|b B0] eqn:EB.
      - exists s1, [], (Normal n). split; [reflexivity|].
        split; [exact Hv1|]. intros n3 E. injection E as <-. rewrite Ht1.
        pose proof (placed_step gs done (TabGroup.id g) (map TabGroup.id sg)
                      pre rest [] gs_nodup Hgs Hs Hpre Hrest) as H.
        rewrite app_nil_r in H. apply H. intros t [].
      - rewrite <- EB in *.
        assert (HneB : B <> []) by (rewrite EB; discriminate).
        assert (Hcons : exists a l, Simulated.positionedFrom n B = a :: l)
          by (rewrite EB; simpl; eauto).
        destruct Hcons as (a & l & Hcons). rewrite Hcons.
        rewrite <- Hcons. rewrite run_bind.
        rewrite (minIndex_positionedFrom B n HneB). cbn [lift run].
        rewrite run_bind.
        pose proof (scope_block pre B rest' (TabGroup.id g) s1 Ht1 Hv1 HB)
          as Hsc. run_open. fold n in Hsc.
        destruct (run Simulated.browser
                    (scope (Simulated.positionedFrom n B) n (TabGroup.id g))
                    s1) as [[s3 l3] [[]|e]]; cbn [fst snd] in Hsc;
          destruct Hsc as [Hv3 Hsc].
        + eexists. eexists. eexists. cbn [run]. split; [reflexivity|].
          split; [exact Hv3|]. intros n3 E. injection E as <-.
          destruct (Hsc eq_refl) as (B' & Ht3 & Hlen & HB').
          rewrite Ht3, positionedFrom_length, <- Hlen.
          replace (n + Z.of_nat (List.length B'))
            with (Z.of_nat (List.length (pre ++ B')))
            by (rewrite length_app; unfold n; lia).
          exact (placed_step gs done (TabGroup.id g) (map TabGroup.id sg)
                   pre rest B' gs_nodup Hgs Hs Hpre Hrest HB').
        + eexists. eexists. eexists. split; [reflexivity|].
          split; [exact Hv3|discriminate]. }
    destruct Hbody as (s3 & l3 & o3 & -> & Hv3 & Hpl3).
    destruct o3 as [n3|e]; [|split; [exact Hv3|discriminate]].
    assert (Hgs' : gs = ((done ++ [TabGroup.id g]) ++ map TabGroup.id sg)%list)
      by (rewrite <- app_assoc; exact Hgs).
    specialize (IH (done ++ [TabGroup.id g])%list n3 s3 Hgs' Hv3
                  (Hpl3 n3 eq_refl)).
    run_open.
    destruct (run Simulated.browser (groupLoopWith scope w sg n3) s3)
      as [[s4 l4] o4].
    cbn [fst snd] in *. exact IH.
Qed.
End SimulatedLayout.

(* ================================================================== *)
(** * The three blocks on the small browser *)
(* ================================================================== *)

(** The tabs that a move picks by the identifiers of an answer are the
    tabs of the row that the query asked for. *)
Lemma answer_picked p q ids st :
  Simulated.valid st ->
  Permutation ids
    (map Tab.id (filter (Simulated.matches p q) (Simulated.positioned st))) ->
  List.length (Simulated.pick ids (Simulated.tabs st))
  = List.length (filter (Simulated.matches p q) (Simulated.positioned st))
  /\ forall t, In t (Simulated.pick ids (Simulated.tabs st)) ->
       In t (Simulated.tabs st) /\ Simulated.matches p q t = true.
Proof.
  intros (Hnd & _) Hp.
  assert (Hans : forall x, In x ids ->
            exists t0, In t0 (Simulated.tabs st) /\ Tab.id t0 = x
                       /\ Simulated.matches p q t0 = true).
  { intros x Hx. apply (Permutation_in _ Hp), in_map_iff in Hx.
    destruct Hx as (a & <- & Ha). apply filter_In in Ha.
    destruct Ha as [Ha Hm].
    destruct (In_positionedFrom _ _ _ Ha) as (t0 & j & Hin & ->).
    exists t0. now repeat split. }
  split.
  - rewrite pick_length; [| |exact Hnd|].
    + now rewrite (Permutation_length Hp), length_map.
    + apply (Permutation_NoDup (Permutation_sym Hp)).
      apply NoDup_ids_filter. unfold Simulated.positioned.
      now rewrite positionedFrom_ids.
    + intros x Hx. destruct (Hans x Hx) as (t0 & Hin & <- & _).
      now apply in_map.
  - intros t Hin. apply In_pick in Hin. destruct Hin as [Hin Hid].
    split; [exact Hin|]. destruct (Hans _ Hid) as (t0 & Hin0 & E & Hm).
    now rewrite (NoDup_map_injective _ _ Tab.id _ t t0 Hnd Hin Hin0).
Qed.

(** A pin request leaves the front of the row loose. *)
Lemma update_front id n st :
  LooseFront n (Simulated.tabs st) ->
  LooseFront n
    (Simulated.tabs
       (fst (respond Simulated.browser (tabs_update id true) st))).
Proof.
  intros (pre & rest & Ht & Hn & Hpre).
  cbn [respond Simulated.browser Simulated.respond].
  destruct (Simulated.mem id (map Tab.id (Simulated.tabs st)));
    cbn [fst]; [|now exists pre, rest].
  unfold Simulated.onTabs. cbn [Simulated.tabs]. rewrite Ht, map_app.
  eexists. eexists. split; [reflexivity|].
  split; [now rewrite length_map|].
  intros t Hin. apply in_map_iff in Hin. destruct Hin as (t0 & <- & Hin).
  destruct (Simulated.mem (Tab.id t0) [id]); [reflexivity|now apply Hpre].
Qed.

Lemma sendAll_layout n tabs : forall failed st,
  Simulated.valid st -> LooseFront n (Simulated.tabs st) ->
  ensures Simulated.browser
    (sendAll (map (fun t => tabs_update (Tab.id t) true) tabs) failed) st
    (fun st' _ _ =>
       Simulated.valid st' /\ LooseFront n (Simulated.tabs st')).
Proof.
  induction tabs as [|tab tabs IH]; intros failed st Hv Hf; run_open.
  - cbn [map sendAll]. destruct failed; cbn [run fst snd]; now split.
  - cbn [map sendAll run].
    pose proof (pc_valid simulated_contract (tabs_update (Tab.id tab) true)
                  st Hv) as Hv1.
    pose proof (update_front (Tab.id tab) n st Hf) as Hf1.
    destruct (respond Simulated.browser (tabs_update (Tab.id tab) true) st)
      as [s1 r]; cbn [fst snd] in *.
    match goal with
    | |- context [sendAll _ ?f] => specialize (IH f s1 Hv1 Hf1)
    end.
    run_open.
    destruct (run Simulated.browser _ s1) as [[s2 l2] o2].
    exact IH.
Qed.

Lemma simulated_query w p q st :
  respond Simulated.browser (tabs_query w p q) st
  = (st, Normal (filter (Simulated.matches p q) (Simulated.positioned st))).
Proof. reflexivity. Qed.

Lemma moveThenGroup_loose ids i st :
  run Simulated.browser (moveThenGroup ids i (-1)) st
  = (fst (respond Simulated.browser (tabs_move ids i) st),
     [x_move ids i (Normal tt)], Normal tt).
Proof. reflexivity. Qed.

Section SimulatedPhases.
Context {P : Platform}.
Variable scope : list Tab.t -> Z -> Z -> Prog unit.
Hypothesis scope_cases : forall tabs i g,
  (tabs = [] /\ scope tabs i g = Ret tt)
  \/ (exists e, scope tabs i g = Throw e)
  \/ (exists ids, Permutation ids (map Tab.id tabs)
                  /\ scope tabs i g = moveThenGroup ids i g).

(** The block of the pinned tabs puts them in front, and they are in no
    group. *)
Lemma pinnedPhase_layout w st :
  Simulated.valid st ->
  ensures Simulated.browser (pinnedPhaseWith scope w) st
    (fun st' _ o =>
       Simulated.valid st'
       /\ forall n, o = Normal n -> LooseFront n (Simulated.tabs st')).
Proof.
  intros Hv. run_open. unfold pinnedPhaseWith.
  rewrite run_bind, run_await, simulated_query. cbn [fst snd].
  set (tabs := filter (Simulated.matches (Some true) None)
                 (Simulated.positioned st)).
  rewrite run_bind.
  assert (Hloose : forall t, In t (Simulated.tabs st) ->
            Simulated.matches (Some true) None t = true ->
            Tab.groupId t = -1).
  { intros t Hin Hm. apply (proj1 (proj2 Hv) t Hin).
    unfold Simulated.matches in Hm. rewrite andb_true_r in Hm.
    now apply eqb_prop in Hm. }
  destruct tabs as [|first tabs0] eqn:Et.
  { cbn [run fst snd app List.length]. split; [exact Hv|].
    intros n E. injection E as <-. exists [], (Simulated.tabs st).
    now repeat split. }
  rewrite <- Et. rewrite run_bind.
  assert (Hfirst : Tab.groupId first = -1).
  { assert (Hin : In first tabs) by (rewrite Et; now left).
    apply filter_In in Hin. destruct Hin as [Hin Hm].
    destruct (In_positionedFrom _ _ _ Hin) as (t0 & j & Hin0 & ->).
    exact (Hloose t0 Hin0 Hm). }
  rewrite Hfirst.
  destruct (scope_cases tabs 0 (-1))
    as [[E _]|[[e ->]|(ids & Hp & ->)]].
  - rewrite Et in E. discriminate.
  - cbn [run fst snd]. split; [exact Hv|discriminate].
  - rewrite moveThenGroup_loose.
    pose proof (pc_valid simulated_contract (tabs_move ids 0) st Hv) as Hv1.
    destruct (answer_picked (Some true) None ids st Hv Hp) as [Hlen Hpick].
    assert (Hf1 : LooseFront (Z.of_nat (List.length tabs))
                    (Simulated.tabs
                       (fst (respond Simulated.browser (tabs_move ids 0)
                               st)))).
    { cbn [respond Simulated.browser Simulated.respond fst Simulated.tabs].
      unfold Simulated.relocate. cbn [Z.to_nat firstn skipn app].
      eexists. eexists. split; [reflexivity|].
      split; [now rewrite length_map, Hlen|].
      intros t Hin. apply in_map_iff in Hin.
      destruct Hin as (t0 & <- & Hin). destruct (Hpick t0 Hin) as [Hin0 Hm].
      exact (Hloose t0 Hin0 Hm). }
    destruct (respond Simulated.browser (tabs_move ids 0) st) as [s1 r1].
    cbn [fst snd] in *. unfold Promise_all.
    pose proof (sendAll_layout (Z.of_nat (List.length tabs)) tabs None s1
                  Hv1 Hf1) as Ha.
    run_open.
    destruct (run Simulated.browser
                (sendAll (map (fun t => tabs_update (Tab.id t) true) tabs)
                   None) s1) as [[s2 l2] [[]|e]];
      cbn [fst snd run] in *; destruct Ha as [Hv2 Hf2].
    + split; [exact Hv2|]. intros n E. now injection E as <-.
    + split; [exact Hv2|discriminate].
Qed.

Variable gs : list Z.
Hypothesis gs_nodup : NoDup gs.
Hypothesis gs_groups : ~ In (-1) gs.

(** The block of the remaining tabs leaves the groups in their order. *)
Lemma ungroupedPhase_layout w st :
  Simulated.valid st ->
  StronglySorted (NotAfter gs) (Simulated.tabs st) ->
  ensures Simulated.browser (ungroupedPhaseWith scope w) st
    (fun st' _ _ => StronglySorted (NotAfter gs) (Simulated.tabs st')).
Proof.
  intros Hv Hs. run_open. unfold ungroupedPhaseWith.
  rewrite run_bind, run_await, simulated_query. cbn [fst snd].
  set (tabs := filter (Simulated.matches (Some false) (Some (-1)))
                 (Simulated.positioned st)).
  destruct tabs as [|t0 tabs0] eqn:Et; [exact Hs|]. rewrite <- Et.
  rewrite run_bind.
  assert (Hm : exists m, minIndex tabs = Normal m)
    by (rewrite Et; simpl; eauto).
  destruct Hm as [m ->]. cbn [lift run].
  destruct (scope_cases tabs m (-1)) as [[E _]|[[e ->]|(ids & Hp & ->)]].
  - rewrite Et in E. discriminate.
  - exact Hs.
  - rewrite moveThenGroup_loose. cbn [fst snd].
    destruct (answer_picked (Some false) (Some (-1)) ids st Hv Hp)
      as [_ Hpick].
    cbn [respond Simulated.browser Simulated.respond fst Simulated.tabs].
    unfold Simulated.relocate. apply ssorted_insert.
    + intros x y Hin. apply notAfter_outside.
      apply in_map_iff in Hin. destruct Hin as (x0 & <- & Hin).
      destruct (Hpick x0 Hin) as [_ Hm]. unfold Simulated.matches in Hm.
      apply andb_true_iff in Hm. destruct Hm as [_ Hm].
      apply Z.eqb_eq in Hm. cbn [Simulated.unpin Simulated.setFlags
                                 Tab.groupId].
      now rewrite Hm.
    + rewrite firstn_skipn. now apply ssorted_filter.
Qed.

(** A fulfilled run on the small browser leaves the tabs of the groups in
    the order [gs] of the sorted groups. *)
Lemma sortAllTabsWith_layout st :
  Simulated.valid st ->
  gs = map TabGroup.id (Array_sort compareGroups (Simulated.groups st)) ->
  ensures Simulated.browser (sortAllTabsWith scope) st
    (fun st' _ o =>
       o = Normal tt -> StronglySorted (NotAfter gs) (Simulated.tabs st')).
Proof.
  intros Hv Hgs. run_open. unfold sortAllTabsWith.
  rewrite run_bind, run_await.
  change (respond Simulated.browser windows_getLastFocused st)
    with (st, Normal 1).
  cbn [fst snd]. rewrite run_bind.
  pose proof (pinnedPhase_layout 1 st Hv) as Hp.
  pose proof (simulated_run_groups _ (pinnedPhaseWith scope 1) st) as Hg.
  run_open.
  destruct (run Simulated.browser (pinnedPhaseWith scope 1) st)
    as [[s2 l2] [n|e]]; cbn [fst snd] in *; [|discriminate].
  destruct Hp as [Hv2 Hf2]. specialize (Hf2 n eq_refl).
  rewrite run_bind. unfold groupsPhaseWith. rewrite run_bind, run_await.
  change (respond Simulated.browser (tabGroups_query 1) s2)
    with (s2, Normal (Simulated.groups s2)).
  cbn [fst snd]. rewrite Hg.
  assert (Hpl : GroupsPlaced gs []
                  (map TabGroup.id
                     (Array_sort compareGroups (Simulated.groups st)))
                  n (Simulated.tabs s2)).
  { destruct Hf2 as (pre & rest & Ht & Hn & Hpre).
    exists pre, rest. split; [exact Ht|]. split; [exact Hn|].
    rewrite <- Hgs.
    assert (Hout : forall t, In t pre -> ~ In (Tab.groupId t) gs)
      by (intros t Hin; now rewrite (Hpre t Hin)).
    split; [|split; [exact Hout|intros t _ []]].
    apply ssorted_pairs. intros a b Ha _.
    exact (proj1 (notAfter_outside gs a b (Hout a Ha))). }
  pose proof (groupLoop_layout scope scope_cases gs gs_nodup 1
                (Array_sort compareGroups (Simulated.groups st)) [] n s2
                Hgs Hv2 Hpl) as Hl.
  run_open.
  destruct (run Simulated.browser
              (groupLoopWith scope 1
                 (Array_sort compareGroups (Simulated.groups st)) n) s2)
    as [[s4 l4] [n4|e]]; cbn [fst snd] in *; [|discriminate].
  destruct Hl as [Hv4 Hpl4].
  pose proof (ungroupedPhase_layout 1 s4 Hv4
                (placed_all gs n4 _ (Hpl4 n4 eq_refl))) as Hu.
  run_open.
  destruct (run Simulated.browser (ungroupedPhaseWith scope 1) s4)
    as [[s5 l5] o5].
  cbn [fst snd] in *. intros _. exact Hu.
Qed.
End SimulatedPhases.

(* ================================================================== *)
(** * The claim on the order of the groups *)
(* ================================================================== *)

Section OrchestratorGroupMoves.
Context {P : Platform} {S : Type} (h : Host S).
Variable scope : list Tab.t -> Z -> Z -> Prog unit.
Hypothesis scope_cases : forall tabs i g,
  (tabs = [] /\ scope tabs i g = Ret tt)
  \/ (exists e, scope tabs i g = Throw e)
  \/ (exists ids, Permutation ids (map Tab.id tabs)
                  /\ scope tabs i g = moveThenGroup ids i g).

(** A fulfilled run moves the groups that the browser listed, in their
    sorted order. *)
Lemma sortAllTabsWith_group_moves s :
  ensures h (sortAllTabsWith scope) s
    (fun _ l o =>
       o = Normal tt ->
       exists w groups,
         In (x_groups_query w (Normal groups)) l
         /\ map fst (groupMovesOf l)
            = map TabGroup.id (Array_sort compareGroups groups)).
Proof.
  run_open. unfold sortAllTabsWith. rewrite run_bind, run_await.
  destruct (respond h windows_getLastFocused s) as [s1 [w|e]];
    cbn [fst snd exchange]; [|discriminate].
  rewrite run_bind.
  pose proof (pinnedPhase_log h scope scope_cases w s1) as Hp. run_open.
  cbv zeta in Hp.
  destruct (run h (pinnedPhaseWith scope w) s1) as [[s2 l2] [n|e]];
    cbn [fst snd] in *; [|discriminate].
  destruct Hp as (l' & -> & Hg2 & _).
  rewrite run_bind. unfold groupsPhaseWith. rewrite run_bind, run_await.
  destruct (respond h (tabGroups_query w) s2) as [s3 [groups|e]];
    cbn [fst snd exchange]; [|discriminate].
  pose proof (groupLoop_log h scope scope_cases w
                (Array_sort compareGroups groups) n s3) as Hg. run_open.
  destruct (run h (groupLoopWith scope w (Array_sort compareGroups groups) n)
              s3) as [[s4 l4] [n4|e]]; cbn [fst snd] in *; [|discriminate].
  destruct Hg as (_ & _ & Hg4 & _). destruct (Hg4 n4 eq_refl) as [_ Hg4'].
  pose proof (ungroupedPhase_log h scope scope_cases w s4) as Hu. run_open.
  destruct (run h (ungroupedPhaseWith scope w) s4) as [[s5 l5] o5].
  cbn [fst snd] in *. destruct Hu as (_ & Hg5).
  intros _. exists w, groups. split.
  - right. right. apply in_or_app. right. apply in_or_app. left. now left.
  - cbn [groupMovesOf flat_map app].
    change (flat_map _ ?l) with (groupMovesOf l).
    rewrite !groupMovesOf_app, Hg2. cbn [groupMovesOf flat_map app].
    change (flat_map _ ?l) with (groupMovesOf l).
    now rewrite groupMovesOf_app, Hg5, app_nil_r.
Qed.
End OrchestratorGroupMoves.

(** In the row of the small browser after a fulfilled run, a tab of a
    group stands left of every tab of a group whose title collates below. *)
Lemma layout_by_title {P : Platform} (Collation : Consistent localeCompare)
    (groups : list TabGroup.t) (row : list Tab.t) :
  NoDup (map TabGroup.id groups) ->
  StronglySorted
    (NotAfter (map TabGroup.id (Array_sort compareGroups groups))) row ->
  forall ga gb i j a b,
    In ga groups -> In gb groups ->
    localeCompare (titleOrEmpty gb) (titleOrEmpty ga) < 0 ->
    nth_error row i = Some a -> Tab.groupId a = TabGroup.id ga ->
    nth_error row j = Some b -> Tab.groupId b = TabGroup.id gb ->
    (i < j)%nat.
Proof.
  intros Hnd Hs ga gb i j a b Hga Hgb Hlt Hi Ha Hj Hb.
  assert (Hne : ga <> gb).
  { intros ->. rewrite (cmp_refl Collation) in Hlt. lia. }
  destruct (Nat.lt_trichotomy i j) as [H|[H|H]]; [exact H| |]; exfalso.
  - subst j. rewrite Hi in Hj. injection Hj as <-. apply Hne.
    apply (NoDup_map_injective _ _ TabGroup.id groups ga gb Hnd Hga Hgb).
    congruence.
  - pose proof (ssorted_nth _ row j i b a Hs H Hj Hi) as Hn.
    pose proof (compareGroups_consistent Collation) as Hc.
    pose proof (Array_sort_sorted _ _ Hc groups) as Hsorted.
    assert (Hga' : In ga (Array_sort compareGroups groups))
      by now apply Array_sort_in.
    assert (Hgb' : In gb (Array_sort compareGroups groups))
      by now apply Array_sort_in.
    destruct (in_split _ _ Hga') as (s1 & s2 & Hsplit).
    rewrite Hsplit in Hgb', Hsorted.
    apply in_app_or in Hgb'. destruct Hgb' as [Hin|[E|Hin]].
    + apply ssorted_app in Hsorted. destruct Hsorted as (_ & _ & Hcross).
      specialize (Hcross gb ga Hin (or_introl eq_refl)).
      unfold cmpLe, compareGroups in Hcross.
      pose proof (cmp_antisym Collation (titleOrEmpty ga) (titleOrEmpty gb)).
      lia.
    + now apply Hne.
    + apply (Hn (map TabGroup.id s1) (map TabGroup.id s2)).
      * now rewrite Hsplit, map_app, Ha.
      * rewrite Hb. now apply in_map.
Qed.

(** C5.  The orchestrator sorts the tab groups with the comparator
    [(a, b) => (b.title || "").localeCompare(a.title || "")]: the sorted
    list is a rearrangement of the groups in which the title of a group
    never collates below the title of a later one, a missing or empty title
    counting as the empty string.  Two groups titled [Work] and [Shopping]
    come out as [Work], then [Shopping], on a platform that collates
    [Shopping] before [Work].  A fulfilled run of [sortAllTabs], of either
    variant and against any browser, moves the groups that the browser
    listed, in this order.  Against the small browser, in the row of tabs
    that a fulfilled run of [sortAllTabs] leaves, every tab of a group
    stands left of every tab of a group whose title collates below: the
    tabs of [Work] left of the tabs of [Shopping]. *)
Theorem group_order {P : Platform} (Collation : Consistent localeCompare)
    (sortAllTabs : Prog unit) (Hv : EitherVariant sortAllTabs) :
  (forall groups,
     Permutation (Array_sort compareGroups groups) groups
     /\ Ordered (fun a b => 0 <= localeCompare (titleOrEmpty a)
                                  (titleOrEmpty b))
          (Array_sort compareGroups groups))
  /\ (forall g, TabGroup.title g = None \/ TabGroup.title g = Some "" ->
        titleOrEmpty g = "")
  /\ (forall work shopping groups,
        TabGroup.title work = Some "Work" ->
        TabGroup.title shopping = Some "Shopping" ->
        localeCompare "Shopping" "Work" < 0 ->
        groups = [work; shopping] \/ groups = [shopping; work] ->
        Array_sort compareGroups groups = [work; shopping])
  /\ (forall (S : Type) (h : Host S) (s : S),
        outcomeOf h sortAllTabs s = Normal tt ->
        exists w groups,
          In (x_groups_query w (Normal groups)) (logOf h sortAllTabs s)
          /\ map fst (groupMovesOf (logOf h sortAllTabs s))
             = map TabGroup.id (Array_sort compareGroups groups))
  /\ (forall st,
        Simulated.valid st ->
        NoDup (map TabGroup.id (Simulated.groups st)) ->
        outcomeOf Simulated.browser sortAllTabs st = Normal tt ->
        forall ga gb i j a b,
          In ga (Simulated.groups st) -> In gb (Simulated.groups st) ->
          localeCompare (titleOrEmpty gb) (titleOrEmpty ga) < 0 ->
          nth_error
            (Simulated.tabs (finalState Simulated.browser sortAllTabs st)) i
          = Some a ->
          Tab.groupId a = TabGroup.id ga ->
          nth_error
            (Simulated.tabs (finalState Simulated.browser sortAllTabs st)) j
          = Some b ->
          Tab.groupId b = TabGroup.id gb ->
          (i < j)%nat)
  /\ (forall st work shopping,
        Simulated.valid st ->
        NoDup (map TabGroup.id (Simulated.groups st)) ->
        In work (Simulated.groups st) -> In shopping (Simulated.groups st) ->
        TabGroup.title work = Some "Work" ->
        TabGroup.title shopping = Some "Shopping" ->
        localeCompare "Shopping" "Work" < 0 ->
        outcomeOf Simulated.browser sortAllTabs st = Normal tt ->
        forall i j a b,
          nth_error
            (Simulated.tabs (finalState Simulated.browser sortAllTabs st)) i
          = Some a ->
          Tab.groupId a = TabGroup.id work ->
          nth_error
            (Simulated.tabs (finalState Simulated.browser sortAllTabs st)) j
          = Some b ->
          Tab.groupId b = TabGroup.id shopping ->
          (i < j)%nat).
Proof.
  pose proof (compareGroups_consistent Collation) as Hc.
  assert (Hlayout : forall st,
            Simulated.valid st ->
            NoDup (map TabGroup.id (Simulated.groups st)) ->
            outcomeOf Simulated.browser sortAllTabs st = Normal tt ->
            StronglySorted
              (NotAfter (map TabGroup.id
                           (Array_sort compareGroups (Simulated.groups st))))
              (Simulated.tabs (finalState Simulated.browser sortAllTabs st))).
  { intros st Hvalid Hnd.
    assert (Hnd' : NoDup (map TabGroup.id
                            (Array_sort compareGroups (Simulated.groups st)))).
    { eapply Permutation_NoDup; [|exact Hnd].
      apply Permutation_map, Permutation_sym, Array_sort_perm. }
    assert (Hout : ~ In (-1) (map TabGroup.id
                                (Array_sort compareGroups
                                   (Simulated.groups st)))).
    { intros Hin. apply in_map_iff in Hin. destruct Hin as (g & E & Hin).
      apply Array_sort_in in Hin.
      exact (proj2 (proj2 Hvalid) g Hin E). }
    destruct Hv as [-> | ->].
    - unfold outcomeOf, finalState. rewrite background_sortAllTabs.
      exact (sortAllTabsWith_layout Background.sortTabsScope
               background_scope_cases _ Hnd' Hout st Hvalid eq_refl).
    - rewrite part000_sortAllTabs.
      exact (sortAllTabsWith_layout Part000.sortTabsScope
               part000_scope_cases _ Hnd' Hout st Hvalid eq_refl). }
  split; [|split; [|split; [|split; [|split]]]].
  - intros groups. split; [apply Array_sort_perm|].
    pose proof (sorted_ordered _ _ _ (Array_sort_sorted _ _ Hc groups)) as Ho.
    intros i j a b Hij Hi Hj. specialize (Ho i j a b Hij Hi Hj).
    unfold cmpLe, compareGroups in Ho.
    pose proof (cmp_antisym Collation (titleOrEmpty a) (titleOrEmpty b)).
    lia.
  - intros g [H|H]; unfold titleOrEmpty; now rewrite H.
  - intros work shopping groups Hw Hs Hlt Hg.
    pose proof (cmp_antisym Collation "Shopping" "Work") as Ha.
    destruct Hg as [-> | ->]; simpl; unfold compareGroups, titleOrEmpty;
      rewrite Hw, Hs.
    + destruct (Z.ltb_spec 0 (localeCompare "Shopping" "Work"));
        [lia|reflexivity].
    + destruct (Z.ltb_spec 0 (localeCompare "Work" "Shopping"));
        [reflexivity|lia].
  - intros S h s. destruct Hv as [-> | ->].
    + unfold outcomeOf, logOf. rewrite background_sortAllTabs.
      exact (sortAllTabsWith_group_moves h Background.sortTabsScope
               background_scope_cases s).
    + rewrite part000_sortAllTabs.
      exact (sortAllTabsWith_group_moves h Part000.sortTabsScope
               part000_scope_cases s).
  - intros st Hvalid Hnd Ho.
    exact (layout_by_title Collation (Simulated.groups st) _ Hnd
             (Hlayout st Hvalid Hnd Ho)).
  - intros st work shopping Hvalid Hnd Hw Hs Htw Hts Hlt Ho i j a b.
    apply (layout_by_title Collation (Simulated.groups st) _ Hnd
             (Hlayout st Hvalid Hnd Ho) work shopping i j a b Hw Hs).
    unfold titleOrEmpty. now rewrite Htw, Hts.
Qed.

(* ================================================================== *)
(** * The claim on the pinned tabs *)
(* ================================================================== *)

Section OrchestratorRepins.
Context {P : Platform} {S : Type} (h : Host S).
Variable scope : list Tab.t -> Z -> Z -> Prog unit.
Hypothesis scope_cases : forall tabs i g,
  (tabs = [] /\ scope tabs i g = Ret tt)
  \/ (exists e, scope tabs i g = Throw e)
  \/ (exists ids, Permutation ids (map Tab.id tabs)
                  /\ scope tabs i g = moveThenGroup ids i g).

(** The log of a fulfilled run: the window, the query for the pinned tabs
    and, when it lists any, their move, the grouping if any, and the pin
    requests, one for every tab listed; no other pin request. *)
Lemma sortAllTabsWith_repins s :
  ensures h (sortAllTabsWith scope) s
    (fun _ l o =>
       o = Normal tt ->
       exists w tabs rest,
         l = x_getLastFocused (Normal w)
             :: x_query w (Some true) None (Normal tabs) :: rest
         /\ (tabs = [] -> updatesOf rest = [])
         /\ (tabs <> [] ->
             exists ids grouping tail,
               rest = (x_move ids 0 (Normal tt)
                       :: grouping
                       ++ map (fun t => x_update (Tab.id t) true (Normal tt))
                            tabs
                       ++ tail)%list
               /\ Permutation ids (map Tab.id tabs)
               /\ updatesOf grouping = [] /\ movesOf grouping = []
               /\ updatesOf tail = [])).
Proof.
  run_open. unfold sortAllTabsWith. rewrite run_bind, run_await.
  destruct (respond h windows_getLastFocused s) as [s1 [w|e]];
    cbn [fst snd exchange]; [|discriminate].
  rewrite run_bind.
  pose proof (pinnedPhase_log h scope scope_cases w s1) as Hp. run_open.
  cbv zeta in Hp.
  destruct (run h (pinnedPhaseWith scope w) s1) as [[s2 l2] [n|e]];
    cbn [fst snd] in *; [|discriminate].
  destruct Hp as (l' & -> & _ & Hup & Hn).
  destruct (Hn n eq_refl) as (tabs & Hans & _ & Hl). rewrite Hans in *.
  rewrite run_bind. unfold groupsPhaseWith. rewrite run_bind, run_await.
  destruct (respond h (tabGroups_query w) s2) as [s3 [groups|e]];
    cbn [fst snd exchange]; [|discriminate].
  pose proof (groupLoop_log h scope scope_cases w
                (Array_sort compareGroups groups) n s3) as Hg. run_open.
  destruct (run h (groupLoopWith scope w (Array_sort compareGroups groups) n)
              s3) as [[s4 l4] [n4|e]]; cbn [fst snd] in *; [|discriminate].
  destruct Hg as (Hu4 & _).
  pose proof (ungroupedPhase_log h scope scope_cases w s4) as Hu. run_open.
  destruct (run h (ungroupedPhaseWith scope w) s4) as [[s5 l5] o5].
  cbn [fst snd] in *. destruct Hu as (Hu5 & _).
  intros _. exists w, tabs.
  exists (l' ++ (x_groups_query w (Normal groups) :: l4) ++ l5)%list.
  split; [reflexivity|].
  assert (Htail : updatesOf ((x_groups_query w (Normal groups) :: l4) ++ l5)
                  = []).
  { rewrite updatesOf_app. simpl. now rewrite Hu4, Hu5. }
  split.
  - intros ->. rewrite updatesOf_app, Htail, app_nil_r.
    destruct (updatesOf l') as [|[t b] us] eqn:E; [reflexivity|].
    destruct (Hup t b (or_introl eq_refl))
      as (_ & tabs' & tab & Ht & Hin' & _).
    injection Ht as <-. contradiction.
  - intros Hne. destruct (Hl Hne) as (ids & grouping & -> & Hperm & Hr).
    exists ids, grouping,
      ((x_groups_query w (Normal groups) :: l4) ++ l5)%list.
    split; [simpl; now rewrite <- !app_assoc|]. tauto.
Qed.
End OrchestratorRepins.

(** C8.  Of [sortAllTabs] of either variant.  In a fulfilled run, against
    any browser, the log begins with the window and the query for the
    pinned tabs; when the query lists no tab the run sends no pin request,
    and when it lists some, the run moves a permutation of them to position
    0, sends the grouping if any, and then re-asserts the flag with one
    fulfilled [update(id, {pinned: true})] for every tab listed, in the
    order of the answer, and sends no other pin request.  In every run each
    [update] request sets [pinned: true] on a tab that the query for pinned
    tabs has listed.  Against a browser that keeps the contract
    [PinContract], where a move may unpin the tabs it moves, a fulfilled
    run leaves every tab pinned or unpinned as it was, and no run, fulfilled
    or failed, pins a tab that was not pinned. *)
Theorem pinned_preserved {P : Platform} (sortAllTabs : Prog unit)
    (Hv : EitherVariant sortAllTabs) :
  (forall (S : Type) (h : Host S) (s : S),
     outcomeOf h sortAllTabs s = Normal tt ->
     exists w tabs rest,
       logOf h sortAllTabs s
       = x_getLastFocused (Normal w)
         :: x_query w (Some true) None (Normal tabs) :: rest
       /\ (tabs = [] -> updatesOf rest = [])
       /\ (tabs <> [] ->
           exists ids grouping tail,
             rest = (x_move ids 0 (Normal tt)
                     :: grouping
                     ++ map (fun t => x_update (Tab.id t) true (Normal tt))
                          tabs
                     ++ tail)%list
             /\ Permutation ids (map Tab.id tabs)
             /\ updatesOf grouping = [] /\ movesOf grouping = []
             /\ updatesOf tail = []))
  /\ (forall (S : Type) (h : Host S) (s : S) t b,
        In (t, b) (updatesOf (logOf h sortAllTabs s)) ->
        b = true
        /\ exists w tabs tab,
             In (x_query w (Some true) None (Normal tabs))
                (logOf h sortAllTabs s)
             /\ In tab tabs /\ Tab.id tab = t)
  /\ (forall (S : Type) (h : Host S) (valid : S -> Prop)
             (isPinned : S -> Z -> bool),
        PinContract h valid isPinned ->
        forall s, valid s ->
          (outcomeOf h sortAllTabs s = Normal tt ->
           forall t,
             isPinned (finalState h sortAllTabs s) t = isPinned s t)
          /\ (forall t,
                isPinned (finalState h sortAllTabs s) t = true ->
                isPinned s t = true)).
Proof.
  split; [|split].
  - intros S h s. destruct Hv as [-> | ->].
    + unfold outcomeOf, logOf. rewrite background_sortAllTabs.
      exact (sortAllTabsWith_repins h Background.sortTabsScope
               background_scope_cases s).
    + rewrite part000_sortAllTabs.
      exact (sortAllTabsWith_repins h Part000.sortTabsScope
               part000_scope_cases s).
  - intros S h s t b. destruct Hv as [-> | ->].
    + unfold logOf. rewrite background_sortAllTabs.
      exact (sortAllTabsWith_updates h Background.sortTabsScope
               background_scope_cases s t b).
    + rewrite part000_sortAllTabs.
      exact (sortAllTabsWith_updates h Part000.sortTabsScope
               part000_scope_cases s t b).
  - intros S h valid isPinned Contract s Hs. destruct Hv as [-> | ->].
    + unfold outcomeOf, finalState. rewrite background_sortAllTabs. split.
      * exact (sortAllTabsWith_pins h valid isPinned Contract
                 Background.sortTabsScope background_scope_cases s Hs).
      * exact (sortAllTabsWith_pins_only h valid isPinned Contract
                 Background.sortTabsScope background_scope_cases s Hs).
    + rewrite part000_sortAllTabs. split.
      * exact (sortAllTabsWith_pins h valid isPinned Contract
                 Part000.sortTabsScope part000_scope_cases s Hs).
      * exact (sortAllTabsWith_pins_only h valid isPinned Contract
                 Part000.sortTabsScope part000_scope_cases s Hs).
Qed.

(* ================================================================== *)
(** * More theorems at work on the reference platform *)
(* ================================================================== *)

(** X2 on two tabs given in reverse order: the reversed array of
    decorations is sorted, so it is the output of the sort. *)
Lemma comparator_total_witness :
  let tabs := [Reference.tab 1 "https://other.com/x";
               Reference.tab 2 "https://example.com/b"] in
  Consistent Reference.localeCompare
  /\ Consistent (Background.compareDecorated (P := Reference.platform))
  /\ exists ds,
       Background.decorate (P := Reference.platform) tabs = Normal ds
       /\ Permutation ds (rev ds)
       /\ StronglySorted
            (cmpLe (Background.compareDecorated (P := Reference.platform)))
            (rev ds)
       /\ rev ds
          = Array_sort (Background.compareDecorated (P := Reference.platform))
              ds.
Proof.
  intros tabs. split; [exact reference_collation|].
  destruct (comparator_total (P := Reference.platform) reference_collation
              tabs) as [[Hc Hu] _].
  split; [exact Hc|]. eexists. split; [reflexivity|].
  assert (Hp : Permutation
                 [Background.mkDecorated 1 0 "other.com" "other.com/x";
                  Background.mkDecorated 2 1 "example.com" "example.com/b"]
                 [Background.mkDecorated 2 1 "example.com" "example.com/b";
                  Background.mkDecorated 1 0 "other.com" "other.com/x"])
    by apply perm_swap.
  assert (Hs : StronglySorted
                 (cmpLe (Background.compareDecorated (P := Reference.platform)))
                 [Background.mkDecorated 2 1 "example.com" "example.com/b";
                  Background.mkDecorated 1 0 "other.com" "other.com/x"]).
  { repeat constructor. unfold cmpLe. vm_compute. discriminate. }
  split; [exact Hp|]. split; [exact Hs|].
  exact (proj2 (Hu _ eq_refl) _ Hp Hs).
Defined.

(** X3 on two tabs: the second array differs in every field but the
    identifiers and the effective addresses. *)
Lemma sorted_by_address_only_witness :
  let tabs := [Tab.mk 1 "https://b.example/" None 0 false (-1);
               Tab.mk 2 "https://old.example/" (Some "https://a.example/") 1
                 false (-1)] in
  let tabs' := [Tab.mk 1 "https://b.example/" (Some "") 7 true 3;
                Tab.mk 2 "https://a.example/" None 2 false 5] in
  map addressed tabs = map addressed tabs'
  /\ Background.sortedIds (P := Reference.platform) tabs = Normal [2; 1]
  /\ Background.sortedIds (P := Reference.platform) tabs
     = Background.sortedIds (P := Reference.platform) tabs'.
Proof.
  intros tabs tabs'.
  assert (H : map addressed tabs = map addressed tabs') by reflexivity.
  split; [exact H|]. split; [reflexivity|].
  exact (proj1 (sorted_by_address_only (P := Reference.platform) tabs tabs'
                  H)).
Defined.

(** X4 on four tabs, three of them of one site. *)
Lemma buckets_stand_together_witness :
  let tabs := [Reference.tab 1 "https://example.com/c";
               Reference.tab 2 "https://other.com/x";
               Reference.tab 3 "https://www.example.com/b";
               Reference.tab 4 "https://example.com/a"] in
  Consistent Reference.localeCompare
  /\ (0 < 1 < 2)%nat
  /\ exists ds a c b,
       Background.decorate (P := Reference.platform) tabs = Normal ds
       /\ nth_error
            (Array_sort (Background.compareDecorated (P := Reference.platform))
               ds) 0 = Some a
       /\ nth_error
            (Array_sort (Background.compareDecorated (P := Reference.platform))
               ds) 1 = Some c
       /\ nth_error
            (Array_sort (Background.compareDecorated (P := Reference.platform))
               ds) 2 = Some b
       /\ Reference.localeCompare (Background.hostname a)
            (Background.hostname b) = 0
       /\ Reference.localeCompare (Background.hostname a)
            (Background.hostname c) = 0.
Proof.
  intros tabs. split; [exact reference_collation|].
  assert (H : (0 < 1 < 2)%nat) by lia. split; [exact H|].
  eexists. eexists. eexists. eexists.
  split; [reflexivity|]. split; [reflexivity|]. split; [reflexivity|].
  split; [reflexivity|]. split; [reflexivity|].
  exact (proj1 (proj1 (buckets_stand_together (P := Reference.platform)
                         reference_collation tabs 0 1 2 H)
                  _ _ _ _ eq_refl eq_refl eq_refl eq_refl eq_refl)).
Defined.

(** X5 on three tabs and the same tabs in reverse order. *)
Lemma answer_order_irrelevant_witness :
  let tabs := [Tab.mk 1 "https://other.com/x" None 4 false (-1);
               Tab.mk 2 "https://example.com/b" None 5 false (-1);
               Tab.mk 3 "https://www.example.com/a" None 6 false (-1)] in
  Consistent Reference.localeCompare
  /\ Permutation tabs (rev tabs)
  /\ minIndex tabs = minIndex (rev tabs)
  /\ Background.sortedIds (P := Reference.platform) tabs = Normal [3; 2; 1]
  /\ Background.sortedIds (P := Reference.platform) tabs
     = Background.sortedIds (P := Reference.platform) (rev tabs).
Proof.
  intros tabs. split; [exact reference_collation|].
  assert (Hp : Permutation tabs (rev tabs)) by apply Permutation_rev.
  split; [exact Hp|].
  destruct (answer_order_irrelevant (P := Reference.platform)
              reference_collation tabs (rev tabs) Hp) as (Hm & HB & _).
  split; [exact Hm|]. split; [reflexivity|]. apply HB.
  intros a b da db Ha Hb Hda Hdb.
  destruct Ha as [<-|[<-|[<-|[]]]]; destruct Hb as [<-|[<-|[<-|[]]]];
    injection Hda as <-; injection Hdb as <-; try reflexivity;
    vm_compute; discriminate.
Defined.

(** X6 on a scope with an extension address that does not parse. *)
Lemma part000_throws_exactly_witness :
  let bad := Reference.tab 2 "chrome-extension://abc:xyz/page.html" in
  let tabs := [Reference.tab 1 "https://example.com/"; bad] in
  URLParser Reference.URL_parse
  /\ In bad tabs
  /\ startsWith (effectiveAddress bad) "chrome-extension://" = true
  /\ Reference.URL_parse (effectiveAddress bad) = None
  /\ Part000.sortedIds (P := Reference.platform) tabs = Throws TypeError
  /\ Part000.sortTabsScope (P := Reference.platform) tabs 0 (-1)
     = Throw TypeError.
Proof.
  intros bad tabs. split; [exact reference_parser|].
  assert (Hin : In bad tabs) by (right; now left).
  assert (Hext : startsWith (effectiveAddress bad) "chrome-extension://"
                 = true) by reflexivity.
  assert (Hnone : Reference.URL_parse (effectiveAddress bad) = None)
    by reflexivity.
  split; [exact Hin|]. split; [exact Hext|]. split; [exact Hnone|].
  destruct (proj1 (part000_throws_exactly (P := Reference.platform)
                     reference_parser tabs)
              (ex_intro _ bad (conj Hin (conj Hext Hnone)))) as [Hs Ht].
  split; [exact Hs|exact (Ht 0 (-1))].
Defined.

(** X7 on an address of a file server. *)
Lemma other_schemes_witness :
  let tab := Reference.tab 1 "ftp://www.files.example.org/pub/" in
  let u := URL.mk "ftp:" "www.files.example.org" "/pub/" "" "" in
  Reference.URL_parse (effectiveAddress tab) = Some u
  /\ internalPrefix (effectiveAddress tab) = false
  /\ Part000.decorateTab (P := Reference.platform) tab 0
     = Normal (Part000.mkDecorated 1 0 "internal" "internal/pub/")
  /\ Background.decorateTab (P := Reference.platform) tab 0
     = Normal (Background.mkDecorated 1 0 "files.example.org"
                 "files.example.org/pub/").
Proof.
  intros tab u.
  assert (Hu : Reference.URL_parse (effectiveAddress tab) = Some u)
    by reflexivity.
  assert (Hi : internalPrefix (effectiveAddress tab) = false) by reflexivity.
  split; [exact Hu|]. split; [exact Hi|].
  refine (other_schemes (P := Reference.platform) tab u 0 Hu Hi _ _ _);
    discriminate.
Defined.

(** X8 on three groups, two of them without a title to read. *)
Lemma groups_keep_order_witness :
  let groups := [TabGroup.mk 1 None; TabGroup.mk 2 (Some "Work");
                 TabGroup.mk 3 (Some "")] in
  Consistent Reference.localeCompare
  /\ Array_sort (compareGroups (P := Reference.platform)) groups
     = [TabGroup.mk 2 (Some "Work"); TabGroup.mk 1 None;
        TabGroup.mk 3 (Some "")]
  /\ Array_sort (compareGroups (P := Reference.platform))
       (Array_sort (compareGroups (P := Reference.platform)) groups)
     = Array_sort (compareGroups (P := Reference.platform)) groups.
Proof.
  intros groups. split; [exact reference_collation|].
  split; [reflexivity|].
  exact (proj2 (groups_keep_order (P := Reference.platform)
                  reference_collation groups)).
Defined.

(** X9 against the small browser when it rejects the moves. *)
Lemma failure_is_rejection_witness :
  let sortAllTabs := Background.sortAllTabs (P := Reference.platform) in
  let h := Simulated.refusing Simulated.isMove in
  EitherVariant (P := Reference.platform) sortAllTabs
  /\ firstRejection (logOf h sortAllTabs Simulated.window) = Some HostError
  /\ outcomeOf h sortAllTabs Simulated.window = Throws HostError.
Proof.
  intros sortAllTabs h.
  assert (Hv : EitherVariant (P := Reference.platform) sortAllTabs) by now left.
  assert (Hr : firstRejection (logOf h sortAllTabs Simulated.window)
               = Some HostError) by reflexivity.
  split; [exact Hv|]. split; [exact Hr|].
  exact (proj1 (failure_is_rejection (P := Reference.platform) sortAllTabs
                  _ h Simulated.window Hv) HostError Hr).
Defined.

(** X10 against the small browser when it rejects the pin requests: the
    first of them is rejected, and the second one follows. *)
Lemma nothing_after_rejection_witness :
  let sortAllTabs := Background.sortAllTabs (P := Reference.platform) in
  let h := Simulated.refusing Simulated.isPin in
  let log := logOf h sortAllTabs Simulated.window in
  let x := x_update 1 true (Throws HostError) in
  let l2 := [x_update 2 true (Throws HostError)] in
  EitherVariant (P := Reference.platform) sortAllTabs
  /\ log = (firstn 3 log ++ x :: l2)%list
  /\ rejectionOf x <> None
  /\ Forall (fun y => isUpdate y = true) l2
  /\ (l2 <> [] -> isUpdate x = true).
Proof.
  intros sortAllTabs h log x l2.
  assert (Hv : EitherVariant (P := Reference.platform) sortAllTabs) by now left.
  assert (Hl : log = (firstn 3 log ++ x :: l2)%list) by reflexivity.
  assert (Hx : rejectionOf x <> None) by discriminate.
  split; [exact Hv|]. split; [exact Hl|]. split; [exact Hx|].
  exact (nothing_after_rejection (P := Reference.platform) sortAllTabs _ h
           Simulated.window Hv (firstn 3 log) x l2 Hl Hx).
Defined.

(** X11 against the small browser: the move of the pinned tabs. *)
Lemma moves_follow_queries_witness :
  let sortAllTabs := Background.sortAllTabs (P := Reference.platform) in
  let log := logOf Simulated.browser sortAllTabs Simulated.window in
  EitherVariant (P := Reference.platform) sortAllTabs
  /\ log = (firstn 2 log ++ x_move [2; 1] 0 (Normal tt) :: skipn 3 log)%list
  /\ exists l0 w p q tabs,
       firstn 2 log = (l0 ++ [x_query w p q (Normal tabs)])%list
       /\ tabs <> []
       /\ Permutation [2; 1] (map Tab.id tabs)
       /\ match p with
          | Some true => 0 = 0
          | _ => minIndex tabs = Normal 0
          end.
Proof.
  intros sortAllTabs log.
  assert (Hv : EitherVariant (P := Reference.platform) sortAllTabs) by now left.
  assert (Hl : log = (firstn 2 log ++ x_move [2; 1] 0 (Normal tt)
                        :: skipn 3 log)%list) by reflexivity.
  split; [exact Hv|]. split; [exact Hl|].
  exact (moves_follow_queries (P := Reference.platform) sortAllTabs _
           Simulated.browser Simulated.window Hv _ _ _ _ _ Hl).
Defined.

(** X12 against the small browser: the grouping of the tabs of [Work]. *)
Lemma groupings_follow_moves_witness :
  let sortAllTabs := Background.sortAllTabs (P := Reference.platform) in
  let log := logOf Simulated.browser sortAllTabs Simulated.window in
  EitherVariant (P := Reference.platform) sortAllTabs
  /\ log = (firstn 9 log ++ x_group 8 [5; 4] (Normal tt)
              :: skipn 10 log)%list
  /\ -1 < 8
  /\ exists l0 w p q tabs i,
       firstn 9 log = (l0 ++ [x_query w p q (Normal tabs);
                              x_move [5; 4] i (Normal tt)])%list
       /\ match p with
          | Some true =>
              exists first, hd_error tabs = Some first
                            /\ 8 = Tab.groupId first
          | Some false => False
          | None => q = Some 8
          end.
Proof.
  intros sortAllTabs log.
  assert (Hv : EitherVariant (P := Reference.platform) sortAllTabs) by now left.
  assert (Hl : log = (firstn 9 log ++ x_group 8 [5; 4] (Normal tt)
                        :: skipn 10 log)%list) by reflexivity.
  split; [exact Hv|]. split; [exact Hl|].
  exact (groupings_follow_moves (P := Reference.platform) sortAllTabs _
           Simulated.browser Simulated.window Hv _ _ _ _ _ Hl).
Defined.

(** X13 against the small browser: the group [Shopping] goes to position
    4, after the two pinned tabs and the two tabs of [Work]. *)
Lemma group_cursor_witness :
  let sortAllTabs := Background.sortAllTabs (P := Reference.platform) in
  let log := logOf Simulated.browser sortAllTabs Simulated.window in
  EitherVariant (P := Reference.platform) sortAllTabs
  /\ log = (firstn 10 log ++ x_groups_move 7 4 (Normal tt)
              :: skipn 11 log)%list
  /\ 4 = tabsAnswered (firstn 10 log).
Proof.
  intros sortAllTabs log.
  assert (Hv : EitherVariant (P := Reference.platform) sortAllTabs) by now left.
  assert (Hl : log = (firstn 10 log ++ x_groups_move 7 4 (Normal tt)
                        :: skipn 11 log)%list) by reflexivity.
  split; [exact Hv|]. split; [exact Hl|].
  exact (group_cursor (P := Reference.platform) sortAllTabs _
           Simulated.browser Simulated.window Hv _ _ _ _ _ Hl).
Defined.

(** X14 against the small browser when it rejects the pin requests. *)
Lemma pins_all_or_none_witness :
  let sortAllTabs := Background.sortAllTabs (P := Reference.platform) in
  let log := logOf (Simulated.refusing Simulated.isPin) sortAllTabs
               Simulated.window in
  EitherVariant (P := Reference.platform) sortAllTabs
  /\ updatesOf log = [(1, true); (2, true)]
  /\ (updatesOf log = []
      \/ exists w tabs,
           In (x_query w (Some true) None (Normal tabs)) log
           /\ updatesOf log = map (fun t => (Tab.id t, true)) tabs).
Proof.
  intros sortAllTabs log.
  assert (Hv : EitherVariant (P := Reference.platform) sortAllTabs) by now left.
  split; [exact Hv|]. split; [reflexivity|].
  exact (pins_all_or_none (P := Reference.platform) sortAllTabs _
           (Simulated.refusing Simulated.isPin) Simulated.window Hv).
Defined.

(** X15 against the small browser. *)
Lemma focused_window_only_witness :
  let sortAllTabs := Part000.sortAllTabs (P := Reference.platform) in
  let log := logOf Simulated.browser sortAllTabs Simulated.window in
  EitherVariant (P := Reference.platform) sortAllTabs
  /\ hd_error log = Some (x_getLastFocused (Normal 1))
  /\ exists r rest,
       log = x_getLastFocused r :: rest
       /\ match r with
          | Normal w => Forall (InWindow w) rest
          | Throws _ => rest = []
          end.
Proof.
  intros sortAllTabs log.
  assert (Hv : EitherVariant (P := Reference.platform) sortAllTabs)
    by now right.
  split; [exact Hv|]. split; [reflexivity|].
  exact (focused_window_only (P := Reference.platform) sortAllTabs _
           Simulated.browser Simulated.window Hv).
Defined.

(** X16 against the small browser when it rejects the pin requests. *)
Lemma listener_reports_witness :
  let h := Simulated.refusing Simulated.isPin in
  URLParser Reference.URL_parse
  /\ firstRejection
       (logOf h (Background.onClicked (P := Reference.platform))
          Simulated.window) = Some HostError
  /\ outcomeOf h (Background.onClicked (P := Reference.platform))
       Simulated.window
     = Normal match firstRejection
                      (logOf h (Background.onClicked (P := Reference.platform))
                         Simulated.window) with
              | None => []
              | Some e => [console_error "Sort failed:" e]
              end.
Proof.
  intros h. split; [exact reference_parser|]. split; [reflexivity|].
  exact (proj2 (proj1 (listener_reports (P := Reference.platform)
                         reference_parser _ h Simulated.window))).
Defined.

(** X17 against the small browser. *)
Lemma groups_preserved_witness :
  let sortAllTabs := Background.sortAllTabs (P := Reference.platform) in
  EitherVariant (P := Reference.platform) sortAllTabs
  /\ GroupContract Simulated.State Simulated.browser Simulated.wellGrouped
       Simulated.groupOf
  /\ Simulated.wellGrouped Simulated.window
  /\ outcomeOf Simulated.browser sortAllTabs Simulated.window = Normal tt
  /\ forall t,
       Simulated.groupOf
         (finalState Simulated.browser sortAllTabs Simulated.window) t
       = Simulated.groupOf Simulated.window t.
Proof.
  intros sortAllTabs.
  assert (Hv : EitherVariant (P := Reference.platform) sortAllTabs) by now left.
  assert (Ho : outcomeOf Simulated.browser sortAllTabs Simulated.window
               = Normal tt) by reflexivity.
  split; [exact Hv|]. split; [exact simulated_group_contract|].
  split; [exact simulated_window_wellGrouped|]. split; [exact Ho|].
  exact (groups_preserved (P := Reference.platform) sortAllTabs _
           Simulated.browser Simulated.wellGrouped Simulated.groupOf
           Simulated.window Hv simulated_group_contract
           simulated_window_wellGrouped Ho).
Defined.

(** X18 against the small browser when it rejects the pin requests: the
    run fails after the move of the pinned tabs and leaves them unpinned. *)
Lemma no_tab_gets_pinned_witness :
  let sortAllTabs := Background.sortAllTabs (P := Reference.platform) in
  let h := Simulated.refusing Simulated.isPin in
  EitherVariant (P := Reference.platform) sortAllTabs
  /\ PinContract h Simulated.valid Simulated.isPinned
  /\ Simulated.valid Simulated.window
  /\ outcomeOf h sortAllTabs Simulated.window = Throws HostError
  /\ Simulated.isPinned Simulated.window 1 = true
  /\ Simulated.isPinned (finalState h sortAllTabs Simulated.window) 1 = false
  /\ forall t,
       Simulated.isPinned (finalState h sortAllTabs Simulated.window) t = true
       -> Simulated.isPinned Simulated.window t = true.
Proof.
  intros sortAllTabs h.
  assert (Hv : EitherVariant (P := Reference.platform) sortAllTabs) by now left.
  split; [exact Hv|]. split; [exact (refusing_contract Simulated.isPin)|].
  split; [exact simulated_window_valid|]. split; [reflexivity|].
  split; [reflexivity|]. split; [reflexivity|].
  exact (no_tab_gets_pinned (P := Reference.platform) sortAllTabs _ h
           Simulated.valid Simulated.isPinned Simulated.window Hv
           (refusing_contract Simulated.isPin) simulated_window_valid).
Defined.

(** X19 against the small browser: the query for the tabs of [Work]. *)
Lemma group_queries_follow_group_moves_witness :
  let sortAllTabs := Background.sortAllTabs (P := Reference.platform) in
  let log := logOf Simulated.browser sortAllTabs Simulated.window in
  EitherVariant (P := Reference.platform) sortAllTabs
  /\ (exists r, log = (firstn 7 log ++ x_query 1 None (Some 8) r
                         :: skipn 8 log)%list)
  /\ exists l0 g i,
       Some 8 = Some g
       /\ firstn 7 log = (l0 ++ [x_groups_move g i (Normal tt)])%list.
Proof.
  intros sortAllTabs log.
  assert (Hv : EitherVariant (P := Reference.platform) sortAllTabs) by now left.
  assert (Hl : exists r, log = (firstn 7 log ++ x_query 1 None (Some 8) r
                                  :: skipn 8 log)%list)
    by (eexists; reflexivity).
  split; [exact Hv|]. split; [exact Hl|]. destruct Hl as [r Hl].
  exact (group_queries_follow_group_moves (P := Reference.platform)
           sortAllTabs _ Simulated.browser Simulated.window Hv _ _ _ _ _ Hl).
Defined.

(** X20 against the small browser on a window of web pages. *)
Lemma variants_run_alike_witness :
  let Inv := fun st : Simulated.State =>
               forall tab, In tab (Simulated.tabs st) ->
                 CommonAddress (P := Reference.platform)
                   (effectiveAddress tab) in
  let window :=
    Simulated.mkState
      [Tab.mk 1 "https://b.example/inbox" None 0 true (-1);
       Tab.mk 2 "https://www.example.com/b" None 1 false 8;
       Tab.mk 3 "https://example.com/a" None 2 false 8;
       Tab.mk 4 "https://other.com/x" None 3 false (-1);
       Tab.mk 5 "not a url" None 4 false (-1)]
      [TabGroup.mk 8 (Some "Work")] in
  URLParser Reference.URL_parse
  /\ Inv window
  /\ map Tab.id
       (Simulated.tabs
          (finalState Simulated.browser
             (Background.sortAllTabs (P := Reference.platform)) window))
     = [1; 3; 2; 5; 4]
  /\ run Simulated.browser (Background.sortAllTabs (P := Reference.platform))
       window
     = run Simulated.browser (Part000.sortAllTabs (P := Reference.platform))
         window.
Proof.
  intros Inv window. split; [exact reference_parser|].
  assert (Hw : Inv window).
  { intros tab Hin. simpl in Hin.
    destruct Hin as [<-|[<-|[<-|[<-|[<-|[]]]]]]; (split; [reflexivity|]);
      try (left; eexists; split; [reflexivity|now right]).
    right. split; reflexivity. }
  split; [exact Hw|]. split; [reflexivity|].
  destruct (simulated_addresses
              (CommonAddress (P := Reference.platform))) as [Hk Hg].
  exact (variants_run_alike (P := Reference.platform) reference_parser _
           Simulated.browser Inv window Hk Hg Hw).
Defined.

(** C5 against the small browser, on the window where [Shopping] stands
    left of [Work]: after the run of [src/background.js] the two tabs of
    [Work] stand at the places 2 and 3 and the tab of [Shopping] at 4. *)
Lemma group_order_witness :
  let work := TabGroup.mk 8 (Some "Work") in
  let shopping := TabGroup.mk 7 (Some "Shopping") in
  let sortAllTabs := Background.sortAllTabs (P := Reference.platform) in
  let row := Simulated.tabs
               (finalState Simulated.browser sortAllTabs Simulated.window) in
  Consistent Reference.localeCompare
  /\ EitherVariant (P := Reference.platform) sortAllTabs
  /\ Simulated.valid Simulated.window
  /\ NoDup (map TabGroup.id (Simulated.groups Simulated.window))
  /\ Simulated.groups Simulated.window = [shopping; work]
  /\ Reference.localeCompare "Shopping" "Work" < 0
  /\ outcomeOf Simulated.browser sortAllTabs Simulated.window = Normal tt
  /\ map fst (groupMovesOf
                (logOf Simulated.browser sortAllTabs Simulated.window))
     = [8; 7]
  /\ map Tab.groupId (Simulated.tabs Simulated.window)
     = [-1; -1; 7; 8; 8; -1; -1]
  /\ map Tab.groupId row = [-1; -1; 8; 8; 7; -1; -1]
  /\ forall i j a b,
       nth_error row i = Some a -> Tab.groupId a = 8 ->
       nth_error row j = Some b -> Tab.groupId b = 7 ->
       (i < j)%nat.
Proof.
  intros work shopping sortAllTabs row.
  assert (Hv : EitherVariant (P := Reference.platform) sortAllTabs)
    by now left.
  assert (Hnd : NoDup (map TabGroup.id (Simulated.groups Simulated.window))).
  { simpl. repeat constructor; simpl; intuition lia. }
  assert (Hlt : Reference.localeCompare "Shopping" "Work" < 0)
    by reflexivity.
  assert (Ho : outcomeOf Simulated.browser sortAllTabs Simulated.window
               = Normal tt) by reflexivity.
  split; [exact reference_collation|]. split; [exact Hv|].
  split; [exact simulated_window_valid|]. split; [exact Hnd|].
  split; [reflexivity|]. split; [exact Hlt|]. split; [exact Ho|].
  split; [reflexivity|]. split; [reflexivity|]. split; [reflexivity|].
  destruct (group_order (P := Reference.platform) reference_collation
              sortAllTabs Hv) as (_ & _ & _ & _ & _ & Hrow).
  exact (Hrow Simulated.window work shopping simulated_window_valid Hnd
           (or_intror (or_introl eq_refl)) (or_introl eq_refl) eq_refl
           eq_refl Hlt Ho).
Defined.

(** C8 against the small browser, whose moves unpin: the run of
    [src/background.js] on the window is fulfilled, moves the two pinned
    tabs, pins both again, and leaves every flag as it was. *)
Lemma pinned_preserved_witness :
  let sortAllTabs := Background.sortAllTabs (P := Reference.platform) in
  let h := Simulated.browser in
  EitherVariant (P := Reference.platform) sortAllTabs
  /\ PinContract h Simulated.valid Simulated.isPinned
  /\ Simulated.valid Simulated.window
  /\ outcomeOf h sortAllTabs Simulated.window = Normal tt
  /\ firstn 5 (logOf h sortAllTabs Simulated.window)
     = [x_getLastFocused (Normal 1);
        x_query 1 (Some true) None
          (Normal [Tab.mk 1 "https://b.example/inbox" None 0 true (-1);
                   Tab.mk 2 "https://a.example/feed" None 1 true (-1)]);
        x_move [2; 1] 0 (Normal tt);
        x_update 1 true (Normal tt);
        x_update 2 true (Normal tt)]
  /\ (exists w tabs rest,
        logOf h sortAllTabs Simulated.window
        = x_getLastFocused (Normal w)
          :: x_query w (Some true) None (Normal tabs) :: rest
        /\ (tabs <> [] ->
            exists ids grouping tail,
              rest = (x_move ids 0 (Normal tt)
                      :: grouping
                      ++ map (fun t => x_update (Tab.id t) true (Normal tt))
                           tabs
                      ++ tail)%list
              /\ Permutation ids (map Tab.id tabs)
              /\ updatesOf grouping = [] /\ movesOf grouping = []
              /\ updatesOf tail = []))
  /\ forall t,
       Simulated.isPinned (finalState h sortAllTabs Simulated.window) t
       = Simulated.isPinned Simulated.window t.
Proof.
  intros sortAllTabs h.
  assert (Hv : EitherVariant (P := Reference.platform) sortAllTabs)
    by now left.
  assert (Ho : outcomeOf h sortAllTabs Simulated.window = Normal tt)
    by reflexivity.
  split; [exact Hv|]. split; [exact simulated_contract|].
  split; [exact simulated_window_valid|]. split; [exact Ho|].
  split; [reflexivity|].
  destruct (pinned_preserved (P := Reference.platform) sortAllTabs Hv)
    as (Hlog & _ & Hpins).
  split.
  - destruct (Hlog _ h Simulated.window Ho)
      as (w & tabs & rest & Hl & _ & Hr).
    exists w, tabs, rest. split; [exact Hl|exact Hr].
  - exact (proj1 (Hpins _ h Simulated.valid Simulated.isPinned
                    simulated_contract Simulated.window
                    simulated_window_valid) Ho).
Defined.

(** The claim C8 as the specification words it, for every run, fails on a
    run that fails: against the small browser, whose moves unpin, when it
    rejects the pin requests, the run of either variant moves the pinned
    tabs, fails at the first pin request, and leaves tab 1, pinned before,
    unpinned.  The browser keeps [PinContract]. *)
Lemma pinned_preserved_counterexample :
  let h := Simulated.refusing Simulated.isPin in
  let background := Background.sortAllTabs (P := Reference.platform) in
  let part000 := Part000.sortAllTabs (P := Reference.platform) in
  PinContract h Simulated.valid Simulated.isPinned
  /\ Simulated.valid Simulated.window
  /\ Simulated.isPinned Simulated.window 1 = true
  /\ outcomeOf h background Simulated.window = Throws HostError
  /\ Simulated.isPinned (finalState h background Simulated.window) 1 = false
  /\ outcomeOf h part000 Simulated.window = Throws HostError
  /\ Simulated.isPinned (finalState h part000 Simulated.window) 1 = false
  /\ ~ (forall sortAllTabs : Prog unit,
          EitherVariant (P := Reference.platform) sortAllTabs ->
          forall t,
            Simulated.isPinned Simulated.window t = true ->
            Simulated.isPinned (finalState h sortAllTabs Simulated.window) t
            = true).
Proof.
  intros h background part000.
  split; [exact (refusing_contract Simulated.isPin)|].
  split; [exact simulated_window_valid|].
  split; [reflexivity|]. split; [reflexivity|]. split; [reflexivity|].
  split; [reflexivity|]. split; [reflexivity|].
  intros H. specialize (H background (or_introl eq_refl) 1 eq_refl).
  discriminate H.
Qed.
